(** * debugedit: a shallow embedding of the DWARF path rewriter

    The definitions below follow [tools/debugedit.c].  Section payloads are
    byte buffers ([list Z], one [unsigned char] per element); C integers are
    [Z] with their wrap-around written out; pointers into a buffer are
    either the remaining bytes (read-only cursors) or an offset into the
    buffer (cursors that write in place). *)

From Stdlib Require Import ZArith List Lia Bool String Ascii.
From stdpp Require Import base option list sorting gmap.
From Equations Require Import Equations.

Local Open Scope Z_scope.

(* ===================================================================== *)
(** * Part I: the program                                                 *)
(* ===================================================================== *)

(** ** Machine integers *)

Definition UINT_MAX : Z := 4294967295.

(** Conversion to [uint32_t] / [unsigned int]. *)
Definition u32 (x : Z) : Z := x mod 4294967296.

(** Conversion to [uint16_t]. *)
Definition u16 (x : Z) : Z := x mod 65536.

(** Conversion to [unsigned char]. *)
Definition u8 (x : Z) : Z := x mod 256.

Definition inspect {A} (a : A) : {b : A | a = b} := exist _ a eq_refl.

(** ** 4.A Byte codec *)

Module Codec.

(** The [do ... while (c & 0x80)] loop of [read_uleb128].  [ptr] is the
    cursor: the bytes from the current position to the end of the
    buffer; past the end a cursor reads 0.  [ret] is an [unsigned int],
    so the shifted group is truncated to 32 bits. *)
Fixpoint read_uleb128_loop (ptr : list Z) (ret : Z) (shift : Z)
  : Z * Z * list Z :=
  match ptr with
  | [] => (ret, shift + 7, [])
  | c :: ptr =>
      let ret := Z.lor ret (u32 (Z.shiftl (Z.land c 0x7f) shift)) in
      let shift := shift + 7 in
      if negb (Z.land c 0x80 =? 0)
      then read_uleb128_loop ptr ret shift
      else (ret, shift, ptr)
  end.

(** [read_uleb128 (ptr)]: the decoded value and the advanced cursor. *)
Definition read_uleb128 (ptr : list Z) : Z * list Z :=
  let '(ret, shift, ptr) := read_uleb128_loop ptr 0 0 in
  (if 35 <=? shift then UINT_MAX else ret, ptr).

(** The [do ... while (valv)] loop of [write_uleb128]; the result is the
    bytes stored through [*(ptr)++].  [valv] is a [uint32_t], so
    [if (valv)] is the test [0 < valv]. *)
Equations? write_uleb128_loop (valv : Z) : list Z by wf (Z.to_nat valv) lt :=
  write_uleb128_loop valv with inspect (0 <? Z.shiftr valv 7) := {
    | exist _ true _ =>
        Z.lor (Z.land valv 0x7f) 0x80 :: write_uleb128_loop (Z.shiftr valv 7)
    | exist _ false _ => [Z.land valv 0x7f] }.
Proof.
  apply Z.ltb_lt in e.
  assert (0 < valv).
  { destruct (Z.le_gt_cases valv 0) as [Hle|]; [|lia].
    exfalso. rewrite Z.shiftr_div_pow2 in e by lia.
    assert (valv / 2 ^ 7 <= 0) by (apply Z.div_le_upper_bound; lia). lia. }
  rewrite Z.shiftr_div_pow2 in * by lia.
  assert (valv / 2 ^ 7 < valv) by (apply Z.div_lt; lia). lia.
Qed.

Definition write_uleb128 (val : Z) : list Z := write_uleb128_loop (u32 val).

(** Little- and big-endian readers; [data] is the cursor. *)
Definition byte_at (data : list Z) (i : nat) : Z := default 0 (data !! i).

Definition buf_read_ule16 (data : list Z) : Z :=
  u16 (Z.lor (byte_at data 0) (Z.shiftl (byte_at data 1) 8)).

Definition buf_read_ube16 (data : list Z) : Z :=
  u16 (Z.lor (byte_at data 1) (Z.shiftl (byte_at data 0) 8)).

Definition buf_read_ule32 (data : list Z) : Z :=
  u32 (Z.lor (Z.lor (Z.lor (byte_at data 0) (Z.shiftl (byte_at data 1) 8))
                    (Z.shiftl (byte_at data 2) 16))
             (Z.shiftl (byte_at data 3) 24)).

Definition buf_read_ube32 (data : list Z) : Z :=
  u32 (Z.lor (Z.lor (Z.lor (byte_at data 3) (Z.shiftl (byte_at data 2) 8))
                    (Z.shiftl (byte_at data 1) 16))
             (Z.shiftl (byte_at data 0) 24)).

Definition buf_read_ule24 (data : list Z) : Z :=
  u32 (Z.lor (Z.lor (byte_at data 0) (Z.shiftl (byte_at data 1) 8))
             (Z.shiftl (byte_at data 2) 16)).

Definition buf_read_ube24 (data : list Z) : Z :=
  u32 (Z.lor (Z.lor (byte_at data 2) (Z.shiftl (byte_at data 1) 8))
             (Z.shiftl (byte_at data 0) 16)).

(** The four bytes stored by [dwarf2_write_le32] / [dwarf2_write_be32]. *)
Definition dwarf2_write_le32 (v : Z) : list Z :=
  [u8 v; u8 (Z.shiftr v 8); u8 (Z.shiftr v 16); u8 (Z.shiftr v 24)].

Definition dwarf2_write_be32 (v : Z) : list Z :=
  [u8 (Z.shiftr v 24); u8 (Z.shiftr v 16); u8 (Z.shiftr v 8); u8 v].

Definition dwarf2_write_le16 (v : Z) : list Z := [u8 v; u8 (Z.shiftr v 8)].

Definition dwarf2_write_be16 (v : Z) : list Z := [u8 (Z.shiftr v 8); u8 v].

End Codec.

(** ** 4.B Path utilities *)

Module Path.

(** [IS_DIR_SEPARATOR(c)] is [(c)=='/']. *)
Definition IS_DIR_SEPARATOR (c : Z) : bool := c =? 47.

Definition DOT : Z := 46.
Definition SLASH : Z := 47.

(** [s[i]] for a read cursor [s]; the terminating NUL is the end of the
    list (or an explicit 0 byte). *)
Definition peek (s : list Z) (i : nat) : Z := default 0 (s !! i).

(** [d[i]] for the destination buffer, [i] an offset from [rv]. *)
Definition at_ (d : list Z) (i : Z) : Z :=
  if i <? 0 then 0 else default 0 (d !! Z.to_nat i).

(** [strlen (s)]. *)
Fixpoint strlen (s : list Z) : nat :=
  match s with
  | [] => O
  | c :: s' => if c =? 0 then O else S (strlen s')
  end.

(** [while (IS_DIR_SEPARATOR ( *s)) s++;] *)
Fixpoint skip_separators (s : list Z) : list Z :=
  match s with
  | [] => []
  | c :: s' => if IS_DIR_SEPARATOR c then skip_separators s' else s
  end.

(** [while ( *s && ! IS_DIR_SEPARATOR ( *s)) *d++ = *s++;] *)
Fixpoint copy_segment (s d : list Z) : list Z * list Z :=
  match s with
  | [] => (s, d)
  | c :: s' =>
      if negb (c =? 0) && negb (IS_DIR_SEPARATOR c)
      then copy_segment s' (d ++ [c])
      else (s, d)
  end.

(** [while (droot < pre && IS_DIR_SEPARATOR ( *pre)) pre--;] *)
Equations? back_over_separators (d : list Z) (droot pre : Z) : Z
  by wf (Z.to_nat (pre - droot)) lt :=
  back_over_separators d droot pre
    with inspect ((droot <? pre) && IS_DIR_SEPARATOR (at_ d pre)) := {
    | exist _ true _ => back_over_separators d droot (pre - 1)
    | exist _ false _ => pre }.
Proof. apply andb_prop in e as [e _]. apply Z.ltb_lt in e. lia. Qed.

(** [while (droot < pre && ! IS_DIR_SEPARATOR ( *pre)) pre--;] *)
Equations? back_over_segment (d : list Z) (droot pre : Z) : Z
  by wf (Z.to_nat (pre - droot)) lt :=
  back_over_segment d droot pre
    with inspect ((droot <? pre) && negb (IS_DIR_SEPARATOR (at_ d pre))) := {
    | exist _ true _ => back_over_segment d droot (pre - 1)
    | exist _ false _ => pre }.
Proof. apply andb_prop in e as [e _]. apply Z.ltb_lt in e. lia. Qed.

(** [*d++ = *s++;] *)
Definition copy_char (s d : list Z) : list Z * list Z :=
  (drop 1 s, d ++ [peek s 0]).

(** The head of the body of the [while ( *s )] loop of
    [canonicalize_path], entered with [*s != 0]: a "." segment, a ".."
    segment, or any other.  The destination is kept as the bytes in
    [rv .. d): [d] is its length, and [d = pre] cuts it back. *)
Definition canonicalize_step (droot : Z) (s d : list Z) : list Z * list Z :=
  if (peek s 0 =? DOT) && ((peek s 1 =? 0) || IS_DIR_SEPARATOR (peek s 1))
  then
    let s := drop 1 s in
    ((if negb (peek s 0 =? 0) then skip_separators s else s), d)
  else if (peek s 0 =? DOT) && (peek s 1 =? DOT)
          && ((peek s 2 =? 0) || IS_DIR_SEPARATOR (peek s 2))
  then
    let pre := Z.of_nat (length d) - 1 in
    let pre := back_over_separators d droot pre in
    if (droot <=? pre) && negb (IS_DIR_SEPARATOR (at_ d pre))
    then
      let pre := back_over_segment d droot pre in
      let pre := if droot <? pre then pre + 1 else pre in
      if (pre + 3 =? Z.of_nat (length d))
         && (at_ d pre =? DOT) && (at_ d (pre + 1) =? DOT)
      then
        let '(s, d) := copy_char s d in
        copy_char s d
      else
        let d := take (Z.to_nat pre) d in
        let s := drop 2 s in
        ((if negb (peek s 0 =? 0) then skip_separators s else s), d)
    else
      let '(s, d) := copy_char s d in
      copy_char s d
  else copy_segment s d.

(** The tail of the loop body:
    [if (IS_DIR_SEPARATOR ( *s)) { *d++ = *s++; while (IS_DIR_SEPARATOR ( *s)) s++; }] *)
Definition copy_separator (s d : list Z) : list Z * list Z :=
  if IS_DIR_SEPARATOR (peek s 0)
  then
    let '(s, d) := copy_char s d in
    (skip_separators s, d)
  else (s, d).

(** One round of the loop. *)
Definition canonicalize_segment (droot : Z) (s d : list Z)
  : list Z * list Z :=
  let '(s, d) := canonicalize_step droot s d in
  copy_separator s d.

(** The [while ( *s )] loop.  Every round consumes at least one byte of
    [s], so [length s] rounds are enough; [fuel] counts them. *)
Fixpoint canonicalize_loop (fuel : nat) (droot : Z) (s d : list Z)
  : option (list Z) :=
  if peek s 0 =? 0 then Some d
  else match fuel with
       | O => None
       | S fuel =>
           let '(s, d) := canonicalize_segment droot s d in
           canonicalize_loop fuel droot s d
       end.

(** [while (droot < d && IS_DIR_SEPARATOR (d[-1])) --d;] *)
Equations? strip_trailing (d : list Z) (droot dlen : Z) : Z
  by wf (Z.to_nat (dlen - droot)) lt :=
  strip_trailing d droot dlen
    with inspect ((droot <? dlen) && IS_DIR_SEPARATOR (at_ d (dlen - 1))) := {
    | exist _ true _ => strip_trailing d droot (dlen - 1)
    | exist _ false _ => dlen }.
Proof. apply andb_prop in e as [e _]. apply Z.ltb_lt in e. lia. Qed.

(** The statements in front of [droot = d]: the leading separator, or
    the two of a "//foo" name. *)
Definition canonicalize_root (s d : list Z) : list Z * list Z :=
  if IS_DIR_SEPARATOR (peek s 0)
  then
    let '(s, d) := copy_char s d in
    let '(s, d) :=
      if IS_DIR_SEPARATOR (peek s 0) && negb (IS_DIR_SEPARATOR (peek s 1))
      then copy_char s d
      else (s, d) in
    (skip_separators s, d)
  else (s, d).

(** [canonicalize_path (s, d)] for a destination that does not overlap
    the source: the result is the string stored at [rv], without its
    terminating NUL.  [None] would be a loop that has not finished. *)
Definition canonicalize_path_opt (s : list Z) : option (list Z) :=
  let d : list Z := [] in
  let '(s, d) := canonicalize_root s d in
  let droot := Z.of_nat (length d) in
  match canonicalize_loop (length s) droot s d with
  | None => None
  | Some d =>
      let dlen := strip_trailing d droot (Z.of_nat (length d)) in
      let d := take (Z.to_nat dlen) d in
      let d := if Z.of_nat (length d) =? 0 then d ++ [DOT] else d in
      Some d
  end.

Definition canonicalize_path (s : list Z) : list Z :=
  default [] (canonicalize_path_opt s).

(** *** The same function on a shared buffer

    Every caller passes the same pointer twice
    ([canonicalize_path (s, s)]).  Here [m] is the memory that holds both
    strings, [s] and [d] are offsets into it, and a store outside [m] is
    an error ([None]). *)

Definition store (m : list Z) (p : Z) (c : Z) : option (list Z) :=
  if (0 <=? p) && (p <? Z.of_nat (length m))
  then Some (<[Z.to_nat p := c]> m)
  else None.

(** [while (IS_DIR_SEPARATOR ( *s)) s++;] *)
Equations? skip_separators_at (m : list Z) (s : Z) : Z
  by wf (Z.to_nat (Z.of_nat (length m) - s)) lt :=
  skip_separators_at m s with inspect (IS_DIR_SEPARATOR (at_ m s)) := {
    | exist _ true _ => skip_separators_at m (s + 1)
    | exist _ false _ => s }.
Proof.
  unfold IS_DIR_SEPARATOR, at_ in e.
  destruct (s <? 0) eqn:Hs; [discriminate|].
  apply Z.ltb_ge in Hs.
  destruct (m !! Z.to_nat s) eqn:Hl; [|discriminate].
  apply lookup_lt_Some in Hl. lia.
Qed.

(** [while ( *s && ! IS_DIR_SEPARATOR ( *s)) *d++ = *s++;] *)
Equations? copy_segment_at (m : list Z) (s d : Z) : option (list Z * Z * Z)
  by wf (Z.to_nat (Z.of_nat (length m) - s)) lt :=
  copy_segment_at m s d
    with inspect (negb (at_ m s =? 0) && negb (IS_DIR_SEPARATOR (at_ m s))) := {
    | exist _ true _ with inspect (store m d (at_ m s)) := {
        | exist _ (Some m') _ => copy_segment_at m' (s + 1) (d + 1)
        | exist _ None _ => None }
    | exist _ false _ => Some (m, s, d) }.
Proof.
  unfold store in e0.
  destruct ((0 <=? d) && (d <? Z.of_nat (length m))); [|discriminate].
  injection e0 as <-. rewrite length_insert.
  apply andb_prop in e as [e _]. unfold at_ in e.
  destruct (s <? 0) eqn:Hs; [discriminate|].
  apply Z.ltb_ge in Hs.
  destruct (m !! Z.to_nat s) eqn:Hl; [|discriminate].
  apply lookup_lt_Some in Hl. lia.
Qed.

(** [*d++ = *s++;] *)
Definition copy_char_at (m : list Z) (s d : Z) : option (list Z * Z * Z) :=
  m ← store m d (at_ m s);
  Some (m, s + 1, d + 1).

Definition canonicalize_step_at (droot : Z) (m : list Z) (s d : Z)
  : option (list Z * Z * Z) :=
  if (at_ m s =? DOT)
     && ((at_ m (s + 1) =? 0) || IS_DIR_SEPARATOR (at_ m (s + 1)))
  then
    let s := s + 1 in
    Some (m, (if negb (at_ m s =? 0) then skip_separators_at m s else s), d)
  else if (at_ m s =? DOT) && (at_ m (s + 1) =? DOT)
          && ((at_ m (s + 2) =? 0) || IS_DIR_SEPARATOR (at_ m (s + 2)))
  then
    let pre := d - 1 in
    let pre := back_over_separators m droot pre in
    if (droot <=? pre) && negb (IS_DIR_SEPARATOR (at_ m pre))
    then
      let pre := back_over_segment m droot pre in
      let pre := if droot <? pre then pre + 1 else pre in
      if (pre + 3 =? d) && (at_ m pre =? DOT) && (at_ m (pre + 1) =? DOT)
      then
        '(m, s, d) ← copy_char_at m s d;
        copy_char_at m s d
      else
        let d := pre in
        let s := s + 2 in
        Some (m, (if negb (at_ m s =? 0) then skip_separators_at m s else s), d)
    else
      '(m, s, d) ← copy_char_at m s d;
      copy_char_at m s d
  else copy_segment_at m s d.

Definition copy_separator_at (m : list Z) (s d : Z)
  : option (list Z * Z * Z) :=
  if IS_DIR_SEPARATOR (at_ m s)
  then
    '(m, s, d) ← copy_char_at m s d;
    Some (m, skip_separators_at m s, d)
  else Some (m, s, d).

Definition canonicalize_segment_at (droot : Z) (m : list Z) (s d : Z)
  : option (list Z * Z * Z) :=
  '(m, s, d) ← canonicalize_step_at droot m s d;
  copy_separator_at m s d.

Fixpoint canonicalize_loop_at (fuel : nat) (droot : Z) (m : list Z) (s d : Z)
  : option (list Z * Z) :=
  if at_ m s =? 0 then Some (m, d)
  else match fuel with
       | O => None
       | S fuel =>
           '(m, s, d) ← canonicalize_segment_at droot m s d;
           canonicalize_loop_at fuel droot m s d
       end.

Definition canonicalize_root_at (m : list Z) (s d : Z)
  : option (list Z * Z * Z) :=
  if IS_DIR_SEPARATOR (at_ m s)
  then
    '(m, s, d) ← copy_char_at m s d;
    '(m, s, d) ←
      (if IS_DIR_SEPARATOR (at_ m s)
          && negb (IS_DIR_SEPARATOR (at_ m (s + 1)))
       then copy_char_at m s d
       else Some (m, s, d));
    Some (m, skip_separators_at m s, d)
  else Some (m, s, d).

(** [canonicalize_path (s, d)] on memory [m]: the memory after the call
    (the function returns [rv = d]). *)
Definition canonicalize_path_at (m : list Z) (s d : Z) : option (list Z) :=
  let rv := d in
  '(m, s, d) ← canonicalize_root_at m s d;
  let droot := d in
  '(m, d) ← canonicalize_loop_at (length m) droot m s d;
  let d := strip_trailing m droot d in
  '(m, d) ← (if d =? rv
             then m ← store m d DOT; Some (m, d + 1)
             else Some (m, d));
  store m d 0.

(** The NUL-terminated string at offset [p] of [m]. *)
Definition string_at (m : list Z) (p : Z) : list Z :=
  let l := drop (Z.to_nat p) m in take (strlen l) l.


(** The string a [char *] points at, without its NUL. *)
Definition c_str (s : list Z) : list Z := take (strlen s) s.

(** [strncmp (a, b, n) == 0]. *)
Fixpoint strncmp_eq (a b : list Z) (n : nat) : bool :=
  match n with
  | O => true
  | S n =>
      if peek a 0 =? peek b 0
      then if peek a 0 =? 0 then true else strncmp_eq (drop 1 a) (drop 1 b) n
      else false
  end.

(** [skip_dir_prefix (path, dir_prefix)]: [None] is the NULL result,
    [Some p] the pointer into [path] that is returned. *)
Definition skip_dir_prefix (path dir_prefix : list Z) : option (list Z) :=
  let prefix_len := strlen dir_prefix in
  if strncmp_eq path dir_prefix prefix_len
  then
    let path := drop prefix_len path in
    if negb (peek path 0 =? 0) && negb (IS_DIR_SEPARATOR (peek path 0))
    then None
    else Some (skip_separators path)
  else None.

End Path.

(** C string literals as byte lists. *)
Definition bytes_of_string (s : string) : list Z :=
  map (fun c => Z.of_N (N_of_ascii c)) (list_ascii_of_string s).

(** ** Process exits and diagnostics *)

(** [error (1, ...)], [exit] and a failed [assert] end the process; a
    function that can reach one returns an [outcome]. *)
Inductive outcome (A : Type) : Type :=
| Done (a : A)
| Exit (msg : string).
Arguments Done {A} a.
Arguments Exit {A} msg.

#[global] Instance outcome_bind : MBind outcome :=
  fun A B (f : A -> outcome B) (x : outcome A) =>
    match x with
    | Done a => f a
    | Exit msg => Exit msg
    end.

#[global] Instance outcome_ret : MRet outcome := fun A (a : A) => Done a.

(** ** Configuration and the phase-zero bookkeeping *)

(** [base_dir], [dest_dir] (NULL is [None]) and whether a list file is
    open ([list_file_fd != -1]). *)
Record config := {
  base_dir : option (list Z);
  dest_dir : option (list Z);
  list_file : bool
}.

(** The four file-scope flags [need_string_replacement],
    [need_strp_update], [need_line_strp_update], [need_stmt_update]. *)
Record flags := {
  need_string_replacement : bool;
  need_strp_update : bool;
  need_line_strp_update : bool;
  need_stmt_update : bool
}.

Definition no_flags : flags :=
  {| need_string_replacement := false; need_strp_update := false;
     need_line_strp_update := false; need_stmt_update := false |}.

Definition set_need_string_replacement (fl : flags) : flags :=
  {| need_string_replacement := true;
     need_strp_update := need_strp_update fl;
     need_line_strp_update := need_line_strp_update fl;
     need_stmt_update := need_stmt_update fl |}.

Definition set_need_strp_update (fl : flags) : flags :=
  {| need_string_replacement := need_string_replacement fl;
     need_strp_update := true;
     need_line_strp_update := need_line_strp_update fl;
     need_stmt_update := need_stmt_update fl |}.

Definition set_need_line_strp_update (fl : flags) : flags :=
  {| need_string_replacement := need_string_replacement fl;
     need_strp_update := need_strp_update fl;
     need_line_strp_update := true;
     need_stmt_update := need_stmt_update fl |}.

Definition set_need_stmt_update (fl : flags) : flags :=
  {| need_string_replacement := need_string_replacement fl;
     need_strp_update := need_strp_update fl;
     need_line_strp_update := need_line_strp_update fl;
     need_stmt_update := true |}.

(** The guard at the top of the phase loop of [edit_dwarf2]:
    [if (phase == 1 && !need_strp_update && !need_line_strp_update
         && !need_string_replacement && !need_stmt_update) break;] *)
Definition skip_phase_one (fl : flags) : bool :=
  negb (need_strp_update fl) && negb (need_line_strp_update fl)
  && negb (need_string_replacement fl) && negb (need_stmt_update fl).

(** ** Endianness wiring

    [edit_dwarf2] points [do_read_16], [do_read_32], [do_write_16] and
    [do_write_32] at the little- or big-endian routines according to
    [e_ident[EI_DATA]]. *)

Inductive ei_data := ELFDATA2LSB | ELFDATA2MSB.

Definition do_read_16 (e : ei_data) (ptr : list Z) : Z :=
  match e with
  | ELFDATA2LSB => Codec.buf_read_ule16 ptr
  | ELFDATA2MSB => Codec.buf_read_ube16 ptr
  end.

Definition do_read_24 (e : ei_data) (ptr : list Z) : Z :=
  match e with
  | ELFDATA2LSB => Codec.buf_read_ule24 ptr
  | ELFDATA2MSB => Codec.buf_read_ube24 ptr
  end.

Definition do_read_32 (e : ei_data) (ptr : list Z) : Z :=
  match e with
  | ELFDATA2LSB => Codec.buf_read_ule32 ptr
  | ELFDATA2MSB => Codec.buf_read_ube32 ptr
  end.

(** The bytes [do_write_16 (ptr, val)] / [do_write_32 (ptr, val)] store at
    [ptr]; the argument is converted to the parameter type first. *)
Definition do_write_16 (e : ei_data) (val : Z) : list Z :=
  match e with
  | ELFDATA2LSB => Codec.dwarf2_write_le16 (u16 val)
  | ELFDATA2MSB => Codec.dwarf2_write_be16 (u16 val)
  end.

Definition do_write_32 (e : ei_data) (val : Z) : list Z :=
  match e with
  | ELFDATA2LSB => Codec.dwarf2_write_le32 (u32 val)
  | ELFDATA2MSB => Codec.dwarf2_write_be32 (u32 val)
  end.

(** ** 4.D Relocation index *)

Module Reloc.

Definition SHT_RELA : Z := 4.
Definition SHT_REL : Z := 9.

(** [REL]: [ptr] is kept as the offset of the relocated word in the
    section payload. *)
Record REL := {
  ptr : Z;
  addend : Z;
  ndx : nat
}.

(** The fields of [struct debug_section] the relocation code uses.
    [relbuf = None] is the NULL pointer; [relend] is the end of the
    list.  The index is built by [setup_relbuf] from the ELF relocation
    section through libelf; a section is taken here with its index
    built. *)
Record debug_section := {
  data : list Z;
  relbuf : option (list REL);
  reltype : Z;
  rel_updated : bool
}.

(** The loop of [find_rel_for_ptr].  The result is the index of the
    record that is returned; [relend] is the length of the array. *)
Equations? find_rel_loop (relptr : list REL) (xptr : Z) (l r : nat) : nat
  by wf (r - l)%nat lt :=
  find_rel_loop relptr xptr l r with inspect (l <? r)%nat := {
    | exist _ true _ =>
        let m := ((l + r) / 2)%nat in
        match relptr !! m with
        | Some rel =>
            if ptr rel <? xptr then find_rel_loop relptr xptr (m + 1)%nat r
            else if ptr rel >? xptr then find_rel_loop relptr xptr l m
            else m
        | None => length relptr
        end
    | exist _ false _ => length relptr }.
Proof.
  all: apply Nat.ltb_lt in e.
  all: assert (Hm : m = ((l + r) / 2)%nat) by reflexivity.
  all: pose proof (Nat.div_mod_eq (l + r) 2) as Hd.
  all: pose proof (Nat.mod_upper_bound (l + r) 2 ltac:(lia)) as Hu.
  all: rewrite <- Hm in Hd; clearbody m; lia.
Qed.

Definition find_rel_for_ptr (xptr : Z) (relptr : list REL) : nat :=
  find_rel_loop relptr xptr 0 (length relptr).

(** [last_relptr], [last_relend], [last_reltype]: what
    [do_read_32_relocated] leaves behind for the write that follows.
    [last_sec] is the section that was read. *)
Record last_rel := {
  last_relptr : option nat;
  last_relend : nat;
  last_reltype : Z
}.

(** [do_read_32_relocated (xptr, xsec)]: the value read and the
    registers it sets. *)
Definition do_read_32_relocated (e : ei_data) (xptr : Z) (xsec : debug_section)
  : Z * last_rel :=
  let dret := do_read_32 e (drop (Z.to_nat xptr) (data xsec)) in
  let reltype := reltype xsec in
  match relbuf xsec with
  | Some relptr =>
      let relend := length relptr in
      let i := find_rel_for_ptr xptr relptr in
      let dret :=
        match relptr !! i with
        | Some rel =>
            if (i <? relend)%nat && (ptr rel =? xptr)
            then if reltype =? SHT_REL
                 then u32 (dret + addend rel)
                 else addend rel
            else dret
        | None => dret
        end in
      (dret, {| last_relptr := Some i; last_relend := relend;
                last_reltype := reltype |})
  | None =>
      (dret, {| last_relptr := None; last_relend := 0%nat;
                last_reltype := reltype |})
  end.

(** [do_write_32 (ptr, val)] on the payload of a section, for a word
    that lies in the payload, [0 <= ptr] and [ptr + 4 <= length data];
    the statements about a store carry this as a hypothesis.  (Of a word
    that reaches behind the payload, only the bytes in the payload are
    kept here; the C code would store behind the buffer.) *)
Definition store_32 (e : ei_data) (ptr : Z) (val : Z) (sec : debug_section)
  : debug_section :=
  {| data := list_inserts (Z.to_nat ptr) (do_write_32 e val) (data sec);
     relbuf := relbuf sec;
     reltype := reltype sec;
     rel_updated := rel_updated sec |}.

(** [last_relptr->addend = val; last_sec->rel_updated = true;] *)
Definition store_addend (i : nat) (val : Z) (sec : debug_section)
  : debug_section :=
  {| data := data sec;
     relbuf :=
       (fun relptr =>
          alter (fun rel => {| ptr := ptr rel; addend := u32 val;
                               ndx := ndx rel |}) i relptr) <$> relbuf sec;
     reltype := reltype sec;
     rel_updated := true |}.

(** [do_write_32_relocated (ptr, val)].  It may only follow the
    [do_read_32_relocated] of the same word, so [last_sec] is the
    section [sec] that [ptr] points into. *)
Definition do_write_32_relocated (e : ei_data) (last : last_rel)
    (ptr_ : Z) (val : Z) (sec : debug_section) : debug_section :=
  match last_relptr last with
  | Some i =>
      match default [] (relbuf sec) !! i with
      | Some rel =>
          if (i <? last_relend last)%nat && (ptr rel =? ptr_)
          then if last_reltype last =? SHT_REL
               then store_32 e ptr_ (val - addend rel) sec
               else store_addend i val sec
          else store_32 e ptr_ val sec
      | None => store_32 e ptr_ val sec
      end
  | None => store_32 e ptr_ val sec
  end.

(** *** Flushing the addends *)

Record GElf_Rela := {
  r_offset : Z;
  r_info : Z;
  r_addend : Z
}.

Record GElf_Sym := {
  st_value : Z;
  st_shndx : Z
}.

(** The [Elf_Data] of a relocation section: its entries and the
    [ELF_F_DIRTY] flag. *)
Record rela_data := {
  entries : list GElf_Rela;
  dirty : bool
}.

Definition GELF_R_SYM (i : Z) : Z := Z.shiftr i 32.

(** Conversion to [Elf64_Sxword]. *)
Definition s64 (x : Z) : Z :=
  (x + 9223372036854775808) mod 18446744073709551616 - 9223372036854775808.

(** The [while (relptr < relend)] loop of [update_rela_data].
    [gelf_update_rela ndx rela] is whether libelf's
    [gelf_update_rela (data, ndx, &rela)] returns non-zero, that is,
    whether it takes the entry: it refuses one that does not fit the
    class of the file (for [ELFCLASS32], an addend outside the 32-bit
    signed range).  An entry that is taken is stored at [ndx]. *)
Fixpoint update_rela_loop (gelf_update_rela : nat -> GElf_Rela -> bool)
    (symdata : list GElf_Sym) (relptr : list REL)
    (data : list GElf_Rela) : outcome (list GElf_Rela) :=
  match relptr with
  | [] => Done data
  | rel :: relptr =>
      let ndx := ndx rel in
      match data !! ndx with
      | None => Exit "Couldn't get relocation"
      | Some rela =>
          match symdata !! Z.to_nat (GELF_R_SYM (r_info rela)) with
          | None => Exit "Couldn't get symbol"
          | Some sym =>
              let rela := {| r_offset := r_offset rela;
                             r_info := r_info rela;
                             r_addend := s64 (addend rel - st_value sym) |} in
              if negb (gelf_update_rela ndx rela)
              then Exit "Couldn't update relocations"
              else
                update_rela_loop gelf_update_rela symdata relptr
                  (<[ndx := rela]> data)
          end
      end
  end.

(** [update_rela_data (dso, sec)]; [data] is the relocation section
    [sec->relsec], [symdata] its symbol table, [gelf_update_rela] the
    answer of libelf to a store. *)
Definition update_rela_data (gelf_update_rela : nat -> GElf_Rela -> bool)
    (symdata : list GElf_Sym) (data : rela_data)
    (sec : debug_section) : outcome (rela_data * debug_section) :=
  if negb (rel_updated sec)
  then
    Done (data, {| Reloc.data := Reloc.data sec; relbuf := None;
                   reltype := reltype sec; rel_updated := rel_updated sec |})
  else
    entries ← update_rela_loop gelf_update_rela symdata
                (default [] (relbuf sec)) (entries data);
    Done ({| entries := entries; dirty := true |}, sec).

End Reloc.

(** ** 4.C String-pool manager *)

Module Strings.

(** An entry of the new string table ([Strent], owned by libdwelf) is
    represented by the string that was added for it; its offset in the
    finished table is what [strent_offset] returns after
    [strtab_finalize]. *)
Definition Strent : Type := list Z.

(** [struct strings]: the strings handed to [strtab_add_len], in order,
    and the [tsearch] tree from original index to entry. *)
Record strings := {
  str_tab : list Strent;
  strent_root : gmap Z Strent
}.

Definition setup_strings : strings :=
  {| str_tab := []; strent_root := ∅ |}.

(** [string_find_new_entry]: whether [old_idx] is new to the tree (a
    non-NULL result).  The entry is entered by [set_entry] once its
    string is known. *)
Definition string_find_new_entry (strs : strings) (old_idx : Z) : bool :=
  bool_decide (strent_root strs !! old_idx = None).

(** [strent = strtab_add_len (...); entry->entry = strent;] *)
Definition set_entry (strs : strings) (old_idx : Z) (strent : Strent)
  : strings :=
  {| str_tab := str_tab strs ++ [strent];
     strent_root := <[old_idx := strent]> (strent_root strs) |}.

(** The part of [DSO] and of [debug_sections] the string pool works on:
    the two pools and the payloads of [.debug_str] and
    [.debug_line_str]. *)
Record DSO := {
  debug_str : strings;
  debug_line_str : strings;
  debug_str_data : list Z;
  debug_line_str_data : list Z
}.

Definition pool (line_strp : bool) (dso : DSO) : strings :=
  if line_strp then debug_line_str dso else debug_str dso.

Definition pool_data (line_strp : bool) (dso : DSO) : list Z :=
  if line_strp then debug_line_str_data dso else debug_str_data dso.

Definition set_pool (line_strp : bool) (dso : DSO) (strs : strings) : DSO :=
  if line_strp
  then {| debug_str := debug_str dso; debug_line_str := strs;
          debug_str_data := debug_str_data dso;
          debug_line_str_data := debug_line_str_data dso |}
  else {| debug_str := strs; debug_line_str := debug_line_str dso;
          debug_str_data := debug_str_data dso;
          debug_line_str_data := debug_line_str_data dso |}.

(** The replacement path [dest_dir [+ "/" + file]]. *)
Definition new_name (dest_dir file : list Z) : list Z :=
  let dest_len := Path.strlen dest_dir in
  let file_len := Path.strlen file in
  take dest_len dest_dir
  ++ (if (0 <? file_len)%nat then Path.SLASH :: Path.c_str file else []).

(** [record_file_string_entry_idx (line_strp, dso, old_idx)], called
    with [dest_dir] (and so [base_dir]) set.  Allocation failures are
    not modelled. *)
Definition record_file_string_entry_idx (base_dir dest_dir : list Z)
    (line_strp : bool) (dso : DSO) (old_idx : Z) : outcome (bool * DSO) :=
  let strs := pool line_strp dso in
  if string_find_new_entry strs old_idx
  then
    let sec := pool_data line_strp dso in
    if Z.of_nat (length sec) <=? old_idx
    then Exit "Bad string pointer index"
    else
      let old_str := drop (Z.to_nat old_idx) sec in
      match Path.skip_dir_prefix old_str base_dir with
      | None =>
          let strent := Path.c_str old_str in
          Done (false, set_pool line_strp dso (set_entry strs old_idx strent))
      | Some file =>
          let strent := new_name dest_dir file in
          Done (true, set_pool line_strp dso (set_entry strs old_idx strent))
      end
  else Done (false, dso).

(** [record_existing_string_entry_idx (line_strp, dso, old_idx)]. *)
Definition record_existing_string_entry_idx (line_strp : bool) (dso : DSO)
    (old_idx : Z) : outcome DSO :=
  let strs := pool line_strp dso in
  if string_find_new_entry strs old_idx
  then
    let sec := pool_data line_strp dso in
    if Z.of_nat (length sec) <=? old_idx
    then Exit "Bad string pointer index"
    else
      let str := drop (Z.to_nat old_idx) sec in
      Done (set_pool line_strp dso (set_entry strs old_idx (Path.c_str str)))
  else Done dso.

(** [string_find_entry (strings, old_idx, accept_missing)].
    [debugedit_stridxentry] is the entry of the dummy string; the
    [assert] ends the process. *)
Definition string_find_entry (debugedit_stridxentry : Strent)
    (strs : strings) (old_idx : Z) (accept_missing : bool)
  : outcome (bool * Strent) :=
  match strent_root strs !! old_idx with
  | Some entry => Done (false, entry)
  | None =>
      if accept_missing
      then Done (true, debugedit_stridxentry)
      else Exit "Assertion `ret != NULL' failed"
  end.

End Strings.

(** ** 4.G DIE walker: the attributes that carry a directory *)

Module Info.

(** Constants of [<dwarf.h>]. *)
Definition DW_FORM_string : Z := 0x08.
Definition DW_FORM_strp : Z := 0x0e.
Definition DW_FORM_strx : Z := 0x1a.
Definition DW_FORM_line_strp : Z := 0x1f.
Definition DW_FORM_strx1 : Z := 0x25.
Definition DW_FORM_strx2 : Z := 0x26.
Definition DW_FORM_strx3 : Z := 0x27.
Definition DW_FORM_strx4 : Z := 0x28.

Record CU := {
  ptr_size : Z;
  cu_version : Z;
  str_offsets_base : Z;
  macros_offs : Z
}.

(** [do_read_uleb128 (ptr)]. *)
Definition do_read_uleb128 (ptr : list Z) : Z := fst (Codec.read_uleb128 ptr).

(** [do_read_str_form_relocated (dso, form, ptr, sec, cu)]; [ptr] is an
    offset into the payload of [sec], [str_offsets_sec] is
    [debug_sections[DEBUG_STR_OFFSETS]]. *)
Definition do_read_str_form_relocated (e : ei_data)
    (str_offsets_sec : Reloc.debug_section) (form : Z) (ptr : Z)
    (sec : Reloc.debug_section) (cu : CU) : outcome (Z * Reloc.last_rel) :=
  let at_ptr := drop (Z.to_nat ptr) (Reloc.data sec) in
  let via_str_offsets (idx : Z) :=
    let str_off_ptr := str_offsets_base cu + u32 (idx * 4) in
    Done (Reloc.do_read_32_relocated e str_off_ptr str_offsets_sec) in
  if (form =? DW_FORM_strp) || (form =? DW_FORM_line_strp)
  then Done (Reloc.do_read_32_relocated e ptr sec)
  else if form =? DW_FORM_strx1 then via_str_offsets (Codec.byte_at at_ptr 0)
  else if form =? DW_FORM_strx2 then via_str_offsets (do_read_16 e at_ptr)
  else if form =? DW_FORM_strx3 then via_str_offsets (do_read_24 e at_ptr)
  else if form =? DW_FORM_strx4 then via_str_offsets (do_read_32 e at_ptr)
  else if form =? DW_FORM_strx then via_str_offsets (do_read_uleb128 at_ptr)
  else Exit "Unhandled string form".

(** What [edit_attributes_str_comp_dir] reads and updates: the string
    pools, the flags, [*comp_dirp] and [*handled_strpp]. *)
Record walk := {
  dso : Strings.DSO;
  fl : flags;
  comp_dir : option (list Z);
  handled_strp : bool
}.

(** [edit_attributes_str_comp_dir (form, dso, ptrp, phase, comp_dirp,
    handled_strpp, debug_sec, cu)]. *)
Definition edit_attributes_str_comp_dir (cfg : config) (e : ei_data)
    (str_offsets_sec : Reloc.debug_section) (form : Z) (w : walk) (ptr : Z)
    (phase : Z) (debug_sec : Reloc.debug_section) (cu : CU) : outcome walk :=
  '(idx, _) ← do_read_str_form_relocated e str_offsets_sec form ptr debug_sec cu;
  let line_strp := form =? DW_FORM_line_strp in
  comp_dir ←
    (if phase =? 0
     then
       let sec := Strings.pool_data line_strp (dso w) in
       if Z.of_nat (length sec) <=? idx
       then Exit "Bad string pointer index for comp_dir"
       else Done (Some (Path.c_str (drop (Z.to_nat idx) sec)))
     else Done (comp_dir w));
  match dest_dir cfg, phase =? 0 with
  | Some dest, true =>
      '(replaced, dso) ←
        Strings.record_file_string_entry_idx (default [] (base_dir cfg)) dest
          line_strp (dso w) idx;
      let fl :=
        if (replaced : bool)
        then if line_strp
             then set_need_line_strp_update (fl w)
             else set_need_strp_update (fl w)
        else fl w in
      Done {| dso := dso; fl := fl; comp_dir := comp_dir; handled_strp := true |}
  | _, _ =>
      Done {| dso := dso w; fl := fl w; comp_dir := comp_dir;
              handled_strp := handled_strp w |}
  end.

(** The result of the [DW_FORM_string] case of [DW_AT_comp_dir] in
    [edit_attributes]: the payload of the section, the flags, the
    captured [comp_dir] and the lines written by [error (0, ...)]. *)
Record string_edit := {
  payload : list Z;
  flags_after : flags;
  comp_dir_after : list Z;
  warnings : list string
}.

(** [edit_attributes], the case [t->attr[i].attr == DW_AT_comp_dir] with
    [form == DW_FORM_string]; [ptr] is the offset of the attribute in
    the payload [data]. *)
Definition edit_attributes_comp_dir_string (cfg : config) (phase : Z)
    (data : list Z) (ptr : nat) (fl : flags) : string_edit :=
  let comp_dir := Path.c_str (drop ptr data) in
  let unchanged :=
    {| payload := data; flags_after := fl; comp_dir_after := comp_dir;
       warnings := [] |} in
  match dest_dir cfg with
  | Some dest_dir =>
      match Path.skip_dir_prefix comp_dir (default [] (base_dir cfg)) with
      | Some file =>
          if phase =? 0
          then {| payload := data;
                  flags_after := set_need_string_replacement fl;
                  comp_dir_after := comp_dir; warnings := [] |}
          else if phase =? 1
          then
            let orig_len := Path.strlen comp_dir in
            let dest_len := Path.strlen dest_dir in
            let file_len := Path.strlen file in
            let new_len :=
              if (0 <? file_len)%nat then (dest_len + (1 + file_len))%nat
              else dest_len in
            if (orig_len <? new_len)%nat
            then {| payload := data; flags_after := fl;
                    comp_dir_after := comp_dir;
                    warnings := ["Warning, not replacing comp_dir prefix encoded as DW_FORM_string. Replacement too large."%string] |}
            else
              let data := list_inserts ptr (take dest_len dest_dir) data in
              let data :=
                list_inserts (ptr + dest_len)
                  (replicate (orig_len - new_len) Path.SLASH) data in
              {| payload := data; flags_after := fl;
                 comp_dir_after := comp_dir; warnings := [] |}
          else unchanged
      | None => unchanged
      end
  | None => unchanged
  end.

End Info.

(** ** 4.I [.debug_str_offsets] updater *)

Module StrOffsets.

Section update_str_offsets.

(** [strent_offset]: the offset libdwelf gave an entry when the new
    [.debug_str] was finalized. *)
Variable strent_offset : Strings.Strent -> Z.
Variable e : ei_data.
(** [&dso->debug_str] and the dummy entry. *)
Variable debug_str : Strings.strings.
Variable debugedit_stridxentry : Strings.Strent.
(** [endp = str_off_sec->data + str_off_sec->size]. *)
Variable endp : Z.

(** The [while (ptr < endidxp)] loop.  [log] collects, for every
    warning printed with [error (0, ...)], the [.debug_str] offset it
    names. *)
Equations? update_entries (endidxp : Z) (ptr : Z)
    (sec : Reloc.debug_section) (log : list Z)
  : outcome (Z * Reloc.debug_section * list Z)
  by wf (Z.to_nat (endidxp - ptr)) lt :=
  update_entries endidxp ptr sec log with inspect (ptr <? endidxp) := {
    | exist _ true _ =>
        let '(idx, last) := Reloc.do_read_32_relocated e ptr sec in
        match Strings.string_find_entry debugedit_stridxentry debug_str
                idx true with
        | Done (missing, entry) =>
            let log := if (missing : bool) then log ++ [idx] else log in
            let new_idx := strent_offset entry in
            let sec := Reloc.do_write_32_relocated e last ptr new_idx sec in
            update_entries endidxp (ptr + 4) sec log
        | Exit msg => Exit msg
        end
    | exist _ false _ => Done (ptr, sec, log) }.
Proof. apply Z.ltb_lt in e0. lia. Qed.

Lemma update_entries_ptr endidxp ptr sec log ptr' sec' log' :
  update_entries endidxp ptr sec log = Done (ptr', sec', log') ->
  ptr <= ptr'.
Proof.
  funelim (update_entries endidxp ptr sec log); intros Hr.
  - clear Heqcall.
    destruct (Reloc.do_read_32_relocated e ptr sec) as [idx last].
    destruct (Strings.string_find_entry _ _ _ _) as [[missing entry]|];
      [|discriminate].
    eapply H in Hr; [lia | exact (missing, entry)].
  - injection Hr as <- <- <-. lia.
Qed.

(** The head of the body of the [while (ptr < endp)] loop: "Read
    header, unit_length, version and padding."  [None] is one of the
    four [break]s; [Some (endidxp, ptr)] carries the end of the table
    and the cursor after the header. *)
Definition read_header (ptr : Z) (sec : Reloc.debug_section)
  : option (Z * Z) :=
  if endp - ptr <? 3 * 4 then None
  else
    let unit_length := do_read_32 e (drop (Z.to_nat ptr) (Reloc.data sec)) in
    let ptr := ptr + 4 in
    if (unit_length =? 0xffffffff) || (endp - ptr <? unit_length) then None
    else
      let endidxp := ptr + unit_length in
      let version := do_read_16 e (drop (Z.to_nat ptr) (Reloc.data sec)) in
      let ptr := ptr + 2 in
      if negb (version =? 5) then None
      else
        let padding := do_read_16 e (drop (Z.to_nat ptr) (Reloc.data sec)) in
        let ptr := ptr + 2 in
        if negb (padding =? 0) then None
        else Some (endidxp, ptr).

Lemma read_header_ptr ptr sec endidxp ptr' :
  read_header ptr sec = Some (endidxp, ptr') -> ptr' = ptr + 8.
Proof.
  unfold read_header. intros H.
  repeat match type of H with
         | (if ?c then _ else _) = _ => destruct c; [discriminate|]
         end.
  injection H as _ <-. lia.
Qed.

(** The [while (ptr < endp)] loop of [update_str_offsets]. *)
Equations? update_tables (ptr : Z) (sec : Reloc.debug_section)
    (log : list Z) : outcome (Reloc.debug_section * list Z)
  by wf (Z.to_nat (endp - ptr)) lt :=
  update_tables ptr sec log with inspect (ptr <? endp) := {
    | exist _ true _ with inspect (read_header ptr sec) := {
        | exist _ None _ => Done (sec, log)
        | exist _ (Some (endidxp, ptr0)) _
            with inspect (update_entries endidxp ptr0 sec log) := {
            | exist _ (Done (ptr', sec', log')) _ =>
                update_tables ptr' sec' log'
            | exist _ (Exit msg) _ => Exit msg } }
    | exist _ false _ => Done (sec, log) }.
Proof.
  apply update_entries_ptr in e2. apply read_header_ptr in e1.
  apply Z.ltb_lt in e0. lia.
Qed.

(** [update_str_offsets (dso)] on [debug_sections[DEBUG_STR_OFFSETS]]. *)
Definition update_str_offsets (str_off_sec : Reloc.debug_section)
  : outcome (Reloc.debug_section * list Z) :=
  update_tables 0 str_off_sec [].

End update_str_offsets.

(** [update_str_offsets] with [endp] taken from the section. *)
Definition run (strent_offset : Strings.Strent -> Z) (e : ei_data)
    (debug_str : Strings.strings) (debugedit_stridxentry : Strings.Strent)
    (str_off_sec : Reloc.debug_section)
  : outcome (Reloc.debug_section * list Z) :=
  update_str_offsets strent_offset e debug_str debugedit_stridxentry
    (Z.of_nat (length (Reloc.data str_off_sec))) str_off_sec.

End StrOffsets.

(** ** 4.F Line-table registry *)

Module Lines.

(** [struct line_table], without the back-reference to the CU. *)
Record line_table := {
  old_idx : Z;
  new_idx : Z;
  size_diff : Z;
  replace_dirs : bool;
  replace_files : bool;
  unit_length : Z;
  version : Z;
  header_length : Z;
  min_instr_len : Z;
  max_op_per_instr : Z;
  default_is_stmt : Z;
  line_base : Z;
  line_range : Z;
  opcode_base : Z
}.

(** [struct debug_lines]: the registered tables, the size computed for
    the new section, and the new section once it is built. *)
Record debug_lines := {
  table : list line_table;
  debug_lines_len : Z;
  line_buf : option (list Z)
}.

Definition set_new_idx (t : line_table) (idx : Z) : line_table :=
  {| old_idx := old_idx t; new_idx := idx; size_diff := size_diff t;
     replace_dirs := replace_dirs t; replace_files := replace_files t;
     unit_length := unit_length t; version := version t;
     header_length := header_length t; min_instr_len := min_instr_len t;
     max_op_per_instr := max_op_per_instr t;
     default_is_stmt := default_is_stmt t; line_base := line_base t;
     line_range := line_range t; opcode_base := opcode_base t |}.

(** The cursor at offset [off] of a payload. *)
Definition cursor (buf : list Z) (off : nat) : list Z := drop off buf.

(** [memcpy (ptr, optr, n)]: the [n] bytes read at a cursor. *)
Definition memcpy_from (optr : list Z) (n : nat) : list Z :=
  take n (optr ++ replicate n 0).

(** The bytes that replace a path under [base_dir]:
    [dest_dir [+ '/' + file_path] + '\0']. *)
Definition replacement (dest_dir file_path : list Z) : list Z :=
  Strings.new_name dest_dir file_path ++ [0].

(** One path of the directory or file table of [edit_dwarf2_line]: the
    bytes stored for the string at the cursor [path]. *)
Definition emit_path (base_dir dest_dir : list Z) (replace : bool)
    (path : list Z) : list Z :=
  let file_path :=
    if replace then Path.skip_dir_prefix path base_dir else None in
  match file_path with
  | Some file_path => replacement dest_dir file_path
  | None => memcpy_from path (Path.strlen path + 1)
  end.

Section edit_dwarf2_line.

Variable e : ei_data.
Variables base_dir dest_dir : list Z.
Variable old_buf : list Z.

(** The directory table: [while ( *optr != 0) ...].  The result is the
    bytes stored and the offset [optr] at the terminating 0. *)
Equations? emit_dirs (t : line_table) (optr : nat) (out : list Z)
  : list Z * nat by wf (length old_buf - optr)%nat lt :=
  emit_dirs t optr out
    with inspect (negb (Path.peek (cursor old_buf optr) 0 =? 0)) := {
    | exist _ true _ =>
        let dir := cursor old_buf optr in
        let out := out ++ emit_path base_dir dest_dir (replace_dirs t) dir in
        emit_dirs t (optr + Path.strlen dir + 1)%nat out
    | exist _ false _ => (out, optr) }.
Proof.
  unfold Path.peek, cursor in e0.
  destruct (drop optr old_buf !! 0%nat) eqn:Hl; [|discriminate].
  apply lookup_lt_Some in Hl. rewrite length_drop in Hl. lia.
Qed.

(** The file table: a path and the ULEB128 triple
    (dir index, time, length), read and written back. *)
Equations? emit_files (t : line_table) (optr : nat) (out : list Z)
  : list Z * nat by wf (length old_buf - optr)%nat lt :=
  emit_files t optr out
    with inspect (negb (Path.peek (cursor old_buf optr) 0 =? 0)) := {
    | exist _ true _ =>
        let file := cursor old_buf optr in
        let out := out ++ emit_path base_dir dest_dir (replace_files t) file in
        let optr := (optr + Path.strlen file + 1)%nat in
        let p0 := cursor old_buf optr in
        let '(dir_idx, p1) := Codec.read_uleb128 p0 in
        let out := out ++ Codec.write_uleb128 dir_idx in
        let '(time, p2) := Codec.read_uleb128 p1 in
        let out := out ++ Codec.write_uleb128 time in
        let '(len, p3) := Codec.read_uleb128 p2 in
        let out := out ++ Codec.write_uleb128 len in
        emit_files t (optr + (length p0 - length p3))%nat out
    | exist _ false _ => (out, optr) }.
Proof.
  unfold Path.peek, cursor in e0.
  destruct (drop optr0 old_buf !! 0%nat) eqn:Hl; [|discriminate].
  apply lookup_lt_Some in Hl. rewrite length_drop in Hl. lia.
Qed.

(** The header fields written for a table that is rebuilt. *)
Definition emit_header (t : line_table) : list Z :=
  do_write_32 e (unit_length t + size_diff t)
  ++ do_write_16 e (version t)
  ++ do_write_32 e (header_length t + size_diff t)
  ++ [u8 (min_instr_len t)]
  ++ (if 4 <=? version t then [u8 (max_op_per_instr t)] else [])
  ++ [u8 (default_is_stmt t)]
  ++ [u8 (line_base t)]
  ++ [u8 (line_range t)]
  ++ [u8 (opcode_base t)].

(** The body of the [for] loop of [edit_dwarf2_line]: the bytes stored
    for the table [t], from [ptr] on.  A failed [assert] and a
    [memcpy] whose size has wrapped around end the process. *)
Definition emit_table (t : line_table) : outcome (list Z) :=
  let optr := Z.to_nat (old_idx t) in
  if negb (replace_dirs t) && negb (replace_files t)
  then
    if negb (size_diff t =? 0)
    then Exit "Assertion `t->size_diff == 0' failed"
    else Done (memcpy_from (cursor old_buf optr)
                 (Z.to_nat (u32 (unit_length t + 4))))
  else
    let out := emit_header t in
    let optr :=
      (optr + (4 + 2 + 4 + 1 + (if (4 <=? version t)%Z then 1 else 0)
               + 1 + 1 + 1 + 1))%nat in
    if opcode_base t - 1 <? 0
    then Exit "memcpy: size out of range"
    else
      let n := Z.to_nat (opcode_base t - 1) in
      let out := out ++ memcpy_from (cursor old_buf optr) n in
      let optr := (optr + n)%nat in
      let '(out, optr) := emit_dirs t optr out in
      let optr := (optr + 1)%nat in
      let out := out ++ [0] in
      let '(out, optr) :=
        if replace_files t
        then
          let '(out, optr) := emit_files t optr out in
          (out ++ [0], (optr + 1)%nat)
        else (out, optr) in
      let remaining :=
        u32 (unit_length t + 4) - (Z.of_nat optr - old_idx t) in
      if remaining <? 0
      then Exit "memcpy: size out of range"
      else Done (out ++ memcpy_from (cursor old_buf optr) (Z.to_nat remaining)).

(** The [for (ldx = 0; ldx < dso->lines.used; ldx++)] loop: [line_buf]
    is the bytes stored so far, so [ptr - d_buf] is its length, and
    [size] is the size of the block [d_buf] points at.  The loop stores
    a table without comparing [ptr] with the end of the block: [None] is
    a run in which a table was stored behind the end of the block, after
    which what the program does is not defined. *)
Fixpoint emit_tables (size : nat) (tables : list line_table)
    (line_buf : list Z) : outcome (option (list line_table * list Z)) :=
  match tables with
  | [] => Done (Some ([], line_buf))
  | t :: tables =>
      let t := set_new_idx t (Z.of_nat (length line_buf)) in
      bytes ← emit_table t;
      if (size <? length line_buf + length bytes)%nat
      then Done None
      else
        r ← emit_tables size tables (line_buf ++ bytes);
        Done ('(tables, line_buf) ← r; Some (t :: tables, line_buf))
  end.

End edit_dwarf2_line.

(** *** Phase zero: registering a table *)

(** The search loop of [get_line_table]. *)
Fixpoint find_table (tables : list line_table) (off : Z) (i : nat)
  : option nat :=
  match tables with
  | [] => None
  | t :: tables =>
      if old_idx t =? off then Some i else find_table tables off (S i)
  end.

(** How [get_line_table] ends: the table was known already ([false],
    [*table] set), it was read and added ([true]), or it could not be
    read ([false], [*table = NULL], with the line printed). *)
Inductive lookup :=
| Known (i : nat)
| Fresh (t : line_table)
| Failed (msg : string).

(** The header of the table at offset [off] of the payload [data], as
    [get_line_table] reads it.  A failed [assert] ends the process. *)
Definition read_header (e : ei_data) (cu : Info.CU) (data : list Z) (off : Z)
  : outcome lookup :=
  let endsec := Z.of_nat (length data) in
  match data with
  | [] => Done (Failed "No .line_table section")
  | _ =>
  if off >? endsec then Done (Failed "Invalid .line_table offset")
  else
    let rd (p : Z) := cursor data (Z.to_nat p) in
    let ptr := off in
    let endcu := ptr + 4 in
    let unit_length := do_read_32 e (rd ptr) in
    let ptr := ptr + 4 in
    let endcu := endcu + unit_length in
    if endcu =? ptr + 0xffffffff
    then Done (Failed "64-bit DWARF not supported")
    else if endcu >? endsec
    then Done (Failed ".debug_line CU does not fit into section")
    else
      let version := do_read_16 e (rd ptr) in
      let ptr := ptr + 2 in
      if negb (version =? 2) && negb (version =? 3) && negb (version =? 4)
         && negb (version =? 5)
      then Done (Failed "DWARF version unhandled")
      else
        ptr ←
          (if 5 <=? version
           then
             if Info.ptr_size cu =? 0
             then Exit "Assertion `cu->ptr_size != 0' failed"
             else if negb (Info.ptr_size cu =? Path.peek (rd ptr) 0)
             then Done None
             else Done (Some (ptr + 1 + 1))
           else Done (Some ptr));
        match ptr with
        | None =>
            Done (Failed ".debug_line address size differs from .debug_info")
        | Some ptr =>
            let endprol := ptr + 4 in
            let header_length := do_read_32 e (rd ptr) in
            let ptr := ptr + 4 in
            let endprol := endprol + header_length in
            if endprol >? endcu
            then Done (Failed ".debug_line CU prologue does not fit into CU")
            else
              let min_instr_len := Path.peek (rd ptr) 0 in
              let ptr := ptr + 1 in
              let max_op_per_instr :=
                if 4 <=? version then Path.peek (rd ptr) 0 else 0 in
              let ptr := if 4 <=? version then ptr + 1 else ptr in
              let default_is_stmt := Path.peek (rd ptr) 0 in
              let ptr := ptr + 1 in
              let line_base :=
                let b := Path.peek (rd ptr) 0 in
                if 128 <=? b then b - 256 else b in
              let ptr := ptr + 1 in
              let line_range := Path.peek (rd ptr) 0 in
              let ptr := ptr + 1 in
              let opcode_base := Path.peek (rd ptr) 0 in
              let ptr := ptr + 1 in
              if ptr + opcode_base - 1 >=? endcu
              then Done (Failed ".debug_line opcode table does not fit into CU")
              else
                Done (Fresh
                  {| old_idx := off; new_idx := off; size_diff := 0;
                     replace_dirs := false; replace_files := false;
                     unit_length := unit_length; version := version;
                     header_length := header_length;
                     min_instr_len := min_instr_len;
                     max_op_per_instr := max_op_per_instr;
                     default_is_stmt := default_is_stmt;
                     line_base := line_base; line_range := line_range;
                     opcode_base := opcode_base |})
        end
  end.

(** [get_line_table (dso, off, table, cu)]; a table that was read is
    added by the caller below (the C code bumps [lines->used]). *)
Definition get_line_table (e : ei_data) (cu : Info.CU) (data : list Z)
    (tables : list line_table) (off : Z) : outcome lookup :=
  match find_table tables off 0 with
  | Some i => Done (Known i)
  | None => read_header e cu data off
  end.

(** The size of the header in front of the directory table. *)
Definition header_size (t : line_table) : Z :=
  4 + 2 + (if version t <? 5 then 0 else 0 + 1 + 1) + 4 + 1
  + (if 4 <=? version t then 1 else 0) + 1 + 1 + 1 + 1 + opcode_base t - 1.

(** A path under [base_dir] changes the size of the table by
    [new_size - old_size]. *)
Definition account (cfg : config) (path : list Z) (t : line_table)
    (dirs : bool) : line_table :=
  match base_dir cfg, dest_dir cfg with
  | Some base_dir, Some dest_dir =>
      match Path.skip_dir_prefix path base_dir with
      | Some file_path =>
          let old_size := Z.of_nat (Path.strlen path) + 1 in
          let file_len := Z.of_nat (Path.strlen file_path) in
          let new_size := Z.of_nat (Path.strlen dest_dir) + 1 in
          let new_size :=
            if 0 <? file_len then new_size + (1 + file_len) else new_size in
          {| old_idx := old_idx t; new_idx := new_idx t;
             size_diff := size_diff t + (new_size - old_size);
             replace_dirs := if dirs then true else replace_dirs t;
             replace_files := if dirs then replace_files t else true;
             unit_length := unit_length t; version := version t;
             header_length := header_length t;
             min_instr_len := min_instr_len t;
             max_op_per_instr := max_op_per_instr t;
             default_is_stmt := default_is_stmt t; line_base := line_base t;
             line_range := line_range t; opcode_base := opcode_base t |}
      | None => t
      end
  | _, _ => t
  end.

Section read_dwarf4_line.

Variable cfg : config.
Variable data : list Z.

(** The first pass over the directory table: sizes. *)
Equations? size_dirs (t : line_table) (ptr : nat) : line_table * nat
  by wf (length data - ptr)%nat lt :=
  size_dirs t ptr with inspect (negb (Path.peek (cursor data ptr) 0 =? 0)) := {
    | exist _ true _ =>
        let dir := cursor data ptr in
        size_dirs (account cfg dir t true) (ptr + Path.strlen dir + 1)%nat
    | exist _ false _ => (t, ptr) }.
Proof.
  unfold Path.peek, cursor in e.
  destruct (drop ptr data !! 0%nat) eqn:Hl; [|discriminate].
  apply lookup_lt_Some in Hl. rewrite length_drop in Hl. lia.
Qed.

(** The second pass: [dirt[dirt_cnt++] = ptr]. *)
Equations? collect_dirs (ptr : nat) (dirt : list (list Z))
  : list (list Z) * nat by wf (length data - ptr)%nat lt :=
  collect_dirs ptr dirt
    with inspect (negb (Path.peek (cursor data ptr) 0 =? 0)) := {
    | exist _ true _ =>
        let dir := cursor data ptr in
        collect_dirs (ptr + Path.strlen dir + 1)%nat (dirt ++ [dir])
    | exist _ false _ => (dirt, ptr) }.
Proof.
  unfold Path.peek, cursor in e.
  destruct (drop ptr data !! 0%nat) eqn:Hl; [|discriminate].
  apply lookup_lt_Some in Hl. rewrite length_drop in Hl. lia.
Qed.

(** The source path of a file entry, before it is canonicalized. *)
Definition source_path (comp_dir : option (list Z)) (dir file : list Z)
  : list Z :=
  let comp_dir_len :=
    match comp_dir with None => O | Some c => Path.strlen c end in
  if Path.peek file 0 =? Path.SLASH then Path.c_str file
  else if Path.peek dir 0 =? Path.SLASH
  then Path.c_str dir ++ [Path.SLASH] ++ Path.c_str file
  else
    (if negb (comp_dir_len =? 0)%nat
     then Path.c_str (default [] comp_dir) ++ [Path.SLASH] else [])
    ++ Path.c_str dir ++ [Path.SLASH] ++ Path.c_str file.

(** What is appended to the list file for the path [s]. *)
Definition list_source (s : list Z) : list Z :=
  if list_file cfg
  then
    let p :=
      match base_dir cfg with
      | None => Some s
      | Some base_dir =>
          match Path.skip_dir_prefix s base_dir, dest_dir cfg with
          | None, Some dest_dir => Path.skip_dir_prefix s dest_dir
          | p, _ => p
          end
      end in
    match p with
    | Some p => Path.c_str p ++ [0]
    | None => []
    end
  else [].

(** The file table.  The result is [false] for "Wrong directory table
    index"; [listing] is what has been written to the list file. *)
Equations? size_files (comp_dir : option (list Z)) (dirt : list (list Z))
    (t : line_table) (ptr : nat) (listing : list Z)
  : outcome (bool * line_table * list Z)
  by wf (length data - ptr)%nat lt :=
  size_files comp_dir dirt t ptr listing
    with inspect (negb (Path.peek (cursor data ptr) 0 =? 0)) := {
    | exist _ true _ =>
        let file := cursor data ptr in
        let ptr := (ptr + Path.strlen file + 1)%nat in
        let p0 := cursor data ptr in
        let '(value, p1) := Codec.read_uleb128 p0 in
        match dirt !! Z.to_nat value with
        | None => Done (false, t, listing)
        | Some dir =>
            let t := account cfg file t false in
            let s := source_path comp_dir dir file in
            match Path.canonicalize_path_at (s ++ [0]) 0 0 with
            | None => Exit "canonicalize_path: store outside the buffer"
            | Some m =>
                let s := Path.string_at m 0 in
                let listing := listing ++ list_source s in
                let '(_, p2) := Codec.read_uleb128 p1 in
                let '(_, p3) := Codec.read_uleb128 p2 in
                size_files comp_dir dirt t
                  (ptr + (length p0 - length p3))%nat listing
            end
        end
    | exist _ false _ => Done (true, t, listing) }.
Proof.
  unfold Path.peek, cursor in e.
  destruct (drop ptr0 data !! 0%nat) eqn:Hl; [|discriminate].
  apply lookup_lt_Some in Hl. rewrite length_drop in Hl. lia.
Qed.

(** [read_dwarf4_line (dso, ptr, comp_dir, table)]. *)
Definition read_dwarf4_line (ptr : nat) (comp_dir : option (list Z))
    (t : line_table) (listing : list Z)
  : outcome (bool * line_table * list Z) :=
  let dir := ptr in
  let '(t, _) := size_dirs t ptr in
  let '(dirt, ptr) := collect_dirs dir [[Path.DOT]] in
  let ptr := (ptr + 1)%nat in
  size_files comp_dir dirt t ptr listing.

End read_dwarf4_line.

(** [read_dwarf2_line (dso, off, comp_dir, cu)]: whether the table has
    to be rewritten, the registry and the list file. *)
Definition read_dwarf2_line (e : ei_data) (cfg : config) (data : list Z)
    (lines : debug_lines) (off : Z) (comp_dir : option (list Z))
    (cu : Info.CU) (listing : list Z)
  : outcome (bool * debug_lines * list Z) :=
  r ← get_line_table e cu data (table lines) off;
  match r with
  | Known _ | Failed _ => Done (false, lines, listing)
  | Fresh t =>
      let ptr := Z.to_nat (off + header_size t) in
      '(ok, t, listing) ←
        (if version t <? 5
         then read_dwarf4_line cfg data ptr comp_dir t listing
         else Done (true, t, listing));
      if (ok : bool)
      then
        Done (replace_dirs t || replace_files t,
              {| table := table lines ++ [t];
                 debug_lines_len :=
                   debug_lines_len lines + (4 + unit_length t + size_diff t);
                 line_buf := line_buf lines |},
              listing)
      else
        Done (false,
              {| table := table lines ++ [t];
                 debug_lines_len := debug_lines_len lines;
                 line_buf := line_buf lines |},
              listing)
  end.

(** [line_table_cmp (a, b) <= 0]. *)
Definition line_table_le (a b : line_table) : Prop := old_idx a <= old_idx b.

#[global] Instance line_table_le_dec : RelDecision line_table_le.
Proof. intros a b. unfold line_table_le. apply _. Defined.

(** [malloc (size)] when it gives a block: [size] bytes, of which the
    C library leaves open what they hold; [fresh i] is what byte [i]
    holds. *)
Definition malloc (fresh : nat -> Z) (size : nat) : list Z :=
  map fresh (seq 0 size).

(** [edit_dwarf2_line (dso)]: [old_buf] is the payload of [.debug_line].
    The new payload is a block of [debug_lines_len] bytes, which is also
    the new size of the section ([d_size]); a [debug_lines_len] that has
    wrapped around below zero is a size no [malloc] gives, the "No
    memory" exit.  The tables are sorted on [old_idx] ([qsort] with
    [line_table_cmp]; the registry holds no two tables with the same
    [old_idx]) and stored one after the other from the start of the
    block; the bytes of the block that are not stored to hold what
    [malloc] left there.  [None] is a run that stored behind the
    block. *)
Definition edit_dwarf2_line (e : ei_data) (cfg : config) (fresh : nat -> Z)
    (old_buf : list Z) (lines : debug_lines) : outcome (option debug_lines) :=
  if debug_lines_len lines <? 0
  then Exit "No memory for new .debug_line table"
  else
    let size := Z.to_nat (debug_lines_len lines) in
    let block := malloc fresh size in
    let tables := merge_sort line_table_le (table lines) in
    r ← emit_tables e (default [] (base_dir cfg)) (default [] (dest_dir cfg))
          old_buf size tables [];
    Done ('(tables, stored) ← r;
          Some {| table := tables; debug_lines_len := debug_lines_len lines;
                  line_buf := Some (stored ++ drop (length stored) block) |}).

End Lines.

(** ** 4.G The end of [edit_attributes]: the line table of the unit *)

(** [if (phase == 0 && found_list_offs
        && read_dwarf2_line (dso, list_offs, comp_dir, cu))
      need_stmt_update = true;] *)
Definition edit_attributes_stmt_list (e : ei_data) (cfg : config)
    (data : list Z) (phase : Z) (found_list_offs : bool) (list_offs : Z)
    (comp_dir : option (list Z)) (cu : Info.CU) (lines : Lines.debug_lines)
    (listing : list Z) (fl : flags)
  : outcome (flags * Lines.debug_lines * list Z) :=
  if (phase =? 0) && found_list_offs
  then
    '(marked, lines, listing) ←
      Lines.read_dwarf2_line e cfg data lines list_offs comp_dir cu listing;
    Done (if (marked : bool) then set_need_stmt_update fl else fl,
          lines, listing)
  else Done (fl, lines, listing).

(** ** Vocabulary of the statements *)

(** A ULEB128 encoding: bytes with the continuation bit set, closed by one
    byte without it. *)
Fixpoint is_uleb128 (bs : list Z) : bool :=
  match bs with
  | [] => false
  | [b] => (0 <=? b) && (b <? 128)
  | b :: bs => (128 <=? b) && (b <? 256) && is_uleb128 bs
  end.

(** The number an encoding stands for: seven bits a byte, least
    significant group first. *)
Fixpoint uleb128_value (bs : list Z) : Z :=
  match bs with
  | [] => 0
  | b :: bs => b mod 128 + 128 * uleb128_value bs
  end.

(** An encoding is minimal when it has one byte or its last group is not
    zero. *)
Definition is_minimal (bs : list Z) : bool :=
  (length bs =? 1)%nat || negb (bool_decide (last bs = Some 0)).

(** The relocation index is sorted on [ptr] ([qsort] with [rel_cmp]). *)
Definition sorted_by_ptr (relptr : list Reloc.REL) : Prop :=
  forall i j a b,
    relptr !! i = Some a -> relptr !! j = Some b -> (i <= j)%nat ->
    Reloc.ptr a <= Reloc.ptr b.

(** The same, as a test. *)
Fixpoint sorted_ptrs (relptr : list Reloc.REL) : bool :=
  match relptr with
  | [] => true
  | a :: relptr =>
      forallb (fun b => Reloc.ptr a <=? Reloc.ptr b) relptr && sorted_ptrs relptr
  end.

(** [do_write_32_relocated] found the record of the word it writes: the
    test [last_relptr && last_relptr < last_relend
    && last_relptr->ptr == ptr]. *)
Definition last_hit (last : Reloc.last_rel) (ptr : Z) (sec : Reloc.debug_section)
    (i : nat) (rel : Reloc.REL) : Prop :=
  Reloc.last_relptr last = Some i
  /\ default [] (Reloc.relbuf sec) !! i = Some rel
  /\ (i < Reloc.last_relend last)%nat
  /\ Reloc.ptr rel = ptr.

(** Where the [header_length] field of a line table lies: behind
    [unit_length] and [version], and behind [address_size] and
    [segment_selector_size] from version 5 on. *)
Definition header_length_at (t : Lines.line_table) : nat :=
  if Lines.version t <? 5 then 6%nat else 8%nat.

(** A table without its place in the new section. *)
Definition forget_new_idx (t : Lines.line_table) : Lines.line_table :=
  Lines.set_new_idx t 0.

(** A table of the registry of phase zero for the payload [old_buf]: its
    header fields are the ones [get_line_table] reads at [old_idx], its
    size only differs when it is marked for rewriting, and only tables
    below version 5 are marked. *)
Definition registered (e : ei_data) (old_buf : list Z) (t : Lines.line_table)
  : Prop :=
  0 <= Lines.old_idx t
  /\ (exists cu t0,
         Lines.read_header e cu old_buf (Lines.old_idx t) = Done (Lines.Fresh t0)
         /\ Lines.unit_length t = Lines.unit_length t0
         /\ Lines.version t = Lines.version t0
         /\ Lines.header_length t = Lines.header_length t0)
  /\ (Lines.replace_dirs t = false -> Lines.replace_files t = false ->
      Lines.size_diff t = 0)
  /\ (Lines.replace_dirs t = true \/ Lines.replace_files t = true ->
      Lines.version t < 5).

(** Two records of the same table: phase zero changes the size delta and
    the two marks of a table, never the fields read from its header. *)
Definition same_header (t t' : Lines.line_table) : Prop :=
  Lines.old_idx t' = Lines.old_idx t
  /\ Lines.unit_length t' = Lines.unit_length t
  /\ Lines.version t' = Lines.version t
  /\ Lines.header_length t' = Lines.header_length t.

(** A table that is not marked for rewriting keeps its size. *)
Definition unmarked_keeps_size (t : Lines.line_table) : Prop :=
  Lines.replace_dirs t = false -> Lines.replace_files t = false ->
  Lines.size_diff t = 0.

(** ** Vocabulary for [canonicalize_path] *)

(** A byte of a path segment: neither the NUL nor a separator. *)
Definition segment_byte (c : Z) : Prop := c <> 0 /\ c <> Path.SLASH.

(** A path segment: a non-empty run of such bytes. *)
Definition segment (seg : list Z) : Prop := seg <> [] /\ Forall segment_byte seg.

(** The segments of the C string [s]; [cur] is the segment being read. *)
Fixpoint split_path (s cur : list Z) : list (list Z) :=
  match s with
  | [] => match cur with [] => [] | _ => [cur] end
  | c :: s' =>
      if c =? 0 then match cur with [] => [] | _ => [cur] end
      else if Path.IS_DIR_SEPARATOR c
      then match cur with
           | [] => split_path s' []
           | _ => cur :: split_path s' []
           end
      else split_path s' (cur ++ [c])
  end.

(** The segments kept so far, the last one first, and what a further
    segment does to them. *)
Definition push (stack : list (list Z)) (seg : list Z) : list (list Z) :=
  if decide (seg = [Path.DOT]) then stack
  else if decide (seg = [Path.DOT; Path.DOT])
  then match stack with
       | [] => [seg]
       | top :: below =>
           if decide (top = [Path.DOT; Path.DOT]) then seg :: stack else below
       end
  else seg :: stack.

(** The kept segments as bytes, every one followed by a separator. *)
Fixpoint render (stack : list (list Z)) : list Z :=
  match stack with
  | [] => []
  | top :: below => render below ++ top ++ [Path.SLASH]
  end.

(** The same without the last separator. *)
Definition join_segments (stack : list (list Z)) : list Z :=
  match stack with
  | [] => []
  | top :: below => render below ++ top
  end.

(** The result for a root and the kept segments. *)
Definition finish (root : list Z) (stack : list (list Z)) : list Z :=
  match root ++ join_segments stack with
  | [] => [Path.DOT]
  | d => d
  end.

(** Kept segments are in normal form: no "." and ".." only below "..". *)
Fixpoint normal (stack : list (list Z)) : Prop :=
  match stack with
  | [] => True
  | top :: below =>
      segment top /\ top <> [Path.DOT]
      /\ (top = [Path.DOT; Path.DOT] ->
          match below with
          | [] => True
          | t :: _ => t = [Path.DOT; Path.DOT]
          end)
      /\ normal below
  end.

(** The bytes kept in front of a segment: the root alone, or bytes that
    end in a separator behind a segment. *)
Definition boundary (droot : Z) (a : list Z) : Prop :=
  Z.of_nat (length a) = droot
  \/ (droot + 2 <= Z.of_nat (length a)
      /\ Path.at_ a (Z.of_nat (length a) - 1) = Path.SLASH).

(** The cursor has moved from [s] in [m] to [s'] in [m']: only bytes
    that are not NUL were passed, and what lies at and behind [s'] has
    not been written. *)
Definition advance (m : list Z) (s : Z) (m' : list Z) (s' : Z) : Prop :=
  length m' = length m /\ s <= s'
  /\ drop (Z.to_nat s') m' = drop (Z.to_nat s') m
  /\ forall i, s <= i < s' -> Path.at_ m i <> 0.

(** ** Worked inputs *)

(** The [.debug_str] of the example: the string "/build/src/pkg". *)
Definition example_dso : Strings.DSO :=
  {| Strings.debug_str := Strings.setup_strings;
     Strings.debug_line_str := Strings.setup_strings;
     Strings.debug_str_data := bytes_of_string "/build/src/pkg" ++ [0];
     Strings.debug_line_str_data := [] |}.

(** A [.debug_line] payload with two version 2 tables, little endian.
    The table at offset 0 names the directory "/b/d" and the file "a.c"
    in it; the table at offset 32 has no directory and the file "x.c". *)
Definition example_debug_line : list Z :=
  ([28; 0; 0; 0] ++ [2; 0] ++ [19; 0; 0; 0] ++ [1; 1; 1; 1; 1]
   ++ bytes_of_string "/b/d" ++ [0] ++ [0]
   ++ bytes_of_string "a.c" ++ [0; 1; 0; 0] ++ [0]
   ++ [0; 1; 1])
  ++ ([23; 0; 0; 0] ++ [2; 0] ++ [14; 0; 0; 0] ++ [1; 1; 1; 1; 1]
      ++ [0]
      ++ bytes_of_string "x.c" ++ [0; 0; 0; 0] ++ [0]
      ++ [0; 1; 1]).

(** A buffer that holds the string "/a/.//../b" and a byte behind its
    NUL. *)
Definition example_path : list Z :=
  bytes_of_string "/a/.//../b" ++ [0; 7].

Definition example_cfg : config :=
  {| base_dir := Some (bytes_of_string "/b");
     dest_dir := Some (bytes_of_string "/usr");
     list_file := false |}.

Definition example_cu : Info.CU :=
  {| Info.ptr_size := 8; Info.cu_version := 4;
     Info.str_offsets_base := 0; Info.macros_offs := 0 |}.

(** The registry after phase zero has seen the table at 32 and then the
    table at 0. *)
Definition example_lines : Lines.debug_lines :=
  let empty :=
    {| Lines.table := []; Lines.debug_lines_len := 0; Lines.line_buf := None |} in
  let second (r : outcome (bool * Lines.debug_lines * list Z)) :=
    match r with
    | Done (_, lines, _) => lines
    | Exit _ => empty
    end in
  let lines :=
    second (Lines.read_dwarf2_line ELFDATA2LSB example_cfg example_debug_line
              empty 32 None example_cu []) in
  second (Lines.read_dwarf2_line ELFDATA2LSB example_cfg example_debug_line
            lines 0 None example_cu []).

(** ** A second string pool *)

(** A [.debug_str] with three strings: "x" at offset 0, "/a//b" at
    offset 2 and "y" at offset 8. *)
Definition pool_ex : Strings.DSO :=
  {| Strings.debug_str := Strings.setup_strings;
     Strings.debug_line_str := Strings.setup_strings;
     Strings.debug_str_data := [120; 0; 47; 97; 47; 47; 98; 0; 121; 0];
     Strings.debug_line_str_data := [] |}.

(** ** Phase one: finding a table by its old offset *)

Module Phase1.

Import Lines.

(** [line_table_cmp (a, b)], which reads [old_idx] only; [a] is given by
    its [old_idx]. *)
Definition line_table_cmp (a_old_idx : Z) (b : line_table) : Z :=
  if a_old_idx <? old_idx b then -1
  else if a_old_idx >? old_idx b then 1
  else 0.

(** [bsearch (&key, base, nmemb, size, compar)] of the C library: the
    binary search between the indices [l] and [u] of the array; [None] is
    the NULL result. *)
Equations? bsearch_loop (compar : line_table -> Z) (base : list line_table)
    (l u : nat) : option line_table by wf (u - l)%nat lt :=
  bsearch_loop compar base l u with inspect (l <? u)%nat := {
    | exist _ true _ =>
        let idx := ((l + u) / 2)%nat in
        match base !! idx with
        | None => None
        | Some p =>
            let comparison := compar p in
            if comparison <? 0 then bsearch_loop compar base l idx
            else if 0 <? comparison then bsearch_loop compar base (idx + 1) u
            else Some p
        end
    | exist _ false _ => None }.
Proof.
  all: apply Nat.ltb_lt in e.
  all: assert (Hidx : idx = ((l + u) / 2)%nat) by reflexivity.
  all: clearbody idx; subst idx.
  all: pose proof (Nat.div_mod_eq (l + u) 2) as Hd.
  all: pose proof (Nat.mod_upper_bound (l + u) 2 ltac:(lia)).
  all: lia.
Qed.

Definition bsearch (compar : line_table -> Z) (base : list line_table)
    (nmemb : nat) : option line_table :=
  bsearch_loop compar base 0 nmemb.

(** [find_new_list_offs (lines, idx)]: [None] when [bsearch] returns
    NULL, which the code dereferences. *)
Definition find_new_list_offs (lines : debug_lines) (idx : Z) : option Z :=
  table ← bsearch (line_table_cmp idx) (table lines) (length (table lines));
  Some (new_idx table).

End Phase1.

(** A list of tables in strictly ascending order of their old offsets:
    what the binary search of [find_new_list_offs] relies on. *)
Definition ascending (ts : list Lines.line_table) : Prop :=
  forall i j a b, ts !! i = Some a -> ts !! j = Some b -> (i < j)%nat ->
                  Lines.old_idx a < Lines.old_idx b.

(** ** What phase zero has counted for a line table *)

(** A table as phase zero leaves it in the registry when it has counted
    it: [get_line_table] has read its header at [old_idx], and
    [read_dwarf2_line] has gone through it, [read_dwarf4_line] returning
    true for a version below 5.  Its marks and its size delta are the
    ones that walk has computed. *)
Definition accounted (e : ei_data) (cfg : config) (data : list Z)
    (t : Lines.line_table) : Prop :=
  exists cu comp_dir listing listing' t0,
    0 <= Lines.old_idx t
    /\ Lines.read_header e cu data (Lines.old_idx t) = Done (Lines.Fresh t0)
    /\ (if Lines.version t0 <? 5
        then Lines.read_dwarf4_line cfg data
               (Z.to_nat (Lines.old_idx t + Lines.header_size t0)) comp_dir
               t0 listing
        else Done (true, t0, listing)) = Done (true, t, listing').

(** What [read_dwarf2_line] adds to [debug_lines_len] for the tables it
    counts: [4 + unit_length + size_diff] each. *)
Definition accounted_len (ts : list Lines.line_table) : Z :=
  foldr (fun t n => 4 + Lines.unit_length t + Lines.size_diff t + n) 0 ts.

(** The registry of phase zero when every table in it was counted: no
    two tables for one offset, every table as [read_dwarf2_line] leaves
    a table it has counted, and [debug_lines_len] the sum over them. *)
Definition phase_zero (e : ei_data) (cfg : config) (data : list Z)
    (lines : Lines.debug_lines) : Prop :=
  NoDup (map Lines.old_idx (Lines.table lines))
  /\ Forall (accounted e cfg data) (Lines.table lines)
  /\ Lines.debug_lines_len lines = accounted_len (Lines.table lines).

(** The bytes that writing a ULEB128 number anew saves: the bytes the
    number at [p] was read from, less the bytes [write_uleb128] stores
    for it. *)
Definition uleb128_slack (p : list Z) : Z :=
  let '(v, p') := Codec.read_uleb128 p in
  Z.of_nat (length p - length p')
  - Z.of_nat (length (Codec.write_uleb128 v)).

(** The same over the file table that starts at [optr], entry by entry
    as [edit_dwarf2_line] goes through it. *)
Equations? files_slack (old_buf : list Z) (optr : nat) : Z
  by wf (length old_buf - optr)%nat lt :=
  files_slack old_buf optr
    with inspect (negb (Path.peek (Lines.cursor old_buf optr) 0 =? 0)) := {
    | exist _ true _ =>
        let file := Lines.cursor old_buf optr in
        let optr := (optr + Path.strlen file + 1)%nat in
        let p0 := Lines.cursor old_buf optr in
        let p1 := snd (Codec.read_uleb128 p0) in
        let p2 := snd (Codec.read_uleb128 p1) in
        let p3 := snd (Codec.read_uleb128 p2) in
        uleb128_slack p0 + uleb128_slack p1 + uleb128_slack p2
        + files_slack old_buf (optr + (length p0 - length p3))%nat
    | exist _ false _ => 0 }.
Proof.
  unfold Path.peek, Lines.cursor in e.
  destruct (drop optr0 old_buf !! 0%nat) eqn:Hl; [|discriminate].
  apply lookup_lt_Some in Hl. rewrite length_drop in Hl. lia.
Qed.

(** Where the file table of [t] starts: behind the header, the opcode
    lengths and the directory table with its terminating 0. *)
Definition file_table_at (old_buf : list Z) (t : Lines.line_table) : nat :=
  (snd (Lines.collect_dirs old_buf
          (Z.to_nat (Lines.old_idx t + Lines.header_size t)) [[Path.DOT]])
   + 1)%nat.

(** The bytes that rebuilding the table [t] saves on what phase zero has
    counted for it: those of the ULEB128 numbers of its file table, when
    the file table is rewritten. *)
Definition reencoding_slack (old_buf : list Z) (t : Lines.line_table) : Z :=
  if Lines.replace_files t
  then files_slack old_buf (file_table_at old_buf t)
  else 0.

(** The bytes that rebuilding the tables saves on [debug_lines_len]. *)
Definition reencoding_slack_len (old_buf : list Z)
    (ts : list Lines.line_table) : Z :=
  foldr (fun t n => reencoding_slack old_buf t + n) 0 ts.

(** ** A line table with a number that is not in its shortest form *)

(** A [.debug_line] payload with one version 2 table that names the
    file "/b/a.c"; the directory index 0 of the file is written in two
    bytes, 0x80 0x00. *)
Definition example_debug_line_padded : list Z :=
  [27; 0; 0; 0] ++ [2; 0] ++ [18; 0; 0; 0] ++ [1; 1; 1; 1; 1]
  ++ [0]
  ++ bytes_of_string "/b/a.c" ++ [0; 128; 0; 0; 0] ++ [0]
  ++ [0; 1; 1].

(** The registry after phase zero has seen that table. *)
Definition example_lines_padded : Lines.debug_lines :=
  match Lines.read_dwarf2_line ELFDATA2LSB example_cfg
          example_debug_line_padded
          {| Lines.table := []; Lines.debug_lines_len := 0;
             Lines.line_buf := None |} 0 None example_cu [] with
  | Done (_, lines, _) => lines
  | Exit _ =>
      {| Lines.table := []; Lines.debug_lines_len := 0;
         Lines.line_buf := None |}
  end.

(** ** Paths under [base_dir] *)

(** [skip_dir_prefix] accepts the path. *)
Definition under (dir_prefix path : list Z) : bool :=
  match Path.skip_dir_prefix path dir_prefix with
  | Some _ => true
  | None => false
  end.

(** The separators that the replacement of a path puts in front of the
    part [file] that [skip_dir_prefix] returns: one, or none when the
    part is empty. *)
Definition separators (file : list Z) : nat :=
  if (0 <? Path.strlen file)%nat then 1%nat else 0%nat.

(** The names of the directory table at [ptr]. *)
Definition dir_names (data : list Z) (ptr : nat) : list (list Z) :=
  fst (Lines.collect_dirs data ptr []).

(** The names of the file table at [ptr], entry by entry as phase zero
    goes through it. *)
Equations? file_names (data : list Z) (ptr : nat) : list (list Z)
  by wf (length data - ptr)%nat lt :=
  file_names data ptr
    with inspect (negb (Path.peek (Lines.cursor data ptr) 0 =? 0)) := {
    | exist _ true _ =>
        let file := Lines.cursor data ptr in
        let ptr := (ptr + Path.strlen file + 1)%nat in
        let p0 := Lines.cursor data ptr in
        let p1 := snd (Codec.read_uleb128 p0) in
        let p2 := snd (Codec.read_uleb128 p1) in
        let p3 := snd (Codec.read_uleb128 p2) in
        file :: file_names data (ptr + (length p0 - length p3))%nat
    | exist _ false _ => [] }.
Proof.
  unfold Path.peek, Lines.cursor in e.
  destruct (drop ptr0 data !! 0%nat) eqn:Hl; [|discriminate].
  apply lookup_lt_Some in Hl. rewrite length_drop in Hl. lia.
Qed.

(** ** The root of a path *)

(** The root [canonicalize_path] keeps in front of the segments: nothing
    for a relative name, "//" for a name that starts with exactly two
    separators, "/" for any other absolute name. *)
Definition root_of (p : list Z) : list Z :=
  if Path.IS_DIR_SEPARATOR (Path.peek p 0)
  then
    if Path.IS_DIR_SEPARATOR (Path.peek p 1)
       && negb (Path.IS_DIR_SEPARATOR (Path.peek p 2))
    then [Path.SLASH; Path.SLASH]
    else [Path.SLASH]
  else [].

(** ** The entry of an old string offset *)

(** The entry [update_str_offsets] takes for an old offset:
    [string_find_entry] with [accept_missing], which gives the dummy entry
    for an offset that was never registered. *)
Definition entry_of (debugedit_stridxentry : Strings.Strent)
    (strs : Strings.strings) (idx : Z) : Strings.Strent :=
  default debugedit_stridxentry (Strings.strent_root strs !! idx).

(** ** 4.D Building the relocation index: [setup_relbuf] *)

Module RelSetup.

Import Reloc.

(** [e_machine] values and relocation types of [<elf.h>]. *)
Definition EM_SPARC : Z := 2.
Definition EM_386 : Z := 3.
Definition EM_68K : Z := 4.
Definition EM_PARISC : Z := 15.
Definition EM_SPARC32PLUS : Z := 18.
Definition EM_PPC : Z := 20.
Definition EM_PPC64 : Z := 21.
Definition EM_S390 : Z := 22.
Definition EM_SPARCV9 : Z := 43.
Definition EM_IA_64 : Z := 50.
Definition EM_X86_64 : Z := 62.
Definition EM_AARCH64 : Z := 183.
Definition EM_AMDGPU : Z := 224.
Definition EM_RISCV : Z := 243.
Definition EM_LOONGARCH : Z := 258.
Definition EM_ALPHA : Z := 0x9026.

Definition R_SPARC_32 : Z := 3.
Definition R_SPARC_UA32 : Z := 23.
Definition R_386_32 : Z := 1.
Definition R_PPC_ADDR32 : Z := 1.
Definition R_PPC_UADDR32 : Z := 24.
Definition R_390_32 : Z := 4.
Definition R_PARISC_DIR32 : Z := 1.
Definition R_IA64_SECREL32LSB : Z := 0x65.
Definition R_X86_64_32 : Z := 10.
Definition R_ALPHA_REFLONG : Z := 1.
Definition R_AARCH64_ABS32 : Z := 258.
Definition R_68K_32 : Z := 1.
Definition R_RISCV_32 : Z := 1.
Definition R_LARCH_32 : Z := 1.
Definition R_AMDGPU_ABS32 : Z := 6.

Definition ELF64_R_SYM (i : Z) : Z := Z.shiftr i 32.
Definition ELF64_R_TYPE (i : Z) : Z := Z.land i 0xffffffff.

(** Conversion to [Elf64_Addr]. *)
Definition u64 (x : Z) : Z := x mod 18446744073709551616.

(** The [switch (dso->ehdr.e_machine)] of [setup_relbuf]: [false] is the
    jump to [fail].  The cases under [#if defined] are those whose
    constants [<elf.h>] defines (the [EM_MCST_ELBRUS] case needs
    [R_E2K_32_ABS], which it does not). *)
Definition handled (e_machine rtype : Z) : bool :=
  if (e_machine =? EM_SPARC) || (e_machine =? EM_SPARC32PLUS)
     || (e_machine =? EM_SPARCV9)
  then negb (negb (rtype =? R_SPARC_32) && negb (rtype =? R_SPARC_UA32))
  else if e_machine =? EM_386 then rtype =? R_386_32
  else if (e_machine =? EM_PPC) || (e_machine =? EM_PPC64)
  then negb (negb (rtype =? R_PPC_ADDR32) && negb (rtype =? R_PPC_UADDR32))
  else if e_machine =? EM_S390 then rtype =? R_390_32
  else if e_machine =? EM_PARISC then rtype =? R_PARISC_DIR32
  else if e_machine =? EM_IA_64 then rtype =? R_IA64_SECREL32LSB
  else if e_machine =? EM_X86_64 then rtype =? R_X86_64_32
  else if e_machine =? EM_ALPHA then rtype =? R_ALPHA_REFLONG
  else if e_machine =? EM_AARCH64 then rtype =? R_AARCH64_ABS32
  else if e_machine =? EM_68K then rtype =? R_68K_32
  else if e_machine =? EM_RISCV then rtype =? R_RISCV_32
  else if e_machine =? EM_LOONGARCH then rtype =? R_LARCH_32
  else if e_machine =? EM_AMDGPU then rtype =? R_AMDGPU_ABS32
  else false.

(** What the body of the [for] loop does with one entry. *)
Inductive entry_result :=
| Skip
| Keep (rel : REL)
| Fail.

Section setup_relbuf.

(** [dso->ehdr.e_machine], the type of the relocation section
    ([dso->shdr[i].sh_type]), [dso->shdr[sec->sec].sh_addr], and the
    section numbers of [.debug_str], [.debug_str_offsets], [.debug_line],
    [.debug_line_str], [.debug_macro] and [.debug_abbrev]. *)
Variable e_machine : Z.
Variable sh_type : Z.
Variable base : Z.
Variable debug_secs : list Z.
(** The symbol table the relocation section links to. *)
Variable symdata : list GElf_Sym.

(** The body of the loop behind [gelf_getsym], for the entry [rela] at
    [ndx] and its symbol. *)
Definition setup_relbuf_entry (sym : GElf_Sym) (ndx : nat) (rela : GElf_Rela)
  : entry_result :=
  if (sh_type =? SHT_REL) && (st_value sym =? 0) then Skip
  else if (st_shndx sym =? 0)
          || forallb (fun s => negb (st_shndx sym =? s)) debug_secs
  then Skip
  else
    let r_addend := r_addend rela + st_value sym in
    let rtype := ELF64_R_TYPE (r_info rela) in
    if handled e_machine rtype
    then Keep {| ptr := u64 (r_offset rela - base);
                 addend := u32 r_addend;
                 ndx := ndx |}
    else Fail.

(** [gelf_getrel] for [SHT_REL], [gelf_getrela] otherwise. *)
Definition get_rela (rela : GElf_Rela) : GElf_Rela :=
  if sh_type =? SHT_REL
  then {| r_offset := r_offset rela; r_info := r_info rela; r_addend := 0 |}
  else rela.

(** The [for (ndx = 0, relend = relbuf; ndx < maxndx; ++ndx)] loop over
    the entries from [ndx] on.  [sym] is the variable [sym]: the result
    of [gelf_getsym] is not tested, so a symbol index outside the table
    leaves in it what it held. *)
Fixpoint setup_relbuf_loop (entries : list GElf_Rela) (ndx : nat)
    (sym : GElf_Sym) (relbuf : list REL) : outcome (list REL) :=
  match entries with
  | [] => Done relbuf
  | rela :: entries =>
      let rela := get_rela rela in
      let sym :=
        default sym (symdata !! Z.to_nat (ELF64_R_SYM (r_info rela))) in
      match setup_relbuf_entry sym ndx rela with
      | Skip => setup_relbuf_loop entries (S ndx) sym relbuf
      | Keep rel => setup_relbuf_loop entries (S ndx) sym (relbuf ++ [rel])
      | Fail => Exit "Unhandled relocation"
      end
  end.

End setup_relbuf.

(** [rel_cmp (a, b) <= 0]. *)
Definition rel_le (a b : REL) : Prop := ptr a <= ptr b.

#[global] Instance rel_le_dec : RelDecision rel_le.
Proof. intros a b. unfold rel_le. apply _. Defined.

(** [setup_relbuf (dso, sec)].  [relsec] is the relocation section of
    [sec] ([None] for [sec->relsec == 0]): its type and its entries;
    [sym] is what the variable [sym] holds on entry.  The records are
    sorted with [qsort] and [rel_cmp]. *)
Definition setup_relbuf (e_machine base : Z) (debug_secs : list Z)
    (symdata : list GElf_Sym) (relsec : option (Z * list GElf_Rela))
    (sym : GElf_Sym) (sec : debug_section) : outcome debug_section :=
  match relsec, relbuf sec with
  | None, _ | _, Some _ => Done sec
  | Some (sh_type, entries), None =>
      relbuf ← setup_relbuf_loop e_machine sh_type base debug_secs symdata
                 entries 0 sym [];
      Done {| data := data sec;
              relbuf := match relbuf with
                        | [] => None
                        | _ => Some (merge_sort rel_le relbuf)
                        end;
              reltype := sh_type;
              rel_updated := rel_updated sec |}
  end.

End RelSetup.

(** A symbol table: the null symbol, a symbol at 16 in section 7 and a
    symbol at 0 in section 3. *)
Definition example_symdata : list Reloc.GElf_Sym :=
  [ {| Reloc.st_value := 0; Reloc.st_shndx := 0 |};
    {| Reloc.st_value := 16; Reloc.st_shndx := 7 |};
    {| Reloc.st_value := 0; Reloc.st_shndx := 3 |} ].

(** Three RELA entries of type [R_X86_64_32]: against the symbol in
    section 7 at offsets 8 and 0, and against the symbol in section 3. *)
Definition example_rela : list Reloc.GElf_Rela :=
  [ {| Reloc.r_offset := 8; Reloc.r_info := Z.shiftl 1 32 + 10;
       Reloc.r_addend := 4 |};
    {| Reloc.r_offset := 4; Reloc.r_info := Z.shiftl 2 32 + 10;
       Reloc.r_addend := 1 |};
    {| Reloc.r_offset := 0; Reloc.r_info := Z.shiftl 1 32 + 10;
       Reloc.r_addend := 0 |} ].

(** A section of twelve zero bytes that has no relocation index yet. *)
Definition example_info_sec : Reloc.debug_section :=
  {| Reloc.data := [0; 0; 0; 0; 0; 0; 0; 0; 0; 0; 0; 0];
     Reloc.relbuf := None; Reloc.reltype := 0; Reloc.rel_updated := false |}.

(** ** Abbreviation tables: [read_abbrev] and [skip_form] *)

Module Abbrev.

Import Codec.

(** Further constants of [<dwarf.h>]. *)
Definition DW_FORM_addr : Z := 0x01.
Definition DW_FORM_block2 : Z := 0x03.
Definition DW_FORM_block4 : Z := 0x04.
Definition DW_FORM_data2 : Z := 0x05.
Definition DW_FORM_data4 : Z := 0x06.
Definition DW_FORM_data8 : Z := 0x07.
Definition DW_FORM_block : Z := 0x09.
Definition DW_FORM_block1 : Z := 0x0a.
Definition DW_FORM_data1 : Z := 0x0b.
Definition DW_FORM_flag : Z := 0x0c.
Definition DW_FORM_sdata : Z := 0x0d.
Definition DW_FORM_udata : Z := 0x0f.
Definition DW_FORM_ref_addr : Z := 0x10.
Definition DW_FORM_ref1 : Z := 0x11.
Definition DW_FORM_ref2 : Z := 0x12.
Definition DW_FORM_ref4 : Z := 0x13.
Definition DW_FORM_ref8 : Z := 0x14.
Definition DW_FORM_ref_udata : Z := 0x15.
Definition DW_FORM_indirect : Z := 0x16.
Definition DW_FORM_sec_offset : Z := 0x17.
Definition DW_FORM_exprloc : Z := 0x18.
Definition DW_FORM_flag_present : Z := 0x19.
Definition DW_FORM_addrx : Z := 0x1b.
Definition DW_FORM_data16 : Z := 0x1e.
Definition DW_FORM_ref_sig8 : Z := 0x20.
Definition DW_FORM_implicit_const : Z := 0x21.
Definition DW_FORM_loclistx : Z := 0x22.
Definition DW_FORM_rnglistx : Z := 0x23.
Definition DW_FORM_addrx1 : Z := 0x29.
Definition DW_FORM_addrx2 : Z := 0x2a.
Definition DW_FORM_addrx3 : Z := 0x2b.
Definition DW_FORM_addrx4 : Z := 0x2c.

(** [struct abbrev_attr] and [struct abbrev_tag]; [nattr] is the length
    of [attrs]. *)
Record abbrev_attr := {
  attr : Z;
  form : Z
}.

Record abbrev_tag := {
  entry : Z;
  tag : Z;
  attrs : list abbrev_attr
}.

(** The hash table of [read_abbrev] is taken as a [gmap Z abbrev_tag]:
    [abbrev_hash] and [abbrev_eq] look at [entry] only. *)

(** The test on a form in [read_abbrev]: [false] is the branch that
    prints "Unknown DWARF DW_FORM". *)
Definition known_form (form : Z) : bool :=
  negb ((form =? 2)
        || ((DW_FORM_flag_present <? form)
            && negb ((form =? DW_FORM_ref_sig8)
                     || (form =? DW_FORM_data16)
                     || (form =? Info.DW_FORM_line_strp)
                     || (form =? DW_FORM_implicit_const)
                     || (form =? DW_FORM_addrx)
                     || (form =? DW_FORM_loclistx)
                     || (form =? DW_FORM_rnglistx)
                     || (form =? DW_FORM_addrx1)
                     || (form =? DW_FORM_addrx2)
                     || (form =? DW_FORM_addrx3)
                     || (form =? DW_FORM_addrx4)
                     || (form =? Info.DW_FORM_strx)
                     || (form =? Info.DW_FORM_strx1)
                     || (form =? Info.DW_FORM_strx2)
                     || (form =? Info.DW_FORM_strx3)
                     || (form =? Info.DW_FORM_strx4)))).

(** [read_uleb128] moves the cursor forward, and past a byte when the
    value is not 0. *)
Lemma read_uleb128_loop_length ptr : forall ret shift,
  (length (snd (read_uleb128_loop ptr ret shift)) <= length ptr)%nat
  /\ (ptr <> [] ->
      (length (snd (read_uleb128_loop ptr ret shift)) < length ptr)%nat).
Proof.
  induction ptr as [|c ptr IH]; intros ret shift; [split; [reflexivity|congruence]|].
  cbn [read_uleb128_loop].
  destruct (negb (Z.land c 128 =? 0)).
  - destruct (IH (Z.lor ret (u32 (Z.shiftl (Z.land c 127) shift))) (shift + 7))
      as [Hle _].
    cbn [length]. split; [lia|intros _; lia].
  - cbn [snd length]. split; [lia|intros _; lia].
Qed.

Lemma read_uleb128_length ptr v ptr' :
  read_uleb128 ptr = (v, ptr') ->
  (length ptr' <= length ptr)%nat
  /\ (v <> 0 -> (length ptr' < length ptr)%nat).
Proof.
  unfold read_uleb128.
  destruct (read_uleb128_loop_length ptr 0 0) as [Hle Hlt].
  destruct ptr as [|c ptr].
  - cbn. intros H. injection H as <- <-. split; [reflexivity|congruence].
  - destruct (read_uleb128_loop (c :: ptr) 0 0) as [[r s] q].
    cbn [snd] in *. intros H. injection H as _ <-.
    split; [exact Hle|intros _; apply Hlt; discriminate].
Qed.

(** The inner loop: the attributes of one abbreviation. *)
Inductive attrs_result :=
| Attrs (attrs : list abbrev_attr) (ptr : list Z)
| Unknown_form (form : Z).

Equations? read_attrs (ptr : list Z) (acc : list abbrev_attr) : attrs_result
  by wf (length ptr) lt :=
  read_attrs ptr acc with inspect (read_uleb128 ptr) := {
    | exist _ (attr, ptr1) _ with inspect (attr =? 0) := {
        | exist _ true _ => Attrs acc ptr1
        | exist _ false _ with inspect (read_uleb128 ptr1) := {
            | exist _ (form, ptr2) _ with inspect (known_form form) := {
                | exist _ false _ => Unknown_form form
                | exist _ true _ =>
                    let ptr3 :=
                      if form =? DW_FORM_implicit_const
                      then snd (read_uleb128 ptr2)
                      else ptr2 in
                    read_attrs ptr3
                      (acc ++ [{| attr := attr; form := form |}]) } } } }.
Proof.
  apply read_uleb128_length in e as [_ H1].
  apply read_uleb128_length in e1 as [H2 _].
  apply Z.eqb_neq in e0. specialize (H1 e0).
  subst ptr3.
  match goal with |- context [if ?c then _ else _] => destruct c end; [|lia].
  destruct (read_uleb128 ptr2) as [v p] eqn:E.
  apply read_uleb128_length in E as [H3 _]. cbn [snd]. lia.
Qed.

Lemma read_attrs_eq ptr acc :
  read_attrs ptr acc
  = let '(attr, ptr1) := read_uleb128 ptr in
    if attr =? 0 then Attrs acc ptr1
    else
      let '(form, ptr2) := read_uleb128 ptr1 in
      if known_form form
      then
        let ptr3 :=
          if form =? DW_FORM_implicit_const
          then snd (read_uleb128 ptr2)
          else ptr2 in
        read_attrs ptr3 (acc ++ [{| attr := attr; form := form |}])
      else Unknown_form form.
Proof.
  funelim (read_attrs ptr acc);
    repeat match goal with
           | E : read_uleb128 _ = _ |- _ => rewrite E
           | E : (_ =? _) = _ |- _ => rewrite E
           | E : known_form _ = _ |- _ => rewrite E
           end; reflexivity.
Qed.

Lemma read_attrs_length : forall n ptr acc attrs ptr',
  length ptr = n ->
  read_attrs ptr acc = Attrs attrs ptr' -> (length ptr' <= length ptr)%nat.
Proof.
  intros n. induction n as [n IH] using lt_wf_ind.
  intros ptr acc attrs ptr' Hn H. rewrite read_attrs_eq in H.
  destruct (read_uleb128 ptr) as [a ptr1] eqn:E1.
  apply read_uleb128_length in E1 as [Hle1 Hlt1].
  destruct (Z.eqb_spec a 0) as [|Hne].
  { injection H as _ <-. exact Hle1. }
  specialize (Hlt1 Hne).
  destruct (read_uleb128 ptr1) as [f ptr2] eqn:E2.
  apply read_uleb128_length in E2 as [Hle2 _].
  destruct (known_form f); [|discriminate]. cbv zeta in H.
  assert (Hle3 : (length (if (f =? DW_FORM_implicit_const)%Z
                          then snd (read_uleb128 ptr2) else ptr2)
                  <= length ptr2)%nat).
  { destruct (f =? DW_FORM_implicit_const)%Z; [|lia].
    destruct (read_uleb128 ptr2) as [v p] eqn:E.
    apply read_uleb128_length in E as [H3 _]. exact H3. }
  set (ptr3 := if (f =? DW_FORM_implicit_const)%Z
               then snd (read_uleb128 ptr2) else ptr2) in *.
  pose proof (IH (length ptr3) ltac:(lia) ptr3 _ attrs ptr' eq_refl H). lia.
Qed.

(** The result of [read_abbrev]: the table, or NULL with the line that
    was printed. *)
Inductive abbrev_result :=
| Table (h : gmap Z abbrev_tag)
| Error (msg : string).

(** The outer loop.  Running out of memory is not modelled. *)
Equations? read_abbrev_loop (ptr : list Z) (h : gmap Z abbrev_tag) : abbrev_result
  by wf (length ptr) lt :=
  read_abbrev_loop ptr h with inspect (read_uleb128 ptr) := {
    | exist _ (attr, ptr1) _ with inspect (attr =? 0) := {
        | exist _ true _ => Table h
        | exist _ false _ with inspect (h !! attr) := {
            | exist _ (Some _) _ => Error "Duplicate DWARF abbreviation"
            | exist _ None _ with inspect (read_uleb128 ptr1) := {
                | exist _ (tag, ptr2) _
                    with inspect (read_attrs (drop 1 ptr2) []) := {
                    | exist _ (Unknown_form form) _ =>
                        Error "Unknown DWARF DW_FORM"
                    | exist _ (Attrs attrs ptr3) _
                        with inspect (read_uleb128 ptr3) := {
                        | exist _ (z, ptr4) _ =>
                            if negb (z =? 0)
                            then Error "DWARF abbreviation does not end with 2 zeros"
                            else
                              read_abbrev_loop ptr4
                                (<[attr := {| entry := attr; tag := tag;
                                              attrs := attrs |}]> h) } } } } } }.
Proof.
  apply read_uleb128_length in e as [_ H1].
  apply Z.eqb_neq in e0. specialize (H1 e0).
  apply read_uleb128_length in e2 as [H2 _].
  apply read_attrs_length with (n := length (drop 1 ptr2)) in e3; [|reflexivity].
  apply read_uleb128_length in e4 as [H4 _].
  rewrite length_drop in e3. lia.
Qed.

(** [read_abbrev (dso, ptr)]. *)
Definition read_abbrev (ptr : list Z) : abbrev_result :=
  read_abbrev_loop ptr ∅.

(** The result of [skip_form]. *)
Inductive form_result := FORM_OK | FORM_ERROR | FORM_INDIRECT.

(** [skip_form (dso, formp, ptrp, cu)]: the result, [*formp] and [*ptrp]
    afterwards.  The [assert] ends the process. *)
Definition skip_form (e : ei_data) (form : Z) (ptr : list Z) (cu : Info.CU)
  : outcome (form_result * Z * list Z) :=
  let advance (n : Z) := Done (FORM_OK, form, drop (Z.to_nat n) ptr) in
  let block (len : Z) (ptr : list Z) :=
    Done (FORM_OK, DW_FORM_block1, drop (Z.to_nat len) ptr) in
  if form =? DW_FORM_ref_addr
  then if Info.cu_version cu =? 2 then advance (Info.ptr_size cu) else advance 4
  else if (form =? DW_FORM_flag_present) || (form =? DW_FORM_implicit_const)
  then Done (FORM_OK, form, ptr)
  else if form =? DW_FORM_addr then advance (Info.ptr_size cu)
  else if (form =? DW_FORM_ref1) || (form =? DW_FORM_flag)
          || (form =? DW_FORM_data1) || (form =? Info.DW_FORM_strx1)
          || (form =? DW_FORM_addrx1)
  then advance 1
  else if (form =? DW_FORM_ref2) || (form =? DW_FORM_data2)
          || (form =? Info.DW_FORM_strx2) || (form =? DW_FORM_addrx2)
  then advance 2
  else if (form =? Info.DW_FORM_strx3) || (form =? DW_FORM_addrx3)
  then advance 3
  else if (form =? DW_FORM_ref4) || (form =? DW_FORM_data4)
          || (form =? Info.DW_FORM_strx4) || (form =? DW_FORM_addrx4)
          || (form =? DW_FORM_sec_offset)
  then advance 4
  else if (form =? DW_FORM_ref8) || (form =? DW_FORM_data8)
          || (form =? DW_FORM_ref_sig8)
  then advance 8
  else if form =? DW_FORM_data16 then advance 16
  else if (form =? DW_FORM_sdata) || (form =? DW_FORM_ref_udata)
          || (form =? DW_FORM_udata) || (form =? Info.DW_FORM_strx)
          || (form =? DW_FORM_loclistx) || (form =? DW_FORM_rnglistx)
          || (form =? DW_FORM_addrx)
  then Done (FORM_OK, form, snd (read_uleb128 ptr))
  else if (form =? Info.DW_FORM_strp) || (form =? Info.DW_FORM_line_strp)
  then advance 4
  else if form =? Info.DW_FORM_string
  then Done (FORM_OK, form, drop (Path.strlen ptr + 1) ptr)
  else if form =? DW_FORM_indirect
  then
    let '(form, ptr) := read_uleb128 ptr in
    Done (FORM_INDIRECT, form, ptr)
  else if form =? DW_FORM_block1
  then block (Path.peek ptr 0) (drop 1 ptr)
  else if form =? DW_FORM_block2
  then block (do_read_16 e ptr) (drop 2 ptr)
  else if form =? DW_FORM_block4
  then block (do_read_32 e ptr) (drop 4 ptr)
  else if (form =? DW_FORM_block) || (form =? DW_FORM_exprloc)
  then
    let '(len, ptr) := read_uleb128 ptr in
    if len <? UINT_MAX then block len ptr
    else Exit "Assertion `len < UINT_MAX' failed"
  else Done (FORM_ERROR, form, ptr).

End Abbrev.

(** An abbreviation as the bytes of [.debug_abbrev]: code, tag, the
    children flag, the attribute and form pairs, and the two zeros that
    close it.  A [DW_FORM_implicit_const] pair is followed by its
    constant, which the table that [read_abbrev] builds does not keep:
    [const code i] is the LEB128 bytes of the constant of the pair [i] of
    the abbreviation [code]. *)
Definition encode_attr (k : list Z) (a : Abbrev.abbrev_attr) : list Z :=
  Codec.write_uleb128 (Abbrev.attr a) ++ Codec.write_uleb128 (Abbrev.form a)
  ++ (if Abbrev.form a =? Abbrev.DW_FORM_implicit_const then k else []).

Fixpoint encode_attrs (const : nat -> list Z) (i : nat)
    (ats : list Abbrev.abbrev_attr) : list Z :=
  match ats with
  | [] => []
  | a :: ats => encode_attr (const i) a ++ encode_attrs const (S i) ats
  end.

Definition encode_abbrev (const : Z -> nat -> list Z)
    (tc : Abbrev.abbrev_tag * Z) : list Z :=
  Codec.write_uleb128 (Abbrev.entry (fst tc))
  ++ Codec.write_uleb128 (Abbrev.tag (fst tc))
  ++ [snd tc]
  ++ encode_attrs (const (Abbrev.entry (fst tc))) 0 (Abbrev.attrs (fst tc))
  ++ [0; 0].

(** What the encoding above asks of an abbreviation: numbers that take
    at most four bytes, a code and attribute names that are not 0, forms
    [read_abbrev] knows, and for a [DW_FORM_implicit_const] pair a
    constant that is one LEB128 number. *)
Definition encodable_attr (k : list Z) (a : Abbrev.abbrev_attr) : Prop :=
  0 < Abbrev.attr a < 2 ^ 28
  /\ 0 <= Abbrev.form a < 2 ^ 28
  /\ Abbrev.known_form (Abbrev.form a) = true
  /\ (Abbrev.form a = Abbrev.DW_FORM_implicit_const -> is_uleb128 k = true).

Definition encodable (const : Z -> nat -> list Z) (t : Abbrev.abbrev_tag)
  : Prop :=
  0 < Abbrev.entry t < 2 ^ 28
  /\ 0 <= Abbrev.tag t < 2 ^ 28
  /\ forall i a, Abbrev.attrs t !! i = Some a ->
                 encodable_attr (const (Abbrev.entry t) i) a.

(** The abbreviation 1 of a compile unit ([DW_TAG_compile_unit], 0x11)
    with the attributes [DW_AT_name] in form [DW_FORM_strp] and
    [DW_AT_stmt_list] in form [DW_FORM_sec_offset]. *)
Definition example_abbrev : Abbrev.abbrev_tag :=
  {| Abbrev.entry := 1; Abbrev.tag := 0x11;
     Abbrev.attrs := [ {| Abbrev.attr := 0x03; Abbrev.form := 0x0e |};
                       {| Abbrev.attr := 0x10; Abbrev.form := 0x17 |} ] |}.

(** ** Section layout of the rewritten file *)

Module Layout.

(** Constants of [<elf.h>]. *)
Definition SHT_NOBITS : Z := 8.
Definition SHF_ALLOC : Z := 2.

(** The fields of [GElf_Shdr] the layout code of [main] uses. *)
Record GElf_Shdr := {
  sh_type : Z;
  sh_flags : Z;
  sh_offset : Z;
  sh_size : Z;
  sh_addralign : Z
}.

(** [debug_sections[...].sec] and [.size] for [.debug_str],
    [.debug_line_str] and [.debug_line]. *)
Record debug_sizes := {
  str_sec : Z;
  str_size : Z;
  line_str_sec : Z;
  line_str_size : Z;
  line_sec : Z;
  line_size : Z
}.

(** Arithmetic on [GElf_Off] and [size_t]. *)
Definition u64 (x : Z) : Z := x mod 18446744073709551616.

(** [(shdr->sh_flags & SHF_ALLOC) != 0]. *)
Definition allocated (shdr : GElf_Shdr) : bool :=
  negb (Z.land (sh_flags shdr) SHF_ALLOC =? 0).

(** "First find the last allocated section": the first [while] loop over
    the sections. *)
Fixpoint last_allocated (shdrs : list GElf_Shdr) (last_offset : Z) : Z :=
  match shdrs with
  | [] => last_offset
  | shdr :: shdrs =>
      let last_offset :=
        if allocated shdr
        then
          let off :=
            u64 (sh_offset shdr
                 + (if negb (sh_type shdr =? SHT_NOBITS) then sh_size shdr
                    else 0)) in
          if last_offset <? off then off else last_offset
        else last_offset in
      last_allocated shdrs last_offset
  end.

(** The size a section is given: its own, or the new size of one of the
    three sections that may have changed. *)
Definition new_size (d : debug_sizes) (secnum : Z) (shdr : GElf_Shdr) : Z :=
  let sec_size := sh_size shdr in
  let sec_size := if secnum =? str_sec d then str_size d else sec_size in
  let sec_size :=
    if secnum =? line_str_sec d then line_str_size d else sec_size in
  let sec_size := if secnum =? line_sec d then line_size d else sec_size in
  sec_size.

(** [(last_offset + addralign - 1) & ~(addralign - 1)]. *)
Definition align_up (last_offset addralign : Z) : Z :=
  Z.land (u64 (last_offset + addralign - 1)) (u64 (Z.lnot (addralign - 1))).

(** "Now adjust any sizes and offsets for the unallocated sections": the
    second loop.  [secnum] is [elf_ndxscn] of the first section of
    [shdrs].  The result is, for every section, its header afterwards
    and whether its data was flagged dirty, and the final
    [last_offset]. *)
Fixpoint place_sections (d : debug_sizes) (shdrs : list GElf_Shdr)
    (secnum : Z) (last_offset : Z) : list (GElf_Shdr * bool) * Z :=
  match shdrs with
  | [] => ([], last_offset)
  | shdr :: shdrs =>
      if negb (allocated shdr)
      then
        let sec_size := new_size d secnum shdr in
        let addralign :=
          if sh_addralign shdr =? 0 then 1 else sh_addralign shdr in
        let last_offset := align_up last_offset addralign in
        let sec_offset := last_offset in
        let last_offset :=
          if negb (sh_type shdr =? SHT_NOBITS)
          then u64 (last_offset + sec_size) else last_offset in
        let changed :=
          negb (sh_size shdr =? sec_size)
          || negb (sh_offset shdr =? sec_offset) in
        let dirty :=
          changed && negb (sh_offset shdr =? sec_offset)
          && negb (sh_type shdr =? SHT_NOBITS) in
        let shdr' :=
          if changed
          then {| sh_type := sh_type shdr; sh_flags := sh_flags shdr;
                  sh_offset := sec_offset; sh_size := sec_size;
                  sh_addralign := sh_addralign shdr |}
          else shdr in
        let '(placed, last_offset) :=
          place_sections d shdrs (secnum + 1) last_offset in
        ((shdr', dirty) :: placed, last_offset)
      else
        let '(placed, last_offset) :=
          place_sections d shdrs (secnum + 1) last_offset in
        ((shdr, false) :: placed, last_offset)
  end.

(** The layout of [main] for a file with program headers whose sections
    need an update: [after_phdrs] is
    [e_phoff + gelf_fsize (elf, ELF_T_PHDR, phnum, EV_CURRENT)],
    [offsize] is [gelf_fsize (elf, ELF_T_OFF, 1, EV_CURRENT)].  The
    result is the sections and the new [e_shoff]. *)
Definition layout (d : debug_sizes) (shdrs : list GElf_Shdr)
    (after_phdrs offsize : Z) : list (GElf_Shdr * bool) * Z :=
  let last_offset := last_allocated shdrs after_phdrs in
  let '(placed, last_offset) := place_sections d shdrs 1 last_offset in
  (placed, align_up last_offset offsize).

End Layout.

(** The bytes a section takes in the file. *)
Definition occupied (shdr : Layout.GElf_Shdr) : Z :=
  if Layout.sh_type shdr =? Layout.SHT_NOBITS then 0 else Layout.sh_size shdr.

(** An alignment the code can handle: 0 or 1 for none, or a power of
    two. *)
Definition alignment (a : Z) : Prop := a = 0 \/ exists k, 0 <= k /\ a = 2 ^ k.

(** An upper bound of what the sections that are placed can take from
    [secnum] on: the new size of each and its alignment. *)
Fixpoint budget (d : Layout.debug_sizes) (shdrs : list Layout.GElf_Shdr)
    (secnum : Z) : Z :=
  match shdrs with
  | [] => 0
  | shdr :: shdrs =>
      (if Layout.allocated shdr then 0
       else Z.max 1 (Layout.sh_addralign shdr) + Layout.new_size d secnum shdr)
      + budget d shdrs (secnum + 1)
  end.

(** Sections 1 to 4 of a small file: [.text], allocated, at 64; then
    [.debug_line] and [.debug_str], which have grown, and [.symtab]. *)
Definition example_shdrs : list Layout.GElf_Shdr :=
  [ {| Layout.sh_type := 1; Layout.sh_flags := 6; Layout.sh_offset := 64;
       Layout.sh_size := 10; Layout.sh_addralign := 16 |};
    {| Layout.sh_type := 1; Layout.sh_flags := 0; Layout.sh_offset := 74;
       Layout.sh_size := 31; Layout.sh_addralign := 1 |};
    {| Layout.sh_type := 1; Layout.sh_flags := 48; Layout.sh_offset := 105;
       Layout.sh_size := 15; Layout.sh_addralign := 1 |};
    {| Layout.sh_type := 2; Layout.sh_flags := 0; Layout.sh_offset := 120;
       Layout.sh_size := 48; Layout.sh_addralign := 8 |} ].

(** The new sizes: [.debug_line] (section 2) is 33 bytes and
    [.debug_str] (section 3) is 17 bytes; there is no [.debug_line_str]. *)
Definition example_sizes : Layout.debug_sizes :=
  {| Layout.str_sec := 3; Layout.str_size := 17;
     Layout.line_str_sec := 0; Layout.line_str_size := 0;
     Layout.line_sec := 2; Layout.line_size := 33 |}.

(** ** The archive classifier, [tools/debugedit-classify-ar.c] *)

Module ClassifyAr.

(** What libelf answers for a section of a member: whether
    [gelf_getshdr] gives a header, and the name [elf_strptr] gives for it
    ([None] is NULL). *)
Record Elf_Scn := {
  shdr : bool;
  sname : option (list Z)
}.

(** What libelf answers for a member of the archive: whether
    [elf_kind] is [ELF_K_ELF], the number [elf_getshdrnum] stores
    ([None] when it fails), whether [elf_getshdrstrndx] succeeds, and
    the sections [elf_nextscn] walks through. *)
Record Elf := {
  is_elf : bool;
  shdrnum : option Z;
  shdrstrndx : bool;
  scns : list Elf_Scn
}.

(** The [while ((scn = elf_nextscn (member, scn)) != NULL)] loop. *)
Fixpoint classify_scns (scns : list Elf_Scn) (found_debug : bool) : Z :=
  match scns with
  | [] => if found_debug then 1 else 0
  | scn :: scns =>
      if negb (shdr scn) then -1
      else
        match sname scn with
        | None => -1
        | Some sname =>
            let found_debug :=
              if Path.strncmp_eq sname (bytes_of_string ".debug_")
                   (Path.strlen (bytes_of_string ".debug_"))
                 || Path.strncmp_eq sname (bytes_of_string ".zdebug_")
                      (Path.strlen (bytes_of_string ".zdebug_"))
              then true else found_debug in
            classify_scns scns found_debug
        end
  end.

(** [classify_ar_member (member, name, file)]. *)
Definition classify_ar_member (member : Elf) : Z :=
  if negb (is_elf member) then 0
  else
    match shdrnum member with
    | None => -1
    | Some nshdrs =>
        if nshdrs =? 0 then 0
        else if negb (shdrstrndx member) then -1
        else classify_scns (scns member) false
    end.

(** A member as [classify_ar_elf] meets it: whether [elf_getarhdr]
    gives a header, the member itself, and whether [elf_end] returns
    0. *)
Record ar_member := {
  arhdr : bool;
  elf : Elf;
  elf_end : bool
}.

(** The [while ((elf = elf_begin (fd, cmd, ar)) != NULL)] loop; the
    result is [members], [err] and [found_debug] behind it. *)
Fixpoint classify_members (ar : list ar_member) (members : Z)
    (found_debug : bool) : Z * bool * bool :=
  match ar with
  | [] => (members, false, found_debug)
  | m :: ar =>
      if negb (arhdr m) then (members, true, found_debug)
      else
        let res := classify_ar_member (elf m) in
        let err := res <? 0 in
        let found_debug :=
          if negb err && (0 <? res) then true else found_debug in
        let err := if negb (elf_end m) then true else err in
        if err then (members, true, found_debug)
        else classify_members ar (members + 1) found_debug
  end.

(** [classify_ar_elf (fd, ar, file)], with the global [max_members]. *)
Definition classify_ar_elf (max_members : Z) (ar : list ar_member) : Z :=
  let '(members, err, found_debug) := classify_members ar 0 false in
  if err then -1
  else if negb found_debug then -1
  else if (0 <? max_members) && (max_members <? members) then -1
  else 0.

End ClassifyAr.

(** A member [classify_ar_elf] gets through without an error. *)
Definition member_ok (m : ClassifyAr.ar_member) : Prop :=
  ClassifyAr.arhdr m = true
  /\ ClassifyAr.classify_ar_member (ClassifyAr.elf m) <> -1
  /\ ClassifyAr.elf_end m = true.

(** A section name that marks debug information. *)
Definition debug_name (s : list Z) : Prop :=
  take 7 s = bytes_of_string ".debug_" \/ take 8 s = bytes_of_string ".zdebug_".

(** ** String references: [edit_strp] *)

Module Strp.

Import Reloc Strings Info.

Section edit_strp.

(** [strent_offset], the byte order, [debug_sections[DEBUG_STR_OFFSETS]]
    and the dummy entry. *)
Variable strent_offset : Strent -> Z.
Variable e : ei_data.
Variable str_offsets_sec : debug_section.
Variable debugedit_stridxentry : Strent.

(** [edit_strp (dso, form, ptr, phase, handled_strp, sec, cu)]; [ptr] is
    an offset into the payload of [sec], [fl] holds [need_strp_update]
    and [need_line_strp_update].  The result is the string pools and the
    section afterwards. *)
Definition edit_strp (fl : flags) (form ptr phase : Z) (handled_strp : bool)
    (dso : DSO) (sec : debug_section) (cu : CU)
  : outcome (DSO * debug_section) :=
  if phase =? 0
  then
    if negb handled_strp
    then
      '(idx, _) ← do_read_str_form_relocated e str_offsets_sec form ptr sec cu;
      dso ← record_existing_string_entry_idx (form =? DW_FORM_line_strp) dso idx;
      Done (dso, sec)
    else Done (dso, sec)
  else if ((form =? DW_FORM_strp) || (form =? DW_FORM_line_strp))
          && (if form =? DW_FORM_line_strp
              then need_line_strp_update fl else need_strp_update fl)
  then
    let strings :=
      if form =? DW_FORM_line_strp then debug_line_str dso
      else debug_str dso in
    let '(idx, last) := do_read_32_relocated e ptr sec in
    '(_, entry) ← string_find_entry debugedit_stridxentry strings idx false;
    let new_idx := strent_offset entry in
    Done (dso, do_write_32_relocated e last ptr new_idx sec)
  else Done (dso, sec).

End edit_strp.

End Strp.

(** A section that holds one [DW_FORM_strp] reference, to offset 2. *)
Definition example_strp_sec : Reloc.debug_section :=
  {| Reloc.data := [2; 0; 0; 0];
     Reloc.relbuf := None; Reloc.reltype := 0; Reloc.rel_updated := false |}.

(** ** The list file *)

(** The bytes of a list file that holds the names [names]: every name is
    followed by a NUL. *)
Definition listed (names : list (list Z)) : list Z :=
  concat (map (fun n => n ++ [0]) names).

(** A name as the list file holds it: without a NUL, and without a
    leading separator when [base_dir] is given. *)
Definition relative_name (cfg : config) (n : list Z) : Prop :=
  (0 ∉ n) /\ (is_Some (base_dir cfg) -> Path.peek n 0 <> Path.SLASH).

(** The configuration of the example with a list file. *)
Definition example_cfg_list : config :=
  {| base_dir := Some (bytes_of_string "/b");
     dest_dir := Some (bytes_of_string "/usr");
     list_file := true |}.

(** ** The unit headers of [edit_info] *)

Module CUHeader.

Import Reloc.

(** Unit types of [<dwarf.h>]. *)
Definition DW_UT_compile : Z := 0x01.
Definition DW_UT_type : Z := 0x02.
Definition DW_UT_partial : Z := 0x03.

(** What [edit_info] has read when it calls [read_abbrev] for a unit:
    the version, the unit type, the pointer size, the offset of the
    abbreviations, the end of the unit and the cursor (both as offsets
    into the section). *)
Record cu_header := {
  cu_version : Z;
  unit_type : Z;
  cu_ptr_size : Z;
  value : Z;
  endcu : Z;
  ptr : Z
}.

(** A header that was read, or [return 1] with the line printed. *)
Inductive header_result :=
| Header (h : cu_header)
| Bad (msg : string).

(** The body of the [while (ptr < endsec)] loop of [edit_info] from
    [cu_start = ptr] up to the call of [read_abbrev].  [is_debug_info] is
    [sec == &debug_sections[DEBUG_INFO]]; [abbrev_size] and
    [abbrev_data] are [debug_sections[DEBUG_ABBREV].size] and whether its
    [data] is not NULL. *)
Definition edit_info_header (e : ei_data) (is_debug_info : bool)
    (abbrev_size : Z) (abbrev_data : bool) (sec : debug_section)
    (cu_start : Z) : header_result :=
  let endsec := Z.of_nat (length (data sec)) in
  let rd (p : Z) := drop (Z.to_nat p) (data sec) in
  let ptr := cu_start in
  if ptr + 4 + 2 + 1 + 1 >? endsec then Bad "CU header too small"
  else
    let endcu := ptr + 4 in
    let endcu := endcu + do_read_32 e (rd ptr) in
    let ptr := ptr + 4 in
    if endcu =? ptr + 0xffffffff then Bad "64-bit DWARF not supported"
    else if endcu >? endsec then Bad "too small"
    else
      let cu_version := do_read_16 e (rd ptr) in
      let ptr := ptr + 2 in
      if negb (cu_version =? 2) && negb (cu_version =? 3)
         && negb (cu_version =? 4) && negb (cu_version =? 5)
      then Bad "DWARF version unhandled"
      else
        let unit_type :=
          if 5 <=? cu_version then Path.peek (rd ptr) 0 else DW_UT_compile in
        if (5 <=? cu_version)
           && (negb (unit_type =? DW_UT_compile)
               && negb (unit_type =? DW_UT_partial)
               && negb (unit_type =? DW_UT_type))
        then Bad "Unit type unhandled"
        else
          let cu_ptr_size :=
            if 5 <=? cu_version then Path.peek (rd (ptr + 1)) 0 else 0 in
          let ptr := if 5 <=? cu_version then ptr + 1 + 1 else ptr in
          let header_end :=
            cu_start + 23
            + (if cu_version <? 5 then 0
               else if negb (unit_type =? DW_UT_type) then 1
                    else 1 + 8 + 4) in
          if header_end >? endsec then Bad "CU header too small"
          else
            let value := fst (do_read_32_relocated e ptr sec) in
            let ptr := ptr + 4 in
            if value >=? abbrev_size
            then
              if negb abbrev_data then Bad ".debug_abbrev not present"
              else Bad "DWARF CU abbrev offset too large"
            else
              let cu_ptr_size :=
                if cu_version <? 5 then Path.peek (rd ptr) 0
                else cu_ptr_size in
              let ptr := if cu_version <? 5 then ptr + 1 else ptr in
              if negb (cu_ptr_size =? 4) && negb (cu_ptr_size =? 8)
              then Bad "Invalid DWARF pointer size"
              else
                let ptr :=
                  if negb is_debug_info || (unit_type =? DW_UT_type)
                  then ptr + 12 else ptr in
                Header {| cu_version := cu_version; unit_type := unit_type;
                          cu_ptr_size := cu_ptr_size; value := value;
                          endcu := endcu; ptr := ptr |}.

End CUHeader.

(** A [.debug_info] of 23 bytes with one unit of version 4: length 19,
    abbreviations at offset 0, pointer size 8, and twelve bytes of
    entries. *)
Definition example_info_unit : Reloc.debug_section :=
  {| Reloc.data := [19; 0; 0; 0] ++ [4; 0] ++ [0; 0; 0; 0] ++ [8]
                   ++ [1; 0; 0; 0; 0; 0; 0; 0; 0; 0; 0; 0];
     Reloc.relbuf := None; Reloc.reltype := 0; Reloc.rel_updated := false |}.

(* ===================================================================== *)
(** * Part II: properties                                                 *)
(* ===================================================================== *)

Ltac pair_eq :=
  repeat (apply pair_equal_spec; split); try reflexivity; try lia.

(** ** Bytes and bits *)

Lemma byte_cases (P : Z -> bool) :
  forallb P (map Z.of_nat (seq 0 256)) = true ->
  forall c, 0 <= c < 256 -> P c = true.
Proof.
  intros H c Hc. rewrite forallb_forall in H. apply H.
  apply in_map_iff. exists (Z.to_nat c). split; [lia|].
  apply in_seq. lia.
Qed.

Lemma land_0x80 c : 0 <= c < 256 -> Z.land c 0x80 = if c <? 128 then 0 else 128.
Proof.
  intros Hc.
  apply Z.eqb_eq.
  apply (byte_cases (fun c => Z.land c 0x80 =? (if c <? 128 then 0 else 128)));
    [vm_compute; reflexivity | exact Hc].
Qed.

Lemma land_0x7f c : Z.land c 0x7f = c mod 128.
Proof. change 0x7f with (Z.ones 7). rewrite Z.land_ones by lia. reflexivity. Qed.

Lemma lor_0x80 c : 0 <= c < 128 -> Z.lor c 0x80 = c + 128.
Proof.
  intros Hc.
  pose proof (byte_cases (fun c => (128 <=? c) || (Z.lor c 0x80 =? c + 128))
                ltac:(vm_compute; reflexivity) c ltac:(lia)) as H.
  cbv beta in H. destruct (128 <=? c) eqn:E; [lia|].
  apply Z.eqb_eq in H. exact H.
Qed.

Lemma lor_disjoint a b n :
  0 <= n -> 0 <= a < 2 ^ n -> Z.lor a (b * 2 ^ n) = a + b * 2 ^ n.
Proof.
  intros Hn Ha. rewrite <- (Z.add_lor_land a (b * 2 ^ n)).
  enough (Z.land a (b * 2 ^ n) = 0) by lia.
  apply Z.bits_inj'. intros i Hi.
  rewrite Z.land_spec, Z.bits_0.
  destruct (Z.lt_ge_cases i n) as [Hlt|Hge].
  - rewrite Z.mul_pow2_bits_low by lia. apply andb_false_r.
  - rewrite <- (Z.mod_small a (2 ^ n)) by lia.
    rewrite Z.mod_pow2_bits_high by lia. reflexivity.
Qed.

(** ** 4.A Byte codec *)

Example read_ex : Codec.read_uleb128 [0xe5; 0x8e; 0x26; 7] = (624485, [7]).
Proof. reflexivity. Qed.

Example write_ex : Codec.write_uleb128 624485 = [0xe5; 0x8e; 0x26].
Proof. reflexivity. Qed.

Section CodecFacts.

Import Codec.

Lemma write_uleb128_loop_eq valv :
  write_uleb128_loop valv =
  if 0 <? Z.shiftr valv 7
  then Z.lor (Z.land valv 0x7f) 0x80 :: write_uleb128_loop (Z.shiftr valv 7)
  else [Z.land valv 0x7f].
Proof.
  funelim (write_uleb128_loop valv);
    match goal with E : (0 <? _) = _ |- _ => rewrite E end; reflexivity.
Qed.

Lemma is_uleb128_cons b bs :
  bs <> [] -> is_uleb128 (b :: bs) = (128 <=? b) && (b <? 256) && is_uleb128 bs.
Proof. destruct bs; [congruence | reflexivity]. Qed.

Lemma is_uleb128_nonempty bs : is_uleb128 bs = true -> bs <> [].
Proof. destruct bs; [discriminate | congruence]. Qed.

Lemma uleb128_value_bounds bs :
  is_uleb128 bs = true ->
  0 <= uleb128_value bs < 2 ^ (7 * Z.of_nat (length bs)).
Proof.
  induction bs as [|b bs IH]; [discriminate|].
  intros H. destruct bs as [|b' bs].
  - simpl in *. apply andb_prop in H as [H1 H2].
    rewrite Z.mod_small by lia. lia.
  - rewrite is_uleb128_cons in H by discriminate.
    apply andb_prop in H as [_ H]. specialize (IH H).
    change (uleb128_value (b :: b' :: bs))
      with (b mod 128 + 128 * uleb128_value (b' :: bs)).
    remember (b' :: bs) as l. rewrite length_cons.
    replace (7 * Z.of_nat (S (length l))) with (7 + 7 * Z.of_nat (length l)) by lia.
    rewrite Z.pow_add_r by lia.
    pose proof (Z.mod_pos_bound b 128 ltac:(lia)). nia.
Qed.

(** The decoding loop on an encoding that fits the 32-bit accumulator. *)
Lemma read_uleb128_loop_spec bs rest ret shift :
  is_uleb128 bs = true ->
  0 <= shift -> 0 <= ret < 2 ^ shift ->
  shift + 7 * Z.of_nat (length bs) <= 32 ->
  read_uleb128_loop (bs ++ rest) ret shift
  = (ret + uleb128_value bs * 2 ^ shift,
     shift + 7 * Z.of_nat (length bs), rest).
Proof.
  revert ret shift. induction bs as [|b bs IH]; [discriminate|].
  intros ret shift Hwf Hs Hret Hlen. rewrite length_cons in Hlen.
  assert (Hgrp : 0 <= b mod 128 < 128) by (apply Z.mod_pos_bound; lia).
  assert (Hpow : 0 < 2 ^ shift) by (apply Z.pow_pos_nonneg; lia).
  assert (Hsh : u32 (Z.shiftl (Z.land b 0x7f) shift) = b mod 128 * 2 ^ shift).
  { rewrite land_0x7f, Z.shiftl_mul_pow2 by lia. unfold u32.
    apply Z.mod_small. split; [nia|].
    assert (2 ^ (shift + 7) <= 2 ^ 32) by (apply Z.pow_le_mono_r; lia).
    rewrite Z.pow_add_r in * by lia. nia. }
  simpl app. cbn [read_uleb128_loop]. rewrite Hsh, lor_disjoint by lia.
  destruct bs as [|b' bs].
  - simpl in Hwf. apply andb_prop in Hwf as [H1 H2].
    rewrite land_0x80 by lia.
    destruct (b <? 128) eqn:E; [|lia]. simpl.
    pair_eq.
  - rewrite is_uleb128_cons in Hwf by discriminate.
    apply andb_prop in Hwf as [Hb Hwf]. apply andb_prop in Hb as [Hb1 Hb2].
    rewrite land_0x80 by lia.
    destruct (b <? 128) eqn:E; [lia|]. simpl negb. cbv iota.
    remember (b' :: bs) as l.
    rewrite IH; try lia; try assumption.
    + rewrite length_cons.
      change (uleb128_value (b :: l)) with (b mod 128 + 128 * uleb128_value l).
      replace (shift + 7) with (7 + shift) by lia.
      rewrite Z.pow_add_r by lia.
      pair_eq.
    + rewrite Z.pow_add_r by lia. nia.
Qed.

(** Whatever the payload, the loop stops behind the encoding, with seven
    bits counted for every byte. *)
Lemma read_uleb128_loop_cursor bs rest ret shift :
  is_uleb128 bs = true ->
  exists ret',
    read_uleb128_loop (bs ++ rest) ret shift
    = (ret', shift + 7 * Z.of_nat (length bs), rest).
Proof.
  revert ret shift. induction bs as [|b bs IH]; [discriminate|].
  intros ret shift Hwf. simpl app. cbn [read_uleb128_loop].
  destruct bs as [|b' bs].
  - simpl in Hwf. apply andb_prop in Hwf as [H1 H2].
    rewrite land_0x80 by lia. destruct (b <? 128) eqn:E; [|lia]. simpl.
    eexists. pair_eq.
  - rewrite is_uleb128_cons in Hwf by discriminate.
    apply andb_prop in Hwf as [Hb Hwf]. apply andb_prop in Hb as [Hb1 Hb2].
    rewrite land_0x80 by lia.
    destruct (b <? 128) eqn:E; [lia|]. simpl negb. cbv iota.
    remember (b' :: bs) as l.
    destruct (IH (Z.lor ret (u32 (Z.shiftl (Z.land b 0x7f) shift))) (shift + 7) Hwf)
      as [ret' Hr].
    exists ret'. rewrite Hr, length_cons. pair_eq.
Qed.

(** [read_uleb128] on any well-formed encoding: the value when the
    encoding has at most four bytes, [UINT_MAX] from five bytes on. *)
Lemma read_uleb128_encoding bs rest :
  is_uleb128 bs = true ->
  read_uleb128 (bs ++ rest)
  = (if (length bs <=? 4)%nat then uleb128_value bs else UINT_MAX, rest).
Proof.
  intros Hwf. unfold read_uleb128.
  destruct (length bs <=? 4)%nat eqn:E.
  - apply Nat.leb_le in E.
    rewrite read_uleb128_loop_spec by (try assumption; lia).
    destruct (35 <=? 0 + 7 * Z.of_nat (length bs)) eqn:E'; [lia|].
    f_equal. lia.
  - apply Nat.leb_gt in E.
    destruct (read_uleb128_loop_cursor bs rest 0 0 Hwf) as [ret' ->].
    destruct (35 <=? 0 + 7 * Z.of_nat (length bs)) eqn:E'; [reflexivity|lia].
Qed.

(** What the encoding loop stores for a non-negative value. *)
Lemma write_uleb128_loop_spec valv :
  0 <= valv ->
  is_uleb128 (write_uleb128_loop valv) = true
  /\ uleb128_value (write_uleb128_loop valv) = valv
  /\ (valv = 0 /\ write_uleb128_loop valv = [0]
      \/ 0 < valv /\ last (write_uleb128_loop valv) <> Some 0
         /\ 2 ^ (7 * (Z.of_nat (length (write_uleb128_loop valv)) - 1)) <= valv).
Proof.
  intros Hv0. pattern valv. revert valv Hv0.
  apply (well_founded_induction (Z.lt_wf 0)
           (fun valv => 0 <= valv -> _)).
  intros v IH Hv. rewrite write_uleb128_loop_eq.
  rewrite Z.shiftr_div_pow2 by lia. change (2 ^ 7) with 128.
  pose proof (Z.div_mod v 128 ltac:(lia)) as Hdm.
  pose proof (Z.mod_pos_bound v 128 ltac:(lia)) as Hm.
  rewrite land_0x7f.
  destruct (0 <? v / 128) eqn:E.
  - apply Z.ltb_lt in E.
    destruct (IH (v / 128) ltac:(lia) ltac:(lia)) as (Hwf & Hval & Hmin).
    rewrite lor_0x80 by lia.
    pose proof (is_uleb128_nonempty _ Hwf) as Hne.
    destruct Hmin as [[? _]|(_ & Hlast & Hlow)]; [lia|].
    split; [|split].
    + rewrite is_uleb128_cons by assumption. rewrite Hwf.
      destruct (128 <=? v mod 128 + 128) eqn:E1; [|lia].
      destruct (v mod 128 + 128 <? 256) eqn:E2; [reflexivity|lia].
    + cbn [uleb128_value]. rewrite Hval.
      assert ((v mod 128 + 128) mod 128 = v mod 128) as ->; [|lia].
      replace (v mod 128 + 128) with (v mod 128 + 1 * 128) by lia.
      rewrite Z.mod_add by lia. apply Z.mod_small. lia.
    + right. split; [lia|]. split.
      * destruct (write_uleb128_loop (v / 128)) as [|c l]; [congruence|].
        exact Hlast.
      * rewrite length_cons.
        replace (7 * (Z.of_nat (S (length (write_uleb128_loop (v / 128)))) - 1))
          with (7 + 7 * (Z.of_nat (length (write_uleb128_loop (v / 128))) - 1))
          by lia.
        assert (0 < length (write_uleb128_loop (v / 128)))%nat
          by (destruct (write_uleb128_loop (v / 128)); [congruence|simpl; lia]).
        rewrite Z.pow_add_r by lia. lia.
  - apply Z.ltb_ge in E.
    assert (v / 128 = 0) by (pose proof (Z.div_pos v 128); lia).
    assert (Hsmall : v mod 128 = v) by lia. rewrite Hsmall.
    split; [|split].
    + simpl. destruct (0 <=? v) eqn:E1; [|lia].
      destruct (v <? 128) eqn:E2; [reflexivity|lia].
    + simpl. lia.
    + destruct (Z.eq_dec v 0) as [->|]; [left; split; reflexivity|].
      right. split; [lia|]. split; [simpl; congruence|]. simpl. lia.
Qed.

(** No encoding of a value is shorter than the one that is written. *)
Lemma write_uleb128_loop_shortest valv bs :
  0 <= valv -> is_uleb128 bs = true -> uleb128_value bs = valv ->
  (length (write_uleb128_loop valv) <= length bs)%nat.
Proof.
  intros Hv Hwf Hval.
  pose proof (uleb128_value_bounds bs Hwf) as Hb. rewrite Hval in Hb.
  destruct (write_uleb128_loop_spec valv Hv) as (_ & _ & [[-> ->]|(Hpos & _ & Hlow)]).
  - destruct bs; [discriminate|simpl; lia].
  - assert (7 * (Z.of_nat (length (write_uleb128_loop valv)) - 1)
            < 7 * Z.of_nat (length bs)); [|lia].
    apply (Z.pow_lt_mono_r_iff 2); lia.
Qed.

Lemma write_uleb128_length_bound valv :
  0 <= valv < 2 ^ 28 -> (length (write_uleb128_loop valv) <= 4)%nat.
Proof.
  intros Hv.
  destruct (write_uleb128_loop_spec valv ltac:(lia))
    as (_ & _ & [[-> ->]|(Hpos & _ & Hlow)]); [simpl; lia|].
  assert (7 * (Z.of_nat (length (write_uleb128_loop valv)) - 1) < 28); [|lia].
  apply (Z.pow_lt_mono_r_iff 2); lia.
Qed.

(** C9. Writing a value below 2^28 with [write_uleb128] and decoding the
    bytes with [read_uleb128] gives the value back (and the cursor
    behind the bytes); what is written is a well-formed encoding of the
    value, no encoding of it is shorter, and 0 takes one byte. *)
Theorem uleb128_write_read (v : Z) (rest : list Z) :
  0 <= v < 2 ^ 28 ->
  read_uleb128 (write_uleb128 v ++ rest) = (v, rest)
  /\ is_uleb128 (write_uleb128 v) = true
  /\ uleb128_value (write_uleb128 v) = v
  /\ is_minimal (write_uleb128 v) = true
  /\ (forall bs, is_uleb128 bs = true -> uleb128_value bs = v ->
                 (length (write_uleb128 v) <= length bs)%nat)
  /\ (v = 0 -> length (write_uleb128 v) = 1%nat).
Proof.
  intros Hv. unfold write_uleb128.
  assert (Hu : u32 v = v) by (unfold u32; apply Z.mod_small; lia).
  rewrite Hu.
  destruct (write_uleb128_loop_spec v ltac:(lia)) as (Hwf & Hval & Hmin).
  pose proof (write_uleb128_length_bound v Hv) as Hlen.
  repeat split.
  - rewrite read_uleb128_encoding by assumption.
    apply Nat.leb_le in Hlen. rewrite Hlen, Hval. reflexivity.
  - exact Hwf.
  - exact Hval.
  - unfold is_minimal. destruct Hmin as [[_ ->]|(_ & Hlast & _)]; [reflexivity|].
    rewrite bool_decide_eq_false_2 by assumption. apply orb_true_r.
  - intros bs. apply write_uleb128_loop_shortest. lia.
  - intros ->. reflexivity.
Qed.

Lemma uleb128_write_read_witness :
  read_uleb128 (write_uleb128 624485 ++ [7]) = (624485, [7]).
Proof. exact (proj1 (uleb128_write_read 624485 [7] ltac:(lia))). Defined.

(** A minimal encoding has as many bytes as its value needs. *)
Lemma minimal_encoding_length bs :
  is_uleb128 bs = true -> is_minimal bs = true ->
  (uleb128_value bs < 2 ^ 28 <-> (length bs <= 4)%nat).
Proof.
  intros Hwf Hmin.
  pose proof (uleb128_value_bounds bs Hwf) as Hb.
  split.
  - intros Hlt.
    assert (Hlow : length bs = 1%nat
                   \/ 2 ^ (7 * (Z.of_nat (length bs) - 1)) <= uleb128_value bs).
    { clear Hlt Hb. induction bs as [|b bs IH]; [discriminate|].
      destruct bs as [|b' bs]; [left; reflexivity|]. right.
      rewrite is_uleb128_cons in Hwf by discriminate.
      apply andb_prop in Hwf as [_ Hwf].
      assert (Hmin' : is_minimal (b' :: bs) = true).
      { unfold is_minimal in *. apply orb_true_iff in Hmin as [Hmin|Hmin].
        - simpl in Hmin. discriminate.
        - apply orb_true_iff. right. exact Hmin. }
      remember (b' :: bs) as l.
      change (uleb128_value (b :: l)) with (b mod 128 + 128 * uleb128_value l).
      pose proof (Z.mod_pos_bound b 128 ltac:(lia)).
      rewrite length_cons.
      destruct (IH Hwf Hmin') as [H1|Hlow].
      + rewrite H1. change (2 ^ (7 * (Z.of_nat 2 - 1))) with 128.
        assert (0 < uleb128_value l); [|lia].
        destruct l as [|c [|? ?]]; try discriminate.
        unfold is_minimal in Hmin. simpl in Hmin, Hwf |- *.
        apply andb_prop in Hwf as [? ?].
        rewrite Z.mod_small by lia.
        destruct (Z.eq_dec c 0) as [->|]; [|lia].
        rewrite bool_decide_eq_true_2 in Hmin by reflexivity. discriminate.
      + replace (7 * (Z.of_nat (S (length l)) - 1))
          with (7 + 7 * (Z.of_nat (length l) - 1)) by lia.
        assert (0 < length l)%nat by (subst l; simpl; lia).
        rewrite Z.pow_add_r by lia. lia. }
    destruct Hlow as [->|Hlow]; [lia|].
    assert (7 * (Z.of_nat (length bs) - 1) < 28); [|lia].
    apply (Z.pow_lt_mono_r_iff 2); lia.
  - intros Hlen.
    assert (2 ^ (7 * Z.of_nat (length bs)) <= 2 ^ 28)
      by (apply Z.pow_le_mono_r; lia).
    lia.
Qed.

(** C5 (as the code has it). On every well-formed encoding
    [read_uleb128] returns the encoded value when the encoding has at
    most four bytes and [UINT_MAX] when it has five or more, with the
    cursor behind the encoding; so a minimal encoding is decoded to its
    value exactly when the value is below 2^28, and saturates from 2^28
    on. *)
Theorem read_uleb128_saturation (bs rest : list Z) :
  is_uleb128 bs = true ->
  read_uleb128 (bs ++ rest)
  = (if (length bs <=? 4)%nat then uleb128_value bs else UINT_MAX, rest)
  /\ (is_minimal bs = true ->
      (uleb128_value bs < 2 ^ 28 ->
       read_uleb128 (bs ++ rest) = (uleb128_value bs, rest))
      /\ (2 ^ 28 <= uleb128_value bs ->
          read_uleb128 (bs ++ rest) = (UINT_MAX, rest))).
Proof.
  intros Hwf. split; [apply read_uleb128_encoding; exact Hwf|].
  intros Hmin. rewrite read_uleb128_encoding by exact Hwf.
  pose proof (minimal_encoding_length bs Hwf Hmin) as Hlen.
  split; intros Hv.
  - apply Hlen in Hv. apply Nat.leb_le in Hv. rewrite Hv. reflexivity.
  - destruct (length bs <=? 4)%nat eqn:E; [|reflexivity].
    apply Nat.leb_le in E. apply Hlen in E. lia.
Qed.

Lemma read_uleb128_saturation_witness :
  read_uleb128 ([0xe5; 0x8e; 0x26] ++ [7]) = (624485, [7])
  /\ read_uleb128 ([0x80; 0x80; 0x80; 0x80; 0x01] ++ [7]) = (UINT_MAX, [7]).
Proof.
  split.
  - exact (proj1 (read_uleb128_saturation [0xe5; 0x8e; 0x26] [7] eq_refl)).
  - exact (proj1 (read_uleb128_saturation [0x80; 0x80; 0x80; 0x80; 0x01] [7]
                    eq_refl)).
Defined.

(** C5 as stated fails: the minimal encoding of 2^28, a value that fits
    in 32 bits, is decoded to [UINT_MAX]; and the overlong encoding
    [80 00] of 0 is decoded to 0 and does not saturate. *)
Lemma read_uleb128_counterexample :
  (is_uleb128 [0x80; 0x80; 0x80; 0x80; 0x01] = true
   /\ is_minimal [0x80; 0x80; 0x80; 0x80; 0x01] = true
   /\ uleb128_value [0x80; 0x80; 0x80; 0x80; 0x01] = 2 ^ 28
   /\ 2 ^ 28 <= UINT_MAX
   /\ fst (read_uleb128 [0x80; 0x80; 0x80; 0x80; 0x01]) = UINT_MAX
   /\ fst (read_uleb128 [0x80; 0x80; 0x80; 0x80; 0x01]) <> 2 ^ 28)
  /\ (is_uleb128 [0x80; 0x00] = true
      /\ is_minimal [0x80; 0x00] = false
      /\ uleb128_value [0x80; 0x00] = 0
      /\ fst (read_uleb128 [0x80; 0x00]) = 0
      /\ fst (read_uleb128 [0x80; 0x00]) <> UINT_MAX).
Proof. vm_compute. repeat split; congruence. Qed.

End CodecFacts.

(** ** 4.D Relocation index *)

Section RelocFacts.

Import Reloc.

Lemma find_rel_loop_eq relptr xptr l r :
  find_rel_loop relptr xptr l r =
  if (l <? r)%nat
  then
    let m := ((l + r) / 2)%nat in
    match relptr !! m with
    | Some rel =>
        if ptr rel <? xptr then find_rel_loop relptr xptr (m + 1)%nat r
        else if ptr rel >? xptr then find_rel_loop relptr xptr l m
        else m
    | None => length relptr
    end
  else length relptr.
Proof.
  funelim (find_rel_loop relptr xptr l r);
    match goal with E : (_ <? _)%nat = _ |- _ => rewrite E end; reflexivity.
Qed.

Lemma midpoint l r : (l < r)%nat -> (l <= (l + r) / 2 < r)%nat.
Proof.
  intros H.
  pose proof (Nat.div_mod_eq (l + r) 2) as Hd.
  pose proof (Nat.mod_upper_bound (l + r) 2 ltac:(lia)) as Hu.
  lia.
Qed.

(** The binary search: a record at [xptr] between [l] and [r] is found,
    and [relend] is returned when there is none. *)
Lemma find_rel_loop_spec relptr xptr :
  sorted_by_ptr relptr ->
  forall n l r,
    (r - l = n)%nat -> (l <= r <= length relptr)%nat ->
    let k := find_rel_loop relptr xptr l r in
    (k = length relptr
     /\ forall i rel, (l <= i < r)%nat -> relptr !! i = Some rel ->
                      ptr rel <> xptr)
    \/ ((l <= k < r)%nat
        /\ exists rel, relptr !! k = Some rel /\ ptr rel = xptr).
Proof.
  intros Hsorted n. induction n as [n IH] using lt_wf_ind.
  intros l r Hn Hlr. cbv zeta. rewrite find_rel_loop_eq.
  destruct (l <? r)%nat eqn:E.
  - apply Nat.ltb_lt in E. pose proof (midpoint l r E) as Hm.
    cbv zeta. set (m := ((l + r) / 2)%nat) in *.
    destruct (relptr !! m) as [rel|] eqn:Hrel.
    2: { apply lookup_ge_None in Hrel. lia. }
    destruct (ptr rel <? xptr) eqn:E1; [|destruct (ptr rel >? xptr) eqn:E2].
    + apply Z.ltb_lt in E1.
      destruct (IH (r - (m + 1))%nat ltac:(lia) (m + 1)%nat r eq_refl ltac:(lia))
        as [[Hk Hno]|[Hk Hhit]].
      * left. split; [exact Hk|]. intros i rel' Hi Hl.
        destruct (le_lt_dec i m) as [Hle|Hgt].
        -- pose proof (Hsorted i m rel' rel Hl Hrel Hle). lia.
        -- apply (Hno i rel'); [lia | exact Hl].
      * right. split; [lia | exact Hhit].
    + apply Z.gtb_lt in E2.
      destruct (IH (m - l)%nat ltac:(lia) l m eq_refl ltac:(lia))
        as [[Hk Hno]|[Hk Hhit]].
      * left. split; [exact Hk|]. intros i rel' Hi Hl.
        destruct (le_lt_dec m i) as [Hle|Hgt].
        -- pose proof (Hsorted m i rel rel' Hrel Hl Hle). lia.
        -- apply (Hno i rel'); [lia | exact Hl].
      * right. split; [lia | exact Hhit].
    + right. split; [lia|]. exists rel. split; [exact Hrel|].
      apply Z.ltb_ge in E1. rewrite Z.gtb_ltb in E2. apply Z.ltb_ge in E2. lia.
  - left. split; [reflexivity|]. intros i rel Hi. apply Nat.ltb_ge in E. lia.
Qed.

Lemma find_rel_for_ptr_spec relptr xptr :
  sorted_by_ptr relptr ->
  let k := find_rel_for_ptr xptr relptr in
  (k = length relptr /\ forall rel, rel ∈ relptr -> ptr rel <> xptr)
  \/ (exists rel, relptr !! k = Some rel /\ ptr rel = xptr).
Proof.
  intros Hsorted. cbv zeta. unfold find_rel_for_ptr.
  destruct (find_rel_loop_spec relptr xptr Hsorted (length relptr) 0%nat
              (length relptr) ltac:(lia) ltac:(lia)) as [[Hk Hno]|[Hk Hhit]].
  - left. split; [exact Hk|]. intros rel Hin.
    apply list_elem_of_lookup in Hin as [i Hi].
    apply (Hno i rel); [|exact Hi]. apply lookup_lt_Some in Hi. lia.
  - right. exact Hhit.
Qed.

(** C4. [read_32_relocated (ptr, sec)] on a section whose relocation
    index is built (and sorted): when the index has a record at [ptr], the
    search finds one, it is what [last_relptr] is left pointing at, and the
    value is the record's addend for RELA and the 32-bit sum of the
    in-place value and the addend for REL; when no record is at [ptr] the
    value is the in-place value. *)
Theorem do_read_32_relocated_spec (e : ei_data) (xptr : Z)
    (xsec : debug_section) (relptr : list REL) :
  relbuf xsec = Some relptr ->
  sorted_by_ptr relptr ->
  let in_place := do_read_32 e (drop (Z.to_nat xptr) (data xsec)) in
  let '(dret, last) := do_read_32_relocated e xptr xsec in
  ((exists rel, rel ∈ relptr /\ ptr rel = xptr) ->
   exists i rel,
     last_relptr last = Some i /\ relptr !! i = Some rel /\ ptr rel = xptr
     /\ (reltype xsec = SHT_RELA -> dret = addend rel)
     /\ (reltype xsec = SHT_REL -> dret = u32 (in_place + addend rel)))
  /\ ((forall rel, rel ∈ relptr -> ptr rel <> xptr) -> dret = in_place).
Proof.
  intros Hbuf Hsorted. cbv zeta. unfold do_read_32_relocated. rewrite Hbuf.
  pose proof (find_rel_for_ptr_spec relptr xptr Hsorted) as Hfind.
  cbv zeta in Hfind. set (k := find_rel_for_ptr xptr relptr) in *.
  split.
  - intros (rel0 & Hin & Hptr).
    destruct Hfind as [[_ Hno]|(rel & Hrel & Hrp)].
    { exfalso. exact (Hno rel0 Hin Hptr). }
    exists k, rel. rewrite Hrel.
    pose proof (lookup_lt_Some _ _ _ Hrel) as Hlt.
    apply Nat.ltb_lt in Hlt. rewrite Hlt.
    apply Z.eqb_eq in Hrp as Hrp'. rewrite Hrp'. simpl andb. cbv iota.
    repeat split; try assumption.
    + intros ->. reflexivity.
    + intros ->. reflexivity.
  - intros Hno.
    destruct Hfind as [[Hk _]|(rel & Hrel & Hrp)].
    + rewrite Hk. rewrite (proj2 (lookup_ge_None relptr (length relptr)));
        [reflexivity | lia].
    + exfalso. apply (Hno rel); [|exact Hrp].
      apply list_elem_of_lookup. exists k. exact Hrel.
Qed.

Lemma sorted_ptrs_sound relptr : sorted_ptrs relptr = true -> sorted_by_ptr relptr.
Proof.
  induction relptr as [|a l IH]; intros H i j x y Hi Hj Hij.
  - rewrite lookup_nil in Hi. discriminate.
  - simpl in H. apply andb_prop in H as [Ha Hl].
    rewrite forallb_forall in Ha.
    destruct i as [|i], j as [|j]; simpl in Hi, Hj.
    + injection Hi as <-. injection Hj as <-. lia.
    + injection Hi as <-. apply Z.leb_le. apply Ha.
      apply list_elem_of_In, list_elem_of_lookup. exists j. exact Hj.
    + lia.
    + apply (IH Hl i j); [assumption | assumption | lia].
Qed.

Lemma do_read_32_relocated_spec_witness :
  let relptr := [ {| ptr := 0; addend := 7; ndx := 1 |};
                  {| ptr := 4; addend := 9; ndx := 0 |} ] in
  let sec := {| data := [1; 0; 0; 0; 2; 0; 0; 0]; relbuf := Some relptr;
                reltype := SHT_REL; rel_updated := false |} in
  sorted_by_ptr relptr
  /\ let in_place := do_read_32 ELFDATA2LSB (drop (Z.to_nat 4) (data sec)) in
     let '(dret, last) := do_read_32_relocated ELFDATA2LSB 4 sec in
     ((exists rel, rel ∈ relptr /\ ptr rel = 4) ->
      exists i rel,
        last_relptr last = Some i /\ relptr !! i = Some rel /\ ptr rel = 4
        /\ (reltype sec = SHT_RELA -> dret = addend rel)
        /\ (reltype sec = SHT_REL -> dret = u32 (in_place + addend rel)))
     /\ ((forall rel, rel ∈ relptr -> ptr rel <> 4) -> dret = in_place).
Proof.
  intros relptr sec.
  split; [exact (sorted_ptrs_sound relptr eq_refl)|].
  exact (do_read_32_relocated_spec ELFDATA2LSB 4 sec relptr eq_refl
           (sorted_ptrs_sound relptr eq_refl)).
Defined.

Example do_read_32_relocated_ex :
  fst (do_read_32_relocated ELFDATA2LSB 4
         {| data := [1; 0; 0; 0; 2; 0; 0; 0];
            relbuf := Some [ {| ptr := 0; addend := 7; ndx := 1 |};
                             {| ptr := 4; addend := 9; ndx := 0 |} ];
            reltype := SHT_REL; rel_updated := false |}) = 11.
Proof. reflexivity. Qed.

(** *** Flushing the addends *)

Lemma do_write_32_relocated_cases e last ptr_ val sec :
  (exists i rel,
      last_hit last ptr_ sec i rel
      /\ do_write_32_relocated e last ptr_ val sec
         = if last_reltype last =? SHT_REL
           then store_32 e ptr_ (val - addend rel) sec
           else store_addend i val sec)
  \/ ((forall i rel, ~ last_hit last ptr_ sec i rel)
      /\ do_write_32_relocated e last ptr_ val sec = store_32 e ptr_ val sec).
Proof.
  unfold do_write_32_relocated, last_hit.
  destruct (last_relptr last) as [i|] eqn:Hl.
  2: { right. split; [|reflexivity]. intros i rel [H _]. discriminate. }
  destruct (default [] (relbuf sec) !! i) as [rel|] eqn:Hrel.
  2: { right. split; [|reflexivity]. intros i' rel (H & H' & _).
       injection H as <-. congruence. }
  destruct (i <? last_relend last)%nat eqn:E1; simpl andb.
  2: { right. split; [|reflexivity]. intros i' rel' (H & _ & H' & _).
       injection H as <-. apply Nat.ltb_ge in E1. lia. }
  destruct (ptr rel =? ptr_) eqn:E2.
  2: { right. split; [|reflexivity]. intros i' rel' (H & H1 & _ & H').
       injection H as <-. rewrite Hrel in H1. injection H1 as <-.
       apply Z.eqb_neq in E2. contradiction. }
  left. exists i, rel. apply Nat.ltb_lt in E1. apply Z.eqb_eq in E2.
  repeat split; try assumption; reflexivity.
Qed.

(** C10. [update_rela_data] on a section whose [rel_updated] is false
    returns the relocation section as it was (same entries, not marked
    dirty) and only drops the in-memory index, whatever libelf would
    answer to a store (none is made); and a
    [do_write_32_relocated] leaves a section with [rel_updated] set only
    if it was set before or if the write found the record of its word in
    an index that is not REL, the case in which it stores the value as
    that record's addend instead of touching the payload. *)
Theorem update_rela_data_frame
    (gelf_update_rela : nat -> GElf_Rela -> bool)
    (symdata : list GElf_Sym) (data_ : rela_data) (sec : debug_section) :
  (rel_updated sec = false ->
   update_rela_data gelf_update_rela symdata data_ sec
   = Done (data_, {| data := data sec; relbuf := None;
                     reltype := reltype sec; rel_updated := false |}))
  /\ (forall e last ptr_ val,
         rel_updated (do_write_32_relocated e last ptr_ val sec) = true ->
         rel_updated sec = true
         \/ exists i rel,
              last_hit last ptr_ sec i rel
              /\ last_reltype last <> SHT_REL
              /\ do_write_32_relocated e last ptr_ val sec
                 = store_addend i val sec
              /\ data (do_write_32_relocated e last ptr_ val sec) = data sec)
  /\ (forall e last ptr_ val,
         rel_updated sec = false ->
         (forall i rel, last_hit last ptr_ sec i rel -> last_reltype last = SHT_REL) ->
         rel_updated (do_write_32_relocated e last ptr_ val sec) = false
         /\ relbuf (do_write_32_relocated e last ptr_ val sec) = relbuf sec).
Proof.
  split; [|split].
  - intros H. unfold update_rela_data. rewrite H. reflexivity.
  - intros e last ptr_ val H.
    destruct (do_write_32_relocated_cases e last ptr_ val sec)
      as [(i & rel & Hhit & Heq)|[_ Heq]]; rewrite Heq in H |- *.
    + destruct (last_reltype last =? SHT_REL) eqn:E.
      * left. exact H.
      * right. exists i, rel. apply Z.eqb_neq in E.
        repeat split; try assumption; apply Hhit.
    + left. exact H.
  - intros e last ptr_ val H Hrel.
    destruct (do_write_32_relocated_cases e last ptr_ val sec)
      as [(i & rel & Hhit & Heq)|[_ Heq]]; rewrite Heq.
    + rewrite (Hrel i rel Hhit). simpl. split; [exact H | reflexivity].
    + simpl. split; [exact H | reflexivity].
Qed.

Lemma update_rela_data_frame_witness :
  let sec := {| data := [1; 0; 0; 0];
                relbuf := Some [ {| ptr := 0; addend := 7; ndx := 0 |} ];
                reltype := SHT_RELA; rel_updated := false |} in
  let data_ := {| entries := [ {| r_offset := 0; r_info := 0; r_addend := 3 |} ];
                  dirty := false |} in
  update_rela_data (fun _ _ => false) [ {| st_value := 4; st_shndx := 1 |} ]
    data_ sec
  = Done (data_, {| data := [1; 0; 0; 0]; relbuf := None;
                    reltype := SHT_RELA; rel_updated := false |}).
Proof.
  intros sec data_.
  exact (proj1 (update_rela_data_frame (fun _ _ => false)
                  [ {| st_value := 4; st_shndx := 1 |} ] data_ sec) eq_refl).
Defined.

End RelocFacts.

(** ** 4.B Path utilities: strings and prefixes *)

Section PathFacts.

Import Path.

Lemma strlen_le s : (strlen s <= length s)%nat.
Proof.
  induction s as [|c s IH]; simpl; [lia|]. destruct (c =? 0); simpl; lia.
Qed.

Lemma strlen_nul_free s : 0 ∉ s -> strlen s = length s.
Proof.
  induction s as [|c s IH]; intros H; [reflexivity|].
  apply not_elem_of_cons in H as [Hc Hs]. simpl.
  destruct (c =? 0) eqn:E; [apply Z.eqb_eq in E; congruence|].
  rewrite IH by assumption. reflexivity.
Qed.

Lemma strlen_app_nul s rest : 0 ∉ s -> strlen (s ++ 0 :: rest) = length s.
Proof.
  induction s as [|c s IH]; intros H; [reflexivity|].
  apply not_elem_of_cons in H as [Hc Hs]. simpl.
  destruct (c =? 0) eqn:E; [apply Z.eqb_eq in E; congruence|].
  rewrite IH by assumption. reflexivity.
Qed.

Lemma c_str_nul_free s : 0 ∉ s -> c_str s = s.
Proof.
  intros H. unfold c_str. rewrite strlen_nul_free by assumption.
  apply firstn_all.
Qed.

Lemma c_str_app_nul s rest : 0 ∉ s -> c_str (s ++ 0 :: rest) = s.
Proof.
  intros H. unfold c_str. rewrite strlen_app_nul by assumption.
  rewrite take_app_length. reflexivity.
Qed.

Lemma c_str_is_nul_free s : 0 ∉ c_str s.
Proof.
  unfold c_str. induction s as [|c s IH]; simpl; [apply not_elem_of_nil|].
  destruct (c =? 0) eqn:E; simpl; [apply not_elem_of_nil|].
  apply not_elem_of_cons. split; [|exact IH].
  apply Z.eqb_neq in E. congruence.
Qed.

Lemma length_c_str s : length (c_str s) = strlen s.
Proof. unfold c_str. rewrite length_take. pose proof (strlen_le s). lia. Qed.

Lemma peek_cons c s : peek (c :: s) 0 = c.
Proof. reflexivity. Qed.

Lemma peek_nil i : peek [] i = 0.
Proof. unfold peek. rewrite lookup_nil. reflexivity. Qed.

Lemma strncmp_eq_take n : forall a b,
  (n <= strlen b)%nat -> strncmp_eq a b n = true ->
  take n a = take n b /\ (n <= length a)%nat.
Proof.
  induction n as [|n IH]; intros a b Hn H; [split; [reflexivity|lia]|].
  destruct b as [|c b]; [simpl in Hn; lia|].
  simpl in Hn. destruct (c =? 0) eqn:Ec; [lia|].
  apply Z.eqb_neq in Ec.
  cbn [strncmp_eq] in H. rewrite peek_cons in H.
  destruct a as [|c' a].
  - rewrite peek_nil in H. destruct (0 =? c) eqn:E; [|discriminate].
    apply Z.eqb_eq in E. congruence.
  - rewrite peek_cons in H. destruct (c' =? c) eqn:E; [|discriminate].
    apply Z.eqb_eq in E. subst c'.
    destruct (c =? 0) eqn:E0; [apply Z.eqb_eq in E0; congruence|].
    simpl drop in H. destruct (IH a b ltac:(lia) H) as [Ht Hl].
    simpl. rewrite Ht. split; [reflexivity|lia].
Qed.

Lemma skip_separators_spec s :
  exists k, s = replicate k SLASH ++ skip_separators s
            /\ peek (skip_separators s) 0 <> SLASH.
Proof.
  induction s as [|c s (k & Hk & Hp)].
  - exists 0%nat. split; [reflexivity|]. rewrite peek_nil. discriminate.
  - simpl. unfold IS_DIR_SEPARATOR. destruct (c =? 47) eqn:E.
    + apply Z.eqb_eq in E. subst c. exists (S k). split; [|exact Hp].
      simpl. unfold SLASH at 1. f_equal. exact Hk.
    + exists 0%nat. split; [reflexivity|]. rewrite peek_cons.
      apply Z.eqb_neq in E. exact E.
Qed.

(** A path that [skip_dir_prefix] accepts is the prefix, a run of
    separators, and the remainder that is returned. *)
Lemma skip_dir_prefix_Some path dir_prefix file :
  0 ∉ path -> skip_dir_prefix path dir_prefix = Some file ->
  exists k,
    path = c_str dir_prefix ++ replicate k SLASH ++ file
    /\ (file <> [] -> (1 <= k)%nat)
    /\ peek file 0 <> SLASH
    /\ 0 ∉ file.
Proof.
  intros Hnf H. unfold skip_dir_prefix in H.
  destruct (strncmp_eq path dir_prefix (strlen dir_prefix)) eqn:Hcmp;
    [|discriminate].
  apply strncmp_eq_take in Hcmp as [Ht Hl]; [|lia].
  set (rest := drop (strlen dir_prefix) path) in *.
  assert (Hpath : path = c_str dir_prefix ++ rest).
  { unfold c_str. rewrite <- Ht. subst rest. symmetry. apply take_drop. }
  assert (Hrest : 0 ∉ rest).
  { rewrite Hpath in Hnf. apply not_elem_of_app in Hnf as [_ ?]. assumption. }
  destruct (negb (peek rest 0 =? 0) && negb (IS_DIR_SEPARATOR (peek rest 0)))
    eqn:Hc; [discriminate|].
  injection H as <-.
  destruct (skip_separators_spec rest) as (k & Hk & Hp).
  exists k. split; [|split; [|split]].
  - rewrite Hpath at 1. rewrite Hk at 1. reflexivity.
  - intros Hne. destruct k as [|k]; [|lia]. exfalso.
    simpl in Hk. rewrite <- Hk in Hp, Hne.
    destruct rest as [|c rest']; [congruence|].
    rewrite peek_cons in Hc, Hp.
    apply not_elem_of_cons in Hrest as [Hc0 _].
    unfold IS_DIR_SEPARATOR, SLASH in *.
    destruct (c =? 0) eqn:E0; [apply Z.eqb_eq in E0; congruence|].
    destruct (c =? 47) eqn:E1; [apply Z.eqb_eq in E1; congruence|].
    discriminate.
  - exact Hp.
  - rewrite Hk in Hrest. apply not_elem_of_app in Hrest as [_ ?]. assumption.
Qed.

End PathFacts.

(** ** [canonicalize_path] *)

Section CanonicalizeFacts.

Import Path.

Lemma split_path_bytes seg rest cur :
  Forall segment_byte seg ->
  split_path (seg ++ rest) cur = split_path rest (cur ++ seg).
Proof.
  intros H. revert cur. induction H as [|c seg [Hc0 Hc1] _ IH]; intros cur.
  - rewrite app_nil_r. reflexivity.
  - cbn [app split_path]. unfold IS_DIR_SEPARATOR, SLASH in *.
    destruct (Z.eqb_spec c 0); [contradiction|].
    destruct (Z.eqb_spec c 47); [contradiction|].
    rewrite IH, <- app_assoc. reflexivity.
Qed.

Lemma split_path_skip s : split_path (skip_separators s) [] = split_path s [].
Proof.
  induction s as [|c s IH]; [reflexivity|].
  cbn [skip_separators]. unfold IS_DIR_SEPARATOR.
  destruct (c =? 47) eqn:E; [|reflexivity].
  cbn [split_path]. unfold IS_DIR_SEPARATOR. rewrite E.
  apply Z.eqb_eq in E. subst c. exact IH.
Qed.

Lemma skip_separators_head s : IS_DIR_SEPARATOR (peek (skip_separators s) 0) = false.
Proof.
  induction s as [|c s IH]; [reflexivity|].
  cbn [skip_separators]. destruct (IS_DIR_SEPARATOR c) eqn:E; [exact IH|].
  exact E.
Qed.

Lemma skip_separators_length s : (length (skip_separators s) <= length s)%nat.
Proof.
  induction s as [|c s IH]; [reflexivity|].
  cbn [skip_separators]. destruct (IS_DIR_SEPARATOR c); simpl; lia.
Qed.

Lemma skip_separators_id s :
  IS_DIR_SEPARATOR (peek s 0) = false -> skip_separators s = s.
Proof.
  destruct s as [|c s]; [reflexivity|].
  cbn [skip_separators peek]. intros H. cbn in H. rewrite H. reflexivity.
Qed.

(** [copy_segment] moves the bytes of one segment. *)
Lemma copy_segment_spec s d :
  exists seg rest,
    copy_segment s d = (rest, d ++ seg) /\ s = seg ++ rest
    /\ Forall segment_byte seg
    /\ (peek rest 0 = 0 \/ IS_DIR_SEPARATOR (peek rest 0) = true).
Proof.
  revert d. induction s as [|c s IH]; intros d.
  - exists [], []. rewrite app_nil_r. repeat split; [constructor|left; reflexivity].
  - cbn [copy_segment].
    destruct (negb (c =? 0) && negb (IS_DIR_SEPARATOR c)) eqn:E.
    + destruct (IH (d ++ [c])) as (seg & rest & Hc & -> & Hseg & Hrest).
      exists (c :: seg), rest. rewrite Hc, <- app_assoc.
      repeat split; [|exact Hrest].
      constructor; [|exact Hseg].
      apply andb_prop in E as [E0 E1]. unfold IS_DIR_SEPARATOR in E1.
      apply negb_true_iff in E0, E1. split; [lia|unfold SLASH; lia].
    + exists [], (c :: s). rewrite app_nil_r.
      repeat split; [constructor|].
      apply andb_false_iff in E as [E|E]; apply negb_false_iff in E.
      * left. cbn. lia.
      * right. exact E.
Qed.

Lemma back_over_separators_eq d droot pre :
  back_over_separators d droot pre
  = if (droot <? pre) && IS_DIR_SEPARATOR (at_ d pre)
    then back_over_separators d droot (pre - 1) else pre.
Proof.
  funelim (back_over_separators d droot pre);
    match goal with E : _ && _ = _ |- _ => rewrite E end; reflexivity.
Qed.

Lemma back_over_segment_eq d droot pre :
  back_over_segment d droot pre
  = if (droot <? pre) && negb (IS_DIR_SEPARATOR (at_ d pre))
    then back_over_segment d droot (pre - 1) else pre.
Proof.
  funelim (back_over_segment d droot pre);
    match goal with E : _ && _ = _ |- _ => rewrite E end; reflexivity.
Qed.

Lemma strip_trailing_eq d droot dlen :
  strip_trailing d droot dlen
  = if (droot <? dlen) && IS_DIR_SEPARATOR (at_ d (dlen - 1))
    then strip_trailing d droot (dlen - 1) else dlen.
Proof.
  funelim (strip_trailing d droot dlen);
    match goal with E : _ && _ = _ |- _ => rewrite E end; reflexivity.
Qed.

Lemma at_app_l a b i :
  i < Z.of_nat (length a) -> at_ (a ++ b) i = at_ a i.
Proof.
  intros H. unfold at_. destruct (Z.ltb_spec i 0); [reflexivity|].
  rewrite lookup_app_l by lia. reflexivity.
Qed.

Lemma at_app_r a b i :
  Z.of_nat (length a) <= i -> at_ (a ++ b) i = at_ b (i - Z.of_nat (length a)).
Proof.
  intros H. unfold at_.
  destruct (Z.ltb_spec i 0); [lia|].
  destruct (Z.ltb_spec (i - Z.of_nat (length a)) 0); [lia|].
  rewrite lookup_app_r by lia. do 2 f_equal. lia.
Qed.

Lemma at_segment seg i :
  Forall segment_byte seg -> 0 <= i < Z.of_nat (length seg) ->
  IS_DIR_SEPARATOR (at_ seg i) = false.
Proof.
  intros H Hi. unfold at_. destruct (Z.ltb_spec i 0); [lia|].
  destruct (seg !! Z.to_nat i) as [c|] eqn:Hl.
  - apply (proj1 (Forall_lookup _ _) H) in Hl as [_ Hc].
    unfold IS_DIR_SEPARATOR, SLASH in *. cbn. lia.
  - apply lookup_ge_None in Hl. lia.
Qed.

(** Backwards over the bytes of a segment. *)
Lemma back_over_segment_run a seg b droot (k : nat) :
  Forall segment_byte seg -> (k < length seg)%nat ->
  Z.of_nat (length a) <= droot \/ droot <= Z.of_nat (length a) ->
  droot <= Z.of_nat (length a) ->
  back_over_segment (a ++ seg ++ b) droot (Z.of_nat (length a) + Z.of_nat k)
  = back_over_segment (a ++ seg ++ b) droot (Z.of_nat (length a)).
Proof.
  intros Hseg Hk _ Hroot. induction k as [|k IH]; [f_equal; lia|].
  rewrite back_over_segment_eq.
  rewrite at_app_r, at_app_l by lia.
  rewrite at_segment by (try assumption; lia).
  destruct (Z.ltb_spec droot (Z.of_nat (length a) + Z.of_nat (S k))); [|lia].
  cbn [andb negb]. rewrite <- IH by lia. f_equal. lia.
Qed.

Lemma render_boundary r below :
  Forall segment below ->
  boundary (Z.of_nat (length r)) (r ++ render below).
Proof.
  intros H. destruct below as [|t below]; [left; rewrite app_nil_r; reflexivity|].
  right. apply Forall_cons in H as [[Ht _] _]. cbn [render].
  rewrite !length_app. cbn [length].
  destruct t as [|c t]; [contradiction|]. cbn [length]. split; [lia|].
  rewrite !app_assoc. rewrite at_app_r by (rewrite !length_app; cbn [length]; lia).
  rewrite !length_app. cbn [length].
  replace (_ - _) with 0 by lia. reflexivity.
Qed.

(** What the ".." branch finds in front of [d] when a segment has been
    kept. *)
Lemma back_over_top droot a top :
  segment top -> boundary droot a -> 0 <= droot ->
  let d := a ++ top ++ [SLASH] in
  let pre1 := back_over_separators d droot (Z.of_nat (length d) - 1) in
  (droot <=? pre1) && negb (IS_DIR_SEPARATOR (at_ d pre1)) = true
  /\ let pre2 := back_over_segment d droot pre1 in
     let pre := if droot <? pre2 then pre2 + 1 else pre2 in
     pre = Z.of_nat (length a)
     /\ (pre + 3 =? Z.of_nat (length d)) && (at_ d pre =? DOT)
        && (at_ d (pre + 1) =? DOT)
        = bool_decide (top = [DOT; DOT]).
Proof.
  intros [Hne Hseg] Hb Hroot d pre1.
  assert (Hla : droot <= Z.of_nat (length a)) by (destruct Hb; lia).
  assert (Hlt : (0 < length top)%nat) by (destruct top; [contradiction|simpl; lia]).
  assert (Hd : Z.of_nat (length d) = Z.of_nat (length a) + Z.of_nat (length top) + 1).
  { unfold d. rewrite !length_app. cbn [length]. lia. }
  assert (Hpre1 : pre1 = Z.of_nat (length a) + Z.of_nat (length top - 1)).
  { unfold pre1. rewrite back_over_separators_eq.
    assert (Hs : at_ d (Z.of_nat (length d) - 1) = SLASH).
    { unfold d. rewrite app_assoc, at_app_r
        by (rewrite !length_app; cbn [length]; lia).
      rewrite !length_app. cbn [length].
      replace (_ - _) with 0 by lia. reflexivity. }
    rewrite Hs. destruct (Z.ltb_spec droot (Z.of_nat (length d) - 1)); [|lia].
    cbn [andb IS_DIR_SEPARATOR]. change (SLASH =? 47) with true. cbv iota.
    rewrite back_over_separators_eq.
    rewrite Hd.
    replace (Z.of_nat (length a) + Z.of_nat (length top) + 1 - 1 - 1)
      with (Z.of_nat (length a) + Z.of_nat (length top - 1)) by lia.
    unfold d. rewrite at_app_r, at_app_l by lia.
    rewrite at_segment by (try assumption; lia).
    rewrite andb_false_r. reflexivity. }
  split.
  { rewrite Hpre1. unfold d. rewrite at_app_r, at_app_l by lia.
    rewrite at_segment by (try assumption; lia).
    apply andb_true_intro. split; [apply Z.leb_le; lia|reflexivity]. }
  intros pre2 pre.
  assert (Hpre : pre = Z.of_nat (length a)).
  { unfold pre, pre2. rewrite Hpre1. unfold d.
    rewrite back_over_segment_run by (try assumption; lia).
    rewrite back_over_segment_eq.
    rewrite at_app_r, at_app_l by lia.
    rewrite at_segment by (try assumption; lia).
    destruct Hb as [Hb|[Hb Hs]].
    - destruct (Z.ltb_spec droot (Z.of_nat (length a))); [lia|]. cbn [andb].
      destruct (Z.ltb_spec droot (Z.of_nat (length a))); [lia|]. reflexivity.
    - destruct (Z.ltb_spec droot (Z.of_nat (length a))); [|lia]. cbn [andb negb].
      rewrite back_over_segment_eq.
      rewrite at_app_l by lia. rewrite Hs.
      change (IS_DIR_SEPARATOR SLASH) with true. rewrite andb_false_r.
      destruct (Z.ltb_spec droot (Z.of_nat (length a) - 1)); lia. }
  split; [exact Hpre|]. rewrite Hpre, Hd.
  unfold d.
  rewrite (at_app_r a _ (Z.of_nat (length a))),
    (at_app_r a _ (Z.of_nat (length a) + 1)) by lia.
  replace (Z.of_nat (length a) - Z.of_nat (length a)) with 0 by lia.
  replace (Z.of_nat (length a) + 1 - Z.of_nat (length a)) with 1 by lia.
  destruct top as [|c0 [|c1 [|c2 top]]]; [contradiction|..]; cbn [length app].
  - rewrite bool_decide_eq_false_2 by discriminate.
    match goal with |- context [?x =? ?y] => destruct (Z.eqb_spec x y) end;
      [lia|reflexivity].
  - match goal with |- context [?x =? ?y] => destruct (Z.eqb_spec x y) end;
      [|lia]. cbn [andb].
    change (at_ [c0; c1; SLASH] 0) with c0.
    change (at_ [c0; c1; SLASH] 1) with c1. unfold DOT.
    destruct (Z.eqb_spec c0 46) as [->|]; destruct (Z.eqb_spec c1 46) as [->|];
      cbn [andb]; symmetry;
      (apply bool_decide_eq_true_2; reflexivity)
      || (apply bool_decide_eq_false_2; congruence).
  - rewrite bool_decide_eq_false_2 by discriminate.
    match goal with |- context [?x =? ?y] => destruct (Z.eqb_spec x y) end;
      [lia|reflexivity].
Qed.

Lemma split_path_end rest cur :
  peek rest 0 = 0 \/ IS_DIR_SEPARATOR (peek rest 0) = true ->
  cur <> [] -> split_path rest cur = cur :: split_path rest [].
Proof.
  intros H Hcur. destruct cur as [|c0 cur]; [contradiction|].
  destruct rest as [|c rest]; [reflexivity|].
  change (peek (c :: rest) 0) with c in H.
  cbn [split_path]. unfold IS_DIR_SEPARATOR in *.
  destruct (Z.eqb_spec c 0); [reflexivity|].
  destruct H as [H|H]; [contradiction|]. rewrite H. reflexivity.
Qed.

Lemma split_path_nul rest : peek rest 0 = 0 -> split_path rest [] = [].
Proof.
  destruct rest as [|c rest]; [reflexivity|].
  change (peek (c :: rest) 0) with c. intros ->. reflexivity.
Qed.

Lemma normal_segments stack : normal stack -> Forall segment stack.
Proof.
  induction stack as [|t stack IH]; [constructor|].
  intros (Ht & _ & _ & Hn). constructor; [exact Ht|exact (IH Hn)].
Qed.

Lemma push_normal stack seg :
  normal stack -> segment seg -> normal (push stack seg).
Proof.
  intros Hn Hseg. unfold push.
  destruct (decide (seg = [DOT])); [exact Hn|].
  destruct (decide (seg = [DOT; DOT])) as [->|].
  - destruct stack as [|top below].
    + cbn [normal]. tauto.
    + destruct (decide (top = [DOT; DOT])) as [->|].
      * cbn [normal] in *. tauto.
      * destruct Hn as (_ & _ & _ & Hn). exact Hn.
  - cbn [normal]. tauto.
Qed.

(** The two tests of the loop body, on a string that starts with the
    segment [seg]. *)
Lemma segment_tests seg rest :
  segment seg ->
  peek rest 0 = 0 \/ IS_DIR_SEPARATOR (peek rest 0) = true ->
  let s := seg ++ rest in
  (peek s 0 =? DOT) && ((peek s 1 =? 0) || IS_DIR_SEPARATOR (peek s 1))
  = bool_decide (seg = [DOT])
  /\ (peek s 0 =? DOT) && (peek s 1 =? DOT)
     && ((peek s 2 =? 0) || IS_DIR_SEPARATOR (peek s 2))
     = bool_decide (seg = [DOT; DOT]).
Proof.
  intros [Hne Hseg] Hrest s. unfold s.
  assert (Hr : (peek rest 0 =? 0) || IS_DIR_SEPARATOR (peek rest 0) = true).
  { destruct Hrest as [->| ->]; [reflexivity|apply orb_true_r]. }
  assert (Hb : forall c, segment_byte c ->
                 (c =? 0) || IS_DIR_SEPARATOR c = false).
  { intros c [H0 H1]. unfold IS_DIR_SEPARATOR, SLASH in *.
    destruct (Z.eqb_spec c 0); [contradiction|].
    destruct (Z.eqb_spec c 47); [contradiction|]. reflexivity. }
  destruct seg as [|c0 [|c1 [|c2 seg]]]; [contradiction|..].
  all: repeat match goal with
         | H : Forall _ (_ :: _) |- _ => apply Forall_cons in H as [? H]
         end.
  - change (peek ([c0] ++ rest) 0) with c0.
    change (peek ([c0] ++ rest) 1) with (peek rest 0).
    assert (Hr' : (peek rest 0 =? DOT) = false).
    { unfold IS_DIR_SEPARATOR, DOT in *.
      destruct Hrest as [->|E]; [reflexivity|]. apply Z.eqb_eq in E.
      rewrite E. reflexivity. }
    rewrite Hr, Hr', andb_true_r, andb_false_r. cbn [andb]. unfold DOT.
    split; [|symmetry; apply bool_decide_eq_false_2; discriminate].
    destruct (Z.eqb_spec c0 46) as [->|]; symmetry;
      [apply bool_decide_eq_true_2; reflexivity
      |apply bool_decide_eq_false_2; congruence].
  - change (peek ([c0; c1] ++ rest) 0) with c0.
    change (peek ([c0; c1] ++ rest) 1) with c1.
    change (peek ([c0; c1] ++ rest) 2) with (peek rest 0).
    rewrite Hr, andb_true_r.
    rewrite (Hb c1) by assumption.
    rewrite andb_false_r. unfold DOT.
    split; [symmetry; apply bool_decide_eq_false_2; discriminate|].
    destruct (Z.eqb_spec c0 46) as [->|]; destruct (Z.eqb_spec c1 46) as [->|];
      cbn [andb]; symmetry;
      (apply bool_decide_eq_true_2; reflexivity)
      || (apply bool_decide_eq_false_2; congruence).
  - change (peek ((c0 :: c1 :: c2 :: seg) ++ rest) 0) with c0.
    change (peek ((c0 :: c1 :: c2 :: seg) ++ rest) 1) with c1.
    change (peek ((c0 :: c1 :: c2 :: seg) ++ rest) 2) with c2.
    rewrite (Hb c1) by assumption.
    rewrite (Hb c2) by assumption.
    rewrite !andb_false_r.
    split; symmetry; apply bool_decide_eq_false_2; discriminate.
Qed.

(** The end of a round in which no segment was stored. *)
Lemma round_end_keep rest (d : list Z) :
  peek rest 0 = 0 \/ IS_DIR_SEPARATOR (peek rest 0) = true ->
  let s1 := if negb (peek rest 0 =? 0) then skip_separators rest else rest in
  IS_DIR_SEPARATOR (peek s1 0) = false
  /\ split_path s1 [] = split_path rest []
  /\ (length s1 <= length rest)%nat.
Proof.
  intros H s1. unfold s1.
  destruct (Z.eqb_spec (peek rest 0) 0) as [E|E]; cbn [negb].
  - rewrite E. split; [reflexivity|]. split; [reflexivity|lia].
  - split; [apply skip_separators_head|].
    split; [apply split_path_skip|apply skip_separators_length].
Qed.

(** The end of a round in which a segment was stored: the separator
    behind it is stored as well. *)
Lemma round_end_push rest (d : list Z) :
  peek rest 0 = 0 \/ IS_DIR_SEPARATOR (peek rest 0) = true ->
  exists s',
    (if IS_DIR_SEPARATOR (peek rest 0)
     then let '(s, d) := copy_char rest d in (skip_separators s, d)
     else (rest, d))
    = (s', if IS_DIR_SEPARATOR (peek rest 0) then d ++ [SLASH] else d)
    /\ IS_DIR_SEPARATOR (peek s' 0) = false
    /\ split_path s' [] = split_path rest []
    /\ (length s' <= length rest)%nat
    /\ (IS_DIR_SEPARATOR (peek rest 0) = false -> peek s' 0 = 0).
Proof.
  intros H. destruct (IS_DIR_SEPARATOR (peek rest 0)) eqn:E.
  - destruct rest as [|c rest]; [discriminate|].
    change (peek (c :: rest) 0) with c in *.
    unfold copy_char. change (peek (c :: rest) 0) with c.
    cbn [drop]. exists (skip_separators rest).
    unfold IS_DIR_SEPARATOR in E. apply Z.eqb_eq in E. subst c.
    split; [reflexivity|]. split; [apply skip_separators_head|].
    split; [rewrite split_path_skip; reflexivity|].
    split; [pose proof (skip_separators_length rest); simpl; lia|discriminate].
  - exists rest. destruct H as [H|H]; [|discriminate].
    rewrite H. split; [reflexivity|]. split; [reflexivity|].
    split; [reflexivity|]. split; [lia|]. intros _. reflexivity.
Qed.

(** One round of the loop reads one segment and keeps the destination
    in step with [push]. *)
Lemma canonicalize_segment_spec r stack s :
  peek s 0 <> 0 -> IS_DIR_SEPARATOR (peek s 0) = false ->
  normal stack ->
  exists seg s' d',
    canonicalize_segment (Z.of_nat (length r)) s (r ++ render stack) = (s', d')
    /\ segment seg
    /\ split_path s [] = seg :: split_path s' []
    /\ (length s' < length s)%nat
    /\ IS_DIR_SEPARATOR (peek s' 0) = false
    /\ (d' = r ++ render (push stack seg)
        \/ (peek s' 0 = 0 /\ push stack seg <> []
            /\ d' = r ++ join_segments (push stack seg))).
Proof.
  intros Hnul Hsep Hn.
  destruct (copy_segment_spec s (r ++ render stack))
    as (seg & rest & Hcopy & Hs & Hbytes & Hrest).
  assert (Hne : seg <> []).
  { intros ->. cbn [app] in Hs. subst rest.
    destruct Hrest as [H|H]; [contradiction|congruence]. }
  assert (Hseg : segment seg) by (split; assumption).
  assert (Hlen : (length rest < length s)%nat).
  { rewrite Hs, length_app. destruct seg; [contradiction|simpl; lia]. }
  assert (Hsplit : split_path s [] = seg :: split_path rest []).
  { rewrite Hs, split_path_bytes by assumption. cbn [app].
    apply split_path_end; assumption. }
  destruct (segment_tests seg rest Hseg Hrest) as [Hdot Hdotdot].
  rewrite <- Hs in Hdot, Hdotdot.
  exists seg. unfold canonicalize_segment, canonicalize_step, copy_separator.
  cbv zeta. rewrite Hdot.
  destruct (decide (seg = [DOT])) as [Eseg|Nseg].
  { (* "." *)
    rewrite bool_decide_eq_true_2 by assumption.
    subst seg. cbn [app] in Hs. subst s. cbn [drop].
    destruct (round_end_keep rest (r ++ render stack) Hrest) as (Hh & Hsp & Hl).
    cbv zeta in Hh, Hsp, Hl. cbv beta iota zeta. rewrite ?drop_0, Hh.
    eexists _, _. split; [reflexivity|]. split; [assumption|].
    split; [rewrite Hsplit, Hsp; reflexivity|].
    split; [simpl in *; lia|]. split; [assumption|].
    left. unfold push. rewrite decide_True by reflexivity. reflexivity. }
  rewrite bool_decide_eq_false_2 by assumption. rewrite Hdotdot.
  destruct (decide (seg = [DOT; DOT])) as [Eseg|Nseg2].
  { (* ".." *)
    rewrite bool_decide_eq_true_2 by assumption. subst seg.
    assert (Hpush2 :
      exists s',
        (let '(s0, d0) :=
           let '(s1, d1) := copy_char s (r ++ render stack) in copy_char s1 d1 in
         if IS_DIR_SEPARATOR (peek s0 0)
         then let '(s1, d1) := copy_char s0 d0 in (skip_separators s1, d1)
         else (s0, d0))
        = (s', if IS_DIR_SEPARATOR (peek rest 0)
               then (r ++ render stack ++ [DOT; DOT]) ++ [SLASH]
               else r ++ render stack ++ [DOT; DOT])
        /\ IS_DIR_SEPARATOR (peek s' 0) = false
        /\ split_path s' [] = split_path rest []
        /\ (length s' <= length rest)%nat
        /\ (IS_DIR_SEPARATOR (peek rest 0) = false -> peek s' 0 = 0)).
    { subst s. unfold copy_char at 1 2.
      change (peek ([DOT; DOT] ++ rest) 0) with DOT.
      change (drop 1 ([DOT; DOT] ++ rest)) with (DOT :: rest).
      change (peek (DOT :: rest) 0) with DOT.
      change (drop 1 (DOT :: rest)) with rest.
      replace (((r ++ render stack) ++ [DOT]) ++ [DOT])
        with (r ++ render stack ++ [DOT; DOT])
        by (rewrite <- !app_assoc; reflexivity).
      exact (round_end_push rest (r ++ render stack ++ [DOT; DOT]) Hrest). }
    destruct stack as [|top below].
    - (* nothing kept: ".." is stored *)
      cbn [render]. rewrite app_nil_r.
      rewrite back_over_separators_eq.
      destruct (Z.ltb_spec (Z.of_nat (length r)) (Z.of_nat (length r) - 1)); [lia|].
      cbn [andb].
      destruct (Z.leb_spec (Z.of_nat (length r)) (Z.of_nat (length r) - 1)); [lia|].
      cbn [andb]. cbn [render] in Hpush2. rewrite app_nil_r in Hpush2.
      cbn [app] in Hpush2.
      destruct Hpush2 as (s' & Hres & Hh & Hsp & Hl & Hend).
      rewrite Hres. eexists _, _. split; [reflexivity|]. split; [assumption|].
      split; [rewrite Hsplit, Hsp; reflexivity|].
      split; [lia|]. split; [assumption|].
      unfold push. rewrite decide_False by assumption.
      rewrite decide_True by reflexivity.
      destruct (IS_DIR_SEPARATOR (peek rest 0)).
      + left. cbn [render app]. rewrite <- app_assoc. reflexivity.
      + right. split; [apply Hend; reflexivity|]. split; [discriminate|].
        reflexivity.
    - (* a segment is kept *)
      destruct Hn as (Htop & Ntop & Hbelow & Hn).
      pose proof (back_over_top (Z.of_nat (length r)) (r ++ render below) top
                    Htop (render_boundary r below (normal_segments _ Hn))
                    ltac:(lia)) as Hback.
      cbv zeta in Hback. cbn [render]. rewrite (app_assoc r (render below)).
      set (a := r ++ render below) in *.
      destruct Hback as (Hc1 & Hpre & Hc2).
      rewrite Hc1, Hc2.
      destruct (decide (top = [DOT; DOT])) as [Etop|Ntop2].
      + (* ".." on top of "..": stored *)
        rewrite bool_decide_eq_true_2 by assumption.
        cbn [render] in Hpush2. fold a in Hpush2.
        destruct Hpush2 as (s' & Hres & Hh & Hsp & Hl & Hend).
        replace (a ++ top ++ [SLASH]) with (r ++ (render below ++ top ++ [SLASH]))
          by (unfold a; rewrite <- !app_assoc; reflexivity).
        cbv iota. rewrite Hres. eexists _, _. split; [reflexivity|]. split; [assumption|].
        split; [rewrite Hsplit, Hsp; reflexivity|].
        split; [lia|]. split; [assumption|].
        unfold push. rewrite decide_False by assumption.
        rewrite decide_True by reflexivity. rewrite decide_True by assumption.
        destruct (IS_DIR_SEPARATOR (peek rest 0)).
        * left. cbn [render]. rewrite <- !app_assoc. reflexivity.
        * right. split; [apply Hend; reflexivity|]. split; [discriminate|].
          cbn [join_segments render]. rewrite <- !app_assoc. reflexivity.
      + (* the segment on top is dropped *)
        rewrite bool_decide_eq_false_2 by assumption.
        rewrite Hpre. rewrite Nat2Z.id, take_app_length.
        subst s. change (drop 2 ([DOT; DOT] ++ rest)) with rest.
        destruct (round_end_keep rest a Hrest) as (Hh & Hsp & Hl).
        cbv zeta in Hh, Hsp, Hl. cbv beta iota zeta. rewrite Hh.
        eexists _, _. split; [reflexivity|]. split; [assumption|].
        split; [rewrite Hsplit, Hsp; reflexivity|].
        split; [simpl in *; lia|]. split; [assumption|].
        left. unfold push. rewrite decide_False by assumption.
        rewrite decide_True by reflexivity. rewrite decide_False by assumption.
        reflexivity. }
  (* any other segment is stored *)
  rewrite bool_decide_eq_false_2 by assumption.
  rewrite Hcopy.
  destruct (round_end_push rest ((r ++ render stack) ++ seg) Hrest)
    as (s' & Hres & Hh & Hsp & Hl & Hend).
  rewrite Hres. eexists _, _. split; [reflexivity|]. split; [assumption|].
  split; [rewrite Hsplit, Hsp; reflexivity|].
  split; [lia|]. split; [assumption|].
  unfold push. rewrite !decide_False by assumption.
  destruct (IS_DIR_SEPARATOR (peek rest 0)).
  - left. cbn [render]. rewrite <- !app_assoc. reflexivity.
  - right. split; [apply Hend; reflexivity|]. split; [discriminate|].
    cbn [join_segments]. rewrite <- !app_assoc. reflexivity.
Qed.

Lemma canonicalize_loop_end fuel droot s d :
  peek s 0 = 0 -> canonicalize_loop fuel droot s d = Some d.
Proof. intros H. destruct fuel; cbn [canonicalize_loop]; rewrite H; reflexivity. Qed.

(** The loop keeps the segments of its input as [push] does. *)
Lemma canonicalize_loop_spec r fuel :
  forall s stack,
    (length s <= fuel)%nat ->
    IS_DIR_SEPARATOR (peek s 0) = false ->
    normal stack ->
    let stack' := fold_left push (split_path s []) stack in
    exists d',
      canonicalize_loop fuel (Z.of_nat (length r)) s (r ++ render stack) = Some d'
      /\ (d' = r ++ render stack' \/ (stack' <> [] /\ d' = r ++ join_segments stack'))
      /\ normal stack'.
Proof.
  induction fuel as [|fuel IH]; intros s stack Hlen Hsep Hn stack'.
  - destruct s; [|simpl in Hlen; lia]. eexists. split; [reflexivity|].
    split; [left; reflexivity|exact Hn].
  - destruct (Z.eqb_spec (peek s 0) 0) as [E|E].
    + rewrite canonicalize_loop_end by assumption.
      unfold stack'. rewrite split_path_nul by assumption.
      eexists. split; [reflexivity|]. split; [left; reflexivity|exact Hn].
    + cbn [canonicalize_loop].
      destruct (Z.eqb_spec (peek s 0) 0) as [E'|_]; [contradiction|].
      destruct (canonicalize_segment_spec r stack s E Hsep Hn)
        as (seg & s1 & d1 & Hstep & Hseg & Hsplit & Hlt & Hsep1 & Hd1).
      rewrite Hstep. unfold stack'. rewrite Hsplit. cbn [fold_left].
      pose proof (push_normal stack seg Hn Hseg) as Hn1.
      destruct Hd1 as [->|(Hend & Hne & ->)].
      * apply IH; [lia|assumption|assumption].
      * rewrite canonicalize_loop_end by assumption.
        rewrite split_path_nul by assumption. cbn [fold_left].
        eexists. split; [reflexivity|]. split; [right; split; [assumption|reflexivity]|].
        exact Hn1.
Qed.

Lemma segment_last_byte a top b :
  segment top ->
  IS_DIR_SEPARATOR
    (at_ (a ++ top ++ b) (Z.of_nat (length a) + Z.of_nat (length top) - 1))
  = false.
Proof.
  intros [Hne Hb].
  assert ((0 < length top)%nat) by (destruct top; [contradiction|simpl; lia]).
  rewrite at_app_r, at_app_l by lia. apply at_segment; [assumption|lia].
Qed.

(** The separators the last loop takes off: the one behind the last kept
    segment, if it was stored. *)
Lemma strip_trailing_render r stack :
  Forall segment stack ->
  let d := r ++ render stack in
  take (Z.to_nat (strip_trailing d (Z.of_nat (length r)) (Z.of_nat (length d)))) d
  = r ++ join_segments stack.
Proof.
  intros Hs d. unfold d. destruct stack as [|top below].
  - cbn [render join_segments]. rewrite app_nil_r, strip_trailing_eq.
    destruct (Z.ltb_spec (Z.of_nat (length r)) (Z.of_nat (length r))); [lia|].
    cbn [andb]. rewrite Nat2Z.id. apply firstn_all.
  - apply Forall_cons in Hs as [Htop Hs]. cbn [render join_segments].
    rewrite (app_assoc r (render below)). set (a := r ++ render below).
    assert (Hla : Z.of_nat (length r) <= Z.of_nat (length a))
      by (unfold a; rewrite length_app; lia).
    assert ((0 < length top)%nat)
      by (destruct Htop as [? _]; destruct top; [contradiction|simpl; lia]).
    rewrite strip_trailing_eq.
    replace (Z.of_nat (length (a ++ top ++ [SLASH])) - 1)
      with (Z.of_nat (length a) + Z.of_nat (length top))
      by (rewrite !length_app; cbn [length]; lia).
    rewrite (app_assoc a top) at 2.
    rewrite at_app_r by (rewrite length_app; lia).
    replace (_ - _) with 0 by (rewrite length_app; lia).
    change (at_ [SLASH] 0) with SLASH. change (IS_DIR_SEPARATOR SLASH) with true.
    destruct (Z.ltb_spec (Z.of_nat (length r))
                (Z.of_nat (length (a ++ top ++ [SLASH]))));
      [|rewrite !length_app in *; cbn [length] in *; lia].
    cbn [andb]. rewrite strip_trailing_eq.
    rewrite segment_last_byte by assumption. rewrite andb_false_r.
    rewrite app_assoc.
    replace (Z.to_nat (Z.of_nat (length a) + Z.of_nat (length top)))
      with (length (a ++ top)) by (rewrite length_app; lia).
    rewrite take_app_length. unfold a. rewrite <- app_assoc. reflexivity.
Qed.

Lemma strip_trailing_join r stack :
  Forall segment stack -> stack <> [] ->
  let d := r ++ join_segments stack in
  take (Z.to_nat (strip_trailing d (Z.of_nat (length r)) (Z.of_nat (length d)))) d
  = d.
Proof.
  intros Hs Hne d. unfold d. destruct stack as [|top below]; [contradiction|].
  apply Forall_cons in Hs as [Htop Hs]. cbn [join_segments].
  rewrite (app_assoc r (render below)). set (a := r ++ render below).
  rewrite strip_trailing_eq.
  replace (Z.of_nat (length (a ++ top)) - 1)
    with (Z.of_nat (length a) + Z.of_nat (length top) - 1)
    by (rewrite !length_app; lia).
  pose proof (segment_last_byte a top [] Htop) as Hlast.
  rewrite app_nil_r in Hlast. rewrite Hlast, andb_false_r.
  rewrite Nat2Z.id, firstn_all. unfold a. rewrite <- app_assoc. reflexivity.
Qed.

(** The root: nothing, one separator, or the two of a "//" name. *)
Lemma canonicalize_root_spec s :
  exists s' r,
    canonicalize_root s [] = (s', r)
    /\ (r = [] \/ r = [SLASH] \/ r = [SLASH; SLASH])
    /\ IS_DIR_SEPARATOR (peek s' 0) = false
    /\ (length s' <= length s)%nat.
Proof.
  unfold canonicalize_root. destruct (IS_DIR_SEPARATOR (peek s 0)) eqn:E.
  - destruct s as [|c s]; [discriminate|]. change (peek (c :: s) 0) with c in E.
    unfold IS_DIR_SEPARATOR in E. apply Z.eqb_eq in E. subst c.
    unfold copy_char at 1. change (drop 1 (47 :: s)) with s.
    change (peek (47 :: s) 0) with SLASH. cbn [app].
    destruct (IS_DIR_SEPARATOR (peek s 0) && negb (IS_DIR_SEPARATOR (peek s 1)))
      eqn:E2.
    + apply andb_prop in E2 as [E2 _].
      unfold IS_DIR_SEPARATOR in E2. apply Z.eqb_eq in E2.
      unfold copy_char. rewrite E2. cbn [app].
      eexists _, _. split; [reflexivity|]. split; [right; right; reflexivity|].
      split; [apply skip_separators_head|].
      pose proof (skip_separators_length (drop 1 s)).
      pose proof (length_drop s 1). simpl. lia.
    + eexists _, _. split; [reflexivity|]. split; [right; left; reflexivity|].
      split; [apply skip_separators_head|].
      pose proof (skip_separators_length s). simpl. lia.
  - eexists _, _. split; [reflexivity|]. split; [left; reflexivity|].
    split; [assumption|lia].
Qed.

(** [canonicalize_path] always returns, and its result is the root and
    the segments that [push] keeps. *)
Lemma canonicalize_path_spec s :
  exists s' r stack,
    canonicalize_root s [] = (s', r)
    /\ (r = [] \/ r = [SLASH] \/ r = [SLASH; SLASH])
    /\ stack = fold_left push (split_path s' []) []
    /\ normal stack
    /\ canonicalize_path_opt s = Some (finish r stack).
Proof.
  destruct (canonicalize_root_spec s) as (s' & r & Hroot & Hr & Hsep & Hlen).
  exists s', r, (fold_left push (split_path s' []) []).
  split; [exact Hroot|]. split; [exact Hr|]. split; [reflexivity|].
  destruct (canonicalize_loop_spec r (length s') s' [] ltac:(lia) Hsep I)
    as (d' & Hloop & Hd' & Hn).
  cbv zeta in Hloop, Hd', Hn. split; [exact Hn|].
  unfold canonicalize_path_opt. rewrite Hroot.
  cbn [render] in Hloop. rewrite app_nil_r in Hloop. rewrite Hloop.
  set (stack := fold_left push (split_path s' []) []) in *.
  assert (Hfin : forall d : list Z,
             (if Z.of_nat (length d) =? 0 then d ++ [DOT] else d)
             = match d with [] => [DOT] | _ => d end).
  { intros [|c d]; reflexivity. }
  f_equal. unfold finish. rewrite Hfin.
  destruct Hd' as [->|[Hne ->]].
  - rewrite strip_trailing_render by (apply normal_segments; assumption).
    destruct (r ++ join_segments stack); reflexivity.
  - rewrite strip_trailing_join by (try apply normal_segments; assumption).
    destruct (r ++ join_segments stack); reflexivity.
Qed.

Lemma segment_head top rest :
  segment top -> IS_DIR_SEPARATOR (peek (top ++ rest) 0) = false.
Proof.
  intros [Hne Hb]. destruct top as [|c top]; [contradiction|].
  apply Forall_cons in Hb as [[_ Hc] _].
  change (peek ((c :: top) ++ rest) 0) with c.
  unfold IS_DIR_SEPARATOR, SLASH in *. lia.
Qed.

(** Reading back what was rendered gives the kept segments. *)
Lemma split_path_render below :
  Forall segment below ->
  forall s', IS_DIR_SEPARATOR (peek s' 0) = false ->
    split_path (render below ++ s') [] = rev below ++ split_path s' []
    /\ IS_DIR_SEPARATOR (peek (render below ++ s') 0) = false.
Proof.
  induction 1 as [|top below Htop _ IH]; intros s' Hs'.
  - split; [reflexivity|exact Hs'].
  - cbn [render rev]. rewrite <- !app_assoc.
    destruct (IH (top ++ [SLASH] ++ s') (segment_head _ _ Htop)) as [-> ->].
    split; [|reflexivity]. f_equal.
    destruct Htop as [Hne Hb].
    rewrite split_path_bytes by assumption. cbn [app].
    rewrite split_path_end by (try assumption; right; reflexivity).
    reflexivity.
Qed.

Lemma split_path_join stack :
  Forall segment stack ->
  split_path (join_segments stack) [] = rev stack
  /\ IS_DIR_SEPARATOR (peek (join_segments stack) 0) = false.
Proof.
  intros Hs. destruct stack as [|top below]; [split; reflexivity|].
  apply Forall_cons in Hs as [Htop Hs]. cbn [join_segments rev].
  destruct (split_path_render below Hs top) as [-> ->].
  - rewrite <- (app_nil_r top). apply segment_head. exact Htop.
  - split; [|reflexivity]. f_equal. destruct Htop as [Hne Hb].
    rewrite <- (app_nil_r top) at 1.
    rewrite split_path_bytes by assumption.
    destruct top; [contradiction|reflexivity].
Qed.

(** Segments in normal form are kept as they are. *)
Lemma fold_push_normal stack :
  normal stack -> fold_left push (rev stack) [] = stack.
Proof.
  induction stack as [|top below IH]; [reflexivity|].
  intros (Htop & Ndot & Hdd & Hn). cbn [rev].
  rewrite fold_left_app, IH by assumption. cbn [fold_left].
  unfold push. rewrite decide_False by assumption.
  destruct (decide (top = [DOT; DOT])) as [E|]; [|reflexivity].
  destruct below as [|t below]; [reflexivity|].
  rewrite (Hdd E). rewrite decide_True by reflexivity. reflexivity.
Qed.

(** The root of a result is found again. *)
Lemma canonicalize_root_join r stack :
  r = [] \/ r = [SLASH] \/ r = [SLASH; SLASH] ->
  Forall segment stack ->
  canonicalize_root (r ++ join_segments stack) [] = (join_segments stack, r).
Proof.
  intros Hr Hs. destruct (split_path_join stack Hs) as [_ Hh].
  unfold canonicalize_root. destruct Hr as [->|[->| ->]]; cbn [app].
  - rewrite Hh. reflexivity.
  - change (peek (SLASH :: join_segments stack) 0) with SLASH.
    change (IS_DIR_SEPARATOR SLASH) with true. cbv iota.
    unfold copy_char. change (drop 1 (SLASH :: join_segments stack))
      with (join_segments stack).
    rewrite Hh. cbn [andb app]. rewrite skip_separators_id by assumption.
    reflexivity.
  - change (peek (SLASH :: SLASH :: join_segments stack) 0) with SLASH.
    change (IS_DIR_SEPARATOR SLASH) with true. cbv iota.
    unfold copy_char at 1.
    change (drop 1 (SLASH :: SLASH :: join_segments stack))
      with (SLASH :: join_segments stack).
    change (peek (SLASH :: join_segments stack) 0) with SLASH.
    change (peek (SLASH :: join_segments stack) 1)
      with (peek (join_segments stack) 0).
    change (IS_DIR_SEPARATOR SLASH) with true. rewrite Hh. cbn [andb negb].
    unfold copy_char. change (drop 1 (SLASH :: join_segments stack))
      with (join_segments stack).
    rewrite skip_separators_id by assumption. reflexivity.
Qed.

(** A result of [canonicalize_path] is a fixed point of it. *)
Lemma canonicalize_path_fixed (p q : list Z) :
  canonicalize_path_opt p = Some q -> canonicalize_path_opt q = Some q.
Proof.
  intros Hpq.
  destruct (canonicalize_path_spec p) as (s' & r & stack & _ & Hr & _ & Hn & Hp).
  rewrite Hp in Hpq. injection Hpq as <-.
  pose proof (normal_segments stack Hn) as Hs.
  unfold finish. destruct (r ++ join_segments stack) as [|c q] eqn:Eq.
  { reflexivity. }
  rewrite <- Eq.
  destruct (canonicalize_path_spec (r ++ join_segments stack))
    as (s2 & r2 & stack2 & Hroot2 & _ & Hstack2 & _ & Hq).
  rewrite canonicalize_root_join in Hroot2 by assumption.
  injection Hroot2 as <- <-.
  rewrite (proj1 (split_path_join stack Hs)) in Hstack2.
  rewrite fold_push_normal in Hstack2 by assumption. subst stack2.
  rewrite Hq. unfold finish. rewrite Eq. reflexivity.
Qed.

(** C7. [canonicalize_path] is idempotent: it returns a string [q] for
    every C string [p], and applied to [q] it returns [q] again; so
    canonicalizing twice gives what canonicalizing once gives. *)
Theorem canonicalize_path_idempotent (p : list Z) :
  exists q,
    canonicalize_path_opt p = Some q
    /\ canonicalize_path_opt q = Some q
    /\ canonicalize_path (canonicalize_path p) = canonicalize_path p.
Proof.
  destruct (canonicalize_path_spec p) as (s' & r & stack & _ & _ & _ & _ & Hp).
  pose proof (canonicalize_path_fixed p _ Hp) as Hq.
  exists (finish r stack). split; [exact Hp|]. split; [exact Hq|].
  unfold canonicalize_path. rewrite Hp.
  change (default [] (Some (finish r stack))) with (finish r stack).
  rewrite Hq. reflexivity.
Qed.

(** *** The shared buffer *)

Lemma skip_separators_at_eq m s :
  skip_separators_at m s
  = if IS_DIR_SEPARATOR (at_ m s) then skip_separators_at m (s + 1) else s.
Proof.
  funelim (skip_separators_at m s);
    match goal with E : IS_DIR_SEPARATOR _ = _ |- _ => rewrite E end; reflexivity.
Qed.

Lemma copy_segment_at_eq m s d :
  copy_segment_at m s d
  = if negb (at_ m s =? 0) && negb (IS_DIR_SEPARATOR (at_ m s))
    then match store m d (at_ m s) with
         | Some m' => copy_segment_at m' (s + 1) (d + 1)
         | None => None
         end
    else Some (m, s, d).
Proof.
  funelim (copy_segment_at m s d);
    repeat match goal with
           | E : _ && _ = _ |- _ => rewrite E
           | E : store _ _ _ = _ |- _ => rewrite E
           end; reflexivity.
Qed.

Lemma at_peek m s (k : nat) :
  0 <= s -> at_ m (s + Z.of_nat k) = peek (drop (Z.to_nat s) m) k.
Proof.
  intros Hs. unfold at_, peek.
  destruct (Z.ltb_spec (s + Z.of_nat k) 0); [lia|].
  rewrite lookup_drop. do 2 f_equal. lia.
Qed.

Lemma at_peek0 m s : 0 <= s -> at_ m s = peek (drop (Z.to_nat s) m) 0.
Proof. intros Hs. rewrite <- (at_peek m s 0 Hs). f_equal. lia. Qed.

Lemma at_range m i : at_ m i <> 0 -> 0 <= i < Z.of_nat (length m).
Proof.
  unfold at_. destruct (Z.ltb_spec i 0); [congruence|].
  destruct (m !! Z.to_nat i) eqn:E; [|cbn; congruence].
  apply lookup_lt_Some in E. lia.
Qed.

Lemma at_Some m i : at_ m i <> 0 -> m !! Z.to_nat i = Some (at_ m i).
Proof.
  intros H. pose proof (at_range m i H) as Hr. unfold at_ in *.
  destruct (Z.ltb_spec i 0); [lia|].
  destruct (m !! Z.to_nat i) eqn:E; [reflexivity|]. cbn in H. congruence.
Qed.

Lemma at_take m d i : i < d -> at_ (take (Z.to_nat d) m) i = at_ m i.
Proof.
  intros H. unfold at_. destruct (Z.ltb_spec i 0); [reflexivity|].
  rewrite lookup_take_lt by lia. reflexivity.
Qed.

Lemma at_drop_eq m m' s i :
  drop (Z.to_nat s) m' = drop (Z.to_nat s) m -> 0 <= s <= i ->
  at_ m' i = at_ m i.
Proof.
  intros H Hi.
  replace i with (s + Z.of_nat (Z.to_nat (i - s))) by lia.
  rewrite !at_peek by lia. rewrite H. reflexivity.
Qed.

Lemma drop_at m s :
  0 <= s -> at_ m s <> 0 ->
  drop (Z.to_nat s) m = at_ m s :: drop (Z.to_nat (s + 1)) m.
Proof.
  intros Hs H. replace (Z.to_nat (s + 1)) with (S (Z.to_nat s)) by lia.
  apply drop_S. apply at_Some. exact H.
Qed.

Lemma advance_refl m s : advance m s m s.
Proof. repeat split; try lia. Qed.

Lemma advance_trans m s m1 s1 m2 s2 :
  0 <= s -> advance m s m1 s1 -> advance m1 s1 m2 s2 -> advance m s m2 s2.
Proof.
  intros Hs (Hl1 & Hs1 & Hd1 & Hn1) (Hl2 & Hs2 & Hd2 & Hn2).
  split; [congruence|]. split; [lia|]. split.
  - rewrite Hd2.
    replace (Z.to_nat s2) with (Z.to_nat s1 + Z.to_nat (s2 - s1))%nat by lia.
    rewrite <- !drop_drop. rewrite Hd1. reflexivity.
  - intros i Hi. destruct (Z.lt_ge_cases i s1) as [H|H]; [apply Hn1; lia|].
    rewrite <- (at_drop_eq m m1 s1 i) by (try assumption; lia).
    apply Hn2. lia.
Qed.

Lemma store_Some m d c :
  0 <= d < Z.of_nat (length m) -> store m d c = Some (<[Z.to_nat d := c]> m).
Proof.
  intros H. unfold store.
  destruct (Z.leb_spec 0 d); [|lia].
  destruct (Z.ltb_spec d (Z.of_nat (length m))); [|lia]. reflexivity.
Qed.

(** [*d++ = *s++] below the read cursor. *)
Lemma copy_char_at_spec m s d :
  0 <= d <= s -> at_ m s <> 0 ->
  exists m',
    copy_char_at m s d = Some (m', s + 1, d + 1)
    /\ advance m s m' (s + 1)
    /\ take (Z.to_nat (d + 1)) m' = take (Z.to_nat d) m ++ [at_ m s]
    /\ drop (Z.to_nat (s + 1)) m' = drop 1 (drop (Z.to_nat s) m).
Proof.
  intros Hd Hs. pose proof (at_range m s Hs) as Hr.
  unfold copy_char_at. rewrite store_Some by lia. cbn [mbind option_bind].
  eexists. split; [reflexivity|].
  assert (Hdrop : drop (Z.to_nat (s + 1)) (<[Z.to_nat d := at_ m s]> m)
                  = drop (Z.to_nat (s + 1)) m).
  { apply drop_insert_lt. lia. }
  split; [|split].
  - split; [apply length_insert|]. split; [lia|]. split; [exact Hdrop|].
    intros i Hi. replace i with s by lia. exact Hs.
  - replace (Z.to_nat (d + 1)) with (S (Z.to_nat d)) by lia.
    rewrite (take_S_r _ _ (at_ m s)).
    + rewrite take_insert_ge by lia. reflexivity.
    + apply list_lookup_insert_eq. lia.
  - rewrite Hdrop, drop_drop. f_equal. lia.
Qed.

Lemma skip_separators_at_spec m s :
  0 <= s ->
  let s' := skip_separators_at m s in
  advance m s m s'
  /\ drop (Z.to_nat s') m = skip_separators (drop (Z.to_nat s) m)
  /\ IS_DIR_SEPARATOR (at_ m s') = false.
Proof.
  cbv zeta.
  remember (Z.to_nat (Z.of_nat (length m) - s)) as n eqn:Hn.
  revert s Hn. induction n as [n IH] using lt_wf_ind. intros s Hn Hs.
  rewrite skip_separators_at_eq.
  destruct (IS_DIR_SEPARATOR (at_ m s)) eqn:E.
  - assert (Hnz : at_ m s <> 0).
    { intros Hz. rewrite Hz in E. discriminate. }
    pose proof (at_range m s Hnz) as Hr.
    destruct (IH (Z.to_nat (Z.of_nat (length m) - (s + 1))) ltac:(lia)
                (s + 1) eq_refl ltac:(lia)) as (Hadv & Hdrop & Hsep).
    split; [|split; [|exact Hsep]].
    + eapply advance_trans; [exact Hs| |exact Hadv].
      split; [reflexivity|]. split; [lia|]. split; [reflexivity|].
      intros i Hi. replace i with s by lia. exact Hnz.
    + rewrite Hdrop, (drop_at m s Hs Hnz). cbn [skip_separators].
      rewrite E. reflexivity.
  - split; [apply advance_refl|]. split; [|exact E].
    symmetry. apply skip_separators_id. rewrite <- at_peek0 by lia. exact E.
Qed.

Lemma copy_segment_at_spec m s d :
  0 <= d <= s ->
  exists m' s' d',
    copy_segment_at m s d = Some (m', s', d')
    /\ advance m s m' s'
    /\ 0 <= d' <= s'
    /\ copy_segment (drop (Z.to_nat s) m) (take (Z.to_nat d) m)
       = (drop (Z.to_nat s') m', take (Z.to_nat d') m')
    /\ (at_ m s <> 0 -> IS_DIR_SEPARATOR (at_ m s) = false -> s < s').
Proof.
  intros Hd.
  remember (Z.to_nat (Z.of_nat (length m) - s)) as n eqn:Hn.
  revert m s d Hd Hn. induction n as [n IH] using lt_wf_ind. intros m s d Hd Hn.
  rewrite copy_segment_at_eq.
  destruct (negb (at_ m s =? 0) && negb (IS_DIR_SEPARATOR (at_ m s))) eqn:E.
  - apply andb_prop in E as [E0 E1]. apply negb_true_iff in E0, E1.
    apply Z.eqb_neq in E0. pose proof (at_range m s E0) as Hr.
    destruct (copy_char_at_spec m s d Hd E0) as (m1 & Hcc & Hadv1 & Htake & Hdrop).
    unfold copy_char_at in Hcc. rewrite store_Some in Hcc |- * by lia.
    cbn [mbind option_bind] in Hcc. injection Hcc as Hm1. rewrite Hm1.
    assert (Hl1 : length m1 = length m) by (apply Hadv1).
    destruct (IH (Z.to_nat (Z.of_nat (length m1) - (s + 1))) ltac:(lia)
                m1 (s + 1) (d + 1) ltac:(lia) eq_refl)
      as (m' & s' & d' & Hrec & Hadv & Hd' & Hpure & _).
    exists m', s', d'. split; [exact Hrec|].
    split; [eapply advance_trans; [lia|exact Hadv1|exact Hadv]|].
    split; [exact Hd'|]. split.
    + rewrite (drop_at m s ltac:(lia) E0). cbn [copy_segment].
      apply Z.eqb_neq in E0. rewrite E0, E1.
      cbn [negb andb]. rewrite <- Hpure, Htake.
      destruct Hadv1 as (_ & _ & Hd1 & _). rewrite Hd1. reflexivity.
    + intros _ _. destruct Hadv as (_ & ? & _). lia.
  - exists m, s, d. split; [reflexivity|]. split; [apply advance_refl|].
    split; [lia|]. split.
    + destruct (drop (Z.to_nat s) m) as [|c rest] eqn:Edrop; [reflexivity|].
      cbn [copy_segment].
      assert (Hc : at_ m s = c).
      { rewrite at_peek0 by lia. rewrite Edrop. reflexivity. }
      rewrite <- Hc, E. reflexivity.
    + intros H0 H1. apply Z.eqb_neq in H0. rewrite H0, H1 in E. discriminate.
Qed.

(** The backward loops read the destination between [droot] and where
    they start. *)
Lemma back_over_separators_ext a b droot pre :
  (forall i, droot < i <= pre -> at_ a i = at_ b i) ->
  back_over_separators a droot pre = back_over_separators b droot pre.
Proof.
  remember (Z.to_nat (pre - droot)) as n eqn:Hn.
  revert pre Hn. induction n as [n IH] using lt_wf_ind. intros pre Hn Hext.
  rewrite (back_over_separators_eq a), (back_over_separators_eq b).
  destruct (Z.ltb_spec droot pre); [|reflexivity].
  rewrite Hext by lia. cbn [andb].
  destruct (IS_DIR_SEPARATOR (at_ b pre)); [|reflexivity].
  apply (IH (Z.to_nat (pre - 1 - droot))); [lia|reflexivity|].
  intros i Hi. apply Hext. lia.
Qed.

Lemma back_over_segment_ext a b droot pre :
  (forall i, droot < i <= pre -> at_ a i = at_ b i) ->
  back_over_segment a droot pre = back_over_segment b droot pre.
Proof.
  remember (Z.to_nat (pre - droot)) as n eqn:Hn.
  revert pre Hn. induction n as [n IH] using lt_wf_ind. intros pre Hn Hext.
  rewrite (back_over_segment_eq a), (back_over_segment_eq b).
  destruct (Z.ltb_spec droot pre); [|reflexivity].
  rewrite Hext by lia. cbn [andb].
  destruct (negb (IS_DIR_SEPARATOR (at_ b pre))); [|reflexivity].
  apply (IH (Z.to_nat (pre - 1 - droot))); [lia|reflexivity|].
  intros i Hi. apply Hext. lia.
Qed.

Lemma strip_trailing_ext a b droot dlen :
  (forall i, droot <= i < dlen -> at_ a i = at_ b i) ->
  strip_trailing a droot dlen = strip_trailing b droot dlen.
Proof.
  remember (Z.to_nat (dlen - droot)) as n eqn:Hn.
  revert dlen Hn. induction n as [n IH] using lt_wf_ind. intros dlen Hn Hext.
  rewrite (strip_trailing_eq a), (strip_trailing_eq b).
  destruct (Z.ltb_spec droot dlen); [|reflexivity].
  rewrite Hext by lia. cbn [andb].
  destruct (IS_DIR_SEPARATOR (at_ b (dlen - 1))); [|reflexivity].
  apply (IH (Z.to_nat (dlen - 1 - droot))); [lia|reflexivity|].
  intros i Hi. apply Hext. lia.
Qed.

Lemma back_over_separators_bounds d droot pre :
  back_over_separators d droot pre <= pre
  /\ (droot <= pre -> droot <= back_over_separators d droot pre).
Proof.
  remember (Z.to_nat (pre - droot)) as n eqn:Hn.
  revert pre Hn. induction n as [n IH] using lt_wf_ind. intros pre Hn.
  rewrite back_over_separators_eq.
  destruct (Z.ltb_spec droot pre); [|cbn [andb]; lia].
  cbn [andb]. destruct (IS_DIR_SEPARATOR (at_ d pre)); [|lia].
  destruct (IH (Z.to_nat (pre - 1 - droot)) ltac:(lia) (pre - 1) eq_refl). lia.
Qed.

Lemma back_over_segment_bounds d droot pre :
  back_over_segment d droot pre <= pre
  /\ (droot <= pre -> droot <= back_over_segment d droot pre).
Proof.
  remember (Z.to_nat (pre - droot)) as n eqn:Hn.
  revert pre Hn. induction n as [n IH] using lt_wf_ind. intros pre Hn.
  rewrite back_over_segment_eq.
  destruct (Z.ltb_spec droot pre); [|cbn [andb]; lia].
  cbn [andb]. destruct (negb (IS_DIR_SEPARATOR (at_ d pre))); [|lia].
  destruct (IH (Z.to_nat (pre - 1 - droot)) ltac:(lia) (pre - 1) eq_refl). lia.
Qed.

Lemma strip_trailing_bounds d droot dlen :
  strip_trailing d droot dlen <= dlen
  /\ (droot <= dlen -> droot <= strip_trailing d droot dlen).
Proof.
  remember (Z.to_nat (dlen - droot)) as n eqn:Hn.
  revert dlen Hn. induction n as [n IH] using lt_wf_ind. intros dlen Hn.
  rewrite strip_trailing_eq.
  destruct (Z.ltb_spec droot dlen); [|cbn [andb]; lia].
  cbn [andb]. destruct (IS_DIR_SEPARATOR (at_ d (dlen - 1))); [|lia].
  destruct (IH (Z.to_nat (dlen - 1 - droot)) ltac:(lia) (dlen - 1) eq_refl). lia.
Qed.

Lemma length_take_Z (m : list Z) d :
  0 <= d <= Z.of_nat (length m) ->
  Z.of_nat (length (take (Z.to_nat d) m)) = d.
Proof. intros H. rewrite length_take. lia. Qed.

(** [s++; if ( *s) while (IS_DIR_SEPARATOR ( *s)) ++s;] behind a "."
    or a ".." that is not stored. *)
Lemma skip_after_sim m s :
  0 <= s ->
  let s' := if negb (at_ m s =? 0) then skip_separators_at m s else s in
  advance m s m s'
  /\ drop (Z.to_nat s') m
     = (let sl := drop (Z.to_nat s) m in
        if negb (peek sl 0 =? 0) then skip_separators sl else sl).
Proof.
  intros Hs. cbv zeta. rewrite <- at_peek0 by lia.
  destruct (negb (at_ m s =? 0)).
  - destruct (skip_separators_at_spec m s Hs) as (Hadv & Hdrop & _).
    split; assumption.
  - split; [apply advance_refl|reflexivity].
Qed.

(** Two bytes stored from the read cursor. *)
Lemma copy_two_sim m s d :
  0 <= d <= s -> at_ m s <> 0 -> at_ m (s + 1) <> 0 ->
  exists m',
    ('(m, s, d) ← copy_char_at m s d; copy_char_at m s d)
    = Some (m', s + 2, d + 2)
    /\ (let '(sl, dl) := copy_char (drop (Z.to_nat s) m) (take (Z.to_nat d) m) in
        copy_char sl dl)
       = (drop (Z.to_nat (s + 2)) m', take (Z.to_nat (d + 2)) m')
    /\ advance m s m' (s + 2).
Proof.
  intros Hd H0 H1.
  destruct (copy_char_at_spec m s d Hd H0) as (m1 & Hc1 & Hadv1 & Ht1 & Hd1).
  assert (H1' : at_ m1 (s + 1) <> 0).
  { rewrite (at_drop_eq m m1 (s + 1) (s + 1)) by (try apply Hadv1; lia).
    exact H1. }
  destruct (copy_char_at_spec m1 (s + 1) (d + 1) ltac:(lia) H1')
    as (m2 & Hc2 & Hadv2 & Ht2 & Hd2).
  exists m2. rewrite Hc1. cbn [mbind option_bind]. rewrite Hc2.
  replace (s + 1 + 1) with (s + 2) in * by lia.
  replace (d + 1 + 1) with (d + 2) in * by lia.
  split; [reflexivity|]. split.
  - unfold copy_char. rewrite Ht2, Hd2, Ht1, Hd1.
    rewrite <- !at_peek0 by lia.
    rewrite <- Hd1, <- at_peek0 by lia. reflexivity.
  - eapply advance_trans; [lia|exact Hadv1|exact Hadv2].
Qed.

(** The head of the loop body on the shared buffer does what it does on
    separate strings, as long as the write cursor is not in front of the
    read cursor. *)
Lemma canonicalize_step_sim droot m s d :
  0 <= droot -> 0 <= d <= s -> at_ m s <> 0 ->
  exists m' s' d',
    canonicalize_step_at droot m s d = Some (m', s', d')
    /\ canonicalize_step droot (drop (Z.to_nat s) m) (take (Z.to_nat d) m)
       = (drop (Z.to_nat s') m', take (Z.to_nat d') m')
    /\ advance m s m' s'
    /\ 0 <= d' <= s'
    /\ (IS_DIR_SEPARATOR (at_ m s) = false -> s < s').
Proof.
  intros Hroot Hd Hnz. pose proof (at_range m s Hnz) as Hr.
  unfold canonicalize_step_at, canonicalize_step. cbv zeta.
  assert (Hlen : Z.of_nat (length (take (Z.to_nat d) m)) = d)
    by (apply length_take_Z; lia).
  rewrite Hlen.
  rewrite <- (at_peek0 m s), <- (at_peek m s 1), <- (at_peek m s 2) by lia.
  change (Z.of_nat 1) with 1. change (Z.of_nat 2) with 2.
  assert (Hdrop1 : drop 1 (drop (Z.to_nat s) m) = drop (Z.to_nat (s + 1)) m).
  { rewrite drop_drop. f_equal. lia. }
  assert (Hdrop2 : drop 2 (drop (Z.to_nat s) m) = drop (Z.to_nat (s + 2)) m).
  { rewrite drop_drop. f_equal. lia. }
  destruct ((at_ m s =? DOT)
            && ((at_ m (s + 1) =? 0) || IS_DIR_SEPARATOR (at_ m (s + 1)))) eqn:E1.
  { (* "." *)
    destruct (skip_after_sim m (s + 1) ltac:(lia)) as (Hadv & Hdrop).
    cbv zeta in Hadv, Hdrop. rewrite Hdrop1.
    eexists _, _, _. split; [reflexivity|]. split; [rewrite Hdrop; reflexivity|].
    split; [|split; [destruct Hadv as (_ & ? & _); lia
                    |intros _; destruct Hadv as (_ & ? & _); lia]].
    eapply advance_trans; [lia| |exact Hadv].
    split; [reflexivity|]. split; [lia|]. split; [reflexivity|].
    intros i Hi. replace i with s by lia. exact Hnz. }
  destruct ((at_ m s =? DOT) && (at_ m (s + 1) =? DOT)
            && ((at_ m (s + 2) =? 0) || IS_DIR_SEPARATOR (at_ m (s + 2)))) eqn:E2.
  { (* ".." *)
    apply andb_prop in E2 as [E2 _]. apply andb_prop in E2 as [_ E2].
    assert (Hnz1 : at_ m (s + 1) <> 0).
    { apply Z.eqb_eq in E2. rewrite E2. discriminate. }
    assert (Hext : forall i, i < d -> at_ (take (Z.to_nat d) m) i = at_ m i)
      by (intros; apply at_take; lia).
    rewrite (back_over_separators_ext (take (Z.to_nat d) m) m droot (d - 1))
      by (intros; apply Hext; lia).
    set (pre1 := back_over_separators m droot (d - 1)).
    pose proof (back_over_separators_bounds m droot (d - 1)) as [Hb1 Hb1'].
    fold pre1 in Hb1, Hb1'.
    rewrite (Hext pre1) by lia.
    destruct (copy_two_sim m s d Hd Hnz Hnz1) as (m2 & Hat2 & Hpure2 & Hadv2).
    destruct ((droot <=? pre1) && negb (IS_DIR_SEPARATOR (at_ m pre1))) eqn:E3.
    - apply andb_prop in E3 as [E3 _]. apply Z.leb_le in E3.
      rewrite (back_over_segment_ext (take (Z.to_nat d) m) m droot pre1)
        by (intros; apply Hext; lia).
      set (pre2 := back_over_segment m droot pre1).
      pose proof (back_over_segment_bounds m droot pre1) as [Hb2 Hb2'].
      fold pre2 in Hb2, Hb2'. specialize (Hb2' E3).
      set (pre := if droot <? pre2 then pre2 + 1 else pre2).
      assert (Hpre : droot <= pre <= d).
      { unfold pre. destruct (Z.ltb_spec droot pre2); lia. }
      assert (Hc : (pre + 3 =? d) && (at_ (take (Z.to_nat d) m) pre =? DOT)
                   && (at_ (take (Z.to_nat d) m) (pre + 1) =? DOT)
                   = (pre + 3 =? d) && (at_ m pre =? DOT)
                     && (at_ m (pre + 1) =? DOT)).
      { destruct (Z.eqb_spec (pre + 3) d); [|reflexivity].
        rewrite !Hext by lia. reflexivity. }
      rewrite Hc.
      destruct ((pre + 3 =? d) && (at_ m pre =? DOT) && (at_ m (pre + 1) =? DOT)).
      + exists m2, (s + 2), (d + 2). rewrite Hat2, Hpure2.
        split; [reflexivity|]. split; [reflexivity|]. split; [exact Hadv2|].
        split; [lia|]. intros _; lia.
      + destruct (skip_after_sim m (s + 2) ltac:(lia)) as (Hadv & Hdrop).
        cbv zeta in Hadv, Hdrop. rewrite Hdrop2.
        eexists _, _, _. split; [reflexivity|].
        split; [rewrite Hdrop, take_take; do 2 f_equal; lia|].
        assert (Hs2 : advance m s m (s + 2)).
        { split; [reflexivity|]. split; [lia|]. split; [reflexivity|].
          intros i Hi. destruct (Z.eq_dec i s) as [->|]; [exact Hnz|].
          replace i with (s + 1) by lia. exact Hnz1. }
        split; [eapply advance_trans; [lia|exact Hs2|exact Hadv]|].
        destruct Hadv as (_ & ? & _). split; [lia|]. intros _; lia.
    - exists m2, (s + 2), (d + 2). rewrite Hat2, Hpure2.
      split; [reflexivity|]. split; [reflexivity|]. split; [exact Hadv2|].
      split; [lia|]. intros _; lia. }
  destruct (copy_segment_at_spec m s d Hd)
    as (m' & s' & d' & Hat & Hadv & Hd' & Hpure & Hprog).
  exists m', s', d'. split; [exact Hat|]. split; [exact Hpure|].
  split; [exact Hadv|]. split; [exact Hd'|]. intros Hsep. apply Hprog; assumption.
Qed.

(** The separator behind a segment. *)
Lemma copy_separator_sim m s d :
  0 <= d <= s ->
  exists m' s' d',
    copy_separator_at m s d = Some (m', s', d')
    /\ copy_separator (drop (Z.to_nat s) m) (take (Z.to_nat d) m)
       = (drop (Z.to_nat s') m', take (Z.to_nat d') m')
    /\ advance m s m' s'
    /\ 0 <= d' <= s'
    /\ IS_DIR_SEPARATOR (at_ m' s') = false.
Proof.
  intros Hd. unfold copy_separator_at, copy_separator.
  rewrite <- at_peek0 by lia.
  destruct (IS_DIR_SEPARATOR (at_ m s)) eqn:E.
  - assert (Hnz : at_ m s <> 0).
    { intros Hz. rewrite Hz in E. discriminate. }
    destruct (copy_char_at_spec m s d Hd Hnz) as (m1 & Hc1 & Hadv1 & Ht1 & Hd1).
    rewrite Hc1. cbn [mbind option_bind].
    destruct (skip_separators_at_spec m1 (s + 1) ltac:(lia))
      as (Hadv & Hdrop & Hsep).
    eexists _, _, _. split; [reflexivity|]. split.
    + unfold copy_char. rewrite Hdrop, Ht1, Hd1.
      rewrite <- at_peek0 by lia. reflexivity.
    + split; [eapply advance_trans; [lia|exact Hadv1|exact Hadv]|].
      split; [destruct Hadv as (_ & ? & _); lia|exact Hsep].
  - exists m, s, d. split; [reflexivity|]. split; [reflexivity|].
    split; [apply advance_refl|]. split; [lia|exact E].
Qed.

(** A round of the loop. *)
Lemma canonicalize_segment_sim droot m s d :
  0 <= droot -> 0 <= d <= s -> at_ m s <> 0 ->
  IS_DIR_SEPARATOR (at_ m s) = false ->
  exists m' s' d',
    canonicalize_segment_at droot m s d = Some (m', s', d')
    /\ canonicalize_segment droot (drop (Z.to_nat s) m) (take (Z.to_nat d) m)
       = (drop (Z.to_nat s') m', take (Z.to_nat d') m')
    /\ advance m s m' s'
    /\ s < s'
    /\ 0 <= d' <= s'
    /\ IS_DIR_SEPARATOR (at_ m' s') = false.
Proof.
  intros Hroot Hd Hnz Hsep.
  destruct (canonicalize_step_sim droot m s d Hroot Hd Hnz)
    as (m1 & s1 & d1 & Hat1 & Hpure1 & Hadv1 & Hd1 & Hprog).
  destruct (copy_separator_sim m1 s1 d1 Hd1)
    as (m2 & s2 & d2 & Hat2 & Hpure2 & Hadv2 & Hd2 & Hsep2).
  exists m2, s2, d2. unfold canonicalize_segment_at, canonicalize_segment.
  rewrite Hat1, Hpure1. cbn [mbind option_bind]. rewrite Hat2, Hpure2.
  split; [reflexivity|]. split; [reflexivity|].
  split; [eapply advance_trans; [lia|exact Hadv1|exact Hadv2]|].
  split; [specialize (Hprog Hsep); destruct Hadv2 as (_ & ? & _); lia|].
  split; [exact Hd2|exact Hsep2].
Qed.

(** The loop. *)
Lemma canonicalize_loop_sim droot :
  forall f1 f2 m s d dl,
    0 <= droot -> 0 <= d <= s ->
    (length m - Z.to_nat s <= f2)%nat ->
    IS_DIR_SEPARATOR (at_ m s) = false ->
    canonicalize_loop f1 droot (drop (Z.to_nat s) m) (take (Z.to_nat d) m)
    = Some dl ->
    exists m' s' d',
      canonicalize_loop_at f2 droot m s d = Some (m', d')
      /\ take (Z.to_nat d') m' = dl
      /\ advance m s m' s'
      /\ 0 <= d' <= s'
      /\ at_ m' s' = 0.
Proof.
  induction f1 as [|f1 IH]; intros f2 m s d dl Hroot Hd Hf2 Hsep Hpure.
  - cbn [canonicalize_loop] in Hpure. rewrite <- at_peek0 in Hpure by lia.
    destruct (Z.eqb_spec (at_ m s) 0) as [E|E]; [|discriminate].
    injection Hpure as <-. exists m, s, d.
    split; [destruct f2; cbn [canonicalize_loop_at]; rewrite E; reflexivity|].
    split; [reflexivity|]. split; [apply advance_refl|]. split; [lia|exact E].
  - cbn [canonicalize_loop] in Hpure. rewrite <- at_peek0 in Hpure by lia.
    destruct (Z.eqb_spec (at_ m s) 0) as [E|E].
    + injection Hpure as <-. exists m, s, d.
      split; [destruct f2; cbn [canonicalize_loop_at]; rewrite E; reflexivity|].
      split; [reflexivity|]. split; [apply advance_refl|]. split; [lia|exact E].
    + pose proof (at_range m s E) as Hr.
      destruct (canonicalize_segment_sim droot m s d Hroot Hd E Hsep)
        as (m1 & s1 & d1 & Hat1 & Hpure1 & Hadv1 & Hlt & Hd1 & Hsep1).
      rewrite Hpure1 in Hpure.
      destruct f2 as [|f2]; [lia|].
      assert (Hl1 : length m1 = length m) by apply Hadv1.
      destruct (IH f2 m1 s1 d1 dl Hroot Hd1 ltac:(lia) Hsep1 Hpure)
        as (m2 & s2 & d2 & Hat2 & Htake & Hadv2 & Hd2 & Hend).
      exists m2, s2, d2. cbn [canonicalize_loop_at].
      destruct (Z.eqb_spec (at_ m s) 0); [contradiction|].
      rewrite Hat1. cbn [mbind option_bind]. rewrite Hat2.
      split; [reflexivity|]. split; [exact Htake|].
      split; [eapply advance_trans; [lia|exact Hadv1|exact Hadv2]|].
      split; [exact Hd2|exact Hend].
Qed.

(** The root. *)
Lemma canonicalize_root_sim m s d :
  0 <= d <= s ->
  exists m' s' d',
    canonicalize_root_at m s d = Some (m', s', d')
    /\ canonicalize_root (drop (Z.to_nat s) m) (take (Z.to_nat d) m)
       = (drop (Z.to_nat s') m', take (Z.to_nat d') m')
    /\ advance m s m' s'
    /\ 0 <= d' <= s'
    /\ IS_DIR_SEPARATOR (at_ m' s') = false.
Proof.
  intros Hd. unfold canonicalize_root_at, canonicalize_root.
  rewrite <- at_peek0 by lia.
  destruct (IS_DIR_SEPARATOR (at_ m s)) eqn:E.
  - assert (Hnz : at_ m s <> 0).
    { intros Hz. rewrite Hz in E. discriminate. }
    destruct (copy_char_at_spec m s d Hd Hnz) as (m1 & Hc1 & Hadv1 & Ht1 & Hd1).
    rewrite Hc1. cbn [mbind option_bind].
    unfold copy_char at 1. cbv beta iota. rewrite <- (at_peek0 m s) by lia.
    rewrite <- Hd1, <- Ht1.
    rewrite <- (at_peek0 m1 (s + 1)), <- (at_peek m1 (s + 1) 1) by lia.
    change (Z.of_nat 1) with 1.
    destruct (IS_DIR_SEPARATOR (at_ m1 (s + 1))
              && negb (IS_DIR_SEPARATOR (at_ m1 (s + 1 + 1)))) eqn:E2.
    + apply andb_prop in E2 as [E2 _].
      assert (Hnz1 : at_ m1 (s + 1) <> 0).
      { intros Hz. rewrite Hz in E2. discriminate. }
      destruct (copy_char_at_spec m1 (s + 1) (d + 1) ltac:(lia) Hnz1)
        as (m2 & Hc2 & Hadv2 & Ht2 & Hd2).
      rewrite Hc2. cbn [mbind option_bind].
      destruct (skip_separators_at_spec m2 (s + 1 + 1) ltac:(lia))
        as (Hadv & Hdrop & Hsep).
      eexists _, _, _. split; [reflexivity|]. split.
      * unfold copy_char. rewrite Hdrop, Ht2, Hd2.
        rewrite <- at_peek0 by lia. reflexivity.
      * split; [eapply advance_trans; [lia|exact Hadv1|];
                eapply advance_trans; [lia|exact Hadv2|exact Hadv]|].
        split; [destruct Hadv as (_ & ? & _); lia|exact Hsep].
    + cbn [mbind option_bind].
      destruct (skip_separators_at_spec m1 (s + 1) ltac:(lia))
        as (Hadv & Hdrop & Hsep).
      eexists _, _, _. split; [reflexivity|]. split.
      * rewrite Hdrop. reflexivity.
      * split; [eapply advance_trans; [lia|exact Hadv1|exact Hadv]|].
        split; [destruct Hadv as (_ & ? & _); lia|exact Hsep].
  - exists m, s, d. split; [reflexivity|]. split; [reflexivity|].
    split; [apply advance_refl|]. split; [lia|exact E].
Qed.

Lemma strlen_at m : at_ m (Z.of_nat (strlen m)) = 0.
Proof.
  induction m as [|c m IH]; [reflexivity|]. cbn [strlen].
  destruct (Z.eqb_spec c 0) as [->|]; [reflexivity|].
  unfold at_ in *. destruct (Z.ltb_spec (Z.of_nat (S (strlen m))) 0); [lia|].
  destruct (Z.ltb_spec (Z.of_nat (strlen m)) 0); [lia|].
  rewrite Nat2Z.id in *. exact IH.
Qed.

Lemma strlen_before m i :
  0 <= i < Z.of_nat (strlen m) -> at_ m i <> 0.
Proof.
  revert i. induction m as [|c m IH]; intros i Hi; [simpl in Hi; lia|].
  cbn [strlen] in Hi. destruct (Z.eqb_spec c 0) as [->|Hc]; [simpl in Hi; lia|].
  destruct (Z.eq_dec i 0) as [->|Hi0]; [exact Hc|].
  specialize (IH (i - 1) ltac:(lia)).
  unfold at_ in *. destruct (Z.ltb_spec i 0); [lia|].
  destruct (Z.ltb_spec (i - 1) 0); [lia|].
  replace (Z.to_nat i) with (S (Z.to_nat (i - 1))) by lia. exact IH.
Qed.

Lemma strip_trailing_nonneg d droot dlen :
  0 <= droot -> 0 <= dlen ->
  0 <= strip_trailing d droot dlen <= dlen.
Proof.
  intros Hr Hd. pose proof (strip_trailing_bounds d droot dlen) as [H1 H2].
  split; [|exact H1].
  destruct (Z.le_gt_cases droot dlen) as [H|H]; [specialize (H2 H); lia|].
  rewrite strip_trailing_eq. destruct (Z.ltb_spec droot dlen); [lia|].
  cbn [andb]. lia.
Qed.

(** C8. On a buffer [m] that holds a non-empty C string at its start,
    [canonicalize_path (m, m)] returns without a store outside the
    buffer; the string it leaves at the start of [m] is the result [out]
    of [canonicalize_path] on separate strings, [out] is not longer than
    the input, its NUL is stored at or in front of the NUL of the input,
    and the bytes behind the NUL of the input are not written. *)
Theorem canonicalize_path_in_place (m : list Z) :
  (0 < strlen m < length m)%nat ->
  exists out m',
    canonicalize_path_opt m = Some out
    /\ (length out <= strlen m)%nat
    /\ canonicalize_path_at m 0 0 = Some m'
    /\ length m' = length m
    /\ take (length out) m' = out
    /\ m' !! length out = Some 0
    /\ drop (S (strlen m)) m' = drop (S (strlen m)) m.
Proof.
  intros Hlen.
  destruct (canonicalize_path_spec m) as (sl & r & stack & Hroot & _ & _ & _ & Hp).
  exists (finish r stack).
  cut (exists m',
          (length (finish r stack) <= strlen m)%nat
          /\ canonicalize_path_at m 0 0 = Some m'
          /\ length m' = length m
          /\ take (length (finish r stack)) m' = finish r stack
          /\ m' !! length (finish r stack) = Some 0
          /\ drop (S (strlen m)) m' = drop (S (strlen m)) m).
  { intros (m' & H). exists m'. split; [exact Hp|exact H]. }
  unfold canonicalize_path_opt in Hp. rewrite Hroot in Hp.
  destruct (canonicalize_loop (length sl) (Z.of_nat (length r)) sl r)
    as [dl|] eqn:Hloop; [|discriminate].
  injection Hp as Hp. rewrite <- Hp. clear Hp.
  destruct (canonicalize_root_sim m 0 0 ltac:(lia))
    as (m1 & s1 & d1 & Hat1 & Hpure1 & Hadv1 & Hd1 & Hsep1).
  change (take (Z.to_nat 0) m) with (@nil Z) in Hpure1.
  change (drop (Z.to_nat 0) m) with m in Hpure1.
  rewrite Hroot in Hpure1. injection Hpure1 as -> ->.
  assert (Hl1 : length m1 = length m) by apply Hadv1.
  assert (Hs1 : s1 <= Z.of_nat (length m)).
  { destruct (Z.le_gt_cases s1 (Z.of_nat (strlen m))) as [H|H]; [lia|].
    destruct Hadv1 as (_ & _ & _ & Hnz).
    exfalso. apply (Hnz (Z.of_nat (strlen m))); [lia|apply strlen_at]. }
  assert (Hroot1 : Z.of_nat (length (take (Z.to_nat d1) m1)) = d1)
    by (apply length_take_Z; lia).
  rewrite Hroot1 in *.
  destruct (canonicalize_loop_sim d1 _ (length m1) m1 s1 d1 dl
              ltac:(lia) Hd1 ltac:(lia) Hsep1 Hloop)
    as (m2 & s2 & d2 & Hat2 & Htake & Hadv2 & Hd2 & Hend).
  pose proof (advance_trans m 0 m1 s1 m2 s2 ltac:(lia) Hadv1 Hadv2)
    as (Hl2 & _ & Hdrop & Hnz).
  assert (He : s2 = Z.of_nat (strlen m)).
  { destruct (Z.lt_trichotomy s2 (Z.of_nat (strlen m))) as [H|[H|H]];
      [|exact H|].
    - exfalso. apply (strlen_before m s2); [lia|].
      rewrite <- (at_drop_eq m m2 s2 s2) by (try assumption; lia). exact Hend.
    - exfalso. apply (Hnz (Z.of_nat (strlen m))); [lia|apply strlen_at]. }
  assert (Hdl : Z.of_nat (length dl) = d2).
  { rewrite <- Htake. apply length_take_Z. lia. }
  rewrite Hdl.
  assert (Hstrip : strip_trailing dl d1 d2 = strip_trailing m2 d1 d2).
  { apply strip_trailing_ext. intros i Hi. rewrite <- Htake.
    apply at_take. lia. }
  rewrite Hstrip.
  pose proof (strip_trailing_nonneg m2 d1 d2 ltac:(lia) ltac:(lia)) as Hd3.
  set (d3 := strip_trailing m2 d1 d2) in *.
  assert (Htake3 : take (Z.to_nat d3) dl = take (Z.to_nat d3) m2).
  { rewrite <- Htake, take_take. f_equal. lia. }
  rewrite Htake3.
  assert (Hl3 : Z.of_nat (length (take (Z.to_nat d3) m2)) = d3)
    by (apply length_take_Z; lia).
  rewrite Hl3.
  assert (Hdrop' : drop (S (strlen m)) m2 = drop (S (strlen m)) m).
  { replace (S (strlen m)) with (Z.to_nat s2 + 1)%nat by lia.
    rewrite <- !drop_drop. rewrite Hdrop. reflexivity. }
  unfold canonicalize_path_at. rewrite Hat1. cbn [mbind option_bind].
  rewrite Hat2. cbn [mbind option_bind]. fold d3.
  destruct (Z.eqb_spec d3 0) as [E0|E0].
  - rewrite E0. change (take (Z.to_nat 0) m2) with (@nil Z). cbn [app length].
    rewrite store_Some by lia. cbn [mbind option_bind].
    rewrite store_Some by (rewrite length_insert; lia).
    eexists. split; [lia|]. split; [reflexivity|].
    split; [rewrite !length_insert; lia|].
    change (Z.to_nat (0 + 1)) with 1%nat. change (Z.to_nat 0) with 0%nat.
    destruct m2 as [|c0 [|c1 m2]]; [simpl in Hl2; lia|simpl in Hl2; lia|].
    split; [reflexivity|]. split; [reflexivity|].
    rewrite <- Hdrop'. destruct (strlen m); [lia|]. reflexivity.
  - cbn [mbind option_bind]. rewrite store_Some by lia.
    rewrite length_take, Nat.min_l by lia.
    eexists. split; [lia|]. split; [reflexivity|].
    split; [rewrite length_insert; lia|].
    split; [apply take_insert_ge; lia|].
    split; [apply list_lookup_insert_eq; lia|].
    rewrite drop_insert_lt by lia. exact Hdrop'.
Qed.

End CanonicalizeFacts.

Lemma canonicalize_path_in_place_witness :
  exists out m',
    Path.canonicalize_path_opt example_path = Some out
    /\ (length out <= Path.strlen example_path)%nat
    /\ Path.canonicalize_path_at example_path 0 0 = Some m'
    /\ length m' = length example_path
    /\ take (length out) m' = out
    /\ m' !! length out = Some 0
    /\ drop (S (Path.strlen example_path)) m'
       = drop (S (Path.strlen example_path)) example_path.
Proof.
  apply (canonicalize_path_in_place example_path). vm_compute. lia.
Defined.

(** The example in place: "/b" and its NUL over the start of
    "/a/.//../b"; the rest of the buffer keeps what it held. *)
Example canonicalize_path_in_place_ex :
  Path.canonicalize_path_at example_path 0 0
  = Some (bytes_of_string "/b" ++ [0] ++ bytes_of_string ".//../b" ++ [0; 7])
  /\ Path.canonicalize_path_opt example_path = Some (bytes_of_string "/b").
Proof. split; vm_compute; reflexivity. Qed.

(** On the empty string the "." and its NUL take two bytes: the byte
    behind the NUL of the input is written. *)
Example canonicalize_path_empty_ex :
  Path.canonicalize_path_at [0; 7] 0 0 = Some [Path.DOT; 0]
  /\ Path.canonicalize_path_at [0] 0 0 = None.
Proof. split; vm_compute; reflexivity. Qed.

(** ** 4.G The inline [DW_FORM_string] compilation directory *)

Example comp_dir_ex :
  Path.c_str
    (Info.payload
       (Info.edit_attributes_comp_dir_string
          {| base_dir := Some (bytes_of_string "/build/src");
             dest_dir := Some (bytes_of_string "/u"); list_file := false |}
          1 (bytes_of_string "/build/src/pkg" ++ [0]) 0 no_flags))
  = bytes_of_string "/u/////////pkg".
Proof. reflexivity. Qed.

Section InfoFacts.

Import Path Info.

(** [memcpy] into the middle of a buffer. *)
Lemma list_inserts_splice (pre new old rest : list Z) :
  length new = length old ->
  list_inserts (length pre) new (pre ++ old ++ rest) = pre ++ new ++ rest.
Proof.
  intros Hlen.
  replace (length pre) with (length pre + 0)%nat by lia.
  rewrite list_inserts_app_r. f_equal.
  apply list_inserts_0_r. exact Hlen.
Qed.

(** C2 (as the code has it). Phase one on an inline [DW_FORM_string]
    [DW_AT_comp_dir] that begins with [base_dir]: when the replacement
    ([dest_dir], and '/' and the tail if there is a tail) is not longer
    than the original, [dest_dir] is copied over the start of the string
    and the shortfall is filled with '/' right behind it; the separator
    and the tail stay where they were, so the padding lies between
    [dest_dir] and the tail and the byte length is kept.  When the
    replacement is longer a warning is printed and the bytes are left as
    they were.  Neither case touches the flags. *)
Theorem comp_dir_string_in_place (base dest pre comp post file : list Z)
    (fl : flags) (lf : bool) :
  0 ∉ comp ->
  skip_dir_prefix comp base = Some file ->
  let cfg := {| base_dir := Some base; dest_dir := Some dest; list_file := lf |} in
  let data := pre ++ comp ++ 0 :: post in
  let r := edit_attributes_comp_dir_string cfg 1 data (length pre) fl in
  let tail := match file with [] => [] | _ => SLASH :: file end in
  let new_len := (length (c_str dest) + length tail)%nat in
  ((new_len <= length comp)%nat ->
   payload r
   = pre ++ (c_str dest ++ replicate (length comp - new_len) SLASH ++ tail)
         ++ 0 :: post
   /\ length (c_str dest ++ replicate (length comp - new_len) SLASH ++ tail)
      = length comp
   /\ warnings r = [] /\ flags_after r = fl)
  /\ ((length comp < new_len)%nat ->
      payload r = data /\ warnings r <> [] /\ flags_after r = fl).
Proof.
  intros Hnf Hskip. cbv zeta.
  destruct (skip_dir_prefix_Some comp base file Hnf Hskip)
    as (k & Hcomp & Hk & _ & Hfile).
  unfold edit_attributes_comp_dir_string. cbn [dest_dir base_dir default].
  unfold id. rewrite drop_app_length, (c_str_app_nul comp post Hnf), Hskip.
  cbn [Z.eqb Pos.eqb].
  rewrite (strlen_nul_free comp Hnf), (strlen_nul_free file Hfile).
  assert (Hlen : length comp = (strlen base + k + length file)%nat).
  { rewrite Hcomp at 1. rewrite !length_app, length_replicate, length_c_str. lia. }
  assert (Htail : length (match file with [] => [] | _ => SLASH :: file end)
                  = if (0 <? length file)%nat then (1 + length file)%nat else 0%nat).
  { destruct file; reflexivity. }
  rewrite length_c_str in *.
  assert (Hnew : (if (0 <? length file)%nat
                  then (strlen dest + (1 + length file))%nat else strlen dest)
                 = (strlen dest
                    + length (match file with [] => [] | _ => SLASH :: file end))%nat).
  { rewrite Htail. destruct (0 <? length file)%nat; lia. }
  rewrite Hnew. clear Hnew.
  set (tail := match file with [] => [] | _ => SLASH :: file end) in *.
  set (new_len := (strlen dest + length tail)%nat).
  split.
  - intros Hle. apply Nat.ltb_ge in Hle as Hle'. rewrite Hle'. cbn [payload warnings flags_after].
    assert (Hdrop : drop (strlen dest + (length comp - new_len)) comp = tail).
    { subst tail new_len. rewrite Hcomp at 2.
      destruct file as [|c file'].
      - simpl length in *. rewrite app_nil_r.
        apply drop_ge. rewrite length_app, length_replicate, length_c_str. lia.
      - specialize (Hk ltac:(discriminate)). simpl length in *.
        rewrite app_assoc, drop_app_le.
        2: { rewrite length_app, length_replicate, length_c_str. lia. }
        replace (strlen dest + (length comp - (strlen dest + S (S (length file')))))%nat
          with (length (c_str base ++ replicate (k - 1) SLASH))
          by (rewrite length_app, length_replicate, length_c_str; lia).
        replace (replicate k SLASH) with (replicate (k - 1) SLASH ++ [SLASH]).
        2: { replace k with (k - 1 + 1)%nat at 2 by lia.
             rewrite replicate_add. reflexivity. }
        rewrite (app_assoc (c_str base)), drop_app_length'  by reflexivity.
        reflexivity. }
    split; [|split; [|split]]; try reflexivity.
    + set (m := (length comp - new_len)%nat) in *.
      assert (Hsplit : comp = take (strlen dest) comp
                              ++ take m (drop (strlen dest) comp) ++ tail).
      { rewrite <- Hdrop, <- drop_drop, take_drop, take_drop. reflexivity. }
      pose proof (strlen_le dest) as Hsd.
      replace (pre ++ comp ++ 0 :: post)
        with (pre ++ take (strlen dest) comp
                  ++ (take m (drop (strlen dest) comp) ++ tail ++ 0 :: post)).
      2: { rewrite Hsplit at 3. rewrite <- !app_assoc. reflexivity. }
      rewrite list_inserts_splice by (rewrite !length_take; lia).
      replace (length pre + strlen dest)%nat
        with (length (pre ++ take (strlen dest) dest))
        by (rewrite length_app, length_take; lia).
      rewrite (app_assoc pre).
      rewrite list_inserts_splice
        by (rewrite length_replicate, length_take, length_drop; lia).
      unfold c_str. rewrite <- !app_assoc. reflexivity.
    + rewrite !length_app, length_replicate, length_c_str. lia.
  - intros Hlt. apply Nat.ltb_lt in Hlt as Hlt'. rewrite Hlt'.
    cbn [payload warnings flags_after].
    split; [reflexivity|]. split; [discriminate|reflexivity].
Qed.

Lemma comp_dir_string_in_place_witness :
  payload (edit_attributes_comp_dir_string
             {| base_dir := Some (bytes_of_string "/build/src");
                dest_dir := Some (bytes_of_string "/u"); list_file := false |}
             1 ([8] ++ bytes_of_string "/build/src/pkg" ++ 0 :: [9])
             (length [8]) no_flags)
  = [8] ++ (c_str (bytes_of_string "/u") ++ replicate (14 - 6) SLASH
            ++ SLASH :: bytes_of_string "pkg") ++ 0 :: [9].
Proof.
  refine (proj1 (proj1 (comp_dir_string_in_place
                   (bytes_of_string "/build/src") (bytes_of_string "/u") [8]
                   (bytes_of_string "/build/src/pkg") [9]
                   (bytes_of_string "pkg") no_flags false _ eq_refl) _)).
  - apply (bool_decide_unpack _). vm_compute. exact I.
  - vm_compute. lia.
Defined.

(** C2 as stated fails on its own example: "/build/src/pkg" with
    [base_dir] "/build/src" and [dest_dir] "/u" becomes "/u/////////pkg";
    the padding is not at the end. *)
Lemma comp_dir_string_counterexample :
  let r := edit_attributes_comp_dir_string
             {| base_dir := Some (bytes_of_string "/build/src");
                dest_dir := Some (bytes_of_string "/u"); list_file := false |}
             1 (bytes_of_string "/build/src/pkg" ++ [0]) 0 no_flags in
  c_str (payload r) = bytes_of_string "/u/////////pkg"
  /\ c_str (payload r) <> bytes_of_string "/u/pkg////////"
  /\ length (c_str (payload r)) = 14%nat
  /\ warnings r = [].
Proof. vm_compute. repeat split; congruence. Qed.

End InfoFacts.

(** ** 4.I [.debug_str_offsets] updater *)

Section StrOffsetsFacts.

Import StrOffsets.

Variable strent_offset : Strings.Strent -> Z.
Variable e : ei_data.
Variable debug_str : Strings.strings.
Variable debugedit_stridxentry : Strings.Strent.
Variable endp : Z.

Lemma update_tables_eq ptr sec log :
  update_tables strent_offset e debug_str debugedit_stridxentry endp ptr sec log
  = if ptr <? endp
    then
      match read_header e endp ptr sec with
      | None => Done (sec, log)
      | Some (endidxp, ptr0) =>
          match update_entries strent_offset e debug_str debugedit_stridxentry
                  endidxp ptr0 sec log with
          | Done (ptr', sec', log') =>
              update_tables strent_offset e debug_str debugedit_stridxentry
                endp ptr' sec' log'
          | Exit msg => Exit msg
          end
      end
    else Done (sec, log).
Proof.
  funelim (update_tables strent_offset e debug_str debugedit_stridxentry endp
             ptr sec log);
    repeat match goal with
           | E : (_ <? _) = _ |- _ => rewrite E
           | E : read_header _ _ _ _ = _ |- _ => rewrite E
           | E : update_entries _ _ _ _ _ _ _ _ = _ |- _ => rewrite E
           end; reflexivity.
Qed.

(** A header with one of the three defects makes [read_header] take a
    [break]. *)
Lemma read_header_rejects ptr sec :
  let at_ (p : Z) := drop (Z.to_nat p) (Reloc.data sec) in
  do_read_32 e (at_ ptr) = 0xffffffff
  \/ do_read_16 e (at_ (ptr + 4)) <> 5
  \/ do_read_16 e (at_ (ptr + 4 + 2)) <> 0 ->
  read_header e endp ptr sec = None.
Proof.
  cbv zeta. intros H. unfold read_header.
  destruct (endp - ptr <? 3 * 4); [reflexivity|].
  destruct (do_read_32 e (drop (Z.to_nat ptr) (Reloc.data sec)) =? 4294967295)
    eqn:E1; [reflexivity|]. apply Z.eqb_neq in E1. simpl orb.
  destruct (endp - (ptr + 4) <? _); [reflexivity|].
  destruct (do_read_16 e (drop (Z.to_nat (ptr + 4)) (Reloc.data sec)) =? 5)
    eqn:E2; [|reflexivity]. apply Z.eqb_eq in E2. simpl negb. cbv iota.
  destruct (do_read_16 e (drop (Z.to_nat (ptr + 4 + 2)) (Reloc.data sec)) =? 0)
    eqn:E3; [|reflexivity]. apply Z.eqb_eq in E3.
  destruct H as [H|[H|H]]; congruence.
Qed.


End StrOffsetsFacts.



(** A well-formed table in front of a defective one is rewritten, and the
    walk then stops without a diagnostic. *)
Example update_str_offsets_ex :
  StrOffsets.run (fun s => Z.of_nat (length s)) ELFDATA2LSB
    {| Strings.str_tab := [[97; 98]];
       Strings.strent_root := {[ 1 := [97; 98] ]} |}
    (bytes_of_string "<debugedit>")
    {| Reloc.data := [8; 0; 0; 0; 5; 0; 0; 0; 1; 0; 0; 0;
                      8; 0; 0; 0; 4; 0; 0; 0; 1; 0; 0; 0];
       Reloc.relbuf := None; Reloc.reltype := 0; Reloc.rel_updated := false |}
  = Done ({| Reloc.data := [8; 0; 0; 0; 5; 0; 0; 0; 2; 0; 0; 0;
                            8; 0; 0; 0; 4; 0; 0; 0; 1; 0; 0; 0];
             Reloc.relbuf := None; Reloc.reltype := 0;
             Reloc.rel_updated := false |}, []).
Proof. vm_compute. reflexivity. Qed.

(** ** Phase zero with [dest_dir] equal to [base_dir] *)

Section SameDirFacts.

Import Path Strings Info.

Lemma record_file_string_entry_idx_fresh base dest line_strp dso idx :
  string_find_new_entry (pool line_strp dso) idx = true ->
  0 <= idx < Z.of_nat (length (pool_data line_strp dso)) ->
  record_file_string_entry_idx base dest line_strp dso idx
  = let old_str := drop (Z.to_nat idx) (pool_data line_strp dso) in
    match skip_dir_prefix old_str base with
    | None =>
        Done (false, set_pool line_strp dso
                       (set_entry (pool line_strp dso) idx (c_str old_str)))
    | Some file =>
        Done (true, set_pool line_strp dso
                      (set_entry (pool line_strp dso) idx (new_name dest file)))
    end.
Proof.
  intros Hnew Hidx. unfold record_file_string_entry_idx. rewrite Hnew.
  destruct (Z.of_nat (length (pool_data line_strp dso)) <=? idx) eqn:E; [lia|].
  reflexivity.
Qed.

Lemma pool_set_pool line_strp dso strs : pool line_strp (set_pool line_strp dso strs) = strs.
Proof. destruct line_strp; reflexivity. Qed.

(** With [dest_dir] equal to [base_dir] the inline rewrite stores the
    bytes that are there already. *)
Lemma comp_dir_string_same_dir base pre comp post fl lf :
  0 ∉ comp ->
  let cfg := {| base_dir := Some base; dest_dir := Some base; list_file := lf |} in
  let data := pre ++ comp ++ 0 :: post in
  let r := edit_attributes_comp_dir_string cfg 1 data (length pre) fl in
  payload r = data /\ warnings r = [] /\ flags_after r = fl.
Proof.
  intros Hnf. cbv zeta.
  unfold edit_attributes_comp_dir_string. cbn [dest_dir base_dir default].
  unfold id. rewrite drop_app_length, (c_str_app_nul comp post Hnf).
  destruct (skip_dir_prefix comp base) as [file|] eqn:Hskip;
    [|repeat split; reflexivity].
  destruct (skip_dir_prefix_Some comp base file Hnf Hskip)
    as (k & Hcomp & Hk & _ & Hfile).
  cbn [Z.eqb Pos.eqb].
  rewrite (strlen_nul_free comp Hnf), (strlen_nul_free file Hfile).
  assert (Hlen : length comp = (strlen base + k + length file)%nat).
  { rewrite Hcomp at 1. rewrite !length_app, length_replicate, length_c_str. lia. }
  set (new_len := if (0 <? length file)%nat
                  then (strlen base + (1 + length file))%nat else strlen base).
  assert (Hpad : exists j, (length comp - new_len + j = k)%nat
                           /\ (length comp <? new_len)%nat = false).
  { subst new_len. destruct file as [|c file'].
    - exists 0%nat. simpl in *. split; [lia|]. apply Nat.ltb_ge. lia.
    - specialize (Hk ltac:(discriminate)). exists 1%nat.
      simpl length in *. cbn [Nat.ltb Nat.leb].
      split; [lia|]. apply Nat.ltb_ge. lia. }
  destruct Hpad as (j & Hj & Hlt). rewrite Hlt.
  cbn [payload warnings flags_after]. split; [|split; reflexivity].
  set (m := (length comp - new_len)%nat) in *.
  rewrite Hcomp at 1 2. unfold c_str at 2.
  rewrite <- (app_assoc (take (strlen base) base)).
  rewrite list_inserts_splice by reflexivity.
  rewrite <- Hj at 1. rewrite replicate_add, <- !app_assoc.
  replace (length pre + strlen base)%nat
    with (length (pre ++ take (strlen base) base)).
  2: { rewrite length_app, length_take. pose proof (strlen_le base). lia. }
  rewrite (app_assoc pre).
  rewrite list_inserts_splice by reflexivity.
  rewrite (app_assoc (replicate m SLASH)), <- replicate_add, Hj.
  rewrite <- !app_assoc. reflexivity.
Qed.

End SameDirFacts.

(** ** 4.F Line-table registry *)

Section LinesFacts.

Import Lines.

Lemma u8_range x : 0 <= u8 x < 256.
Proof. unfold u8. apply Z.mod_pos_bound. lia. Qed.

Lemma u32_range x : 0 <= u32 x < 4294967296.
Proof. unfold u32. apply Z.mod_pos_bound. lia. Qed.

Lemma u32_small x : 0 <= x < 4294967296 -> u32 x = x.
Proof. intros H. unfold u32. apply Z.mod_small. exact H. Qed.

(** Four bytes, least significant first, put together again. *)
Lemma compose_32 x :
  0 <= x < 4294967296 ->
  Z.lor (Z.lor (Z.lor (u8 x) (Z.shiftl (u8 (Z.shiftr x 8)) 8))
               (Z.shiftl (u8 (Z.shiftr x 16)) 16))
        (Z.shiftl (u8 (Z.shiftr x 24)) 24) = x.
Proof.
  intros Hx.
  pose proof (u8_range x). pose proof (u8_range (Z.shiftr x 8)).
  pose proof (u8_range (Z.shiftr x 16)). pose proof (u8_range (Z.shiftr x 24)).
  rewrite !Z.shiftl_mul_pow2 by lia.
  rewrite (lor_disjoint (u8 x)) by lia.
  rewrite (lor_disjoint (u8 x + _)) by lia.
  rewrite (lor_disjoint (u8 x + _ + _)) by lia.
  unfold u8 in *. rewrite !Z.shiftr_div_pow2 in * by lia.
  change (2 ^ 8) with 256 in *. change (2 ^ 16) with 65536 in *.
  change (2 ^ 24) with 16777216 in *.
  Z.div_mod_to_equations. lia.
Qed.

Lemma do_read_write_32 e v rest : do_read_32 e (do_write_32 e v ++ rest) = u32 v.
Proof.
  pose proof (u32_range v) as Hv.
  destruct e; unfold do_read_32, do_write_32;
    unfold Codec.buf_read_ule32, Codec.buf_read_ube32,
      Codec.dwarf2_write_le32, Codec.dwarf2_write_be32, Codec.byte_at;
    change (Codec.byte_at ?l ?i) with (default 0 (l !! i));
    cbn -[u8 u32 Z.shiftl Z.shiftr Z.lor];
    rewrite compose_32 by exact Hv; apply u32_small; exact Hv.
Qed.

Lemma byte_at_memcpy cur n k i :
  (k + i < n)%nat ->
  Codec.byte_at (drop k (memcpy_from cur n)) i = Codec.byte_at (drop k cur) i.
Proof.
  intros H. unfold Codec.byte_at, memcpy_from.
  rewrite !lookup_drop, lookup_take_lt by lia.
  destruct (cur !! (k + i)%nat) as [c|] eqn:E.
  - rewrite (lookup_app_l_Some _ _ _ _ E). reflexivity.
  - apply lookup_ge_None in E.
    rewrite lookup_app_r by lia.
    rewrite lookup_replicate_2 by lia. reflexivity.
Qed.

Lemma do_read_32_memcpy e cur n k :
  (k + 4 <= n)%nat ->
  do_read_32 e (drop k (memcpy_from cur n)) = do_read_32 e (drop k cur).
Proof.
  intros H. destruct e; unfold do_read_32, Codec.buf_read_ule32,
    Codec.buf_read_ube32; rewrite !byte_at_memcpy by lia; reflexivity.
Qed.

Lemma do_read_32_range e l : 0 <= do_read_32 e l < 4294967296.
Proof.
  destruct e; unfold do_read_32, Codec.buf_read_ule32, Codec.buf_read_ube32;
    apply u32_range.
Qed.

Lemma do_read_16_range e l : 0 <= do_read_16 e l < 65536.
Proof.
  destruct e; unfold do_read_16, Codec.buf_read_ule16, Codec.buf_read_ube16;
    unfold u16; apply Z.mod_pos_bound; lia.
Qed.

(** What [get_line_table] has checked when it accepts a header. *)
Lemma read_header_Fresh e cu data off t0 :
  0 <= off ->
  read_header e cu data off = Done (Fresh t0) ->
  old_idx t0 = off /\ size_diff t0 = 0
  /\ replace_dirs t0 = false /\ replace_files t0 = false
  /\ unit_length t0 = do_read_32 e (drop (Z.to_nat off) data)
  /\ header_length t0
     = do_read_32 e (drop (Z.to_nat off + header_length_at t0) data)
  /\ off + 4 + unit_length t0 <= Z.of_nat (length data)
  /\ Z.of_nat (header_length_at t0) + 4 + header_length t0 <= 4 + unit_length t0.
Proof.
  intros Hoff H. unfold read_header in H.
  destruct data as [|c0 data']; [discriminate|].
  remember (c0 :: data') as data eqn:Hdata. clear Hdata c0 data'.
  destruct (off >? Z.of_nat (length data)); [discriminate|].
  unfold cursor in H.
  set (ul := do_read_32 e (drop (Z.to_nat off) data)) in *.
  destruct (off + 4 + ul =? off + 4 + 4294967295); [discriminate|].
  destruct (off + 4 + ul >? Z.of_nat (length data)) eqn:Esec; [discriminate|].
  set (v := do_read_16 e (drop (Z.to_nat (off + 4)) data)) in *.
  destruct (negb (v =? 2) && negb (v =? 3) && negb (v =? 4) && negb (v =? 5))
    eqn:Ev; [discriminate|].
  assert (Hsec : off + 4 + ul <= Z.of_nat (length data)).
  { rewrite Z.gtb_ltb in Esec. apply Z.ltb_ge in Esec. exact Esec. }
  destruct (5 <=? v) eqn:E5.
  - destruct (Info.ptr_size cu =? 0); [discriminate|].
    destruct (negb (Info.ptr_size cu =? Path.peek (drop (Z.to_nat (off + 4 + 2)) data) 0));
      [discriminate|].
    cbn [mbind outcome_bind] in H.
    set (hl := do_read_32 e (drop (Z.to_nat (off + 4 + 2 + 1 + 1)) data)) in *.
    destruct (off + 4 + 2 + 1 + 1 + 4 + hl >? off + 4 + ul) eqn:Eprol;
      [discriminate|].
    rewrite Z.gtb_ltb in Eprol. apply Z.ltb_ge in Eprol.
    change (4 <=? v) with (4 <=? v) in H.
    destruct (4 <=? v) eqn:E4;
      match type of H with
      | (if ?c then _ else _) = _ => destruct c; [discriminate|]
      end;
      injection H as <-; unfold header_length_at;
      cbn [old_idx size_diff replace_dirs replace_files unit_length
             header_length version];
      apply Z.leb_le in E5;
      (destruct (v <? 5) eqn:E5'; [lia|]);
      repeat split; try reflexivity; try lia;
      subst hl; f_equal; f_equal; lia.
  - cbn [mbind outcome_bind] in H.
    set (hl := do_read_32 e (drop (Z.to_nat (off + 4 + 2)) data)) in *.
    destruct (off + 4 + 2 + 4 + hl >? off + 4 + ul) eqn:Eprol; [discriminate|].
    rewrite Z.gtb_ltb in Eprol. apply Z.ltb_ge in Eprol.
    destruct (4 <=? v) eqn:E4;
      match type of H with
      | (if ?c then _ else _) = _ => destruct c; [discriminate|]
      end;
      injection H as <-; unfold header_length_at;
      cbn [old_idx size_diff replace_dirs replace_files unit_length
             header_length version];
      apply Z.leb_gt in E5;
      (destruct (v <? 5) eqn:E5'; [|lia]);
      repeat split; try reflexivity; try lia;
      subst hl; f_equal; f_equal; lia.
Qed.

Lemma emit_dirs_prefix base dest old_buf t optr out :
  exists extra, fst (emit_dirs base dest old_buf t optr out) = out ++ extra.
Proof.
  funelim (emit_dirs base dest old_buf t optr out).
  - destruct H as [extra ->]. eexists. rewrite <- app_assoc. reflexivity.
  - exists []. rewrite app_nil_r. reflexivity.
Qed.

Lemma emit_files_prefix base dest old_buf t optr out :
  exists extra, fst (emit_files base dest old_buf t optr out) = out ++ extra.
Proof.
  funelim (emit_files base dest old_buf t optr out).
  - destruct (Codec.read_uleb128 _) as [dir_idx p1] eqn:E1.
    destruct (Codec.read_uleb128 p1) as [time p2] eqn:E2.
    destruct (Codec.read_uleb128 p2) as [len p3] eqn:E3.
    destruct (H dir_idx p1 time p2 len p3) as [extra ->].
    eexists. rewrite <- !app_assoc. reflexivity.
  - exists []. rewrite app_nil_r. reflexivity.
Qed.

Lemma emit_header_start e t :
  exists rest,
    emit_header e t
    = do_write_32 e (unit_length t + size_diff t)
      ++ do_write_16 e (version t)
      ++ do_write_32 e (header_length t + size_diff t) ++ rest.
Proof. unfold emit_header. eexists. reflexivity. Qed.

(** A table that is rebuilt starts with the header [emit_header] writes. *)
Lemma emit_table_rebuilt e base dest old_buf t chunk :
  negb (replace_dirs t) && negb (replace_files t) = false ->
  emit_table e base dest old_buf t = Done chunk ->
  exists rest,
    chunk = do_write_32 e (unit_length t + size_diff t)
            ++ do_write_16 e (version t)
            ++ do_write_32 e (header_length t + size_diff t) ++ rest.
Proof.
  intros Hflags H. unfold emit_table in H. rewrite Hflags in H.
  destruct (opcode_base t - 1 <? 0); [discriminate|].
  destruct (emit_header_start e t) as [r0 Hh].
  match type of H with
  | context [emit_dirs ?b ?d ?o ?t ?p ?out] =>
      destruct (emit_dirs_prefix b d o t p out) as [x1 Hx1];
      destruct (emit_dirs b d o t p out) as [out1 optr1]
  end.
  cbn [fst] in Hx1. subst out1.
  destruct (replace_files t).
  - match type of H with
    | context [emit_files ?b ?d ?o ?t ?p ?out] =>
        destruct (emit_files_prefix b d o t p out) as [x2 Hx2];
        destruct (emit_files b d o t p out) as [out2 optr2]
    end.
    cbn [fst] in Hx2. subst out2.
    match type of H with
    | (if ?c then _ else _) = _ => destruct c; [discriminate|]
    end.
    injection H as <-. rewrite Hh. rewrite <- !app_assoc.
    eexists. reflexivity.
  - match type of H with
    | (if ?c then _ else _) = _ => destruct c; [discriminate|]
    end.
    injection H as <-. rewrite Hh. rewrite <- !app_assoc.
    eexists. reflexivity.
Qed.

Lemma length_do_write_32 e v : length (do_write_32 e v) = 4%nat.
Proof. destruct e; reflexivity. Qed.

Lemma length_do_write_16 e v : length (do_write_16 e v) = 2%nat.
Proof. destruct e; reflexivity. Qed.

(** The two length fields of a table of the new section. *)
Lemma emit_table_fields e base dest old_buf t chunk :
  Z.of_nat (length old_buf) < 4294967296 ->
  registered e old_buf t ->
  emit_table e base dest old_buf t = Done chunk ->
  do_read_32 e chunk = u32 (unit_length t + size_diff t)
  /\ do_read_32 e (drop (header_length_at t) chunk)
     = u32 (header_length t + size_diff t).
Proof.
  intros Hsize (Hoff & (cu & t0 & Hhdr & Hul & Hv & Hhl) & Hsd & Hver) H.
  destruct (negb (replace_dirs t) && negb (replace_files t)) eqn:Hflags.
  - apply andb_prop in Hflags as [Hd Hf].
    apply negb_true_iff in Hd, Hf. specialize (Hsd Hd Hf).
    unfold emit_table in H. rewrite Hd, Hf, Hsd in H. cbn in H.
    injection H as <-. rewrite Hsd, !Z.add_0_r.
    destruct (read_header_Fresh e cu old_buf (old_idx t) t0 Hoff Hhdr)
      as (_ & _ & _ & _ & Hul0 & Hhl0 & Hfit & Hprol).
    pose proof (do_read_32_range e (drop (Z.to_nat (old_idx t)) old_buf)) as Hr1.
    pose proof (do_read_32_range e
                  (drop (Z.to_nat (old_idx t) + header_length_at t0) old_buf)) as Hr2.
    assert (Hat : header_length_at t = header_length_at t0)
      by (unfold header_length_at; rewrite Hv; reflexivity).
    rewrite Hul, Hhl, Hat in *.
    rewrite (u32_small (unit_length t0 + 4)) by lia.
    split.
    + rewrite <- (drop_0 (memcpy_from _ _)).
      rewrite do_read_32_memcpy by lia.
      rewrite drop_0. unfold cursor. rewrite u32_small by lia. symmetry. exact Hul0.
    + rewrite do_read_32_memcpy by lia.
      unfold cursor. rewrite drop_drop, u32_small by lia. symmetry. exact Hhl0.
  - destruct (emit_table_rebuilt e base dest old_buf t chunk Hflags H) as [rest ->].
    assert (Hlt : version t < 5).
    { apply Hver. apply andb_false_iff in Hflags as [Hx|Hx];
        apply negb_false_iff in Hx; [left|right]; exact Hx. }
    unfold header_length_at. destruct (version t <? 5) eqn:E; [|lia].
    split; [apply do_read_write_32|].
    rewrite app_assoc.
    rewrite drop_app_length'
      by (rewrite length_app, length_do_write_32, length_do_write_16; reflexivity).
    apply do_read_write_32.
Qed.

#[local] Instance line_table_le_total : Total line_table_le.
Proof. intros a b. unfold line_table_le. lia. Qed.

#[local] Instance line_table_le_trans : Transitive line_table_le.
Proof. intros a b c. unfold line_table_le. lia. Qed.

Lemma forget_set_new_idx t i : forget_new_idx (set_new_idx t i) = forget_new_idx t.
Proof. destruct t. reflexivity. Qed.

Lemma old_idx_forget t : old_idx (forget_new_idx t) = old_idx t.
Proof. destruct t. reflexivity. Qed.

Lemma registered_forget e old_buf t :
  registered e old_buf (forget_new_idx t) <-> registered e old_buf t.
Proof. destruct t. reflexivity. Qed.

Lemma StronglySorted_old_idx ts :
  StronglySorted line_table_le ts -> StronglySorted Z.le (map old_idx ts).
Proof.
  induction 1 as [|t ts Hs IH Hall]; simpl; constructor; [exact IH|].
  apply Forall_forall. intros x Hx.
  change (map old_idx ts) with (old_idx <$> ts) in Hx.
  apply list_elem_of_fmap in Hx as (t' & -> & Hin).
  apply (proj1 (Forall_forall _ _) Hall t' Hin).
Qed.

(** *** Phase zero establishes [registered] *)

Lemma same_header_refl t : same_header t t.
Proof. repeat split. Qed.

Lemma same_header_trans t1 t2 t3 :
  same_header t1 t2 -> same_header t2 t3 -> same_header t1 t3.
Proof. unfold same_header. intuition congruence. Qed.

Lemma account_same_header cfg path t dirs :
  same_header t (account cfg path t dirs)
  /\ (unmarked_keeps_size t -> unmarked_keeps_size (account cfg path t dirs)).
Proof.
  unfold account.
  destruct (base_dir cfg) as [base|]; [|split; [apply same_header_refl|tauto]].
  destruct (dest_dir cfg) as [dest|]; [|split; [apply same_header_refl|tauto]].
  destruct (Path.skip_dir_prefix path base) as [file_path|];
    [|split; [apply same_header_refl|tauto]].
  split; [repeat split|].
  intros _. unfold unmarked_keeps_size.
  cbn [replace_dirs replace_files size_diff].
  destruct dirs; intros; discriminate.
Qed.

Lemma size_dirs_same_header cfg data t ptr :
  same_header t (fst (size_dirs cfg data t ptr))
  /\ (unmarked_keeps_size t ->
      unmarked_keeps_size (fst (size_dirs cfg data t ptr))).
Proof.
  funelim (size_dirs cfg data t ptr).
  - destruct H as [Hs Hu].
    destruct (account_same_header cfg (cursor data ptr) t true) as [Hs0 Hu0].
    split; [eapply same_header_trans; eassumption|tauto].
  - split; [apply same_header_refl|tauto].
Qed.

Lemma size_files_same_header cfg data comp_dir dirt t ptr listing ok t' listing' :
  size_files cfg data comp_dir dirt t ptr listing = Done (ok, t', listing') ->
  same_header t t' /\ (unmarked_keeps_size t -> unmarked_keeps_size t').
Proof.
  funelim (size_files cfg data comp_dir dirt t ptr listing).
  - intros Hr.
    destruct (Codec.read_uleb128 _) as [value p1] eqn:E1 in Hr.
    destruct (dirt !! Z.to_nat value) as [dir|] eqn:Ed.
    + destruct (Path.canonicalize_path_at _ 0 0) as [m|] eqn:Ec; [|discriminate].
      destruct (Codec.read_uleb128 p1) as [x2 p2] eqn:E2.
      destruct (Codec.read_uleb128 p2) as [x3 p3] eqn:E3.
      destruct (account_same_header cfg (cursor data ptr) t false) as [Hs0 Hu0].
      eapply H in Hr; try eassumption.
      destruct Hr as [Hs Hu].
      split; [eapply same_header_trans; eassumption|tauto].
    + injection Hr as _ <- _. split; [apply same_header_refl|tauto].
  - intros Hr. injection Hr as _ <- _. split; [apply same_header_refl|tauto].
Qed.

(** [read_dwarf2_line] adds to the registry a table that is
    [registered]. *)
Lemma read_dwarf2_line_registered e cfg data lines off comp_dir cu listing
    marked lines' listing' :
  0 <= off ->
  Forall (registered e data) (table lines) ->
  read_dwarf2_line e cfg data lines off comp_dir cu listing
  = Done (marked, lines', listing') ->
  Forall (registered e data) (table lines').
Proof.
  intros Hoff Hreg H. unfold read_dwarf2_line, get_line_table in H.
  destruct (find_table (table lines) off 0).
  { cbn in H. injection H as _ <- _. exact Hreg. }
  destruct (read_header e cu data off) as [[i|t0|msg]|] eqn:Hh;
    cbn [mbind outcome_bind] in H; try discriminate;
    try (injection H as _ <- _; exact Hreg).
  destruct (read_header_Fresh e cu data off t0 Hoff Hh)
    as (Hold & Hsd & Hd & Hf & _).
  assert (Hnew : forall t, same_header t0 t -> unmarked_keeps_size t ->
                   (replace_dirs t = true \/ replace_files t = true ->
                    version t < 5) ->
                   registered e data t).
  { intros t (Ho & Hu & Hv & Hl) Hk Hm. split; [|split; [|split]].
    - rewrite Ho, Hold. exact Hoff.
    - exists cu, t0. rewrite Ho, Hold. repeat split; assumption.
    - exact Hk.
    - exact Hm. }
  destruct (version t0 <? 5) eqn:Ev.
  - unfold read_dwarf4_line in H.
    pose proof (size_dirs_same_header cfg data t0
                  (Z.to_nat (off + header_size t0))) as [Hs1 Hu1].
    destruct (size_dirs cfg data t0 _) as [t1 ptr1]. cbn [fst] in Hs1, Hu1.
    destruct (collect_dirs data _ _) as [dirt ptr2].
    destruct (size_files cfg data comp_dir dirt t1 _ listing)
      as [[[ok t2] l2]|] eqn:Hfiles; [|discriminate].
    cbn [mbind outcome_bind] in H.
    destruct (size_files_same_header _ _ _ _ _ _ _ _ _ _ Hfiles) as [Hs2 Hu2].
    assert (Hr2 : registered e data t2).
    { apply Hnew.
      - eapply same_header_trans; eassumption.
      - apply Hu2, Hu1. intros _ _. exact Hsd.
      - intros _. destruct Hs1 as (_ & _ & Hv1 & _).
        destruct Hs2 as (_ & _ & Hv2 & _).
        rewrite Hv2, Hv1. apply Z.ltb_lt. exact Ev. }
    destruct ok; injection H as _ <- _; cbn [table];
      apply Forall_app; split; try exact Hreg; constructor;
      try exact Hr2; constructor.
  - cbn [mbind outcome_bind] in H. injection H as _ <- _. cbn [table].
    apply Forall_app. split; [exact Hreg|]. constructor; [|constructor].
    apply Hnew; [apply same_header_refl|intros _ _; exact Hsd|].
    rewrite Hd, Hf. intros [?|?]; discriminate.
Qed.

(** The loop over the tables: the new buffer grows by one rebuilt table
    after the other, every table is given the offset at which its bytes
    start, and a run that does not store behind the block stays within
    its size. *)
Lemma emit_tables_layout e base dest old_buf size ts :
  forall buf ts' buf',
    emit_tables e base dest old_buf size ts buf = Done (Some (ts', buf')) ->
    exists chunks,
      buf' = buf ++ concat chunks
      /\ Forall2 (fun t' chunk => emit_table e base dest old_buf t' = Done chunk)
           ts' chunks
      /\ map forget_new_idx ts' = map forget_new_idx ts
      /\ (forall i t',
            ts' !! i = Some t' ->
            new_idx t' = Z.of_nat (length buf + length (concat (take i chunks))))
      /\ ((length buf <= size)%nat -> (length buf' <= size)%nat).
Proof.
  induction ts as [|t ts IH]; intros buf ts' buf' H.
  - injection H as <- <-. exists []. simpl. rewrite app_nil_r.
    repeat split; try constructor; try tauto.
    intros i t' Hi. rewrite lookup_nil in Hi. discriminate.
  - cbn [emit_tables] in H.
    destruct (emit_table e base dest old_buf
                (set_new_idx t (Z.of_nat (length buf)))) as [bytes|] eqn:Hb;
      [|discriminate].
    cbn [mbind outcome_bind] in H.
    destruct (Nat.ltb_spec size (length buf + length bytes)) as [|Hfit];
      [discriminate|].
    destruct (emit_tables e base dest old_buf size ts (buf ++ bytes))
      as [[[ts1 buf1]|]|] eqn:Hrest; try discriminate.
    cbn [mbind outcome_bind option_bind] in H. injection H as <- <-.
    destruct (IH _ _ _ Hrest) as (chunks & Hbuf & Hall & Hmap & Hidx & Hsize).
    exists (bytes :: chunks). split; [|split; [|split; [|split]]].
    + rewrite Hbuf. simpl. rewrite <- app_assoc. reflexivity.
    + constructor; assumption.
    + simpl. rewrite forget_set_new_idx, Hmap. reflexivity.
    + intros [|i] t' Hi.
      * injection Hi as <-. simpl. destruct t. simpl. lia.
      * simpl in Hi. rewrite (Hidx i t' Hi). simpl.
        rewrite !length_app. lia.
    + intros _. apply Hsize. rewrite length_app. lia.
Qed.

Lemma length_malloc fresh size : length (malloc fresh size) = size.
Proof. unfold malloc. rewrite length_map, length_seq. reflexivity. Qed.

(** What [edit_dwarf2_line] leaves behind when it has not stored behind
    the block: the sorted tables, the chunk of each and where it lies, and
    the block with the chunks at its start. *)
Lemma edit_dwarf2_line_chunks e cfg fresh old_buf lines lines' :
  edit_dwarf2_line e cfg fresh old_buf lines = Done (Some lines') ->
  let size := Z.to_nat (debug_lines_len lines) in
  exists chunks,
    line_buf lines'
    = Some (concat chunks ++ drop (length (concat chunks)) (malloc fresh size))
    /\ (length (concat chunks) <= size)%nat
    /\ 0 <= debug_lines_len lines
    /\ debug_lines_len lines' = debug_lines_len lines
    /\ StronglySorted Z.le (map old_idx (table lines'))
    /\ map forget_new_idx (table lines')
       = map forget_new_idx (merge_sort line_table_le (table lines))
    /\ Forall2 (fun t' chunk =>
                  emit_table e (default [] (base_dir cfg))
                    (default [] (dest_dir cfg)) old_buf t' = Done chunk)
         (table lines') chunks
    /\ forall i t',
         table lines' !! i = Some t' ->
         new_idx t' = Z.of_nat (length (concat (take i chunks))).
Proof.
  intros H size. unfold edit_dwarf2_line in H.
  destruct (Z.ltb_spec (debug_lines_len lines) 0) as [|Hpos]; [discriminate|].
  fold size in H.
  destruct (emit_tables e _ _ old_buf size
              (merge_sort line_table_le (table lines)) [])
    as [[[ts buf]|]|] eqn:Hemit; try discriminate.
  cbn [mbind outcome_bind option_bind] in H. injection H as <-.
  cbn [line_buf table debug_lines_len].
  destruct (emit_tables_layout _ _ _ _ _ _ _ _ _ Hemit)
    as (chunks & Hbuf & Hall & Hmap & Hidx & Hsize).
  cbn [app length] in Hbuf, Hsize. subst buf.
  exists chunks. split; [reflexivity|]. split; [apply Hsize; lia|].
  split; [exact Hpos|]. split; [reflexivity|]. split; [|split; [|split]].
  - replace (map old_idx ts)
      with (map old_idx (merge_sort line_table_le (table lines))).
    + apply StronglySorted_old_idx, StronglySorted_merge_sort; apply _.
    + transitivity (map old_idx (map forget_new_idx ts)).
      * rewrite Hmap, map_map. apply map_ext. intros a.
        symmetry. apply old_idx_forget.
      * rewrite map_map. apply map_ext. intros a. apply old_idx_forget.
  - exact Hmap.
  - exact Hall.
  - intros i t Ht. rewrite (Hidx i t Ht). simpl. reflexivity.
Qed.

End LinesFacts.

Lemma example_lines_registered :
  Forall (registered ELFDATA2LSB example_debug_line) (Lines.table example_lines).
Proof.
  pose (empty := {| Lines.table := []; Lines.debug_lines_len := 0;
                    Lines.line_buf := None |}).
  destruct (Lines.read_dwarf2_line ELFDATA2LSB example_cfg example_debug_line
              empty 32 None example_cu []) as [[[m1 l1] s1]|] eqn:H1;
    [|vm_compute in H1; discriminate].
  destruct (Lines.read_dwarf2_line ELFDATA2LSB example_cfg example_debug_line
              l1 0 None example_cu []) as [[[m2 l2] s2]|] eqn:H2;
    [|vm_compute in H1; injection H1 as <- <- <-; vm_compute in H2; discriminate].
  assert (Hl : example_lines = l2).
  { unfold example_lines. fold empty. rewrite H1, H2. reflexivity. }
  rewrite Hl.
  eapply read_dwarf2_line_registered; [|
    eapply read_dwarf2_line_registered; [|
      |exact H1]|exact H2]; [lia|lia|constructor].
Qed.

(** The new section of the example: the table at 0 with "/usr/d" for
    "/b/d" and both length fields two bytes larger, then the table at 32
    as it was; the block of 61 bytes is filled. *)
Example edit_dwarf2_line_ex :
  (lines' ← Lines.edit_dwarf2_line ELFDATA2LSB example_cfg (fun _ => 255)
              example_debug_line example_lines;
   Done (r ← lines';
         Some (Lines.line_buf r, map Lines.new_idx (Lines.table r))))
  = Done (Some (Some (([30; 0; 0; 0] ++ [2; 0] ++ [21; 0; 0; 0]
                       ++ [1; 1; 1; 1; 1]
                       ++ bytes_of_string "/usr/d" ++ [0] ++ [0]
                       ++ bytes_of_string "a.c" ++ [0; 1; 0; 0] ++ [0]
                       ++ [0; 1; 1])
                      ++ drop 32 example_debug_line),
                [0; 34])).
Proof. vm_compute. reflexivity. Qed.

(** ** Words written in place *)

Section ByteFacts.

Lemma u16_range x : 0 <= u16 x < 65536.
Proof. unfold u16. apply Z.mod_pos_bound. lia. Qed.

Lemma compose_16 x :
  0 <= x < 65536 -> Z.lor (u8 x) (Z.shiftl (u8 (Z.shiftr x 8)) 8) = x.
Proof.
  intros Hx. pose proof (u8_range x). pose proof (u8_range (Z.shiftr x 8)).
  rewrite Z.shiftl_mul_pow2 by lia.
  rewrite (lor_disjoint (u8 x)) by lia.
  unfold u8 in *. rewrite Z.shiftr_div_pow2 in * by lia.
  change (2 ^ 8) with 256 in *. Z.div_mod_to_equations. lia.
Qed.

Lemma do_read_write_16 e v rest : do_read_16 e (do_write_16 e v ++ rest) = u16 v.
Proof.
  pose proof (u16_range v) as Hv.
  destruct e; unfold do_read_16, do_write_16;
    unfold Codec.buf_read_ule16, Codec.buf_read_ube16,
      Codec.dwarf2_write_le16, Codec.dwarf2_write_be16, Codec.byte_at;
    cbn -[u8 u16 Z.shiftl Z.shiftr Z.lor];
    rewrite compose_16 by exact Hv; unfold u16 in *; apply Z.mod_small;
    exact Hv.
Qed.

(** [memcpy]-like stores read back: the bytes stored at [n]. *)
Lemma drop_list_inserts (n : nat) (new data : list Z) :
  (n + length new <= length data)%nat ->
  drop n (list_inserts n new data) = new ++ drop (n + length new) data.
Proof.
  intros H. apply list_eq. intros i. rewrite lookup_drop.
  destruct (decide (i < length new)%nat) as [Hi|Hi].
  - rewrite list_lookup_inserts by lia. rewrite lookup_app_l by lia.
    f_equal. lia.
  - rewrite list_lookup_inserts_ge by lia. rewrite lookup_app_r by lia.
    rewrite lookup_drop. f_equal. lia.
Qed.

Lemma list_inserts_frame (n : nat) (new data : list Z) :
  (n + length new <= length data)%nat ->
  take n (list_inserts n new data) = take n data
  /\ drop (n + length new) (list_inserts n new data)
     = drop (n + length new) data.
Proof.
  intros H. split.
  - apply list_eq. intros i. destruct (decide (i < n)%nat) as [Hi|Hi].
    + rewrite !lookup_take_lt by lia.
      apply list_lookup_inserts_lt. exact Hi.
    + rewrite !lookup_take_ge by lia. reflexivity.
  - rewrite <- (drop_drop (list_inserts _ _ _) _ n).
    rewrite (drop_list_inserts n new data H), drop_app_length. reflexivity.
Qed.

Lemma do_read_32_inserts e (n : nat) v (data : list Z) :
  (n + 4 <= length data)%nat ->
  do_read_32 e (drop n (list_inserts n (do_write_32 e v) data)) = u32 v.
Proof.
  intros H. rewrite drop_list_inserts by (rewrite length_do_write_32; exact H).
  apply do_read_write_32.
Qed.

(** X1. The 16- and 32-bit writers and readers selected for the byte
    order of the file are inverse to each other: what [do_write_32]
    (or [do_write_16]) stores at a place of a buffer, [do_read_32]
    ([do_read_16]) reads back there, as a 32-bit (16-bit) value, and the
    store touches no other byte and keeps the size of the buffer. *)
Theorem do_write_read_in_place (e : ei_data) (n : nat) (v : Z) (data : list Z) :
  ((n + 4 <= length data)%nat ->
   let data' := list_inserts n (do_write_32 e v) data in
   do_read_32 e (drop n data') = u32 v
   /\ length data' = length data
   /\ take n data' = take n data
   /\ drop (n + 4) data' = drop (n + 4) data)
  /\ ((n + 2 <= length data)%nat ->
      let data' := list_inserts n (do_write_16 e v) data in
      do_read_16 e (drop n data') = u16 v
      /\ length data' = length data
      /\ take n data' = take n data
      /\ drop (n + 2) data' = drop (n + 2) data).
Proof.
  split; intros H; cbv zeta.
  - pose proof (drop_list_inserts n (do_write_32 e v) data) as Hd.
    pose proof (list_inserts_frame n (do_write_32 e v) data) as Hf.
    rewrite length_do_write_32 in Hd, Hf. specialize (Hd H).
    split; [rewrite Hd; apply do_read_write_32|].
    split; [apply length_inserts|]. exact (Hf H).
  - pose proof (drop_list_inserts n (do_write_16 e v) data) as Hd.
    pose proof (list_inserts_frame n (do_write_16 e v) data) as Hf.
    rewrite length_do_write_16 in Hd, Hf. specialize (Hd H).
    split; [rewrite Hd; apply do_read_write_16|].
    split; [apply length_inserts|]. exact (Hf H).
Qed.

End ByteFacts.

Lemma do_write_read_in_place_witness :
  let data' := list_inserts 1 (do_write_32 ELFDATA2MSB 0x01020304) [9; 0; 0; 0; 0; 7] in
  do_read_32 ELFDATA2MSB (drop 1 data') = u32 0x01020304
  /\ length data' = length [9; 0; 0; 0; 0; 7]
  /\ take 1 data' = take 1 [9; 0; 0; 0; 0; 7]
  /\ drop (1 + 4) data' = drop (1 + 4) [9; 0; 0; 0; 0; 7].
Proof.
  apply (proj1 (do_write_read_in_place ELFDATA2MSB 1 0x01020304 [9; 0; 0; 0; 0; 7])).
  vm_compute. lia.
Defined.

(** ** ULEB128 saturation on writing; relocated words written and read *)

Section CodecMore.

Import Codec.

Lemma length_write_uleb128 v : (1 <= length (write_uleb128 v) <= 5)%nat.
Proof.
  unfold write_uleb128. pose proof (u32_range v) as Hv.
  destruct (write_uleb128_loop_spec (u32 v) ltac:(lia)) as (Hu & Hval & Hmin).
  pose proof (is_uleb128_nonempty _ Hu) as Hne.
  set (bs := write_uleb128_loop (u32 v)) in *.
  split; [destruct bs; [congruence|simpl; lia]|].
  destruct Hmin as [[_ ->]|(Hpos & _ & Hlow)]; [simpl; lia|].
  destruct (le_gt_dec (length bs) 5) as [|Hgt]; [assumption|exfalso].
  assert (2 ^ 35 <= 2 ^ (7 * (Z.of_nat (length bs) - 1)))
    by (apply Z.pow_le_mono_r; lia).
  change (2 ^ 35) with 34359738368 in *. lia.
Qed.

(** X2. [write_uleb128] stores between one and five bytes for every
    argument (which is converted to [uint32_t]).  For a value of 2^28 or
    more it stores five, and [read_uleb128] on those five bytes does not
    give the value back: it returns [UINT_MAX], with the cursor behind
    the five bytes. *)
Theorem write_uleb128_large (v : Z) (rest : list Z) :
  (1 <= length (write_uleb128 v) <= 5)%nat
  /\ (2 ^ 28 <= u32 v ->
      length (write_uleb128 v) = 5%nat
      /\ read_uleb128 (write_uleb128 v ++ rest) = (UINT_MAX, rest)).
Proof.
  pose proof (length_write_uleb128 v) as Hlen.
  split; [exact Hlen|]. intros Hbig.
  unfold write_uleb128 in *. pose proof (u32_range v) as Hv.
  destruct (write_uleb128_loop_spec (u32 v) ltac:(lia)) as (Hu & Hval & _).
  pose proof (uleb128_value_bounds _ Hu) as Hb. rewrite Hval in Hb.
  set (bs := write_uleb128_loop (u32 v)) in *.
  assert (H5 : length bs = 5%nat).
  { destruct (le_gt_dec (length bs) 4) as [Hle|]; [exfalso|lia].
    assert (2 ^ (7 * Z.of_nat (length bs)) <= 2 ^ 28)
      by (apply Z.pow_le_mono_r; lia).
    lia. }
  split; [exact H5|].
  rewrite (read_uleb128_encoding bs rest Hu), H5. reflexivity.
Qed.

End CodecMore.

Lemma write_uleb128_large_witness :
  length (Codec.write_uleb128 (2 ^ 28)) = 5%nat
  /\ Codec.read_uleb128 (Codec.write_uleb128 (2 ^ 28) ++ [7]) = (UINT_MAX, [7]).
Proof.
  apply (proj2 (write_uleb128_large (2 ^ 28) [7])). vm_compute. discriminate.
Defined.

Section RelocMore.

Import Reloc.

Lemma find_rel_loop_ptrs relptr relptr' xptr :
  map ptr relptr' = map ptr relptr ->
  forall n l r, (r - l = n)%nat ->
    find_rel_loop relptr' xptr l r = find_rel_loop relptr xptr l r.
Proof.
  intros Hmap.
  assert (Hlen : length relptr' = length relptr).
  { rewrite <- (length_map ptr relptr'), Hmap, length_map. reflexivity. }
  assert (Hlook : forall m, ptr <$> (relptr' !! m) = ptr <$> (relptr !! m)).
  { intros m. rewrite <- !list_lookup_fmap.
    change (ptr <$> relptr') with (map ptr relptr').
    change (ptr <$> relptr) with (map ptr relptr). rewrite Hmap. reflexivity. }
  induction n as [n IH] using lt_wf_ind. intros l r Hn.
  rewrite (find_rel_loop_eq relptr'), (find_rel_loop_eq relptr).
  destruct (Nat.ltb_spec l r) as [Hlt|]; [|exact Hlen].
  cbv zeta. pose proof (midpoint l r Hlt) as Hm.
  specialize (Hlook ((l + r) / 2)%nat).
  destruct (relptr' !! ((l + r) / 2)%nat) as [a|];
    destruct (relptr !! ((l + r) / 2)%nat) as [b|]; try discriminate;
    [|exact Hlen].
  injection Hlook as Hab. rewrite Hab.
  destruct (ptr b <? xptr).
  { apply (IH (r - ((l + r) / 2 + 1))%nat); lia. }
  destruct (ptr b >? xptr); [|reflexivity].
  apply (IH ((l + r) / 2 - l)%nat); lia.
Qed.

Lemma map_ptr_alter (relptr : list REL) i val :
  map ptr (alter (fun rel => {| ptr := ptr rel; addend := val; ndx := ndx rel |})
             i relptr) = map ptr relptr.
Proof.
  revert i. induction relptr as [|rel relptr IH]; intros [|i];
    cbn [alter list_alter map]; try reflexivity.
  f_equal. apply IH.
Qed.

(** A word written behind a read of the same place is read back, and
    the write keeps the shape of the section. *)
Lemma do_write_32_relocated_read (e : ei_data) (xptr val : Z)
    (sec : debug_section) :
  0 <= xptr -> xptr + 4 <= Z.of_nat (length (data sec)) ->
  let last := snd (do_read_32_relocated e xptr sec) in
  let sec' := do_write_32_relocated e last xptr val sec in
  fst (do_read_32_relocated e xptr sec') = u32 val
  /\ length (data sec') = length (data sec)
  /\ reltype sec' = reltype sec
  /\ (map ptr <$> relbuf sec') = (map ptr <$> relbuf sec).
Proof.
  intros H0 H4 last sec'.
  assert (Hlast :
    last = match relbuf sec with
           | Some relptr =>
               {| last_relptr := Some (find_rel_for_ptr xptr relptr);
                  last_relend := length relptr; last_reltype := reltype sec |}
           | None => {| last_relptr := None; last_relend := 0%nat;
                        last_reltype := reltype sec |}
           end).
  { unfold last, do_read_32_relocated. destruct (relbuf sec); reflexivity. }
  clearbody last. subst sec'.
  assert (Hstore : forall v,
             fst (do_read_32_relocated e xptr
                    {| data := list_inserts (Z.to_nat xptr) (do_write_32 e v)
                                 (data sec);
                       relbuf := None; reltype := reltype sec;
                       rel_updated := rel_updated sec |}) = u32 v).
  { intros v. unfold do_read_32_relocated. cbn [relbuf data fst].
    apply do_read_32_inserts. lia. }
  assert (Hin : forall v,
             do_read_32 e (drop (Z.to_nat xptr)
                             (list_inserts (Z.to_nat xptr) (do_write_32 e v)
                                (data sec))) = u32 v).
  { intros v.
    apply do_read_32_inserts. lia. }
  destruct (relbuf sec) as [relptr|] eqn:Hbuf; subst last.
  2:{ unfold do_write_32_relocated. cbn [last_relptr].
      unfold store_32. rewrite Hbuf.
      split; [apply Hstore|]. cbn [data reltype relbuf].
      split; [apply length_inserts|]. split; reflexivity. }
  set (i := find_rel_for_ptr xptr relptr).
  unfold do_write_32_relocated. cbn [last_relptr last_relend last_reltype].
  rewrite Hbuf. change (default [] (Some relptr)) with relptr.
  assert (Hmiss : forall v,
             match relptr !! i with
             | Some rel => (i <? length relptr)%nat && (ptr rel =? xptr) = false
             | None => True
             end ->
             fst (do_read_32_relocated e xptr (store_32 e xptr v sec)) = u32 v).
  { intros v Hno. unfold do_read_32_relocated, store_32.
    cbn [relbuf data reltype]. rewrite Hbuf. cbn [fst]. fold i.
    destruct (relptr !! i) as [rel|]; [|apply Hin].
    rewrite Hno. apply Hin. }
  assert (Hframe : forall v,
             length (data (store_32 e xptr v sec)) = length (data sec)
             /\ reltype (store_32 e xptr v sec) = reltype sec
             /\ (map ptr <$> relbuf (store_32 e xptr v sec))
                = (map ptr <$> Some relptr)).
  { intros v. unfold store_32. cbn [data reltype relbuf]. rewrite Hbuf.
    split; [apply length_inserts|]. split; reflexivity. }
  destruct (relptr !! i) as [rel|] eqn:Hi.
  2:{ split; [apply Hmiss; exact I|apply Hframe]. }
  destruct ((i <? length relptr)%nat && (ptr rel =? xptr)) eqn:Hhit.
  2:{ split; [|apply Hframe]. apply Hmiss. reflexivity. }
  clear Hmiss.
  destruct (reltype sec =? SHT_REL) eqn:Hrel.
  - (* REL: the word holds [val - addend] *)
    split; [|apply Hframe].
    unfold do_read_32_relocated, store_32. cbn [relbuf data reltype].
    rewrite Hbuf. cbn [fst]. fold i. rewrite Hi, Hhit, Hrel, Hin.
    unfold u32. rewrite Zplus_mod_idemp_l. f_equal. lia.
  - (* RELA: the addend holds [val] *)
    unfold store_addend. cbn [data reltype relbuf]. rewrite Hbuf.
    cbn [fmap option_fmap option_map].
    split; [|split; [reflexivity|split; [reflexivity|]]].
    + unfold do_read_32_relocated. cbn [relbuf data reltype fst].
      unfold find_rel_for_ptr. rewrite length_alter.
      rewrite (find_rel_loop_ptrs relptr _ xptr (map_ptr_alter relptr i (u32 val))
                 (length relptr - 0) 0 (length relptr) eq_refl).
      fold (find_rel_for_ptr xptr relptr). fold i.
      rewrite list_lookup_alter, Hi. cbn [fmap option_fmap option_map ptr addend].
      rewrite decide_True by reflexivity. cbn [ptr addend].
      rewrite Hhit, Hrel. reflexivity.
    + f_equal. apply map_ptr_alter.
Qed.

(** X3. A relocated 32-bit word that is written is read back: after
    [do_read_32_relocated (ptr, sec)], [do_write_32_relocated (ptr, val)]
    and a second [do_read_32_relocated (ptr, sec)] returns [val] as a
    32-bit value, whether the word has no relocation (the bytes are
    stored), a REL relocation ([val - addend] is stored) or a RELA
    relocation (the addend is replaced).  The write keeps the size of the
    payload, the kind of the relocations and the place of every
    relocation record. *)
Theorem write_read_32_relocated (e : ei_data) (xptr val : Z)
    (sec : debug_section) :
  0 <= xptr -> xptr + 4 <= Z.of_nat (length (data sec)) ->
  let last := snd (do_read_32_relocated e xptr sec) in
  let sec' := do_write_32_relocated e last xptr val sec in
  fst (do_read_32_relocated e xptr sec') = u32 val
  /\ length (data sec') = length (data sec)
  /\ reltype sec' = reltype sec
  /\ (map ptr <$> relbuf sec') = (map ptr <$> relbuf sec).
Proof. exact (do_write_32_relocated_read e xptr val sec). Qed.

End RelocMore.

Lemma write_read_32_relocated_witness :
  let sec := {| Reloc.data := [1; 0; 0; 0; 2; 0; 0; 0];
                Reloc.relbuf := Some [ {| Reloc.ptr := 0; Reloc.addend := 7; Reloc.ndx := 1 |};
                                       {| Reloc.ptr := 4; Reloc.addend := 9; Reloc.ndx := 0 |} ];
                Reloc.reltype := Reloc.SHT_RELA; Reloc.rel_updated := false |} in
  let last := snd (Reloc.do_read_32_relocated ELFDATA2LSB 4 sec) in
  let sec' := Reloc.do_write_32_relocated ELFDATA2LSB last 4 77 sec in
  fst (Reloc.do_read_32_relocated ELFDATA2LSB 4 sec') = u32 77
  /\ length (Reloc.data sec') = length (Reloc.data sec)
  /\ Reloc.reltype sec' = Reloc.reltype sec
  /\ (map Reloc.ptr <$> Reloc.relbuf sec') = (map Reloc.ptr <$> Reloc.relbuf sec).
Proof.
  intros sec.
  apply (write_read_32_relocated ELFDATA2LSB 4 77 sec); vm_compute; congruence.
Defined.

(** ** [skip_dir_prefix] and the string pool *)

Section PrefixFacts.

Import Path.

Lemma strncmp_eq_prefix dir : forall rest,
  strncmp_eq (c_str dir ++ rest) dir (strlen dir) = true.
Proof.
  unfold c_str. induction dir as [|c dir IH]; intros rest; [reflexivity|].
  cbn [strlen]. destruct (c =? 0) eqn:E; [reflexivity|].
  cbn [take app strncmp_eq]. rewrite !peek_cons, Z.eqb_refl, E.
  cbn [drop]. rewrite !drop_0. apply IH.
Qed.

Lemma skip_separators_replicate k s :
  peek s 0 <> SLASH -> skip_separators (replicate k SLASH ++ s) = s.
Proof.
  intros Hs. induction k as [|k IH]; cbn [replicate app].
  - destruct s as [|c s]; [reflexivity|]. rewrite peek_cons in Hs.
    cbn [skip_separators]. unfold IS_DIR_SEPARATOR.
    destruct (Z.eqb_spec c 47); [|reflexivity]. unfold SLASH in Hs. congruence.
  - cbn [skip_separators]. exact IH.
Qed.

Lemma skip_dir_prefix_app dir rest :
  skip_dir_prefix (c_str dir ++ rest) dir
  = if negb (peek rest 0 =? 0) && negb (IS_DIR_SEPARATOR (peek rest 0))
    then None else Some (skip_separators rest).
Proof.
  unfold skip_dir_prefix. rewrite strncmp_eq_prefix.
  rewrite <- (length_c_str dir), drop_app_length. reflexivity.
Qed.

(** X4. What [skip_dir_prefix] does with a path, by the byte that follows
    the prefix: at the end of the string the result is the empty string;
    at a run of separators it is the part behind the whole run; at any
    other byte the result is NULL, and so it is when the path does not
    start with the prefix. *)
Theorem skip_dir_prefix_cases (dir : list Z) :
  0 ∉ dir ->
  skip_dir_prefix dir dir = Some []
  /\ (forall post, skip_dir_prefix (dir ++ 0 :: post) dir = Some (0 :: post))
  /\ (forall k file, peek file 0 <> SLASH ->
        skip_dir_prefix (dir ++ replicate (S k) SLASH ++ file) dir = Some file)
  /\ (forall c rest, c <> 0 -> c <> SLASH ->
        skip_dir_prefix (dir ++ c :: rest) dir = None)
  /\ (forall path, take (length dir) path <> dir ->
        skip_dir_prefix path dir = None).
Proof.
  intros Hnf. pose proof (c_str_nul_free dir Hnf) as Hc.
  split; [|split; [|split; [|split]]].
  - rewrite <- (app_nil_r dir) at 1. rewrite <- Hc at 1.
    rewrite skip_dir_prefix_app. reflexivity.
  - intros post. rewrite <- Hc at 1. rewrite skip_dir_prefix_app. reflexivity.
  - intros k file Hfile. rewrite <- Hc at 1. rewrite skip_dir_prefix_app.
    cbn [replicate app]. rewrite peek_cons. cbn.
    apply f_equal. apply skip_separators_replicate. exact Hfile.
  - intros c rest H0 Hs. rewrite <- Hc at 1. rewrite skip_dir_prefix_app.
    rewrite peek_cons. unfold IS_DIR_SEPARATOR. unfold SLASH in Hs.
    destruct (Z.eqb_spec c 0); [congruence|].
    destruct (Z.eqb_spec c 47); [congruence|]. reflexivity.
  - intros path Hne. unfold skip_dir_prefix.
    destruct (strncmp_eq path dir (strlen dir)) eqn:Hcmp; [|reflexivity].
    apply strncmp_eq_take in Hcmp as [Ht _]; [|lia].
    rewrite (strlen_nul_free dir Hnf) in Ht. rewrite firstn_all in Ht.
    congruence.
Qed.

Lemma skip_dir_prefix_cases_witness :
  skip_dir_prefix [47; 97] [47; 97] = Some []
  /\ skip_dir_prefix ([47; 97] ++ replicate 2 SLASH ++ [98; 0]) [47; 97]
     = Some [98; 0]
  /\ skip_dir_prefix ([47; 97] ++ 98 :: [0]) [47; 97] = None.
Proof.
  assert (H : 0 ∉ [47; 97]).
  { intros H. repeat (apply elem_of_cons in H as [H|H]; [discriminate|]).
    apply elem_of_nil in H. exact H. }
  destruct (skip_dir_prefix_cases [47; 97] H) as (H1 & _ & H3 & H4 & _).
  split; [exact H1|split].
  - apply (H3 1%nat [98; 0]). vm_compute. discriminate.
  - apply (H4 98 [0]); discriminate.
Defined.

End PrefixFacts.

Section PoolFacts.

Import Path Strings.

Lemma set_pool_other line_strp dso strs :
  pool (negb line_strp) (set_pool line_strp dso strs)
  = pool (negb line_strp) dso.
Proof. destruct line_strp; reflexivity. Qed.

Lemma pool_data_set_pool b line_strp dso strs :
  pool_data b (set_pool line_strp dso strs) = pool_data b dso.
Proof. destruct b, line_strp; reflexivity. Qed.

(** X5. Phase 0 on a string not seen before that is [base_dir], a run of
    separators and a file part: [record_file_string_entry_idx] returns
    true and enters [dest_dir "/" file] for the index (just [dest_dir]
    when the file part is empty), as the newest string of the new table;
    the other pool and the section bytes are not touched. *)
Theorem record_file_string_entry_idx_rewrites
    (base dest file post : list Z) (k : nat)
    (line_strp : bool) (dso : DSO) (idx : Z) :
  0 ∉ base -> 0 ∉ dest -> 0 ∉ file -> peek file 0 <> SLASH ->
  (file <> [] -> (1 <= k)%nat) ->
  string_find_new_entry (pool line_strp dso) idx = true ->
  0 <= idx ->
  drop (Z.to_nat idx) (pool_data line_strp dso)
  = base ++ replicate k SLASH ++ file ++ 0 :: post ->
  let new := dest ++ match file with [] => [] | _ => SLASH :: file end in
  exists dso',
    record_file_string_entry_idx base dest line_strp dso idx
    = Done (true, dso')
    /\ strent_root (pool line_strp dso') !! idx = Some new
    /\ str_tab (pool line_strp dso') = str_tab (pool line_strp dso) ++ [new]
    /\ (forall i, i <> idx ->
          strent_root (pool line_strp dso') !! i
          = strent_root (pool line_strp dso) !! i)
    /\ pool (negb line_strp) dso' = pool (negb line_strp) dso
    /\ (forall b, pool_data b dso' = pool_data b dso).
Proof.
  intros Hb Hd Hf Hp Hk Hnew Hidx Hdrop new.
  assert (Hlt : idx < Z.of_nat (length (pool_data line_strp dso))).
  { destruct (Z.lt_ge_cases idx (Z.of_nat (length (pool_data line_strp dso))))
      as [|Hge]; [assumption|exfalso].
    rewrite drop_ge in Hdrop by lia.
    destruct base; [destruct k; [destruct file|]|]; discriminate. }
  rewrite (record_file_string_entry_idx_fresh base dest line_strp dso idx Hnew
             ltac:(lia)).
  cbv zeta. rewrite Hdrop.
  assert (Hskip : skip_dir_prefix (base ++ replicate k SLASH ++ file ++ 0 :: post)
                    base = Some (file ++ 0 :: post)).
  { assert (Hp' : peek (file ++ 0 :: post) 0 <> SLASH).
    { destruct file; cbn [app]; [rewrite peek_cons; discriminate|exact Hp]. }
    rewrite <- (c_str_nul_free base Hb) at 1. rewrite skip_dir_prefix_app.
    rewrite (skip_separators_replicate k _ Hp').
    destruct k as [|k].
    - destruct file as [|c file]; [reflexivity|]. specialize (Hk ltac:(discriminate)). lia.
    - cbn [replicate app]. rewrite peek_cons. reflexivity. }
  rewrite Hskip.
  assert (Hname : new_name dest (file ++ 0 :: post) = new).
  { unfold new_name, new. rewrite (strlen_nul_free dest Hd), firstn_all.
    rewrite (strlen_app_nul file post Hf), (c_str_app_nul file post Hf).
    destruct file; reflexivity. }
  rewrite Hname. eexists. split; [reflexivity|].
  rewrite pool_set_pool. cbn [set_entry strent_root str_tab].
  split; [apply lookup_insert_eq|]. split; [reflexivity|].
  split; [intros i Hi; apply lookup_insert_ne; congruence|].
  split; [apply set_pool_other|]. intros b. apply pool_data_set_pool.
Qed.

Lemma record_file_string_entry_idx_rewrites_witness :
  exists dso',
    record_file_string_entry_idx [47; 97] [47; 122] false pool_ex 2
    = Done (true, dso')
    /\ strent_root (pool false dso') !! 2 = Some [47; 122; 47; 98].
Proof.
  assert (H0 : forall a b : Z, a <> 0 -> b <> 0 -> 0 ∉ [a; b]).
  { intros a b Ha Hb H. apply elem_of_cons in H as [H|H]; [congruence|].
    apply elem_of_cons in H as [H|H]; [congruence|].
    apply elem_of_nil in H. exact H. }
  assert (H1 : 0 ∉ [98]).
  { intros H. apply elem_of_cons in H as [H|H]; [discriminate|].
    apply elem_of_nil in H. exact H. }
  destruct (record_file_string_entry_idx_rewrites
              [47; 97] [47; 122] [98] [121; 0] 2 false pool_ex 2
              (H0 47 97 ltac:(discriminate) ltac:(discriminate))
              (H0 47 122 ltac:(discriminate) ltac:(discriminate)) H1
              ltac:(vm_compute; discriminate) ltac:(intros _; lia)
              ltac:(reflexivity) ltac:(lia) ltac:(reflexivity))
    as (dso' & Hrec & Hroot & _).
  exists dso'. split; [exact Hrec|exact Hroot].
Defined.

(** X6. Registering an index and looking it up: after
    [record_existing_string_entry_idx] on an index not seen before,
    [string_find_entry] finds the original string (up to its NUL) without
    needing [accept_missing]; other indices are as before; and the first
    registration is final: neither registering again nor
    [record_file_string_entry_idx] with any directories changes the
    entry, the latter returning false. *)
Theorem string_pool_round_trip
    (line_strp : bool) (dso : DSO) (idx : Z) (dummy : Strent) :
  string_find_new_entry (pool line_strp dso) idx = true ->
  0 <= idx < Z.of_nat (length (pool_data line_strp dso)) ->
  exists dso',
    record_existing_string_entry_idx line_strp dso idx = Done dso'
    /\ (forall accept_missing,
          string_find_entry dummy (pool line_strp dso') idx accept_missing
          = Done (false,
                  c_str (drop (Z.to_nat idx) (pool_data line_strp dso))))
    /\ (forall i accept_missing, i <> idx ->
          string_find_entry dummy (pool line_strp dso') i accept_missing
          = string_find_entry dummy (pool line_strp dso) i accept_missing)
    /\ record_existing_string_entry_idx line_strp dso' idx = Done dso'
    /\ (forall base dest,
          record_file_string_entry_idx base dest line_strp dso' idx
          = Done (false, dso')).
Proof.
  intros Hnew [H0 Hlt]. unfold record_existing_string_entry_idx at 1.
  rewrite Hnew. destruct (Z.leb_spec (Z.of_nat (length (pool_data line_strp dso))) idx);
    [lia|].
  eexists. split; [reflexivity|].
  assert (Hseen : forall s, string_find_new_entry
            (pool line_strp (set_pool line_strp dso
                               (set_entry (pool line_strp dso) idx s))) idx
          = false).
  { intros s. rewrite pool_set_pool. unfold string_find_new_entry.
    cbn [set_entry strent_root]. rewrite lookup_insert_eq.
    apply bool_decide_eq_false_2. discriminate. }
  split; [|split; [|split]].
  - intros am. unfold string_find_entry. rewrite pool_set_pool.
    cbn [set_entry strent_root]. rewrite lookup_insert_eq. reflexivity.
  - intros i am Hi. unfold string_find_entry. rewrite pool_set_pool.
    cbn [set_entry strent_root]. rewrite lookup_insert_ne by congruence.
    reflexivity.
  - unfold record_existing_string_entry_idx. rewrite Hseen. reflexivity.
  - intros base dest. unfold record_file_string_entry_idx. rewrite Hseen.
    reflexivity.
Qed.

Lemma string_pool_round_trip_witness :
  exists dso',
    record_existing_string_entry_idx false pool_ex 2 = Done dso'
    /\ string_find_entry [] (pool false dso') 2 false
       = Done (false, [47; 97; 47; 47; 98]).
Proof.
  destruct (string_pool_round_trip false pool_ex 2 []
              ltac:(reflexivity) ltac:(vm_compute; split; [discriminate|reflexivity]))
    as (dso' & Hrec & Hfind & _).
  exists dso'. split; [exact Hrec|exact (Hfind false)].
Defined.

End PoolFacts.

(** ** The registry of line tables and phase one *)

Ltac decide_by_compute :=
  match goal with
  | |- ?P => apply (bool_decide_unpack P); vm_compute; exact I
  end.

Section RegistryFacts.

Import Lines Phase1.

Lemma find_table_None ts off : forall i,
  find_table ts off i = None <-> off ∉ map old_idx ts.
Proof.
  induction ts as [|t ts IH]; intros i; cbn [find_table map].
  - split; [intros _; apply not_elem_of_nil|reflexivity].
  - destruct (Z.eqb_spec (old_idx t) off) as [E|E].
    + split; [discriminate|]. intros H. exfalso. apply H. rewrite E. left.
    + rewrite IH. rewrite not_elem_of_cons.
      split; [intros H; split; [congruence|exact H]|intros [_ H]; exact H].
Qed.

(** X7. The registry of line tables never holds two tables for one
    offset: [read_dwarf2_line] keeps this, adds at most one table (for
    the offset asked for, at the end), and for an offset that is
    registered already it returns false and changes nothing, whether or
    not that table is marked for rewriting. *)
Theorem read_dwarf2_line_registry (e : ei_data) (cfg : config)
    (data : list Z) (lines : debug_lines) (off : Z)
    (comp_dir : option (list Z)) (cu : Info.CU) (listing : list Z)
    (marked : bool) (lines' : debug_lines) (listing' : list Z) :
  0 <= off ->
  NoDup (map old_idx (table lines)) ->
  read_dwarf2_line e cfg data lines off comp_dir cu listing
  = Done (marked, lines', listing') ->
  NoDup (map old_idx (table lines'))
  /\ (exists new, table lines' = table lines ++ new
                  /\ (length new <= 1)%nat
                  /\ Forall (fun t => old_idx t = off) new)
  /\ (off ∈ map old_idx (table lines) ->
      marked = false /\ lines' = lines /\ listing' = listing).
Proof.
  intros Hoff Hnd H. unfold read_dwarf2_line, get_line_table in H.
  assert (Hsame : marked = false /\ lines' = lines /\ listing' = listing ->
            NoDup (map old_idx (table lines'))
            /\ (exists new, table lines' = table lines ++ new
                            /\ (length new <= 1)%nat
                            /\ Forall (fun t => old_idx t = off) new)).
  { intros (_ & -> & _). split; [exact Hnd|]. exists []. rewrite app_nil_r.
    split; [reflexivity|]. split; [simpl; lia|constructor]. }
  destruct (find_table (table lines) off 0) eqn:Hfind.
  { cbn in H. injection H as <- <- <-.
    split; [apply Hsame; tauto|]. split; [apply Hsame; tauto|tauto]. }
  apply find_table_None in Hfind.
  assert (Hadd : forall t, old_idx t = off ->
            table lines' = table lines ++ [t] ->
            NoDup (map old_idx (table lines'))
            /\ (exists new, table lines' = table lines ++ new
                            /\ (length new <= 1)%nat
                            /\ Forall (fun t => old_idx t = off) new)
            /\ (off ∈ map old_idx (table lines) ->
                marked = false /\ lines' = lines /\ listing' = listing)).
  { intros t Ht Htab. split; [|split].
    - rewrite Htab, map_app. apply NoDup_app. split; [exact Hnd|].
      split; [|apply NoDup_singleton].
      intros x Hx Hx'. cbn [map] in Hx'. apply list_elem_of_singleton in Hx'.
      subst x. rewrite Ht in Hx. contradiction.
    - exists [t]. split; [exact Htab|]. split; [simpl; lia|].
      constructor; [exact Ht|constructor].
    - intros Hin. contradiction. }
  destruct (read_header e cu data off) as [[i|t0|msg]|] eqn:Hh;
    cbn [mbind outcome_bind] in H; try discriminate;
    try (injection H as <- <- <-;
         split; [apply Hsame; tauto|]; split; [apply Hsame; tauto|tauto]).
  destruct (read_header_Fresh e cu data off t0 Hoff Hh) as (Hold & _).
  destruct (version t0 <? 5) eqn:Ev.
  - unfold read_dwarf4_line in H.
    pose proof (size_dirs_same_header cfg data t0
                  (Z.to_nat (off + header_size t0))) as [Hs1 _].
    destruct (size_dirs cfg data t0 _) as [t1 ptr1]. cbn [fst] in Hs1.
    destruct (collect_dirs data _ _) as [dirt ptr2].
    destruct (size_files cfg data comp_dir dirt t1 _ listing)
      as [[[ok t2] l2]|] eqn:Hfiles; [|discriminate].
    cbn [mbind outcome_bind] in H.
    destruct (size_files_same_header _ _ _ _ _ _ _ _ _ _ Hfiles) as [Hs2 _].
    destruct Hs1 as (Ho1 & _). destruct Hs2 as (Ho2 & _).
    apply (Hadd t2); [congruence|].
    destruct ok; injection H as _ <- _; reflexivity.
  - cbn [mbind outcome_bind] in H. apply (Hadd t0 Hold).
    injection H as _ <- _. reflexivity.
Qed.

End RegistryFacts.

Lemma example_lines_NoDup :
  NoDup (map Lines.old_idx (Lines.table example_lines)).
Proof. decide_by_compute. Qed.

Lemma read_dwarf2_line_registry_witness :
  match Lines.read_dwarf2_line ELFDATA2LSB example_cfg example_debug_line
          example_lines 0 None example_cu [] with
  | Done (marked, lines', _) => marked = false /\ lines' = example_lines
  | Exit _ => False
  end.
Proof.
  destruct (Lines.read_dwarf2_line ELFDATA2LSB example_cfg example_debug_line
              example_lines 0 None example_cu []) as [[[m l'] li]|msg] eqn:H;
    [|vm_compute in H; discriminate].
  destruct (read_dwarf2_line_registry ELFDATA2LSB example_cfg
              example_debug_line example_lines 0 None example_cu [] m l' li
              ltac:(lia)
              example_lines_NoDup H)
    as (_ & _ & Hsame).
  destruct Hsame as (Hm & Hl & _); [|tauto].
  decide_by_compute.
Defined.

Section Phase1Facts.

Import Lines Phase1.

Lemma bsearch_loop_eq compar base l u :
  bsearch_loop compar base l u
  = if (l <? u)%nat
    then
      let idx := ((l + u) / 2)%nat in
      match base !! idx with
      | None => None
      | Some p =>
          let comparison := compar p in
          if comparison <? 0 then bsearch_loop compar base l idx
          else if 0 <? comparison then bsearch_loop compar base (idx + 1) u
          else Some p
      end
    else None.
Proof.
  funelim (bsearch_loop compar base l u); rewrite e; [|reflexivity].
  reflexivity.
Qed.

Lemma line_table_cmp_cases key p :
  (key < old_idx p /\ line_table_cmp key p = -1)
  \/ (old_idx p < key /\ line_table_cmp key p = 1)
  \/ (old_idx p = key /\ line_table_cmp key p = 0).
Proof.
  unfold line_table_cmp. rewrite Z.gtb_ltb.
  destruct (Z.ltb_spec key (old_idx p)); [left; split; [lia|reflexivity]|].
  destruct (Z.ltb_spec (old_idx p) key);
    [right; left; split; [lia|reflexivity]|].
  right; right. split; [lia|reflexivity].
Qed.

Lemma bsearch_spec key ts :
  ascending ts ->
  forall n l u, (u - l = n)%nat -> (u <= length ts)%nat ->
    (forall i a, ts !! i = Some a -> old_idx a = key -> (l <= i < u)%nat) ->
    forall i a, ts !! i = Some a -> old_idx a = key ->
      bsearch_loop (line_table_cmp key) ts l u = Some a.
Proof.
  intros Hasc n. induction n as [n IH] using lt_wf_ind.
  intros l u Hn Hu Hrange i a Hi Ha.
  pose proof (Hrange i a Hi Ha) as Hlu.
  rewrite bsearch_loop_eq.
  destruct (Nat.ltb_spec l u) as [Hl|]; [|lia]. cbv zeta.
  pose proof (Nat.div_mod_eq (l + u) 2) as Hd.
  pose proof (Nat.mod_upper_bound (l + u) 2 ltac:(lia)) as Hm.
  set (idx := ((l + u) / 2)%nat) in *.
  destruct (ts !! idx) as [p|] eqn:Hp.
  2:{ apply lookup_ge_None in Hp. lia. }
  destruct (line_table_cmp_cases key p) as [[Hlt ->]|[[Hgt ->]|[Heq ->]]].
  - change (-1 <? 0) with true. cbv iota.
    apply (IH (idx - l)%nat ltac:(lia) l idx eq_refl ltac:(lia)) with (i := i);
      try assumption.
    intros i' a' Hi' Ha'. pose proof (Hrange i' a' Hi' Ha').
    destruct (Nat.lt_ge_cases i' idx) as [|Hge]; [lia|exfalso].
    destruct (Nat.eq_dec i' idx) as [Heq|Hne];
      [rewrite Heq, Hp in Hi'; injection Hi' as <-; lia|].
    pose proof (Hasc idx i' p a' Hp Hi' ltac:(lia)). lia.
  - change (1 <? 0) with false. change (0 <? 1) with true. cbv iota.
    apply (IH (u - (idx + 1))%nat ltac:(lia) (idx + 1)%nat u eq_refl Hu)
      with (i := i); try assumption.
    intros i' a' Hi' Ha'. pose proof (Hrange i' a' Hi' Ha').
    destruct (Nat.lt_ge_cases idx i') as [|Hge']; [lia|exfalso].
    destruct (Nat.eq_dec i' idx) as [Heq|Hne];
      [rewrite Heq, Hp in Hi'; injection Hi' as <-; lia|].
    pose proof (Hasc i' idx a' p Hi' Hp ltac:(lia)). lia.
  - change (0 <? 0) with false. cbv iota.
    destruct (Nat.lt_trichotomy i idx) as [Hc|[Hc|Hc]].
    + pose proof (Hasc i idx a p Hi Hp Hc). lia.
    + subst i. congruence.
    + pose proof (Hasc idx i p a Hp Hi Hc). lia.
Qed.

Lemma bsearch_sound key ts :
  forall n l u, (u - l = n)%nat ->
    forall p, bsearch_loop (line_table_cmp key) ts l u = Some p ->
      p ∈ ts /\ old_idx p = key.
Proof.
  intros n. induction n as [n IH] using lt_wf_ind.
  intros l u Hn p. rewrite bsearch_loop_eq.
  destruct (Nat.ltb_spec l u) as [Hl|]; [|discriminate]. cbv zeta.
  pose proof (Nat.div_mod_eq (l + u) 2) as Hd.
  pose proof (Nat.mod_upper_bound (l + u) 2 ltac:(lia)) as Hm.
  set (idx := ((l + u) / 2)%nat) in *.
  destruct (ts !! idx) as [q|] eqn:Hq; [|discriminate].
  destruct (line_table_cmp_cases key q) as [[Hlt ->]|[[Hgt ->]|[Heq ->]]].
  - change (-1 <? 0) with true. cbv iota.
    apply (IH (idx - l)%nat ltac:(lia) l idx eq_refl).
  - change (1 <? 0) with false. change (0 <? 1) with true. cbv iota.
    apply (IH (u - (idx + 1))%nat ltac:(lia) (idx + 1)%nat u eq_refl).
  - change (0 <? 0) with false. cbv iota. intros H. injection H as <-.
    split; [apply list_elem_of_lookup; exists idx; exact Hq|exact Heq].
Qed.

Lemma ascending_sorted ts :
  StronglySorted Z.le (map old_idx ts) -> NoDup (map old_idx ts) ->
  ascending ts.
Proof.
  induction ts as [|t ts IH]; intros Hs Hnd i j a b Hi Hj Hij.
  - rewrite lookup_nil in Hi. discriminate.
  - cbn [map] in Hs, Hnd. apply StronglySorted_inv in Hs as [Hs Hall].
    apply NoDup_cons in Hnd as [Hnin Hnd].
    destruct j as [|j]; [lia|]. cbn in Hj.
    destruct i as [|i].
    + injection Hi as <-.
      assert (Hin : old_idx b ∈ map old_idx ts).
      { apply list_elem_of_fmap. exists b. split; [reflexivity|].
        apply list_elem_of_lookup. exists j. exact Hj. }
      pose proof (proj1 (Forall_forall _ _) Hall _ Hin) as Hle.
      cbv beta in Hle.
      destruct (Z.eq_dec (old_idx t) (old_idx b)) as [E|E]; [|lia].
      rewrite E in Hnin. contradiction.
    + cbn in Hi. apply (IH Hs Hnd i j a b Hi Hj). lia.
Qed.

Lemma forget_new_idx_inj t t' :
  forget_new_idx t' = forget_new_idx t -> t' = set_new_idx t (new_idx t').
Proof.
  destruct t, t'. unfold forget_new_idx, set_new_idx. cbn.
  intros H. injection H as -> -> -> -> -> -> -> -> -> -> -> -> ->.
  reflexivity.
Qed.

Lemma map_old_idx_forget ts :
  map old_idx (map forget_new_idx ts) = map old_idx ts.
Proof. rewrite map_map. apply map_ext. intros a. apply old_idx_forget. Qed.

Lemma take_drop_concat (chunks : list (list Z)) i chunk rest :
  chunks !! i = Some chunk ->
  take (length chunk)
    (drop (length (concat (take i chunks))) (concat chunks ++ rest))
  = chunk
  /\ (length (concat (take i chunks)) + length chunk
      <= length (concat chunks))%nat.
Proof.
  intros Hi. split.
  - rewrite <- (take_drop_middle chunks i chunk Hi) at 2.
    rewrite concat_app, <- app_assoc, drop_app_length. cbn [concat].
    rewrite <- app_assoc. apply take_app_length.
  - rewrite <- (take_drop_middle chunks i chunk Hi) at 2.
    rewrite concat_app. cbn [concat]. rewrite !length_app. lia.
Qed.

(** X8. Phase one finds every table: once [edit_dwarf2_line] has built
    the new [.debug_line] from a registry without two tables for one
    offset, and has not stored behind the block it allocated,
    [find_new_list_offs] on the old offset of a registered table returns
    the offset at which the bytes stored for that table start in the new
    section, and those bytes lie within the section, whose size is
    [debug_lines_len].  For an offset that is not registered [bsearch]
    returns NULL. *)
Theorem find_new_list_offs_after_edit (e : ei_data) (cfg : config)
    (fresh : nat -> Z) (old_buf : list Z) (lines lines' : debug_lines) :
  NoDup (map old_idx (table lines)) ->
  edit_dwarf2_line e cfg fresh old_buf lines = Done (Some lines') ->
  exists buf,
    line_buf lines' = Some buf
    /\ Z.of_nat (length buf) = debug_lines_len lines
    /\ (forall t, t ∈ table lines ->
          exists o chunk,
            find_new_list_offs lines' (old_idx t) = Some (Z.of_nat o)
            /\ emit_table e (default [] (base_dir cfg))
                 (default [] (dest_dir cfg)) old_buf
                 (set_new_idx t (Z.of_nat o)) = Done chunk
            /\ take (length chunk) (drop o buf) = chunk
            /\ (o + length chunk <= length buf)%nat)
    /\ (forall idx, idx ∉ map old_idx (table lines) ->
          find_new_list_offs lines' idx = None).
Proof.
  intros Hnd H.
  destruct (edit_dwarf2_line_chunks e cfg fresh old_buf lines lines' H)
    as (chunks & Hbuf & Hfit & Hpos & _ & Hsorted & Hmap & Hall & Hidx).
  assert (Hperm : map forget_new_idx (table lines')
                  ≡ₚ map forget_new_idx (table lines)).
  { rewrite Hmap. apply fmap_Permutation, merge_sort_Permutation. }
  assert (Hkeys : map old_idx (table lines') ≡ₚ map old_idx (table lines)).
  { rewrite <- (map_old_idx_forget (table lines')),
      <- (map_old_idx_forget (table lines)).
    apply fmap_Permutation. exact Hperm. }
  assert (Hasc : ascending (table lines')).
  { apply ascending_sorted; [exact Hsorted|]. rewrite Hkeys. exact Hnd. }
  set (rest := drop (length (concat chunks))
                 (malloc fresh (Z.to_nat (debug_lines_len lines)))) in *.
  assert (Hlen : length (concat chunks ++ rest)
                 = Z.to_nat (debug_lines_len lines)).
  { subst rest. rewrite length_app, length_drop, length_malloc. lia. }
  exists (concat chunks ++ rest). split; [exact Hbuf|].
  split; [rewrite Hlen; lia|]. split.
  - intros t Hin.
    assert (Hin' : forget_new_idx t ∈ map forget_new_idx (table lines')).
    { rewrite Hperm. apply list_elem_of_fmap. exists t. tauto. }
    apply list_elem_of_fmap in Hin' as (t' & Heq & Hin').
    apply list_elem_of_lookup in Hin' as (i & Hi).
    destruct (Forall2_lookup_l _ _ _ _ _ Hall Hi) as (chunk & Hc & Hemit).
    exists (length (concat (take i chunks))), chunk.
    assert (Ht' : t' = set_new_idx t (Z.of_nat (length (concat (take i chunks))))).
    { rewrite <- (Hidx i t' Hi). apply forget_new_idx_inj. congruence. }
    destruct (take_drop_concat chunks i chunk rest Hc) as [Htake Hin_buf].
    split; [|split; [|split]].
    + unfold find_new_list_offs, bsearch.
      rewrite (bsearch_spec (old_idx t) (table lines') Hasc _ 0%nat
                 (length (table lines')) eq_refl ltac:(lia)) with (i := i) (a := t').
      * cbn. rewrite (Hidx i t' Hi). reflexivity.
      * intros i' a' Hi' _. apply lookup_lt_Some in Hi'. lia.
      * exact Hi.
      * rewrite Ht'. destruct t; reflexivity.
    + rewrite <- Ht'. exact Hemit.
    + exact Htake.
    + rewrite length_app. lia.
  - intros idx Hidx'. unfold find_new_list_offs, bsearch.
    destruct (bsearch_loop (line_table_cmp idx) (table lines') 0
                (length (table lines'))) as [p|] eqn:Hb; [|reflexivity].
    exfalso. destruct (bsearch_sound idx (table lines') _ _ _ eq_refl p Hb)
      as [Hp Hk].
    apply Hidx'. rewrite <- Hkeys. apply list_elem_of_fmap. exists p.
    split; [congruence|exact Hp].
Qed.

Lemma registered_in e old_buf lines lines' t :
  Forall (registered e old_buf) (table lines) ->
  map forget_new_idx (table lines') ≡ₚ map forget_new_idx (table lines) ->
  t ∈ table lines' -> registered e old_buf t.
Proof.
  intros Hreg Hperm Hin.
  apply (proj1 (registered_forget e old_buf t)).
  assert (Hin' : forget_new_idx t ∈ map forget_new_idx (table lines)).
  { rewrite <- Hperm. apply list_elem_of_fmap. exists t. tauto. }
  apply list_elem_of_fmap in Hin' as (t1 & Heq & Hin1).
  rewrite Heq. apply (proj2 (registered_forget e old_buf t1)).
  apply (proj1 (Forall_forall _ _) Hreg t1 Hin1).
Qed.

Lemma length_memcpy_from cur n : length (memcpy_from cur n) = n.
Proof.
  unfold memcpy_from. rewrite length_take, length_app, length_replicate. lia.
Qed.

Lemma memcpy_from_take cur n :
  (n <= length cur)%nat -> memcpy_from cur n = take n cur.
Proof. intros H. unfold memcpy_from. apply take_app_le. exact H. Qed.

(** X9. A table that is not marked for rewriting is moved, not changed:
    in the section that [edit_dwarf2_line] builds from a registry of phase
    zero, when it has not stored behind the block it allocated, the
    [4 + unit_length] bytes at the table's new offset are the bytes at its
    old offset in the old section, and both ranges lie within their
    sections; the new section has [debug_lines_len] bytes. *)
Theorem edit_dwarf2_line_unmarked (e : ei_data) (cfg : config)
    (fresh : nat -> Z) (old_buf : list Z) (lines lines' : debug_lines) :
  Z.of_nat (length old_buf) < 4294967296 ->
  Forall (registered e old_buf) (table lines) ->
  edit_dwarf2_line e cfg fresh old_buf lines = Done (Some lines') ->
  exists buf,
    line_buf lines' = Some buf
    /\ Z.of_nat (length buf) = debug_lines_len lines
    /\ forall t, t ∈ table lines' ->
         replace_dirs t = false -> replace_files t = false ->
         let n := Z.to_nat (4 + unit_length t) in
         take n (drop (Z.to_nat (new_idx t)) buf)
         = take n (drop (Z.to_nat (old_idx t)) old_buf)
         /\ (Z.to_nat (old_idx t) + n <= length old_buf)%nat
         /\ (Z.to_nat (new_idx t) + n <= length buf)%nat.
Proof.
  intros Hsize Hreg H.
  destruct (edit_dwarf2_line_chunks e cfg fresh old_buf lines lines' H)
    as (chunks & Hbuf & Hblock & Hpos & _ & _ & Hmap & Hall & Hidx).
  assert (Hperm : map forget_new_idx (table lines')
                  ≡ₚ map forget_new_idx (table lines)).
  { rewrite Hmap. apply fmap_Permutation, merge_sort_Permutation. }
  set (rest := drop (length (concat chunks))
                 (malloc fresh (Z.to_nat (debug_lines_len lines)))) in *.
  assert (Hlenb : length (concat chunks ++ rest)
                  = Z.to_nat (debug_lines_len lines)).
  { subst rest. rewrite length_app, length_drop, length_malloc. lia. }
  exists (concat chunks ++ rest). split; [exact Hbuf|].
  split; [rewrite Hlenb; lia|].
  intros t Hin Hd Hf n.
  pose proof (registered_in e old_buf lines lines' t Hreg Hperm Hin)
    as (Hoff & (cu & t0 & Hhdr & Hul & _) & Hsd & _).
  specialize (Hsd Hd Hf).
  destruct (read_header_Fresh e cu old_buf (old_idx t) t0 Hoff Hhdr)
    as (_ & _ & _ & _ & Hul0 & _ & Hfit & _).
  pose proof (do_read_32_range e (drop (Z.to_nat (old_idx t)) old_buf)) as Hr.
  rewrite <- Hul0, <- Hul in Hr. rewrite <- Hul in Hfit.
  apply list_elem_of_lookup in Hin as (i & Hi).
  destruct (Forall2_lookup_l _ _ _ _ _ Hall Hi) as (chunk & Hc & Hemit).
  cbv beta in Hemit. unfold emit_table in Hemit.
  rewrite Hd, Hf, Hsd in Hemit. cbn in Hemit. injection Hemit as Hchunk.
  rewrite (u32_small (unit_length t + 4)) in Hchunk by lia.
  replace (Z.to_nat (unit_length t + 4)) with n in Hchunk by (subst n; lia).
  rewrite memcpy_from_take in Hchunk
    by (unfold cursor; rewrite length_drop; lia).
  unfold cursor in Hchunk.
  assert (Hlen : length chunk = n).
  { rewrite <- Hchunk, length_take, length_drop. lia. }
  destruct (take_drop_concat chunks i chunk rest Hc) as [Htd Hin_buf].
  rewrite (Hidx i t Hi), Nat2Z.id.
  rewrite Hlen in Htd, Hin_buf.
  split; [rewrite Htd; symmetry; exact Hchunk|].
  split; [lia|]. rewrite length_app. lia.
Qed.

End Phase1Facts.

Lemma find_new_list_offs_after_edit_witness :
  exists lines',
    Lines.edit_dwarf2_line ELFDATA2LSB example_cfg (fun _ => 0)
      example_debug_line example_lines = Done (Some lines')
    /\ Phase1.find_new_list_offs lines' 32 = Some 34
    /\ Phase1.find_new_list_offs lines' 5 = None.
Proof.
  destruct (Lines.edit_dwarf2_line ELFDATA2LSB example_cfg (fun _ => 0)
              example_debug_line example_lines) as [[lines'|]|msg] eqn:H;
    try (vm_compute in H; discriminate).
  exists lines'. split; [reflexivity|].
  destruct (find_new_list_offs_after_edit ELFDATA2LSB example_cfg (fun _ => 0)
              example_debug_line example_lines lines' example_lines_NoDup H)
    as (buf & _ & _ & _ & Hnone).
  vm_compute in H. injection H as <-.
  split; [vm_compute; reflexivity|].
  apply Hnone. decide_by_compute.
Defined.

Lemma edit_dwarf2_line_unmarked_witness :
  exists lines' buf,
    Lines.edit_dwarf2_line ELFDATA2LSB example_cfg (fun _ => 0)
      example_debug_line example_lines = Done (Some lines')
    /\ Lines.line_buf lines' = Some buf
    /\ take 27 (drop 34 buf) = take 27 (drop 32 example_debug_line).
Proof.
  destruct (Lines.edit_dwarf2_line ELFDATA2LSB example_cfg (fun _ => 0)
              example_debug_line example_lines) as [[lines'|]|msg] eqn:H;
    try (vm_compute in H; discriminate).
  destruct (edit_dwarf2_line_unmarked ELFDATA2LSB example_cfg (fun _ => 0)
              example_debug_line example_lines lines'
              ltac:(vm_compute; reflexivity) example_lines_registered H)
    as (buf & Hbuf & _ & Hall).
  exists lines', buf. split; [reflexivity|]. split; [exact Hbuf|].
  vm_compute in H. injection H as <-.
  match type of Hbuf with
  | Lines.line_buf ?l = _ =>
      match eval cbv [Lines.table] in (Lines.table l) with
      | [_; ?t] =>
          destruct (Hall t ltac:(right; left) eq_refl eq_refl) as (Ht & _)
      end
  end.
  exact Ht.
Defined.

(** ** What phase zero accounts and what phase one stores *)

Section AccountFacts.

Import Codec Path Lines.

Lemma size_dirs_eq cfg data t ptr :
  size_dirs cfg data t ptr
  = if negb (peek (cursor data ptr) 0 =? 0)
    then
      let dir := cursor data ptr in
      size_dirs cfg data (account cfg dir t true) (ptr + strlen dir + 1)%nat
    else (t, ptr).
Proof.
  funelim (size_dirs cfg data t ptr);
    match goal with E : negb _ = _ |- _ => rewrite E end; reflexivity.
Qed.

Lemma collect_dirs_eq data ptr dirt :
  collect_dirs data ptr dirt
  = if negb (peek (cursor data ptr) 0 =? 0)
    then
      let dir := cursor data ptr in
      collect_dirs data (ptr + strlen dir + 1)%nat (dirt ++ [dir])
    else (dirt, ptr).
Proof.
  funelim (collect_dirs data ptr dirt);
    match goal with E : negb _ = _ |- _ => rewrite E end; reflexivity.
Qed.

Lemma emit_dirs_eq base dest old_buf t optr out :
  emit_dirs base dest old_buf t optr out
  = if negb (peek (cursor old_buf optr) 0 =? 0)
    then
      let dir := cursor old_buf optr in
      let out := out ++ emit_path base dest (replace_dirs t) dir in
      emit_dirs base dest old_buf t (optr + strlen dir + 1)%nat out
    else (out, optr).
Proof.
  funelim (emit_dirs base dest old_buf t optr out);
    match goal with E : negb _ = _ |- _ => rewrite E end; reflexivity.
Qed.

Lemma emit_files_eq base dest old_buf t optr out :
  emit_files base dest old_buf t optr out
  = if negb (peek (cursor old_buf optr) 0 =? 0)
    then
      let file := cursor old_buf optr in
      let out := out ++ emit_path base dest (replace_files t) file in
      let optr := (optr + strlen file + 1)%nat in
      let p0 := cursor old_buf optr in
      let '(dir_idx, p1) := read_uleb128 p0 in
      let out := out ++ write_uleb128 dir_idx in
      let '(time, p2) := read_uleb128 p1 in
      let out := out ++ write_uleb128 time in
      let '(len, p3) := read_uleb128 p2 in
      let out := out ++ write_uleb128 len in
      emit_files base dest old_buf t (optr + (length p0 - length p3))%nat out
    else (out, optr).
Proof.
  funelim (emit_files base dest old_buf t optr out);
    match goal with E : negb _ = _ |- _ => rewrite E end; reflexivity.
Qed.

Lemma size_files_eq cfg data comp_dir dirt t ptr listing :
  size_files cfg data comp_dir dirt t ptr listing
  = if negb (peek (cursor data ptr) 0 =? 0)
    then
      let file := cursor data ptr in
      let ptr := (ptr + strlen file + 1)%nat in
      let p0 := cursor data ptr in
      let '(value, p1) := read_uleb128 p0 in
      match dirt !! Z.to_nat value with
      | None => Done (false, t, listing)
      | Some dir =>
          let t := account cfg file t false in
          let s := source_path comp_dir dir file in
          match canonicalize_path_at (s ++ [0]) 0 0 with
          | None => Exit "canonicalize_path: store outside the buffer"
          | Some m =>
              let s := string_at m 0 in
              let listing := listing ++ list_source cfg s in
              let '(_, p2) := read_uleb128 p1 in
              let '(_, p3) := read_uleb128 p2 in
              size_files cfg data comp_dir dirt t
                (ptr + (length p0 - length p3))%nat listing
          end
      end
    else Done (true, t, listing).
Proof.
  funelim (size_files cfg data comp_dir dirt t ptr listing);
    match goal with E : negb _ = _ |- _ => rewrite E end; reflexivity.
Qed.

(** *** ULEB128 numbers read and written back *)

Lemma read_uleb128_loop_split p :
  Forall (fun b => 0 <= b < 256) p ->
  (exists bs rest, p = bs ++ rest /\ is_uleb128 bs = true)
  \/ (forall ret shift, snd (read_uleb128_loop p ret shift) = []).
Proof.
  induction p as [|c p IH]; intros Hb; [right; reflexivity|].
  apply Forall_cons in Hb as [Hc Hb].
  destruct (Z.ltb_spec c 128) as [Hlt|Hge].
  - left. exists [c], p. split; [reflexivity|]. cbn [is_uleb128].
    apply andb_true_intro. split; [apply Z.leb_le|apply Z.ltb_lt]; lia.
  - destruct (IH Hb) as [(bs & rest & -> & Hu)|Hend].
    + left. exists (c :: bs), rest. split; [reflexivity|].
      rewrite is_uleb128_cons by (apply is_uleb128_nonempty; exact Hu).
      rewrite Hu. apply andb_true_intro. split; [|reflexivity].
      apply andb_true_intro. split; [apply Z.leb_le|apply Z.ltb_lt]; lia.
    + right. intros ret shift. cbn [read_uleb128_loop].
      rewrite land_0x80 by exact Hc.
      destruct (Z.ltb_spec c 128); [lia|]. cbn. apply Hend.
Qed.

Lemma read_uleb128_loop_suffix p : forall ret shift,
  exists pre, p = pre ++ snd (read_uleb128_loop p ret shift).
Proof.
  induction p as [|c p IH]; intros ret shift; [exists []; reflexivity|].
  cbn [read_uleb128_loop].
  destruct (negb (Z.land c 128 =? 0)).
  - destruct (IH (Z.lor ret (u32 (Z.shiftl (Z.land c 127) shift))) (shift + 7))
      as [pre Hpre].
    exists (c :: pre). cbn [app]. f_equal. exact Hpre.
  - exists [c]. reflexivity.
Qed.

Lemma read_uleb128_snd p :
  snd (read_uleb128 p) = snd (read_uleb128_loop p 0 0).
Proof.
  unfold read_uleb128. destruct (read_uleb128_loop p 0 0) as [[r s] q].
  reflexivity.
Qed.

(** A number that was read is written back in no more bytes than it was
    read from, unless the read ran into the end of the buffer. *)
Lemma write_le_read p v p' :
  Forall (fun b => 0 <= b < 256) p ->
  read_uleb128 p = (v, p') ->
  Forall (fun b => 0 <= b < 256) p'
  /\ (length p' <= length p)%nat
  /\ (p' = [] \/ (length (write_uleb128 v) + length p' <= length p)%nat).
Proof.
  intros Hb Hr.
  assert (Hp' : p' = snd (read_uleb128_loop p 0 0)).
  { rewrite <- read_uleb128_snd, Hr. reflexivity. }
  destruct (read_uleb128_loop_suffix p 0 0) as [pre Hpre].
  rewrite <- Hp' in Hpre.
  split; [|split].
  - rewrite Hpre in Hb. apply Forall_app in Hb as [_ ?]. assumption.
  - rewrite Hpre, length_app. lia.
  - destruct (read_uleb128_loop_split p Hb) as [(bs & rest & -> & Hu)|Hend].
    2:{ left. rewrite Hp'. apply Hend. }
    right. rewrite (read_uleb128_encoding bs rest Hu) in Hr.
    injection Hr as <- <-. rewrite length_app.
    pose proof (uleb128_value_bounds bs Hu) as Hv.
    destruct (Nat.leb_spec (length bs) 4) as [Hle|Hgt].
    + assert (Hpow : 2 ^ (7 * Z.of_nat (length bs)) <= 2 ^ 28).
      { apply Z.pow_le_mono_r; lia. }
      unfold write_uleb128. rewrite u32_small by lia.
      pose proof (write_uleb128_loop_shortest (uleb128_value bs) bs
                    ltac:(lia) Hu eq_refl). lia.
    + pose proof (length_write_uleb128 UINT_MAX). lia.
Qed.

Lemma read_uleb128_nil : read_uleb128 [] = (0, []).
Proof. reflexivity. Qed.

Lemma files_slack_eq data ptr :
  files_slack data ptr
  = if negb (peek (cursor data ptr) 0 =? 0)
    then
      let file := cursor data ptr in
      let optr := (ptr + strlen file + 1)%nat in
      let p0 := cursor data optr in
      let p1 := snd (read_uleb128 p0) in
      let p2 := snd (read_uleb128 p1) in
      let p3 := snd (read_uleb128 p2) in
      uleb128_slack p0 + uleb128_slack p1 + uleb128_slack p2
      + files_slack data (optr + (length p0 - length p3))%nat
    else 0.
Proof.
  funelim (files_slack data ptr);
    match goal with E : negb _ = _ |- _ => rewrite E end; reflexivity.
Qed.

(** The bytes saved on the triple of a file entry. *)
Lemma slack_read_triple p0 v1 p1 v2 p2 v3 p3 :
  Forall (fun b => 0 <= b < 256) p0 ->
  read_uleb128 p0 = (v1, p1) ->
  read_uleb128 p1 = (v2, p2) ->
  read_uleb128 p2 = (v3, p3) ->
  (length p3 <= length p0)%nat
  /\ (p3 = []
      \/ (0 <= uleb128_slack p0 + uleb128_slack p1 + uleb128_slack p2
          /\ Z.of_nat (length (write_uleb128 v1))
             + Z.of_nat (length (write_uleb128 v2))
             + Z.of_nat (length (write_uleb128 v3))
             = Z.of_nat (length p0 - length p3)
               - (uleb128_slack p0 + uleb128_slack p1 + uleb128_slack p2))).
Proof.
  intros Hb H1 H2 H3.
  destruct (write_le_read p0 v1 p1 Hb H1) as (Hb1 & Hl1 & Hw1).
  destruct (write_le_read p1 v2 p2 Hb1 H2) as (Hb2 & Hl2 & Hw2).
  destruct (write_le_read p2 v3 p3 Hb2 H3) as (Hb3 & Hl3 & Hw3).
  split; [lia|].
  destruct Hw3 as [->|Hw3]; [left; reflexivity|].
  destruct Hw2 as [->|Hw2].
  { left. rewrite read_uleb128_nil in H3. congruence. }
  destruct Hw1 as [->|Hw1].
  { left. rewrite read_uleb128_nil in H2. injection H2 as _ <-.
    rewrite read_uleb128_nil in H3. congruence. }
  right. unfold uleb128_slack. rewrite H1, H2, H3. lia.
Qed.

(** *** One path: what phase zero accounts and what is stored *)

Lemma length_emit_path_copy base dest path :
  length (emit_path base dest false path) = (strlen path + 1)%nat.
Proof. unfold emit_path. apply length_memcpy_from. Qed.

Lemma account_marks cfg path t dirs :
  let t' := account cfg path t dirs in
  same_header t t'
  /\ opcode_base t' = opcode_base t
  /\ (if dirs then replace_files t' = replace_files t
      else replace_dirs t' = replace_dirs t)
  /\ ((if dirs then replace_dirs t else replace_files t) = true ->
      (if dirs then replace_dirs t' else replace_files t') = true)
  /\ ((if dirs then replace_dirs t' else replace_files t') = false -> t' = t)
  /\ (base_dir cfg = None \/ dest_dir cfg = None -> t' = t).
Proof.
  cbv zeta. unfold account.
  destruct (base_dir cfg) as [base|];
    [|repeat split; try tauto; destruct dirs; tauto].
  destruct (dest_dir cfg) as [dest|];
    [|repeat split; try tauto; destruct dirs; tauto].
  destruct (skip_dir_prefix path base) as [fp|];
    [|repeat split; try tauto; destruct dirs; tauto].
  cbn [replace_dirs replace_files opcode_base].
  split; [repeat split|]. split; [reflexivity|].
  destruct dirs; repeat split; try discriminate; try tauto;
    intros [?|?]; discriminate.
Qed.

Lemma length_emit_path cfg base dest path t dirs :
  base_dir cfg = Some base -> dest_dir cfg = Some dest ->
  Z.of_nat (length (emit_path base dest true path))
  = Z.of_nat (strlen path) + 1
    + (size_diff (account cfg path t dirs) - size_diff t).
Proof.
  intros Hb Hd. unfold emit_path, account. rewrite Hb, Hd.
  destruct (skip_dir_prefix path base) as [fp|].
  - cbn [size_diff]. unfold replacement, Strings.new_name.
    rewrite !length_app, length_take. cbn [length].
    pose proof (strlen_le dest).
    destruct (Nat.ltb_spec 0 (strlen fp)) as [Hpos|Hz].
    + destruct (Z.ltb_spec 0 (Z.of_nat (strlen fp))); [|lia].
      cbn [length]. rewrite length_c_str. lia.
    + destruct (Z.ltb_spec 0 (Z.of_nat (strlen fp))); [lia|].
      cbn [length]. lia.
  - rewrite length_memcpy_from. lia.
Qed.

(** *** The two passes over the directory table *)

Lemma peek_cursor_lt data ptr :
  negb (peek (cursor data ptr) 0 =? 0) = true -> (ptr < length data)%nat.
Proof.
  unfold peek, cursor. intros H.
  destruct (drop ptr data !! 0%nat) eqn:Hl; [|discriminate].
  apply lookup_lt_Some in Hl. rewrite length_drop in Hl. lia.
Qed.

Lemma size_dirs_marks cfg data : forall n t ptr,
  (length data - ptr = n)%nat ->
  let r := size_dirs cfg data t ptr in
  same_header t (fst r) /\ opcode_base (fst r) = opcode_base t
  /\ replace_files (fst r) = replace_files t
  /\ (replace_dirs t = true -> replace_dirs (fst r) = true)
  /\ (replace_dirs (fst r) = false -> fst r = t)
  /\ (base_dir cfg = None \/ dest_dir cfg = None -> fst r = t)
  /\ (ptr <= snd r)%nat.
Proof.
  intros n. induction n as [n IH] using lt_wf_ind. intros t ptr Hn.
  cbv zeta. rewrite size_dirs_eq.
  destruct (negb (peek (cursor data ptr) 0 =? 0)) eqn:E.
  - cbv zeta. pose proof (peek_cursor_lt data ptr E) as Hlt.
    set (dir := cursor data ptr) in *.
    destruct (account_marks cfg dir t true) as (Hs0 & Ho0 & Hf0 & Hm0 & Hu0 & Hn0).
    destruct (IH (length data - (ptr + strlen dir + 1))%nat ltac:(lia)
                (account cfg dir t true) (ptr + strlen dir + 1)%nat eq_refl)
      as (Hs & Ho & Hf & Hm & Hu & Hn' & Hp).
    split; [eapply same_header_trans; eassumption|].
    split; [congruence|]. split; [congruence|].
    split; [tauto|]. split.
    + intros Hfalse. rewrite (Hu Hfalse). apply Hu0.
      rewrite <- (Hu Hfalse). exact Hfalse.
    + split; [|lia]. intros Hnone. rewrite (Hn' Hnone). apply Hn0, Hnone.
  - cbn [fst snd]. split; [apply same_header_refl|].
    repeat split; try tauto; lia.
Qed.

Lemma collect_dirs_ptr cfg data : forall n t ptr dirt,
  (length data - ptr = n)%nat ->
  snd (collect_dirs data ptr dirt) = snd (size_dirs cfg data t ptr).
Proof.
  intros n. induction n as [n IH] using lt_wf_ind. intros t ptr dirt Hn.
  rewrite size_dirs_eq, collect_dirs_eq.
  destruct (negb (peek (cursor data ptr) 0 =? 0)) eqn:E; [|reflexivity].
  cbv zeta. pose proof (peek_cursor_lt data ptr E) as Hlt.
  apply (IH (length data - (ptr + strlen (cursor data ptr) + 1))%nat);
    [lia|reflexivity].
Qed.

Lemma dirs_walk cfg base dest data T :
  base_dir cfg = Some base -> dest_dir cfg = Some dest ->
  forall n t ptr out, (length data - ptr = n)%nat ->
    let r := size_dirs cfg data t ptr in
    let w := emit_dirs base dest data T ptr out in
    snd w = snd r
    /\ (replace_dirs T = true ->
        Z.of_nat (length (fst w))
        = Z.of_nat (length out) + Z.of_nat (snd r - ptr)
          + (size_diff (fst r) - size_diff t))
    /\ (replace_dirs T = false ->
        Z.of_nat (length (fst w))
        = Z.of_nat (length out) + Z.of_nat (snd r - ptr)).
Proof.
  intros Hb Hd n. induction n as [n IH] using lt_wf_ind. intros t ptr out Hn.
  cbv zeta. rewrite size_dirs_eq, emit_dirs_eq.
  destruct (negb (peek (cursor data ptr) 0 =? 0)) eqn:E.
  - cbv zeta. pose proof (peek_cursor_lt data ptr E) as Hlt.
    set (dir := cursor data ptr) in *.
    pose proof (size_dirs_marks cfg data _ (account cfg dir t true)
                  (ptr + strlen dir + 1)%nat eq_refl)
      as (_ & _ & _ & _ & _ & _ & Hp).
    destruct (IH (length data - (ptr + strlen dir + 1))%nat ltac:(lia)
                (account cfg dir t true) (ptr + strlen dir + 1)%nat
                (out ++ emit_path base dest (replace_dirs T) dir) eq_refl)
      as (Hsnd & Ht & Hf).
    cbv zeta in Hp.
    split; [exact Hsnd|]. split.
    + intros HT. rewrite (Ht HT), HT, length_app.
      pose proof (length_emit_path cfg base dest dir t true Hb Hd). lia.
    + intros HT. rewrite (Hf HT), HT, length_app, length_emit_path_copy. lia.
  - cbn [fst snd]. split; [reflexivity|]. split; intros _; lia.
Qed.

(** *** The two passes over the file table *)

Lemma size_files_marks cfg data comp_dir dirt : forall n t ptr listing ok t' listing',
  (length data - ptr = n)%nat ->
  size_files cfg data comp_dir dirt t ptr listing = Done (ok, t', listing') ->
  same_header t t' /\ opcode_base t' = opcode_base t
  /\ replace_dirs t' = replace_dirs t
  /\ (replace_files t' = false -> t' = t)
  /\ (base_dir cfg = None \/ dest_dir cfg = None -> t' = t).
Proof.
  intros n. induction n as [n IH] using lt_wf_ind.
  intros t ptr listing ok t' listing' Hn H.
  rewrite size_files_eq in H.
  destruct (negb (peek (cursor data ptr) 0 =? 0)) eqn:E.
  - cbv zeta in H. pose proof (peek_cursor_lt data ptr E) as Hlt.
    set (file := cursor data ptr) in *.
    set (ptr' := (ptr + strlen file + 1)%nat) in *.
    destruct (read_uleb128 (cursor data ptr')) as [v1 p1] eqn:E1.
    destruct (dirt !! Z.to_nat v1) as [dir|].
    2:{ injection H as _ <- _. split; [apply same_header_refl|].
        repeat split; tauto. }
    destruct (canonicalize_path_at _ 0 0) as [m|]; [|discriminate].
    destruct (read_uleb128 p1) as [v2 p2] eqn:E2.
    destruct (read_uleb128 p2) as [v3 p3] eqn:E3.
    destruct (account_marks cfg file t false) as (Hs0 & Ho0 & Hf0 & Hm0 & Hu0 & Hn0).
    apply IH with (m := (length data
                         - (ptr' + (length (cursor data ptr') - length p3)))%nat)
      in H; [|subst ptr'; lia|reflexivity].
    destruct H as (Hs & Ho & Hd & Hu & Hn').
    split; [eapply same_header_trans; eassumption|].
    split; [congruence|]. split; [congruence|]. split.
    + intros Hfalse. rewrite (Hu Hfalse). apply Hu0.
      rewrite <- (Hu Hfalse). exact Hfalse.
    + intros Hnone. rewrite (Hn' Hnone). apply Hn0, Hnone.
  - injection H as _ <- _. split; [apply same_header_refl|].
    repeat split; tauto.
Qed.

Lemma files_walk cfg base dest data T comp_dir dirt :
  base_dir cfg = Some base -> dest_dir cfg = Some dest ->
  Forall (fun b => 0 <= b < 256) data ->
  replace_files T = true ->
  forall n t ptr listing out t' listing', (length data - ptr = n)%nat ->
    size_files cfg data comp_dir dirt t ptr listing = Done (true, t', listing') ->
    let w := emit_files base dest data T ptr out in
    (ptr <= snd w)%nat
    /\ ((length data <= snd w)%nat
        \/ (0 <= files_slack data ptr
            /\ Z.of_nat (length (fst w))
               = Z.of_nat (length out) + Z.of_nat (snd w - ptr)
                 + (size_diff t' - size_diff t) - files_slack data ptr)).
Proof.
  intros Hb Hd Hbytes HT n. induction n as [n IH] using lt_wf_ind.
  intros t ptr listing out t' listing' Hn H.
  cbv zeta. rewrite size_files_eq in H. rewrite emit_files_eq.
  rewrite files_slack_eq.
  destruct (negb (peek (cursor data ptr) 0 =? 0)) eqn:E.
  - cbv zeta in H. cbv zeta. pose proof (peek_cursor_lt data ptr E) as Hlt.
    set (file := cursor data ptr) in *.
    set (ptr' := (ptr + strlen file + 1)%nat) in *.
    assert (Hb0 : Forall (fun b => 0 <= b < 256) (cursor data ptr'))
      by (apply Forall_drop; exact Hbytes).
    destruct (read_uleb128 (cursor data ptr')) as [v1 p1] eqn:E1.
    cbn [snd].
    destruct (dirt !! Z.to_nat v1) as [dir|]; [|discriminate].
    destruct (canonicalize_path_at _ 0 0) as [m|]; [|discriminate].
    destruct (read_uleb128 p1) as [v2 p2] eqn:E2.
    cbn [snd].
    destruct (read_uleb128 p2) as [v3 p3] eqn:E3.
    cbn [snd].
    destruct (slack_read_triple _ _ _ _ _ _ _ Hb0 E1 E2 E3) as [Hle Hw].
    set (next := (ptr' + (length (cursor data ptr') - length p3))%nat) in *.
    match goal with
    | |- context [emit_files _ _ _ _ _ ?o] => set (out' := o)
    end.
    destruct (IH (length data - next)%nat ltac:(subst next ptr'; lia)
                (account cfg file t false) next _ out' t' listing' eq_refl H)
      as (Hnext & Hrest).
    assert (Hlen0 : length (cursor data ptr') = (length data - ptr')%nat)
      by (unfold cursor; apply length_drop).
    split; [subst next ptr'; lia|].
    destruct Hw as [Hnil|[Hpos Hw]].
    { left. subst p3. cbn [length] in *. subst next. lia. }
    destruct Hrest as [Hend|[Hpos' Hrest]]; [left; exact Hend|]. right.
    pose proof (length_emit_path cfg base dest file t false Hb Hd) as Hpath.
    assert (Hout' : length out'
                    = (length out + length (emit_path base dest true file)
                       + length (write_uleb128 v1) + length (write_uleb128 v2)
                       + length (write_uleb128 v3))%nat).
    { subst out'. rewrite HT, !length_app. lia. }
    split; [lia|]. subst next ptr'. lia.
  - cbn [fst snd]. injection H as <- _. split; [lia|]. right. lia.
Qed.

Lemma length_emit_header e t :
  length (emit_header e t)
  = (15 + (if (4 <=? version t)%Z then 1 else 0))%nat.
Proof.
  unfold emit_header. rewrite !length_app, !length_do_write_32, length_do_write_16.
  destruct (4 <=? version t); reflexivity.
Qed.

Lemma emit_table_unmarked e base dest data t i chunk :
  replace_dirs t = false -> replace_files t = false ->
  emit_table e base dest data (set_new_idx t i) = Done chunk ->
  size_diff t = 0
  /\ length chunk = Z.to_nat (u32 (unit_length t + 4)).
Proof.
  intros Hd Hf H. unfold emit_table in H.
  cbn [set_new_idx replace_dirs replace_files size_diff unit_length old_idx] in H.
  rewrite Hd, Hf in H. cbn [negb andb] in H.
  destruct (Z.eqb_spec (size_diff t) 0) as [Hz|]; [|discriminate].
  cbn [negb] in H. injection H as <-.
  split; [exact Hz|apply length_memcpy_from].
Qed.

(** What phase one stores for a table that phase zero has counted. *)
Lemma emit_table_length e cfg data off cu comp_dir listing listing' t0 t i
    chunk :
  Forall (fun b => 0 <= b < 256) data ->
  Z.of_nat (length data) < 4294967296 ->
  0 <= off ->
  read_header e cu data off = Done (Fresh t0) ->
  (if version t0 <? 5
   then read_dwarf4_line cfg data (Z.to_nat (off + header_size t0)) comp_dir
          t0 listing
   else Done (true, t0, listing)) = Done (true, t, listing') ->
  emit_table e (default [] (base_dir cfg)) (default [] (dest_dir cfg)) data
    (set_new_idx t i) = Done chunk ->
  0 <= reencoding_slack data t
  /\ Z.of_nat (length chunk)
     = 4 + unit_length t + size_diff t - reencoding_slack data t.
Proof.
  intros Hbytes Hsize Hoff Hh Hread Hemit.
  destruct (read_header_Fresh e cu data off t0 Hoff Hh)
    as (Hold & Hsd0 & Hd0 & Hf0 & Hul0 & _ & Hfit & _).
  pose proof (do_read_32_range e (drop (Z.to_nat off) data)) as Hr.
  rewrite <- Hul0 in Hr.
  assert (Hcopy : t = t0 ->
            0 <= reencoding_slack data t
            /\ Z.of_nat (length chunk)
               = 4 + unit_length t + size_diff t - reencoding_slack data t).
  { intros ->.
    destruct (emit_table_unmarked e _ _ data t0 i chunk Hd0 Hf0 Hemit)
      as [Hz Hlen].
    unfold reencoding_slack. rewrite Hf0.
    rewrite Hlen, u32_small by lia. lia. }
  destruct (version t0 <? 5) eqn:Ev.
  2:{ injection Hread as <- _. exact (Hcopy eq_refl). }
  apply Z.ltb_lt in Ev.
  unfold read_dwarf4_line in Hread.
  set (ptr0 := Z.to_nat (off + header_size t0)) in *.
  pose proof (size_dirs_marks cfg data _ t0 ptr0 eq_refl) as Hm1.
  pose proof (collect_dirs_ptr cfg data _ t0 ptr0 [[DOT]] eq_refl) as Hcp.
  cbv zeta in Hm1.
  destruct (size_dirs cfg data t0 ptr0) as [t1 q1] eqn:Esd.
  destruct (collect_dirs data ptr0 [[DOT]]) as [dirt ptr1] eqn:Ecd.
  cbn [fst snd] in Hm1, Hcp. subst q1.
  destruct Hm1 as (Hs1 & Ho1 & Hrf1 & _ & Hu1 & Hn1 & Hp1).
  destruct (size_files_marks cfg data comp_dir dirt _ t1 (ptr1 + 1)%nat listing
              true t listing' eq_refl Hread) as (Hs2 & Ho2 & Hrd2 & Hu2 & Hn2).
  destruct (base_dir cfg) as [base|] eqn:Hb.
  2:{ assert (t = t0) as ->.
      { rewrite (Hn2 ltac:(left; reflexivity)).
        apply Hn1. left; reflexivity. }
      exact (Hcopy eq_refl). }
  destruct (dest_dir cfg) as [dest|] eqn:Hd.
  2:{ assert (t = t0) as ->.
      { rewrite (Hn2 ltac:(right; reflexivity)).
        apply Hn1. right; reflexivity. }
      exact (Hcopy eq_refl). }
  change (default [] (Some base)) with base in Hemit.
  change (default [] (Some dest)) with dest in Hemit.
  destruct (negb (replace_dirs t) && negb (replace_files t)) eqn:Hflags.
  { apply andb_prop in Hflags as [Hx Hy]. apply negb_true_iff in Hx, Hy.
    assert (t = t0) as ->.
    { rewrite (Hu2 Hy) in *. apply Hu1. congruence. }
    exact (Hcopy eq_refl). }
  destruct Hs1 as (Hoi1 & Hul1 & Hv1 & _). destruct Hs2 as (Hoi2 & Hul2 & Hv2 & _).
  set (T := set_new_idx t i) in *.
  assert (HTd : replace_dirs T = replace_dirs t) by reflexivity.
  assert (HTf : replace_files T = replace_files t) by reflexivity.
  unfold emit_table in Hemit.
  rewrite HTd, HTf, Hflags in Hemit.
  change (opcode_base T) with (opcode_base t) in Hemit.
  change (version T) with (version t) in Hemit.
  change (old_idx T) with (old_idx t) in Hemit.
  change (unit_length T) with (unit_length t) in Hemit.
  destruct (Z.ltb_spec (opcode_base t - 1) 0) as [|Hop]; [discriminate|].
  assert (Hptr0 : (Z.to_nat (old_idx t)
                   + (4 + 2 + 4 + 1 + (if (4 <=? version t)%Z then 1 else 0)
                      + 1 + 1 + 1 + 1) + Z.to_nat (opcode_base t - 1))%nat
                  = ptr0).
  { subst ptr0. unfold header_size.
    rewrite Hoi2, Hoi1, Hold, Hv2, Hv1, Ho2, Ho1.
    destruct (Z.ltb_spec (version t0) 5); [|lia].
    destruct (4 <=? version t0); lia. }
  assert (Hat : file_table_at data t = (ptr1 + 1)%nat).
  { unfold file_table_at.
    replace (Z.to_nat (old_idx t + header_size t)) with ptr0.
    - rewrite Ecd. reflexivity.
    - subst ptr0. unfold header_size.
      rewrite Hoi2, Hoi1, Hold, Hv2, Hv1, Ho2, Ho1. reflexivity. }
  rewrite Hptr0 in Hemit.
  match type of Hemit with
  | context [emit_dirs _ _ _ _ _ ?o] => set (out0 := o) in *
  end.
  assert (Hout0 : Z.of_nat (length out0) = Z.of_nat ptr0 - off).
  { subst out0. rewrite length_app, length_emit_header, length_memcpy_from.
    rewrite <- Hptr0. rewrite Hoi2, Hoi1, Hold.
    change (version T) with (version t).
    destruct (4 <=? version t); lia. }
  pose proof (dirs_walk cfg base dest data T Hb Hd _ t0 ptr0 out0 eq_refl)
    as Hdw.
  cbv zeta in Hdw. rewrite Esd in Hdw. cbn [fst snd] in Hdw.
  destruct (emit_dirs base dest data T ptr0 out0) as [out1 optr1].
  cbn [fst snd] in Hdw. destruct Hdw as (-> & Hlen_t & Hlen_f).
  assert (Hout1 : Z.of_nat (length out1)
                  = Z.of_nat ptr1 - off + size_diff t1).
  { destruct (replace_dirs t) eqn:Hrd.
    - rewrite (Hlen_t HTd). lia.
    - rewrite (Hlen_f HTd).
      rewrite (Hu1 ltac:(congruence)). lia. }
  rewrite u32_small in Hemit by lia.
  unfold reencoding_slack. rewrite Hat.
  destruct (replace_files t) eqn:Hrf.
  - pose proof (files_walk cfg base dest data T comp_dir dirt Hb Hd Hbytes HTf
                  _ t1 (ptr1 + 1)%nat listing (out1 ++ [0]) t listing'
                  eq_refl Hread) as Hfw.
    cbv zeta in Hfw.
    destruct (emit_files base dest data T (ptr1 + 1) (out1 ++ [0]))
      as [out2 optr2].
    cbn [fst snd] in Hfw. destruct Hfw as [Hle Hfw].
    match type of Hemit with
    | (if ?a <? ?b then _ else _) = _ => destruct (Z.ltb_spec a b) as [|Hrem]
    end; [discriminate|].
    injection Hemit as <-.
    rewrite !length_app, length_memcpy_from. cbn [length].
    rewrite length_app in Hfw. cbn [length] in Hfw.
    destruct Hfw as [Hend|[Hpos Hfw]]; [lia|].
    split; [exact Hpos|]. lia.
  - match type of Hemit with
    | (if ?a <? ?b then _ else _) = _ => destruct (Z.ltb_spec a b) as [|Hrem]
    end; [discriminate|].
    injection Hemit as <-.
    rewrite !length_app, length_memcpy_from. cbn [length].
    rewrite (Hu2 eq_refl) in *.
    assert (Z.of_nat (length out1) + 1
            + (unit_length t1 + 4 - (Z.of_nat (ptr1 + 1) - old_idx t1))
            = 4 + unit_length t1 + size_diff t1) by lia.
    lia.
Qed.

(** X10. Phase one stores for a table no more than phase zero counted:
    when [get_line_table] has read the header at [off] and
    [read_dwarf2_line] has gone through the table ([read_dwarf4_line] for a
    version below 5), the bytes that [edit_dwarf2_line] stores for the
    table are at most the [4 + unit_length + size_diff] that was added to
    [debug_lines_len], and exactly as many when the file table is not
    rewritten.  (Rewriting the file table writes every ULEB128 number
    anew, which may take fewer bytes than the number was read from.) *)
Theorem emit_table_accounted (e : ei_data) (cfg : config) (data : list Z)
    (off : Z) (cu : Info.CU) (comp_dir : option (list Z))
    (listing listing' : list Z) (t0 t : line_table) (i : Z)
    (chunk : list Z) :
  Forall (fun b => 0 <= b < 256) data ->
  Z.of_nat (length data) < 4294967296 ->
  0 <= off ->
  read_header e cu data off = Done (Fresh t0) ->
  (if version t0 <? 5
   then read_dwarf4_line cfg data (Z.to_nat (off + header_size t0)) comp_dir
          t0 listing
   else Done (true, t0, listing)) = Done (true, t, listing') ->
  emit_table e (default [] (base_dir cfg)) (default [] (dest_dir cfg)) data
    (set_new_idx t i) = Done chunk ->
  Z.of_nat (length chunk) <= 4 + unit_length t + size_diff t
  /\ (replace_files t = false ->
      Z.of_nat (length chunk) = 4 + unit_length t + size_diff t).
Proof.
  intros Hbytes Hsize Hoff Hh Hread Hemit.
  destruct (emit_table_length e cfg data off cu comp_dir listing listing' t0 t
              i chunk Hbytes Hsize Hoff Hh Hread Hemit) as [Hpos Hlen].
  split; [lia|].
  intros Hf. unfold reencoding_slack in Hlen. rewrite Hf in Hlen. lia.
Qed.

End AccountFacts.

Lemma emit_table_accounted_witness :
  match Lines.read_header ELFDATA2LSB example_cu example_debug_line 0 with
  | Done (Lines.Fresh t0) =>
      match Lines.read_dwarf4_line example_cfg example_debug_line
              (Z.to_nat (0 + Lines.header_size t0)) None t0 [] with
      | Done (true, t, _) =>
          match Lines.emit_table ELFDATA2LSB (bytes_of_string "/b")
                  (bytes_of_string "/usr") example_debug_line
                  (Lines.set_new_idx t 0) with
          | Done chunk =>
              Lines.size_diff t = 2
              /\ Z.of_nat (length chunk)
                 = 4 + Lines.unit_length t + Lines.size_diff t
          | Exit _ => False
          end
      | _ => False
      end
  | _ => False
  end.
Proof.
  destruct (Lines.read_header ELFDATA2LSB example_cu example_debug_line 0)
    as [[k|t0|msg]|msg] eqn:H0; try (vm_compute in H0; discriminate).
  destruct (Lines.read_dwarf4_line example_cfg example_debug_line
              (Z.to_nat (0 + Lines.header_size t0)) None t0 [])
    as [[[[|] t] l]|msg] eqn:H1;
    try (vm_compute in H0; injection H0 as <-; vm_compute in H1; discriminate).
  destruct (Lines.emit_table ELFDATA2LSB (bytes_of_string "/b")
              (bytes_of_string "/usr") example_debug_line
              (Lines.set_new_idx t 0)) as [chunk|msg] eqn:H2;
    try (vm_compute in H0; injection H0 as <-; vm_compute in H1;
         injection H1 as <- <-; vm_compute in H2; discriminate).
  assert (Hv : (Lines.version t0 <? 5) = true).
  { vm_compute in H0. injection H0 as <-. reflexivity. }
  pose proof (emit_table_accounted ELFDATA2LSB example_cfg example_debug_line
                0 example_cu None [] l t0 t 0 chunk
                ltac:(decide_by_compute) ltac:(vm_compute; reflexivity)
                ltac:(lia) H0) as Hacc.
  rewrite Hv in Hacc. specialize (Hacc H1 H2) as [_ Heq].
  assert (Ht : Lines.size_diff t = 2 /\ Lines.replace_files t = false).
  { vm_compute in H0. injection H0 as <-. vm_compute in H1.
    injection H1 as <- <-. split; reflexivity. }
  split; [apply Ht|apply Heq, Ht].
Defined.

(** ** The section that [edit_dwarf2_line] builds *)

Section RebuildFacts.

Import Codec Path Lines Phase1.

Lemma accounted_len_cons t ts :
  accounted_len (t :: ts)
  = 4 + unit_length t + size_diff t + accounted_len ts.
Proof. reflexivity. Qed.

Lemma accounted_len_app ts ts' :
  accounted_len (ts ++ ts') = accounted_len ts + accounted_len ts'.
Proof.
  induction ts as [|t ts IH]; [reflexivity|].
  rewrite <- app_comm_cons, !accounted_len_cons, IH. lia.
Qed.

Lemma accounted_len_Permutation ts ts' :
  ts ≡ₚ ts' -> accounted_len ts = accounted_len ts'.
Proof.
  induction 1; rewrite ?accounted_len_cons; lia.
Qed.

(** A table that was counted is a registered one. *)
Lemma accounted_registered e cfg data t :
  accounted e cfg data t -> registered e data t.
Proof.
  intros (cu & comp_dir & listing & listing' & t0 & Hoff & Hh & Hrun).
  set (empty := {| table := []; debug_lines_len := 0; line_buf := None |}).
  assert (H : read_dwarf2_line e cfg data empty (old_idx t) comp_dir cu listing
              = Done (replace_dirs t || replace_files t,
                      {| table := [t];
                         debug_lines_len := 0 + (4 + unit_length t + size_diff t);
                         line_buf := None |}, listing')).
  { unfold read_dwarf2_line, get_line_table. cbn [table find_table empty].
    rewrite Hh. cbn [mbind outcome_bind]. rewrite Hrun.
    cbn [mbind outcome_bind]. reflexivity. }
  pose proof (read_dwarf2_line_registered e cfg data empty (old_idx t) comp_dir
                cu listing _ _ _ Hoff ltac:(constructor) H) as Hreg.
  cbn [table] in Hreg. apply Forall_cons in Hreg as [Hreg _]. exact Hreg.
Qed.

(** What [read_dwarf2_line] makes of a registry in which every table was
    counted: it stays one, but for the table whose file table has a wrong
    directory index, which is registered and not counted. *)
Lemma read_dwarf2_line_phase_zero e cfg data lines off comp_dir cu listing
    marked lines' listing' :
  0 <= off ->
  phase_zero e cfg data lines ->
  read_dwarf2_line e cfg data lines off comp_dir cu listing
  = Done (marked, lines', listing') ->
  phase_zero e cfg data lines'
  \/ (exists t, table lines' = table lines ++ [t]
                /\ debug_lines_len lines' = debug_lines_len lines
                /\ marked = false).
Proof.
  intros Hoff (Hnd & Hall & Hlen) H.
  unfold read_dwarf2_line, get_line_table in H.
  destruct (find_table (table lines) off 0) eqn:Hfind.
  { cbn in H. injection H as _ <- _. left. repeat split; assumption. }
  apply find_table_None in Hfind.
  destruct (read_header e cu data off) as [[i|t0|msg]|] eqn:Hh;
    cbn [mbind outcome_bind] in H; try discriminate;
    try (injection H as _ <- _; left; repeat split; assumption).
  destruct (if version t0 <? 5
            then read_dwarf4_line cfg data (Z.to_nat (off + header_size t0))
                   comp_dir t0 listing
            else Done (true, t0, listing)) as [[[ok t] l]|] eqn:Hrun;
    [|discriminate].
  cbn [mbind outcome_bind] in H.
  destruct ok; injection H as <- <- <-.
  2:{ right. exists t. cbn [table debug_lines_len]. auto. }
  left.
  assert (Hacc : old_idx t = off /\ accounted e cfg data t).
  { assert (Hold : old_idx t = off).
    { set (empty := {| table := []; debug_lines_len := 0; line_buf := None |}).
      destruct (read_header_Fresh e cu data off t0 Hoff Hh) as (Ho & _).
      destruct (version t0 <? 5) eqn:Ev.
      - unfold read_dwarf4_line in Hrun.
        pose proof (size_dirs_same_header cfg data t0
                      (Z.to_nat (off + header_size t0))) as [Hs1 _].
        destruct (size_dirs cfg data t0 _) as [t1 ptr1]. cbn [fst] in Hs1.
        destruct (collect_dirs data _ _) as [dirt ptr2].
        destruct (size_files_same_header _ _ _ _ _ _ _ _ _ _ Hrun) as [Hs2 _].
        destruct Hs1 as (Ho1 & _). destruct Hs2 as (Ho2 & _). congruence.
      - injection Hrun as <- _. exact Ho. }
    split; [exact Hold|].
    exists cu, comp_dir, listing, l, t0. rewrite Hold.
    split; [exact Hoff|]. split; [exact Hh|exact Hrun]. }
  destruct Hacc as [Hold Hacc].
  unfold phase_zero. cbn [table debug_lines_len]. split; [|split].
  - rewrite map_app. apply NoDup_app. split; [exact Hnd|].
    split; [|cbn; apply NoDup_singleton].
    intros x Hx Hx'. cbn in Hx'. apply list_elem_of_singleton in Hx'.
    subst x. rewrite Hold in Hx. contradiction.
  - apply Forall_app. split; [exact Hall|]. constructor; [exact Hacc|constructor].
  - rewrite accounted_len_app, Hlen. cbn [accounted_len foldr]. lia.
Qed.

(** An unmarked table is copied. *)
Lemma emit_table_verbatim e base dest old_buf t chunk :
  Z.of_nat (length old_buf) < 4294967296 ->
  registered e old_buf t ->
  replace_dirs t = false -> replace_files t = false ->
  emit_table e base dest old_buf t = Done chunk ->
  size_diff t = 0
  /\ chunk = take (Z.to_nat (4 + unit_length t))
               (drop (Z.to_nat (old_idx t)) old_buf).
Proof.
  intros Hsize (Hoff & (cu & t0 & Hhdr & Hul & _) & Hsd & _) Hd Hf Hemit.
  specialize (Hsd Hd Hf). split; [exact Hsd|].
  destruct (read_header_Fresh e cu old_buf (old_idx t) t0 Hoff Hhdr)
    as (_ & _ & _ & _ & Hul0 & _ & Hfit & _).
  pose proof (do_read_32_range e (drop (Z.to_nat (old_idx t)) old_buf)) as Hr.
  rewrite <- Hul0, <- Hul in Hr. rewrite <- Hul in Hfit.
  unfold emit_table in Hemit.
  rewrite Hd, Hf, Hsd in Hemit. cbn in Hemit. injection Hemit as Hchunk.
  rewrite (u32_small (unit_length t + 4)) in Hchunk by lia.
  replace (Z.to_nat (unit_length t + 4)) with (Z.to_nat (4 + unit_length t))
    in Hchunk by lia.
  rewrite memcpy_from_take in Hchunk
    by (unfold cursor; rewrite length_drop; lia).
  symmetry. exact Hchunk.
Qed.

(** What the loop stores for a table that phase zero has counted. *)
Lemma emit_table_counted e cfg old_buf t i chunk :
  Forall (fun b => 0 <= b < 256) old_buf ->
  Z.of_nat (length old_buf) < 4294967296 ->
  accounted e cfg old_buf t ->
  emit_table e (default [] (base_dir cfg)) (default [] (dest_dir cfg)) old_buf
    (set_new_idx t i) = Done chunk ->
  0 <= reencoding_slack old_buf t
  /\ Z.of_nat (length chunk)
     = 4 + unit_length t + size_diff t - reencoding_slack old_buf t
  /\ do_read_32 e chunk = u32 (unit_length t + size_diff t)
  /\ do_read_32 e (drop (header_length_at t) chunk)
     = u32 (header_length t + size_diff t)
  /\ (replace_dirs t = false -> replace_files t = false ->
      size_diff t = 0
      /\ chunk = take (Z.to_nat (4 + unit_length t))
                   (drop (Z.to_nat (old_idx t)) old_buf)).
Proof.
  intros Hbytes Hsize Hacc Hemit.
  pose proof (accounted_registered e cfg old_buf t Hacc) as Hreg.
  assert (Hreg' : registered e old_buf (set_new_idx t i)).
  { apply (proj1 (registered_forget e old_buf _)).
    rewrite forget_set_new_idx.
    apply (proj2 (registered_forget e old_buf t)). exact Hreg. }
  destruct Hacc as (cu & comp_dir & listing & listing' & t0 & Hoff & Hh & Hrun).
  destruct (emit_table_length e cfg old_buf (old_idx t) cu comp_dir listing
              listing' t0 t i chunk Hbytes Hsize Hoff Hh Hrun Hemit)
    as [Hpos Hlen].
  destruct (emit_table_fields e _ _ old_buf (set_new_idx t i) chunk Hsize Hreg'
              Hemit) as [Hf1 Hf2].
  split; [exact Hpos|]. split; [exact Hlen|].
  split; [destruct t; exact Hf1|]. split; [destruct t; exact Hf2|].
  intros Hd Hf.
  destruct (emit_table_verbatim e _ _ old_buf (set_new_idx t i) chunk Hsize
              Hreg' ltac:(destruct t; exact Hd) ltac:(destruct t; exact Hf)
              Hemit) as [Hsd Hc].
  split; [destruct t; exact Hsd|destruct t; exact Hc].
Qed.

(** What phase zero has counted for tables that can be rebuilt is not
    negative. *)
Lemma accounted_len_nonneg e cfg old_buf ts :
  Forall (fun b => 0 <= b < 256) old_buf ->
  Z.of_nat (length old_buf) < 4294967296 ->
  Forall (accounted e cfg old_buf) ts ->
  Forall (fun t => forall i, exists chunk,
            emit_table e (default [] (base_dir cfg))
              (default [] (dest_dir cfg)) old_buf (set_new_idx t i)
            = Done chunk) ts ->
  0 <= accounted_len ts.
Proof.
  intros Hbytes Hsize Hacc Hemit.
  induction ts as [|t ts IH]; [reflexivity|].
  rewrite accounted_len_cons.
  apply Forall_cons in Hacc as [Ht Hacc].
  apply Forall_cons in Hemit as [He Hemit].
  destruct (He 0) as (chunk & Hc).
  destruct (emit_table_counted e cfg old_buf t 0 chunk Hbytes Hsize Ht Hc)
    as (Hpos & Hlen & _).
  specialize (IH Hacc Hemit). lia.
Qed.

(** The block is large enough for tables that were counted. *)
Lemma emit_tables_fits e cfg old_buf size ts :
  Forall (fun b => 0 <= b < 256) old_buf ->
  Z.of_nat (length old_buf) < 4294967296 ->
  Forall (accounted e cfg old_buf) ts ->
  Forall (fun t => forall i, exists chunk,
            emit_table e (default [] (base_dir cfg))
              (default [] (dest_dir cfg)) old_buf (set_new_idx t i)
            = Done chunk) ts ->
  forall buf,
    Z.of_nat (length buf) + accounted_len ts <= Z.of_nat size ->
    exists ts' buf',
      emit_tables e (default [] (base_dir cfg)) (default [] (dest_dir cfg))
        old_buf size ts buf = Done (Some (ts', buf')).
Proof.
  intros Hbytes Hsize Hacc Hemit.
  induction ts as [|t ts IH]; intros buf Hfit.
  - eexists _, _. reflexivity.
  - pose proof (accounted_len_nonneg e cfg old_buf ts Hbytes Hsize
                  (Forall_inv_tail Hacc) (Forall_inv_tail Hemit)) as Hnn.
    apply Forall_cons in Hacc as [Ht Hacc].
    apply Forall_cons in Hemit as [He Hemit].
    rewrite accounted_len_cons in Hfit.
    destruct (He (Z.of_nat (length buf))) as (chunk & Hc).
    destruct (emit_table_counted e cfg old_buf t _ chunk Hbytes Hsize Ht Hc)
      as (Hpos & Hlen & _).
    cbn [emit_tables]. rewrite Hc. cbn [mbind outcome_bind].
    destruct (Nat.ltb_spec size (length buf + length chunk)) as [|_]; [lia|].
    destruct (IH Hacc Hemit (buf ++ chunk)) as (ts' & buf' & Hr).
    { rewrite length_app. lia. }
    rewrite Hr. cbn [mbind outcome_bind option_bind].
    eexists _, _. reflexivity.
Qed.

Lemma accounted_len_forget ts :
  accounted_len (map forget_new_idx ts) = accounted_len ts.
Proof.
  induction ts as [|t ts IH]; [reflexivity|].
  cbn [map]. rewrite !accounted_len_cons, IH. destruct t; reflexivity.
Qed.

Lemma reencoding_slack_forget old_buf t :
  reencoding_slack old_buf (forget_new_idx t) = reencoding_slack old_buf t.
Proof. destruct t; reflexivity. Qed.


End RebuildFacts.

Lemma phase_zero_empty e cfg data :
  phase_zero e cfg data
    {| Lines.table := []; Lines.debug_lines_len := 0; Lines.line_buf := None |}.
Proof.
  split; [apply NoDup_nil_2|]. split; [constructor|reflexivity].
Qed.

Lemma example_lines_phase_zero :
  phase_zero ELFDATA2LSB example_cfg example_debug_line example_lines.
Proof.
  set (empty := {| Lines.table := []; Lines.debug_lines_len := 0;
                   Lines.line_buf := None |}).
  destruct (Lines.read_dwarf2_line ELFDATA2LSB example_cfg example_debug_line
              empty 32 None example_cu []) as [[[m1 l1] s1]|] eqn:H1;
    [|vm_compute in H1; discriminate].
  destruct (Lines.read_dwarf2_line ELFDATA2LSB example_cfg example_debug_line
              l1 0 None example_cu []) as [[[m2 l2] s2]|] eqn:H2;
    [|vm_compute in H1; injection H1 as <- <- <-; vm_compute in H2;
      discriminate].
  assert (Hl : example_lines = l2).
  { unfold example_lines. fold empty. rewrite H1, H2. reflexivity. }
  rewrite Hl.
  destruct (read_dwarf2_line_phase_zero ELFDATA2LSB example_cfg
              example_debug_line empty 32 None example_cu [] m1 l1 s1
              ltac:(lia) (phase_zero_empty _ _ _) H1)
    as [Hz1|(t & _ & Hlen & _)].
  2:{ vm_compute in H1. injection H1 as <- <- <-. discriminate Hlen. }
  destruct (read_dwarf2_line_phase_zero ELFDATA2LSB example_cfg
              example_debug_line l1 0 None example_cu [] m2 l2 s2
              ltac:(lia) Hz1 H2) as [Hz2|(t & _ & Hlen & _)]; [exact Hz2|].
  vm_compute in H1. injection H1 as <- <- <-.
  vm_compute in H2. injection H2 as <- <- <-. discriminate Hlen.
Qed.



(** ** Phase zero with [dest_dir] equal to [base_dir]: the flags *)

Section SameDirFlags.

Import Codec Path Strings Info Lines.

Lemma c_str_app_nul_free a b : 0 ∉ a -> c_str (a ++ b) = a ++ c_str b.
Proof.
  unfold c_str. induction a as [|c a IH]; intros H; [reflexivity|].
  apply not_elem_of_cons in H as [Hc Ha]. cbn [app strlen].
  destruct (Z.eqb_spec c 0) as [|_]; [congruence|].
  cbn [take]. rewrite IH by exact Ha. reflexivity.
Qed.

Lemma replicate_SLASH_nul_free k : 0 ∉ replicate k SLASH.
Proof.
  intros H. apply elem_of_replicate in H as [H _]. discriminate H.
Qed.

Lemma c_str_nil_peek s : peek s 0 = 0 -> c_str s = [].
Proof.
  destruct s as [|c s]; [reflexivity|]. rewrite peek_cons. intros ->.
  reflexivity.
Qed.

(** A path that [skip_dir_prefix] accepts, as a string: the prefix, a
    run of separators, and the part that is returned. *)
Lemma skip_dir_prefix_c_str path dir_prefix file :
  skip_dir_prefix path dir_prefix = Some file ->
  exists k,
    c_str path = c_str dir_prefix ++ replicate k SLASH ++ c_str file
    /\ (c_str file <> [] -> (1 <= k)%nat).
Proof.
  intros H. unfold skip_dir_prefix in H.
  destruct (strncmp_eq path dir_prefix (strlen dir_prefix)) eqn:Hcmp;
    [|discriminate].
  apply strncmp_eq_take in Hcmp as [Ht Hl]; [|lia].
  set (rest := drop (strlen dir_prefix) path) in *.
  assert (Hpath : path = c_str dir_prefix ++ rest).
  { unfold c_str. rewrite <- Ht. subst rest. symmetry. apply take_drop. }
  destruct (negb (peek rest 0 =? 0) && negb (IS_DIR_SEPARATOR (peek rest 0)))
    eqn:Hc; [discriminate|].
  injection H as <-.
  destruct (skip_separators_spec rest) as (k & Hk & Hp).
  exists k. split.
  - rewrite Hpath at 1. rewrite Hk at 1.
    rewrite c_str_app_nul_free by apply c_str_is_nul_free.
    rewrite c_str_app_nul_free by apply replicate_SLASH_nul_free.
    reflexivity.
  - intros Hne. destruct k as [|k]; [|lia]. exfalso.
    cbn [replicate app] in Hk. rewrite <- Hk in Hp, Hne.
    apply Hne, c_str_nil_peek.
    unfold IS_DIR_SEPARATOR, SLASH in *.
    destruct (Z.eqb_spec (peek rest 0) 0) as [E0|_]; [exact E0|].
    destruct (Z.eqb_spec (peek rest 0) 47) as [E1|_]; [congruence|].
    discriminate.
Qed.

Lemma strlen_c_str_nil s : c_str s = [] <-> strlen s = 0%nat.
Proof.
  rewrite <- length_c_str. split; [intros ->; reflexivity|].
  apply nil_length_inv.
Qed.

Lemma new_name_separators dest file :
  new_name dest file
  = c_str dest ++ replicate (separators file) SLASH ++ c_str file.
Proof.
  unfold new_name, separators, c_str.
  destruct (Nat.ltb_spec 0 (strlen file)) as [|Hz]; [reflexivity|].
  assert (Hs : strlen file = 0%nat) by lia. rewrite Hs. reflexivity.
Qed.

(** The replacement of a path under [base_dir] by [base_dir]: the run of
    separators behind the prefix becomes one separator, or none in front
    of an empty part. *)
Lemma same_dir_replacement base path file :
  skip_dir_prefix path base = Some file ->
  exists k,
    c_str path = c_str base ++ replicate k SLASH ++ c_str file
    /\ (separators file <= k)%nat
    /\ new_name base file
       = c_str base ++ replicate (separators file) SLASH ++ c_str file
    /\ (new_name base file = c_str path <-> k = separators file).
Proof.
  intros H. destruct (skip_dir_prefix_c_str path base file H) as (k & Hp & Hk).
  exists k. split; [exact Hp|]. split.
  { unfold separators. destruct (Nat.ltb_spec 0 (strlen file)) as [Hpos|]; [|lia].
    apply Hk. intros Hnil. apply strlen_c_str_nil in Hnil. lia. }
  split; [apply new_name_separators|].
  rewrite new_name_separators, Hp. split.
  - intros Heq. apply app_inv_head in Heq.
    apply (f_equal length) in Heq.
    rewrite !length_app, !length_replicate in Heq. lia.
  - intros ->. reflexivity.
Qed.

Lemma length_new_name dest file :
  length (new_name dest file)
  = (strlen dest + (if (0 <? strlen file)%nat then 1 + strlen file else 0))%nat.
Proof.
  unfold new_name. rewrite length_app, length_take.
  pose proof (strlen_le dest).
  destruct (0 <? strlen file)%nat; cbn [length]; rewrite ?length_c_str; lia.
Qed.

(** What [account] does with one path when both directories are set. *)
Lemma account_under cfg base dest path t dirs :
  base_dir cfg = Some base -> dest_dir cfg = Some dest ->
  let t' := account cfg path t dirs in
  replace_dirs t' = replace_dirs t || (dirs && under base path)
  /\ replace_files t' = replace_files t || (negb dirs && under base path)
  /\ match skip_dir_prefix path base with
     | Some file =>
         size_diff t'
         = size_diff t + Z.of_nat (length (new_name dest file))
           - Z.of_nat (length (c_str path))
     | None => t' = t
     end.
Proof.
  intros Hb Hd. cbv zeta. unfold account, under. rewrite Hb, Hd.
  destruct (skip_dir_prefix path base) as [file|].
  - cbn [replace_dirs replace_files size_diff].
    rewrite length_new_name, length_c_str.
    split; [destruct dirs, (replace_dirs t); reflexivity|].
    split; [destruct dirs, (replace_files t); reflexivity|].
    destruct (Nat.ltb_spec 0 (strlen file));
      destruct (Z.ltb_spec 0 (Z.of_nat (strlen file))); lia.
  - rewrite !andb_false_r, !orb_false_r. repeat split.
Qed.

Lemma collect_dirs_acc data : forall n ptr acc,
  (length data - ptr = n)%nat ->
  collect_dirs data ptr acc
  = (acc ++ dir_names data ptr, snd (collect_dirs data ptr [])).
Proof.
  unfold dir_names.
  induction n as [n IH] using lt_wf_ind. intros ptr acc Hn.
  rewrite (collect_dirs_eq data ptr acc), (collect_dirs_eq data ptr []).
  destruct (negb (peek (cursor data ptr) 0 =? 0)) eqn:E.
  - cbv zeta. pose proof (peek_cursor_lt data ptr E) as Hlt.
    set (next := (ptr + strlen (cursor data ptr) + 1)%nat).
    rewrite (IH (length data - next)%nat ltac:(subst next; lia) next
               (acc ++ [cursor data ptr]) eq_refl).
    rewrite (IH (length data - next)%nat ltac:(subst next; lia) next
               ([] ++ [cursor data ptr]) eq_refl).
    cbn [fst snd app]. rewrite <- app_assoc. reflexivity.
  - cbn [fst snd]. rewrite app_nil_r. reflexivity.
Qed.

Lemma dir_names_eq data ptr :
  dir_names data ptr
  = if negb (peek (cursor data ptr) 0 =? 0)
    then cursor data ptr
         :: dir_names data (ptr + strlen (cursor data ptr) + 1)%nat
    else [].
Proof.
  unfold dir_names at 1. rewrite collect_dirs_eq.
  destruct (negb (peek (cursor data ptr) 0 =? 0)); [|reflexivity].
  cbv zeta. rewrite (collect_dirs_acc data _ _ _ eq_refl). reflexivity.
Qed.

Lemma file_names_eq data ptr :
  file_names data ptr
  = if negb (peek (cursor data ptr) 0 =? 0)
    then
      let file := cursor data ptr in
      let optr := (ptr + strlen file + 1)%nat in
      let p0 := cursor data optr in
      let p1 := snd (read_uleb128 p0) in
      let p2 := snd (read_uleb128 p1) in
      let p3 := snd (read_uleb128 p2) in
      file :: file_names data (optr + (length p0 - length p3))%nat
    else [].
Proof.
  funelim (file_names data ptr);
    match goal with E : negb _ = _ |- _ => rewrite E end; reflexivity.
Qed.

(** The marks that the pass over the directory table leaves. *)
Lemma size_dirs_under cfg base dest data :
  base_dir cfg = Some base -> dest_dir cfg = Some dest ->
  forall n t ptr, (length data - ptr = n)%nat ->
    let t' := fst (size_dirs cfg data t ptr) in
    replace_dirs t'
    = replace_dirs t || existsb (under base) (dir_names data ptr)
    /\ replace_files t' = replace_files t.
Proof.
  intros Hb Hd. induction n as [n IH] using lt_wf_ind. intros t ptr Hn.
  cbv zeta. rewrite size_dirs_eq, dir_names_eq.
  destruct (negb (peek (cursor data ptr) 0 =? 0)) eqn:E.
  - cbv zeta. pose proof (peek_cursor_lt data ptr E) as Hlt.
    set (dir := cursor data ptr). set (next := (ptr + strlen dir + 1)%nat).
    destruct (IH (length data - next)%nat ltac:(subst next; lia)
                (account cfg dir t true) next eq_refl) as [Hd' Hf'].
    destruct (account_under cfg base dest dir t true Hb Hd) as (Ha & Hb' & _).
    rewrite Hd', Hf', Ha, Hb'. cbn [existsb andb negb].
    rewrite orb_false_r, orb_assoc. split; reflexivity.
  - cbn [fst existsb]. rewrite orb_false_r. split; reflexivity.
Qed.

(** The marks that the pass over the file table leaves, when it has gone
    through the whole table. *)
Lemma size_files_under cfg base dest data comp_dir dirt :
  base_dir cfg = Some base -> dest_dir cfg = Some dest ->
  forall n t ptr listing t' listing', (length data - ptr = n)%nat ->
    size_files cfg data comp_dir dirt t ptr listing = Done (true, t', listing') ->
    replace_files t'
    = replace_files t || existsb (under base) (file_names data ptr)
    /\ replace_dirs t' = replace_dirs t.
Proof.
  intros Hb Hd. induction n as [n IH] using lt_wf_ind.
  intros t ptr listing t' listing' Hn H.
  rewrite size_files_eq in H. rewrite file_names_eq.
  destruct (negb (peek (cursor data ptr) 0 =? 0)) eqn:E.
  - cbv zeta in H. cbv zeta. pose proof (peek_cursor_lt data ptr E) as Hlt.
    set (file := cursor data ptr) in *.
    set (ptr' := (ptr + strlen file + 1)%nat) in *.
    destruct (read_uleb128 (cursor data ptr')) as [v1 p1] eqn:E1.
    cbn [snd].
    destruct (dirt !! Z.to_nat v1) as [dir|]; [|discriminate].
    destruct (canonicalize_path_at _ 0 0) as [m|]; [|discriminate].
    destruct (read_uleb128 p1) as [v2 p2] eqn:E2. cbn [snd].
    destruct (read_uleb128 p2) as [v3 p3] eqn:E3. cbn [snd].
    set (next := (ptr' + (length (cursor data ptr') - length p3))%nat) in *.
    destruct (IH (length data - next)%nat ltac:(subst next ptr'; lia)
                (account cfg file t false) next _ t' listing' eq_refl H)
      as [Hf' Hd'].
    destruct (account_under cfg base dest file t false Hb Hd) as (Ha & Hb' & _).
    rewrite Hf', Hd', Ha, Hb'. cbn [existsb andb negb].
    rewrite orb_false_r, orb_assoc. split; reflexivity.
  - injection H as <- _. cbn [existsb]. rewrite orb_false_r.
    split; reflexivity.
Qed.


End SameDirFlags.



(** ** [canonicalize_path] in terms of segments *)

Section SegmentFacts.

Import Path.

Lemma split_path_skip_separators s :
  split_path (skip_separators s) [] = split_path s [].
Proof.
  induction s as [|c s IH]; [reflexivity|].
  cbn [skip_separators]. destruct (IS_DIR_SEPARATOR c) eqn:E; [|reflexivity].
  rewrite IH. cbn [split_path]. rewrite E.
  unfold IS_DIR_SEPARATOR in E. apply Z.eqb_eq in E. subst c. reflexivity.
Qed.

Lemma canonicalize_root_root_of p :
  exists s', canonicalize_root p [] = (s', root_of p)
             /\ split_path s' [] = split_path p [].
Proof.
  unfold canonicalize_root, root_of.
  destruct (IS_DIR_SEPARATOR (peek p 0)) eqn:E0.
  - destruct p as [|c0 p]; [discriminate|].
    change (peek (c0 :: p) 0) with c0 in *.
    change (peek (c0 :: p) 1) with (peek p 0).
    change (peek (c0 :: p) 2) with (peek p 1).
    unfold copy_char at 1. change (drop 1 (c0 :: p)) with p.
    change (peek (c0 :: p) 0) with c0.
    assert (Hc0 : c0 = SLASH)
      by (unfold IS_DIR_SEPARATOR in E0; apply Z.eqb_eq in E0; exact E0).
    subst c0. cbn [app].
    assert (Hp : split_path (SLASH :: p) [] = split_path p []) by reflexivity.
    destruct (IS_DIR_SEPARATOR (peek p 0) && negb (IS_DIR_SEPARATOR (peek p 1)))
      eqn:E1.
    + apply andb_prop in E1 as [E1 _].
      destruct p as [|c1 p]; [discriminate|].
      change (peek (c1 :: p) 0) with c1 in *.
      assert (Hc1 : c1 = SLASH)
        by (unfold IS_DIR_SEPARATOR in E1; apply Z.eqb_eq in E1; exact E1).
      subst c1. unfold copy_char. change (drop 1 (SLASH :: p)) with p.
      change (peek (SLASH :: p) 0) with SLASH. cbn [app].
      eexists. split; [reflexivity|].
      rewrite split_path_skip_separators. reflexivity.
    + eexists. split; [reflexivity|].
      rewrite split_path_skip_separators. reflexivity.
  - eexists. split; reflexivity.
Qed.

Lemma render_nul_free stack : Forall segment stack -> 0 ∉ render stack.
Proof.
  induction 1 as [|top below [_ Htop] _ IH]; [apply not_elem_of_nil|].
  cbn [render]. rewrite !not_elem_of_app. split; [exact IH|]. split.
  - intros Hin. apply (proj1 (Forall_forall _ _) Htop) in Hin as [H0 _].
    congruence.
  - intros Hin. apply list_elem_of_singleton in Hin. discriminate.
Qed.

Lemma join_segments_nul_free stack :
  Forall segment stack -> 0 ∉ join_segments stack.
Proof.
  intros Hs. destruct stack as [|top below]; [apply not_elem_of_nil|].
  apply Forall_cons in Hs as [[_ Htop] Hs]. cbn [join_segments].
  rewrite not_elem_of_app. split; [apply render_nul_free; exact Hs|].
  intros Hin. apply (proj1 (Forall_forall _ _) Htop) in Hin as [H0 _].
  congruence.
Qed.

(** X11. What [canonicalize_path] computes, in terms of path segments:
    the name is split at its separators, a "." segment is dropped, a ".."
    segment removes the segment kept before it (and is kept itself when
    there is none, or when that one is ".."), and the result is the root
    followed by the kept segments with one separator between them, or "."
    when that is empty.  The result is never empty, holds no NUL, and is
    absolute exactly when the name is. *)
Theorem canonicalize_path_segments (p : list Z) :
  let stack := fold_left push (split_path p []) [] in
  let q := canonicalize_path p in
  q = finish (root_of p) stack
  /\ normal stack
  /\ q <> []
  /\ (0 ∉ q)
  /\ IS_DIR_SEPARATOR (peek q 0) = IS_DIR_SEPARATOR (peek p 0).
Proof.
  cbv zeta.
  destruct (canonicalize_path_spec p) as (s' & r & stack & Hroot & _ & Hst & Hn & Hp).
  destruct (canonicalize_root_root_of p) as (s2 & Hroot2 & Hsplit).
  rewrite Hroot in Hroot2. injection Hroot2 as <- ->.
  rewrite Hsplit in Hst. subst stack.
  set (stack := fold_left push (split_path p []) []) in *.
  unfold canonicalize_path. rewrite Hp.
  change (default [] (Some (finish (root_of p) stack)))
    with (finish (root_of p) stack).
  pose proof (normal_segments stack Hn) as Hs.
  pose proof (join_segments_nul_free stack Hs) as Hnf.
  destruct (split_path_join stack Hs) as [_ Hhead].
  split; [reflexivity|]. split; [exact Hn|].
  unfold finish, root_of.
  destruct (IS_DIR_SEPARATOR (peek p 0)) eqn:E0.
  - destruct (IS_DIR_SEPARATOR (peek p 1) && negb (IS_DIR_SEPARATOR (peek p 2)));
      cbn [app]; (split; [discriminate|]); (split; [|reflexivity]);
      rewrite !not_elem_of_cons; repeat split; try discriminate; exact Hnf.
  - cbn [app]. destruct (join_segments stack) as [|c q] eqn:Ej.
    + split; [discriminate|]. split; [|reflexivity].
      rewrite not_elem_of_cons. split; [discriminate|apply not_elem_of_nil].
    + split; [discriminate|]. split; [exact Hnf|exact Hhead].
Qed.

End SegmentFacts.

(** ** The loops of [update_str_offsets] *)

Section StrOffsetsMore.

Import Reloc StrOffsets.

Variable strent_offset : Strings.Strent -> Z.
Variable e : ei_data.
Variable debug_str : Strings.strings.
Variable debugedit_stridxentry : Strings.Strent.

Lemma update_entries_eq endidxp ptr sec log :
  update_entries strent_offset e debug_str debugedit_stridxentry endidxp ptr
    sec log
  = if ptr <? endidxp
    then
      let '(idx, last) := do_read_32_relocated e ptr sec in
      match Strings.string_find_entry debugedit_stridxentry debug_str idx true with
      | Done (missing, entry) =>
          let log := if (missing : bool) then log ++ [idx] else log in
          let new_idx := strent_offset entry in
          let sec := do_write_32_relocated e last ptr new_idx sec in
          update_entries strent_offset e debug_str debugedit_stridxentry
            endidxp (ptr + 4) sec log
      | Exit msg => Exit msg
      end
    else Done (ptr, sec, log).
Proof.
  funelim (update_entries strent_offset e debug_str debugedit_stridxentry
             endidxp ptr sec log);
    match goal with E : (_ <? _) = _ |- _ => rewrite E end; reflexivity.
Qed.

Lemma string_find_entry_accept idx :
  Strings.string_find_entry debugedit_stridxentry debug_str idx true
  = Done (bool_decide (Strings.strent_root debug_str !! idx = None),
          entry_of debugedit_stridxentry debug_str idx).
Proof.
  unfold Strings.string_find_entry, entry_of.
  destruct (Strings.strent_root debug_str !! idx); reflexivity.
Qed.

Lemma store_32_splice ptr_ val sec :
  0 <= ptr_ -> (Z.to_nat ptr_ + 4 <= length (data sec))%nat ->
  data (store_32 e ptr_ val sec)
  = take (Z.to_nat ptr_) (data sec) ++ do_write_32 e val
    ++ drop (Z.to_nat ptr_ + 4) (data sec).
Proof.
  intros H0 Hlen. cbn [store_32 data].
  set (p := Z.to_nat ptr_) in *.
  rewrite <- (take_drop p (data sec)) at 1.
  rewrite <- (take_drop 4 (drop p (data sec))) at 1.
  rewrite drop_drop.
  replace p with (length (take p (data sec))) at 1
    by (rewrite length_take; lia).
  apply list_inserts_splice.
  rewrite length_do_write_32, length_take, length_drop. lia.
Qed.

Lemma update_entries_rewrites_aux : forall k endidxp ptr sec log,
  relbuf sec = None -> 0 <= ptr ->
  k = Z.to_nat ((endidxp - ptr + 3) / 4) ->
  (Z.to_nat ptr + 4 * k <= length (data sec))%nat ->
  let idx j := do_read_32 e (drop (Z.to_nat ptr + 4 * j) (data sec)) in
  let word j :=
    do_write_32 e (strent_offset (entry_of debugedit_stridxentry debug_str (idx j))) in
  update_entries strent_offset e debug_str debugedit_stridxentry endidxp ptr
    sec log
  = Done (ptr + 4 * Z.of_nat k,
          {| data := take (Z.to_nat ptr) (data sec)
                     ++ concat (map word (seq 0 k))
                     ++ drop (Z.to_nat ptr + 4 * k) (data sec);
             relbuf := None; reltype := reltype sec;
             rel_updated := rel_updated sec |},
          log ++ filter (fun i => Strings.strent_root debug_str !! i = None)
                   (map idx (seq 0 k))).
Proof.
  induction k as [|k IH]; intros endidxp ptr sec log Hrel Hptr Hk Hlen;
    cbv zeta; rewrite update_entries_eq.
  - assert (endidxp <= ptr)
      by (apply Z.le_ngt; intros Hlt;
          assert (1 <= (endidxp - ptr + 3) / 4)
            by (apply Z.div_le_lower_bound; lia); lia).
    destruct (Z.ltb_spec ptr endidxp); [lia|].
    cbn [seq map concat filter app]. rewrite Nat.mul_0_r, Nat.add_0_r.
    rewrite take_drop, app_nil_r, Z.mul_0_r, Z.add_0_r.
    destruct sec as [d rb rt ru]. cbn in *. subst rb. reflexivity.
  - assert (Hlt : ptr < endidxp).
    { apply Z.lt_nge. intros Hle.
      assert ((endidxp - ptr + 3) / 4 < 1)
        by (apply Z.div_lt_upper_bound; lia). lia. }
    destruct (Z.ltb_spec ptr endidxp); [|lia].
    unfold do_read_32_relocated. rewrite Hrel.
    rewrite string_find_entry_accept. cbv zeta.
    unfold do_write_32_relocated. cbn [last_relptr].
    set (idx0 := do_read_32 e (drop (Z.to_nat ptr) (data sec))).
    set (w0 := strent_offset (entry_of debugedit_stridxentry debug_str idx0)).
    set (sec1 := store_32 e ptr w0 sec).
    set (log1 := if bool_decide (Strings.strent_root debug_str !! idx0 = None)
                 then log ++ [idx0] else log).
    pose proof (store_32_splice ptr w0 sec Hptr ltac:(lia)) as Hd1.
    fold sec1 in Hd1.
    assert (Hk' : k = Z.to_nat ((endidxp - (ptr + 4) + 3) / 4)).
    { replace (endidxp - (ptr + 4) + 3) with ((endidxp - ptr + 3) + (-1) * 4)
        by lia.
      rewrite Z.div_add by lia. lia. }
    assert (Hl1 : length (data sec1) = length (data sec))
      by (apply length_inserts).
    rewrite (IH endidxp (ptr + 4) sec1 log1 Hrel ltac:(lia) Hk'
               ltac:(rewrite Hl1; lia)).
    assert (Hdrop : forall m, drop (Z.to_nat (ptr + 4) + m) (data sec1)
                              = drop (Z.to_nat ptr + 4 + m) (data sec)).
    { intros m. replace (Z.to_nat (ptr + 4)) with (Z.to_nat ptr + 4)%nat by lia.
      rewrite Hd1, app_assoc.
      rewrite <- (drop_drop _ m (Z.to_nat ptr + 4)).
      rewrite drop_app_length'
        by (rewrite length_app, length_take, length_do_write_32; lia).
      rewrite drop_drop. reflexivity. }
    assert (Hidx : forall j,
               do_read_32 e (drop (Z.to_nat (ptr + 4) + 4 * j) (data sec1))
               = do_read_32 e (drop (Z.to_nat ptr + 4 * S j) (data sec))).
    { intros j. rewrite Hdrop. f_equal. f_equal. lia. }
    f_equal. f_equal; [f_equal; [lia|]|].
    + cbn [reltype rel_updated sec1 store_32]. f_equal.
      replace (Z.to_nat (ptr + 4)) with (Z.to_nat ptr + 4)%nat at 1 by lia.
      rewrite Hd1 at 1.
      rewrite (app_assoc (take (Z.to_nat ptr) (data sec)) (do_write_32 e w0)).
      rewrite take_app_length'
        by (rewrite length_app, length_take, length_do_write_32; lia).
      rewrite Hdrop. rewrite <- !app_assoc.
      cbn [seq map concat]. rewrite Nat.mul_0_r, Nat.add_0_r.
      fold idx0. fold w0. rewrite <- !app_assoc.
      f_equal. f_equal. f_equal.
      * f_equal. rewrite <- seq_shift, map_map. apply map_ext.
        intros j. rewrite Hidx. reflexivity.
      * f_equal. lia.
    + cbn [seq map]. rewrite Nat.mul_0_r, Nat.add_0_r. fold idx0.
      rewrite <- seq_shift, map_map.
      rewrite (map_ext _ (fun j => do_read_32 e
                            (drop (Z.to_nat ptr + 4 * S j) (data sec))) Hidx).
      rewrite filter_cons. subst log1.
      destruct (decide (Strings.strent_root debug_str !! idx0 = None)) as [Hn|Hn].
      * rewrite bool_decide_eq_true_2 by exact Hn.
        rewrite <- app_assoc. reflexivity.
      * rewrite bool_decide_eq_false_2 by exact Hn. reflexivity.
Qed.

(** X13. The entry loop of [update_str_offsets] on a section without
    relocations: every 32-bit word of the table from [ptr] up to [endidxp]
    is replaced by the offset, in the new string table, of the entry
    registered for the old offset read there (the dummy entry, with a
    warning, when none is); the bytes in front of and behind those words
    stay, and the cursor ends behind the last word.  The number of words
    is the size of the range divided by four and rounded up. *)
Theorem update_entries_rewrites (endidxp ptr : Z) (sec : debug_section)
    (log : list Z) :
  relbuf sec = None -> 0 <= ptr ->
  let k := Z.to_nat ((endidxp - ptr + 3) / 4) in
  (Z.to_nat ptr + 4 * k <= length (data sec))%nat ->
  let idx j := do_read_32 e (drop (Z.to_nat ptr + 4 * j) (data sec)) in
  let word j :=
    do_write_32 e (strent_offset (entry_of debugedit_stridxentry debug_str (idx j))) in
  update_entries strent_offset e debug_str debugedit_stridxentry endidxp ptr
    sec log
  = Done (ptr + 4 * Z.of_nat k,
          {| data := take (Z.to_nat ptr) (data sec)
                     ++ concat (map word (seq 0 k))
                     ++ drop (Z.to_nat ptr + 4 * k) (data sec);
             relbuf := None; reltype := reltype sec;
             rel_updated := rel_updated sec |},
          log ++ filter (fun i => Strings.strent_root debug_str !! i = None)
                   (map idx (seq 0 k))).
Proof.
  intros Hrel Hptr k Hlen.
  apply update_entries_rewrites_aux; [exact Hrel|exact Hptr|reflexivity|exact Hlen].
Qed.

End StrOffsetsMore.

Lemma update_entries_rewrites_witness :
  StrOffsets.update_entries (fun s => Z.of_nat (length s)) ELFDATA2LSB
    {| Strings.str_tab := [[97; 98]];
       Strings.strent_root := {[ 1 := [97; 98] ]} |}
    [60; 62] 15 8
    {| Reloc.data := [10; 0; 0; 0; 5; 0; 0; 0; 1; 0; 0; 0; 9; 0; 0; 0; 7];
       Reloc.relbuf := None; Reloc.reltype := 0; Reloc.rel_updated := false |}
    []
  = Done (16,
          {| Reloc.data := [10; 0; 0; 0; 5; 0; 0; 0; 2; 0; 0; 0; 2; 0; 0; 0; 7];
             Reloc.relbuf := None; Reloc.reltype := 0;
             Reloc.rel_updated := false |},
          [9]).
Proof.
  exact (update_entries_rewrites (fun s => Z.of_nat (length s)) ELFDATA2LSB
           {| Strings.str_tab := [[97; 98]];
              Strings.strent_root := {[ 1 := [97; 98] ]} |}
           [60; 62] 15 8
           {| Reloc.data := [10; 0; 0; 0; 5; 0; 0; 0; 1; 0; 0; 0; 9; 0; 0; 0; 7];
              Reloc.relbuf := None; Reloc.reltype := 0;
              Reloc.rel_updated := false |}
           [] eq_refl ltac:(lia) ltac:(vm_compute; lia)).
Defined.

(** ** [setup_relbuf] and [update_rela_data] *)

Section RelSetupFacts.

Import Reloc RelSetup.

#[local] Instance rel_le_total : Total rel_le.
Proof. intros a b. unfold rel_le. lia. Qed.

#[local] Instance rel_le_trans : Transitive rel_le.
Proof. intros a b c. unfold rel_le. lia. Qed.

Lemma StronglySorted_sorted_by_ptr relptr :
  StronglySorted rel_le relptr -> sorted_by_ptr relptr.
Proof.
  induction 1 as [|a l Hs IH Hall]; intros i j x y Hi Hj Hij.
  - rewrite lookup_nil in Hi. discriminate.
  - destruct i as [|i], j as [|j]; cbn in Hi, Hj.
    + injection Hi as <-. injection Hj as <-. lia.
    + injection Hi as <-.
      apply (proj1 (Forall_forall _ _) Hall y).
      apply list_elem_of_lookup. exists j. exact Hj.
    + lia.
    + apply (IH i j x y Hi Hj). lia.
Qed.

Variable e_machine : Z.
Variable sh_type : Z.
Variable base : Z.
Variable debug_secs : list Z.
Variable symdata : list GElf_Sym.

Lemma setup_relbuf_entry_ndx sym i rela rel :
  setup_relbuf_entry e_machine sh_type base debug_secs sym i rela = Keep rel ->
  ndx rel = i.
Proof.
  unfold setup_relbuf_entry.
  repeat match goal with
         | |- (if ?c then _ else _) = _ -> _ => destruct c
         end; try discriminate.
  intros H. injection H as <-. reflexivity.
Qed.

Lemma r_info_get_rela rela : r_info (get_rela sh_type rela) = r_info rela.
Proof. unfold get_rela. destruct (sh_type =? SHT_REL); reflexivity. Qed.

(** The loop keeps, in the order of the entries, the records of the
    entries that pass the tests. *)
Lemma setup_relbuf_loop_spec : forall ents i0 sym acc out,
  Forall (fun rela =>
            is_Some (symdata !! Z.to_nat (ELF64_R_SYM (r_info rela)))) ents ->
  setup_relbuf_loop e_machine sh_type base debug_secs symdata ents i0 sym acc
  = Done out ->
  exists new,
    out = acc ++ new
    /\ StronglySorted lt (map ndx new)
    /\ Forall (fun rel => (i0 <= ndx rel)%nat) new
    /\ forall rel,
         rel ∈ new <->
         exists i rela sym',
           ents !! i = Some rela
           /\ symdata !! Z.to_nat (ELF64_R_SYM (r_info rela)) = Some sym'
           /\ setup_relbuf_entry e_machine sh_type base debug_secs sym'
                (i0 + i) (get_rela sh_type rela) = Keep rel.
Proof.
  induction ents as [|rela ents IH]; intros i0 sym acc out Hsyms H.
  - injection H as <-. exists []. rewrite app_nil_r.
    split; [reflexivity|]. split; [constructor|]. split; [constructor|].
    intros rel. split; [intros Hin; apply elem_of_nil in Hin; contradiction|].
    intros (i & r & s & Hi & _). rewrite lookup_nil in Hi. discriminate.
  - apply Forall_cons in Hsyms as [[sym' Hsym] Hsyms].
    cbn [setup_relbuf_loop] in H. cbv zeta in H.
    rewrite r_info_get_rela, Hsym in H. cbn [default] in H.
    change (id sym') with sym' in H.
    assert (Hcons : forall new0 new,
               StronglySorted lt (map ndx new) ->
               Forall (fun rel => (S i0 <= ndx rel)%nat) new ->
               (forall rel,
                   rel ∈ new <->
                   exists i rela0 sym0,
                     ents !! i = Some rela0
                     /\ symdata !! Z.to_nat (ELF64_R_SYM (r_info rela0)) = Some sym0
                     /\ setup_relbuf_entry e_machine sh_type base debug_secs sym0
                          (S i0 + i) (get_rela sh_type rela0) = Keep rel) ->
               (new0 = [] /\ forall rel,
                   setup_relbuf_entry e_machine sh_type base debug_secs sym' i0
                     (get_rela sh_type rela) <> Keep rel)
               \/ (exists rel0, new0 = [rel0]
                   /\ setup_relbuf_entry e_machine sh_type base debug_secs sym' i0
                        (get_rela sh_type rela) = Keep rel0) ->
               StronglySorted lt (map ndx (new0 ++ new))
               /\ Forall (fun rel => (i0 <= ndx rel)%nat) (new0 ++ new)
               /\ forall rel,
                    rel ∈ new0 ++ new <->
                    exists i rela0 sym0,
                      (rela :: ents) !! i = Some rela0
                      /\ symdata !! Z.to_nat (ELF64_R_SYM (r_info rela0)) = Some sym0
                      /\ setup_relbuf_entry e_machine sh_type base debug_secs sym0
                           (i0 + i) (get_rela sh_type rela0) = Keep rel).
    { intros new0 new Hs Hge Hiff Hhead.
      assert (Hge' : Forall (fun rel => (i0 <= ndx rel)%nat) new)
        by (eapply Forall_impl; [exact Hge|]; cbv beta; intros; lia).
      assert (Htail : forall rel,
                 rel ∈ new <->
                 exists i rela0 sym0,
                   (rela :: ents) !! S i = Some rela0
                   /\ symdata !! Z.to_nat (ELF64_R_SYM (r_info rela0)) = Some sym0
                   /\ setup_relbuf_entry e_machine sh_type base debug_secs sym0
                        (i0 + S i) (get_rela sh_type rela0) = Keep rel).
      { intros rel. rewrite Hiff. split; intros (i & r & s & Hi & Hsy & Hk);
          exists i, r, s; (split; [exact Hi|]); (split; [exact Hsy|]);
          replace (i0 + S i)%nat with (S i0 + i)%nat in * by lia; exact Hk. }
      destruct Hhead as [[-> Hno]|(rel0 & -> & Hk0)]; cbn [app].
      - split; [exact Hs|]. split; [exact Hge'|].
        intros rel. rewrite Htail. split.
        + intros (i & r & s & H1); exists (S i), r, s; exact H1.
        + intros ([|i] & r & s & Hi & Hsy & Hk).
          * cbn in Hi. injection Hi as <-. rewrite Hsym in Hsy.
            injection Hsy as <-. rewrite Nat.add_0_r in Hk.
            exfalso. exact (Hno rel Hk).
          * exists i, r, s. auto.
      - pose proof (setup_relbuf_entry_ndx _ _ _ _ Hk0) as Hn0.
        split; [|split].
        + cbn [map]. constructor; [exact Hs|].
          apply Forall_forall. intros x Hx.
          apply list_elem_of_fmap in Hx as (rel & -> & Hin).
          pose proof (proj1 (Forall_forall _ _) Hge rel Hin). cbv beta in *. lia.
        + constructor; [lia|exact Hge'].
        + intros rel. rewrite elem_of_cons, Htail. split.
          * intros [->|(i & r & s & H1)].
            -- exists 0%nat, rela, sym'. rewrite Nat.add_0_r. auto.
            -- exists (S i), r, s. exact H1.
          * intros ([|i] & r & s & Hi & Hsy & Hk).
            -- cbn in Hi. injection Hi as <-. rewrite Hsym in Hsy.
               injection Hsy as <-. rewrite Nat.add_0_r in Hk.
               left. congruence.
            -- right. exists i, r, s. auto. }
    destruct (setup_relbuf_entry e_machine sh_type base debug_secs sym' i0
                (get_rela sh_type rela)) as [|rel0|] eqn:Hentry;
      [| |discriminate].
    + destruct (IH (S i0) sym' acc out Hsyms H) as (new & -> & Hs & Hge & Hiff).
      exists new. split; [reflexivity|].
      apply (Hcons [] new Hs Hge Hiff). left. split; [reflexivity|].
      intros rel. discriminate.
    + destruct (IH (S i0) sym' (acc ++ [rel0]) out Hsyms H)
        as (new & -> & Hs & Hge & Hiff).
      exists (rel0 :: new). split; [rewrite <- app_assoc; reflexivity|].
      apply (Hcons [rel0] new Hs Hge Hiff). right. exists rel0. auto.
Qed.

Lemma setup_relbuf_entry_Keep sym i rela rel :
  setup_relbuf_entry e_machine sh_type base debug_secs sym i rela = Keep rel ->
  rel = {| ptr := u64 (r_offset rela - base);
           addend := u32 (r_addend rela + st_value sym);
           ndx := i |}.
Proof.
  unfold setup_relbuf_entry.
  repeat match goal with
         | |- (if ?c then _ else _) = _ -> _ => destruct c
         end; try discriminate.
  intros H. injection H as <-. reflexivity.
Qed.

Lemma setup_relbuf_spec (ents : list GElf_Rela) (sym : GElf_Sym)
    (sec sec' : debug_section) :
  relbuf sec = None ->
  Forall (fun rela =>
            is_Some (symdata !! Z.to_nat (ELF64_R_SYM (r_info rela)))) ents ->
  setup_relbuf e_machine base debug_secs symdata (Some (sh_type, ents)) sym sec
  = Done sec' ->
  data sec' = data sec /\ reltype sec' = sh_type
  /\ rel_updated sec' = rel_updated sec
  /\ (let relptr := default [] (relbuf sec') in
      sorted_by_ptr relptr
      /\ NoDup (map ndx relptr)
      /\ (relbuf sec' = None <-> relptr = [])
      /\ forall rel,
           rel ∈ relptr <->
           exists rela sym',
             ents !! ndx rel = Some rela
             /\ symdata !! Z.to_nat (ELF64_R_SYM (r_info rela)) = Some sym'
             /\ setup_relbuf_entry e_machine sh_type base debug_secs sym'
                  (ndx rel) (get_rela sh_type rela) = Keep rel).
Proof.
  intros Hnone Hsyms H. unfold setup_relbuf in H. rewrite Hnone in H.
  destruct (setup_relbuf_loop e_machine sh_type base debug_secs symdata ents 0
              sym []) as [out|] eqn:Hloop; [|discriminate].
  cbn [mbind outcome_bind] in H. injection H as <-. cbn [data reltype rel_updated relbuf].
  split; [reflexivity|]. split; [reflexivity|]. split; [reflexivity|].
  destruct (setup_relbuf_loop_spec ents 0 sym [] out Hsyms Hloop)
    as (new & -> & Hs & _ & Hiff).
  cbn [app] in *.
  assert (Hiff' : forall rel,
             rel ∈ new <->
             exists rela sym',
               ents !! ndx rel = Some rela
               /\ symdata !! Z.to_nat (ELF64_R_SYM (r_info rela)) = Some sym'
               /\ setup_relbuf_entry e_machine sh_type base debug_secs sym'
                    (ndx rel) (get_rela sh_type rela) = Keep rel).
  { intros rel. rewrite Hiff. split.
    - intros (i & r & s & Hi & Hsy & Hk).
      pose proof (setup_relbuf_entry_ndx _ _ _ _ Hk) as Hn. cbn in Hn.
      subst i. exists r, s. auto.
    - intros (r & s & Hi & Hsy & Hk). exists (ndx rel), r, s. auto. }
  assert (Hnd : NoDup (map ndx new)).
  { clear -Hs. induction Hs as [|a l Hs IH Hall]; constructor; [|exact IH].
    intros Hin. apply (proj1 (Forall_forall _ _) Hall) in Hin. lia. }
  destruct new as [|r0 new]; cbv zeta.
  - cbn [default]. split; [intros i j a b Hi; rewrite lookup_nil in Hi; discriminate|].
    split; [constructor|]. split; [tauto|]. exact Hiff'.
  - change (default [] (Some (merge_sort rel_le (r0 :: new))))
      with (merge_sort rel_le (r0 :: new)).
    pose proof (merge_sort_Permutation rel_le (r0 :: new)) as Hperm.
    split; [apply StronglySorted_sorted_by_ptr, StronglySorted_merge_sort; apply _|].
    split; [rewrite Hperm; exact Hnd|]. split.
    + split; [discriminate|]. intros Hnil. rewrite Hnil in Hperm.
      apply Permutation_nil_l in Hperm. discriminate.
    + intros rel. rewrite Hperm. apply Hiff'.
Qed.

(** X14. The index [setup_relbuf] builds for a section that has none
    yet, from a relocation section whose symbol indices all lie in the
    symbol table: it is sorted on [ptr] (what [find_rel_for_ptr] relies
    on), holds no two records for one entry, and holds a record exactly
    for the entries that pass the tests of the loop body, with [ndx] the
    number of the entry; there is no index ([relbuf] is NULL) exactly when
    no entry passes.  The payload and [rel_updated] stay, and [reltype] is
    the type of the relocation section. *)
Theorem setup_relbuf_index (ents : list GElf_Rela) (sym : GElf_Sym)
    (sec sec' : debug_section) :
  relbuf sec = None ->
  Forall (fun rela =>
            is_Some (symdata !! Z.to_nat (ELF64_R_SYM (r_info rela)))) ents ->
  setup_relbuf e_machine base debug_secs symdata (Some (sh_type, ents)) sym sec
  = Done sec' ->
  data sec' = data sec /\ reltype sec' = sh_type
  /\ rel_updated sec' = rel_updated sec
  /\ (let relptr := default [] (relbuf sec') in
      sorted_by_ptr relptr
      /\ NoDup (map ndx relptr)
      /\ (relbuf sec' = None <-> relptr = [])
      /\ forall rel,
           rel ∈ relptr <->
           exists rela sym',
             ents !! ndx rel = Some rela
             /\ symdata !! Z.to_nat (ELF64_R_SYM (r_info rela)) = Some sym'
             /\ setup_relbuf_entry e_machine sh_type base debug_secs sym'
                  (ndx rel) (get_rela sh_type rela) = Keep rel).
Proof. apply setup_relbuf_spec. Qed.

(** The addends are written back one record after the other, as long
    as libelf takes them. *)
Lemma update_rela_loop_spec gelf_update_rela : forall relptr data_,
  NoDup (map ndx relptr) ->
  Forall (fun rel =>
            exists rela sym,
              data_ !! ndx rel = Some rela
              /\ symdata !! Z.to_nat (GELF_R_SYM (r_info rela)) = Some sym)
    relptr ->
  (forall rel rela sym,
      rel ∈ relptr -> data_ !! ndx rel = Some rela ->
      symdata !! Z.to_nat (GELF_R_SYM (r_info rela)) = Some sym ->
      gelf_update_rela (ndx rel)
        {| r_offset := r_offset rela; r_info := r_info rela;
           r_addend := s64 (addend rel - st_value sym) |} = true) ->
  exists data',
    update_rela_loop gelf_update_rela symdata relptr data_ = Done data'
    /\ length data' = length data_
    /\ (forall rel, rel ∈ relptr ->
          exists rela sym,
            data_ !! ndx rel = Some rela
            /\ symdata !! Z.to_nat (GELF_R_SYM (r_info rela)) = Some sym
            /\ data' !! ndx rel
               = Some {| r_offset := r_offset rela; r_info := r_info rela;
                         r_addend := s64 (addend rel - st_value sym) |})
    /\ (forall i, i ∉ map ndx relptr -> data' !! i = data_ !! i).
Proof.
  induction relptr as [|rel relptr IH]; intros data_ Hnd Hall Hok.
  - exists data_. split; [reflexivity|]. split; [reflexivity|].
    split; [intros rel Hin; apply elem_of_nil in Hin; contradiction|].
    reflexivity.
  - cbn [map] in Hnd. apply NoDup_cons in Hnd as [Hnin Hnd].
    apply Forall_cons in Hall as [(rela & sym & Hrela & Hsym) Hall].
    cbn [update_rela_loop]. cbv zeta. rewrite Hrela, Hsym.
    rewrite (Hok rel rela sym ltac:(left) Hrela Hsym). cbn [negb].
    set (rela' := {| r_offset := r_offset rela; r_info := r_info rela;
                     r_addend := s64 (addend rel - st_value sym) |}).
    assert (Hlt : (ndx rel < length data_)%nat)
      by (apply lookup_lt_Some in Hrela; exact Hrela).
    assert (Hother : forall i, i <> ndx rel ->
               (<[ndx rel := rela']> data_) !! i = data_ !! i).
    { intros i Hi. apply list_lookup_insert_ne. congruence. }
    assert (Hne : forall rel1, rel1 ∈ relptr -> ndx rel1 <> ndx rel).
    { intros rel1 Hin1 Heq. apply Hnin. rewrite <- Heq.
      apply list_elem_of_fmap. exists rel1. auto. }
    destruct (IH (<[ndx rel := rela']> data_) Hnd) as (data' & Hr & Hlen & Hin & Hout).
    { apply Forall_forall. intros rel1 Hin1.
      destruct (proj1 (Forall_forall _ _) Hall rel1 Hin1) as (r1 & s1 & H1 & H2).
      exists r1, s1. split; [|exact H2]. rewrite Hother; [exact H1|].
      apply Hne. exact Hin1. }
    { intros rel1 r1 s1 Hin1 H1 H2. apply Hok; [right; exact Hin1| |exact H2].
      rewrite <- H1. symmetry. apply Hother, Hne. exact Hin1. }
    exists data'. split; [exact Hr|].
    split; [rewrite Hlen; apply length_insert|]. split.
    + intros rel1 Hin1. apply elem_of_cons in Hin1 as [->|Hin1].
      * exists rela, sym. split; [exact Hrela|]. split; [exact Hsym|].
        rewrite (Hout _ Hnin). apply list_lookup_insert_eq. exact Hlt.
      * destruct (Hin rel1 Hin1) as (r1 & s1 & H1 & H2 & H3).
        exists r1, s1. split; [|split; [exact H2|exact H3]].
        rewrite <- H1. symmetry. apply Hother, Hne. exact Hin1.
    + intros i Hi. cbn [map] in Hi. apply not_elem_of_cons in Hi as [Hne' Hi].
      rewrite (Hout i Hi). apply Hother. exact Hne'.
Qed.

(** The loop ends the process at the first entry libelf refuses. *)
Lemma update_rela_loop_refused gelf_update_rela : forall relptr data_,
  NoDup (map ndx relptr) ->
  Forall (fun rel =>
            exists rela sym,
              data_ !! ndx rel = Some rela
              /\ symdata !! Z.to_nat (GELF_R_SYM (r_info rela)) = Some sym)
    relptr ->
  (exists rel rela sym,
      rel ∈ relptr /\ data_ !! ndx rel = Some rela
      /\ symdata !! Z.to_nat (GELF_R_SYM (r_info rela)) = Some sym
      /\ gelf_update_rela (ndx rel)
           {| r_offset := r_offset rela; r_info := r_info rela;
              r_addend := s64 (addend rel - st_value sym) |} = false) ->
  update_rela_loop gelf_update_rela symdata relptr data_
  = Exit "Couldn't update relocations".
Proof.
  induction relptr as [|rel relptr IH]; intros data_ Hnd Hall Hbad.
  - destruct Hbad as (rel & _ & _ & Hin & _).
    apply elem_of_nil in Hin. contradiction.
  - cbn [map] in Hnd. apply NoDup_cons in Hnd as [Hnin Hnd].
    apply Forall_cons in Hall as [(rela & sym & Hrela & Hsym) Hall].
    cbn [update_rela_loop]. cbv zeta. rewrite Hrela, Hsym.
    set (rela' := {| r_offset := r_offset rela; r_info := r_info rela;
                     r_addend := s64 (addend rel - st_value sym) |}).
    destruct (gelf_update_rela (ndx rel) rela') eqn:Hg; [|reflexivity].
    cbn [negb].
    assert (Hother : forall rel1, rel1 ∈ relptr ->
               (<[ndx rel := rela']> data_) !! ndx rel1 = data_ !! ndx rel1).
    { intros rel1 Hin1. apply list_lookup_insert_ne. intros Heq.
      apply Hnin. rewrite Heq. apply list_elem_of_fmap. exists rel1. auto. }
    apply IH; [exact Hnd| |].
    + apply Forall_forall. intros rel1 Hin1.
      destruct (proj1 (Forall_forall _ _) Hall rel1 Hin1) as (r1 & s1 & H1 & H2).
      exists r1, s1. split; [|exact H2]. rewrite Hother; assumption.
    + destruct Hbad as (rel1 & r1 & s1 & Hin1 & H1 & H2 & H3).
      apply elem_of_cons in Hin1 as [->|Hin1].
      * rewrite Hrela in H1. injection H1 as <-.
        rewrite Hsym in H2. injection H2 as <-.
        fold rela' in H3. congruence.
      * exists rel1, r1, s1. split; [exact Hin1|].
        split; [rewrite Hother; assumption|]. split; assumption.
Qed.


Lemma s64_small x :
  -9223372036854775808 <= x < 9223372036854775808 -> s64 x = x.
Proof. intros H. unfold s64. rewrite Z.mod_small by lia. lia. Qed.


End RelSetupFacts.

Lemma example_rela_syms :
  Forall (fun rela =>
            is_Some (example_symdata
                       !! Z.to_nat (RelSetup.ELF64_R_SYM (Reloc.r_info rela))))
    example_rela.
Proof. repeat constructor; eexists; reflexivity. Qed.

Lemma setup_relbuf_index_witness :
  exists sec',
    RelSetup.setup_relbuf RelSetup.EM_X86_64 0 [7] example_symdata
      (Some (Reloc.SHT_RELA, example_rela))
      {| Reloc.st_value := 0; Reloc.st_shndx := 0 |} example_info_sec
    = Done sec'
    /\ Reloc.relbuf sec'
       = Some [ {| Reloc.ptr := 0; Reloc.addend := 16; Reloc.ndx := 2 |};
                {| Reloc.ptr := 8; Reloc.addend := 20; Reloc.ndx := 0 |} ]
    /\ sorted_by_ptr (default [] (Reloc.relbuf sec')).
Proof.
  eexists. split; [vm_compute; reflexivity|]. split; [reflexivity|].
  refine (proj1 (proj2 (proj2 (proj2
            (setup_relbuf_index RelSetup.EM_X86_64 Reloc.SHT_RELA 0 [7]
               example_symdata example_rela
               {| Reloc.st_value := 0; Reloc.st_shndx := 0 |} example_info_sec _
               eq_refl example_rela_syms _))))).
  vm_compute. reflexivity.
Defined.



(** ** [read_abbrev] and [skip_form] *)

Section AbbrevFacts.

Import Codec Abbrev.

Lemma read_abbrev_loop_eq ptr h :
  read_abbrev_loop ptr h
  = let '(a, ptr1) := read_uleb128 ptr in
    if a =? 0 then Table h
    else
      match h !! a with
      | Some _ => Error "Duplicate DWARF abbreviation"
      | None =>
          let '(tg, ptr2) := read_uleb128 ptr1 in
          match read_attrs (drop 1 ptr2) [] with
          | Unknown_form _ => Error "Unknown DWARF DW_FORM"
          | Attrs ats ptr3 =>
              let '(z, ptr4) := read_uleb128 ptr3 in
              if negb (z =? 0)
              then Error "DWARF abbreviation does not end with 2 zeros"
              else
                read_abbrev_loop ptr4
                  (<[a := {| entry := a; tag := tg; attrs := ats |}]> h)
          end
      end.
Proof.
  funelim (read_abbrev_loop ptr h);
    repeat match goal with
           | E : read_uleb128 _ = _ |- _ => rewrite E
           | E : (_ =? _) = _ |- _ => rewrite E
           | E : _ !! _ = _ |- _ => rewrite E
           | E : read_attrs _ _ = _ |- _ => rewrite E
           end; reflexivity.
Qed.

Lemma read_attrs_sound : forall n ptr acc ats ptr',
  length ptr = n ->
  read_attrs ptr acc = Attrs ats ptr' ->
  exists new,
    ats = acc ++ new
    /\ Forall (fun a => attr a <> 0 /\ known_form (form a) = true) new.
Proof.
  intros n. induction n as [n IH] using lt_wf_ind.
  intros ptr acc ats ptr' Hn H. rewrite read_attrs_eq in H.
  destruct (read_uleb128 ptr) as [a ptr1] eqn:E1.
  apply read_uleb128_length in E1 as [_ Hlt1].
  destruct (Z.eqb_spec a 0) as [|Hne].
  { injection H as <- _. exists []. rewrite app_nil_r. split; [reflexivity|constructor]. }
  specialize (Hlt1 Hne).
  destruct (read_uleb128 ptr1) as [f ptr2] eqn:E2.
  apply read_uleb128_length in E2 as [Hle2 _].
  destruct (known_form f) eqn:Hk; [|discriminate]. cbv zeta in H.
  set (ptr3 := if (f =? DW_FORM_implicit_const)%Z
               then snd (read_uleb128 ptr2) else ptr2) in *.
  assert (Hle3 : (length ptr3 <= length ptr2)%nat).
  { subst ptr3. destruct (f =? DW_FORM_implicit_const)%Z; [|lia].
    destruct (read_uleb128 ptr2) as [v p] eqn:E.
    apply read_uleb128_length in E as [H3 _]. exact H3. }
  destruct (IH (length ptr3) ltac:(lia) ptr3 _ ats ptr' eq_refl H)
    as (new & -> & Hall).
  exists ({| attr := a; form := f |} :: new).
  split; [rewrite <- app_assoc; reflexivity|].
  constructor; [split; assumption|exact Hall].
Qed.

Lemma read_abbrev_loop_sound : forall n ptr h0 h,
  length ptr = n ->
  read_abbrev_loop ptr h0 = Table h ->
  forall k t,
    h !! k = Some t ->
    h0 !! k = Some t
    \/ (entry t = k /\ k <> 0
        /\ Forall (fun a => attr a <> 0 /\ known_form (form a) = true)
             (attrs t)).
Proof.
  intros n. induction n as [n IH] using lt_wf_ind.
  intros ptr h0 h Hn H k t Hk. rewrite read_abbrev_loop_eq in H.
  destruct (read_uleb128 ptr) as [a ptr1] eqn:E1.
  apply read_uleb128_length in E1 as [_ Hlt1].
  destruct (Z.eqb_spec a 0) as [|Hne].
  { injection H as <-. left. exact Hk. }
  specialize (Hlt1 Hne).
  destruct (h0 !! a) eqn:Hfresh; [discriminate|].
  destruct (read_uleb128 ptr1) as [tg ptr2] eqn:E2.
  apply read_uleb128_length in E2 as [Hle2 _].
  destruct (read_attrs (drop 1 ptr2) []) as [ats ptr3|] eqn:Ha; [|discriminate].
  pose proof (read_attrs_length _ _ _ _ _ eq_refl Ha) as Hle3.
  rewrite length_drop in Hle3.
  destruct (read_attrs_sound _ _ _ _ _ eq_refl Ha) as (new & Hats & Hall).
  cbn [app] in Hats. subst new.
  destruct (read_uleb128 ptr3) as [z ptr4] eqn:E4.
  apply read_uleb128_length in E4 as [Hle4 _].
  destruct (negb (z =? 0)); [discriminate|].
  destruct (IH (length ptr4) ltac:(lia) ptr4 _ h eq_refl H k t Hk) as [Hin|Hnew];
    [|right; exact Hnew].
  destruct (decide (k = a)) as [->|Hka].
  - rewrite lookup_insert_eq in Hin. injection Hin as <-.
    right. cbn [entry attrs]. auto.
  - rewrite lookup_insert_ne in Hin by congruence. left. exact Hin.
Qed.

(** X17. A table that [read_abbrev] returns is well formed: every
    abbreviation is found under its own code, no code is 0, no attribute
    name is 0, and every form passed the test of the known forms. *)
Theorem read_abbrev_sound (ptr : list Z) (h : gmap Z abbrev_tag) :
  read_abbrev ptr = Table h ->
  forall k t,
    h !! k = Some t ->
    entry t = k /\ k <> 0
    /\ Forall (fun a => attr a <> 0 /\ known_form (form a) = true) (attrs t).
Proof.
  intros H k t Hk.
  destruct (read_abbrev_loop_sound _ ptr ∅ h eq_refl H k t Hk) as [Hin|Hnew];
    [|exact Hnew].
  rewrite lookup_empty in Hin. discriminate.
Qed.

Lemma read_write_uleb128 v rest :
  0 <= v < 2 ^ 28 -> read_uleb128 (write_uleb128 v ++ rest) = (v, rest).
Proof.
  intros Hv. unfold write_uleb128. rewrite u32_small by lia.
  destruct (write_uleb128_loop_spec v ltac:(lia)) as (Hu & Hval & _).
  pose proof (write_uleb128_length_bound v Hv) as Hlen.
  rewrite (read_uleb128_encoding _ rest Hu), Hval.
  destruct (Nat.leb_spec (length (write_uleb128_loop v)) 4); [reflexivity|lia].
Qed.

Lemma read_uleb128_zero rest : read_uleb128 (0 :: rest) = (0, rest).
Proof. reflexivity. Qed.

Lemma read_attrs_encode const ats : forall i acc rest,
  (forall j a, ats !! j = Some a -> encodable_attr (const (i + j)%nat) a) ->
  read_attrs (encode_attrs const i ats ++ 0 :: rest) acc
  = Attrs (acc ++ ats) rest.
Proof.
  induction ats as [|a ats IH]; intros i acc rest Hall; rewrite read_attrs_eq.
  - cbn [encode_attrs app]. rewrite read_uleb128_zero. cbn.
    rewrite app_nil_r. reflexivity.
  - destruct (Hall 0%nat a eq_refl) as (Ha & Hf & Hk & Hi).
    rewrite Nat.add_0_r in Hi.
    cbn [encode_attrs]. unfold encode_attr at 1. rewrite <- !app_assoc.
    rewrite read_write_uleb128 by lia.
    destruct (Z.eqb_spec (attr a) 0); [lia|].
    rewrite read_write_uleb128 by lia. rewrite Hk. cbv zeta.
    assert (Hnext : forall j b, ats !! j = Some b ->
                      encodable_attr (const (S i + j)%nat) b).
    { intros j b Hj. replace (S i + j)%nat with (i + S j)%nat by lia.
      apply Hall. exact Hj. }
    destruct (Z.eqb_spec (form a) DW_FORM_implicit_const) as [Hc|_].
    + rewrite (read_uleb128_encoding _ _ (Hi Hc)). cbn [snd].
      rewrite (IH (S i) _ _ Hnext). rewrite <- app_assoc.
      destruct a; reflexivity.
    + cbn [app]. rewrite (IH (S i) _ _ Hnext). rewrite <- app_assoc.
      destruct a; reflexivity.
Qed.

Lemma read_abbrev_loop_encode const ts : forall h0 rest,
  Forall (fun tc => encodable const (fst tc)) ts ->
  NoDup (map (fun tc => entry (fst tc)) ts) ->
  (forall tc, tc ∈ ts -> h0 !! entry (fst tc) = None) ->
  exists h,
    read_abbrev_loop (concat (map (encode_abbrev const) ts) ++ 0 :: rest) h0
    = Table h
    /\ (forall tc, tc ∈ ts -> h !! entry (fst tc) = Some (fst tc))
    /\ (forall k, k ∉ map (fun tc => entry (fst tc)) ts -> h !! k = h0 !! k).
Proof.
  induction ts as [|[t c] ts IH]; intros h0 rest Hall Hnd Hfresh;
    rewrite read_abbrev_loop_eq.
  - cbn [map concat app]. rewrite read_uleb128_zero. cbn.
    exists h0. split; [reflexivity|].
    split; [intros tc Hin; apply elem_of_nil in Hin; contradiction|reflexivity].
  - apply Forall_cons in Hall as [(He & Ht & Hats) Hall]. cbn [fst] in *.
    cbn [map fst] in Hnd. apply NoDup_cons in Hnd as [Hnin Hnd].
    cbn [map concat]. unfold encode_abbrev at 1. cbn [fst snd].
    rewrite <- !app_assoc. rewrite read_write_uleb128 by lia.
    destruct (Z.eqb_spec (entry t) 0); [lia|].
    pose proof (Hfresh (t, c) ltac:(left)) as Hft. cbn [fst] in Hft.
    rewrite Hft.
    rewrite read_write_uleb128 by lia.
    cbn [app drop]. rewrite drop_0.
    change (0 :: 0 :: (concat (map (encode_abbrev const) ts) ++ 0 :: rest))
      with (0 :: (0 :: concat (map (encode_abbrev const) ts) ++ 0 :: rest)).
    rewrite (read_attrs_encode _ _ 0%nat [] _ Hats). cbn [app].
    rewrite read_uleb128_zero. cbn [Z.eqb negb].
    replace {| entry := entry t; tag := tag t; attrs := attrs t |} with t
      by (destruct t; reflexivity).
    destruct (IH (<[entry t := t]> h0) rest Hall Hnd) as (h & Hr & Hin & Hout).
    { intros tc Hin. rewrite lookup_insert_ne.
      - apply Hfresh. right. exact Hin.
      - intros Heq. apply Hnin. rewrite Heq.
        apply list_elem_of_fmap. exists tc. auto. }
    exists h. split; [exact Hr|]. split.
    + intros tc Htc. apply elem_of_cons in Htc as [->|Htc]; [|apply Hin; exact Htc].
      cbn [fst]. rewrite (Hout _ Hnin). apply lookup_insert_eq.
    + intros k Hk. cbn [map fst] in Hk. apply not_elem_of_cons in Hk as [Hne Hk].
      rewrite (Hout k Hk). apply lookup_insert_ne. congruence.
Qed.

(** X18. [read_abbrev] reads back what is encoded: on the bytes of a
    list of abbreviations with different codes (numbers that are not 0
    and take at most four bytes, known forms), closed by a zero and
    followed by anything, it returns a table in which every one of these
    abbreviations is found under its code, with its tag and its
    attribute and form pairs in order, and nothing else is.  The forms
    are all that [read_abbrev] knows: a [DW_FORM_implicit_const] pair is
    encoded with its constant behind it, any one LEB128 number, which is
    read over and not kept. *)
Theorem read_abbrev_encode (const : Z -> nat -> list Z)
    (ts : list (abbrev_tag * Z)) (rest : list Z) :
  Forall (fun tc => encodable const (fst tc)) ts ->
  NoDup (map (fun tc => entry (fst tc)) ts) ->
  exists h,
    read_abbrev (concat (map (encode_abbrev const) ts) ++ 0 :: rest) = Table h
    /\ (forall tc, tc ∈ ts -> h !! entry (fst tc) = Some (fst tc))
    /\ (forall k, k ∉ map (fun tc => entry (fst tc)) ts -> h !! k = None).
Proof.
  intros Hall Hnd.
  destruct (read_abbrev_loop_encode const ts ∅ rest Hall Hnd)
    as (h & Hr & Hin & Hout).
  { intros tc _. apply lookup_empty. }
  exists h. split; [exact Hr|]. split; [exact Hin|].
  intros k Hk. rewrite (Hout k Hk). apply lookup_empty.
Qed.

(** A second abbreviation with a code that is in the table already ends
    [read_abbrev]. *)
Lemma read_abbrev_loop_duplicate const t c rest h0 :
  encodable const t -> is_Some (h0 !! entry t) ->
  read_abbrev_loop (encode_abbrev const (t, c) ++ rest) h0
  = Error "Duplicate DWARF abbreviation".
Proof.
  intros (He & _) [t0 Hin]. rewrite read_abbrev_loop_eq.
  unfold encode_abbrev. cbn [fst snd]. rewrite <- !app_assoc.
  rewrite read_write_uleb128 by lia.
  destruct (Z.eqb_spec (entry t) 0); [lia|]. rewrite Hin. reflexivity.
Qed.

Ltac unfold_forms :=
  unfold DW_FORM_addr, DW_FORM_block2, DW_FORM_block4, DW_FORM_data2,
    DW_FORM_data4, DW_FORM_data8, DW_FORM_block, DW_FORM_block1,
    DW_FORM_data1, DW_FORM_flag, DW_FORM_sdata, DW_FORM_udata,
    DW_FORM_ref_addr, DW_FORM_ref1, DW_FORM_ref2, DW_FORM_ref4, DW_FORM_ref8,
    DW_FORM_ref_udata, DW_FORM_indirect, DW_FORM_sec_offset, DW_FORM_exprloc,
    DW_FORM_flag_present, DW_FORM_addrx, DW_FORM_data16, DW_FORM_ref_sig8,
    DW_FORM_implicit_const, DW_FORM_loclistx, DW_FORM_rnglistx,
    DW_FORM_addrx1, DW_FORM_addrx2, DW_FORM_addrx3, DW_FORM_addrx4,
    Info.DW_FORM_string, Info.DW_FORM_strp, Info.DW_FORM_strx,
    Info.DW_FORM_line_strp, Info.DW_FORM_strx1, Info.DW_FORM_strx2,
    Info.DW_FORM_strx3, Info.DW_FORM_strx4 in *.

Lemma skip_form_large e form_ ptr cu :
  44 < form_ ->
  known_form form_ = false
  /\ skip_form e form_ ptr cu = Done (FORM_ERROR, form_, ptr).
Proof.
  intros H. unfold known_form, skip_form. unfold_forms.
  repeat match goal with
         | |- context [form_ =? ?c] =>
             destruct (Z.eqb_spec form_ c) as [E|_]; [exfalso; lia|]
         end.
  destruct (Z.ltb_spec 25 form_); [|lia]. split; reflexivity.
Qed.

Ltac skip_form_case :=
  unfold skip_form; unfold_forms;
  cbn [Z.eqb Pos.eqb orb andb negb];
  repeat match goal with
         | |- context [?a <? ?b] => destruct (Z.ltb_spec a b)
         | |- context [if ?c then _ else _] => destruct c
         | |- context [let '(_, _) := ?x in _] => destruct x eqn:?
         end;
  cbn [fst snd];
  repeat match goal with
         | H : read_uleb128 _ = _ |- _ =>
             apply read_uleb128_length in H as [? _]
         end;
  repeat split;
  try discriminate;
  try (intros [Hk|Hk]; vm_compute in Hk; discriminate);
  try (intros _; right; reflexivity);
  try (intros _; left; vm_compute; reflexivity);
  try (rewrite ?length_drop; lia);
  try (match goal with
       | |- context [read_uleb128 ?p] =>
           let E := fresh "E" in
           destruct (read_uleb128 p) as [? ?] eqn:E;
           apply read_uleb128_length in E as [? _]; cbn [snd]; lia
       end).

(** X19. [skip_form] and [read_abbrev] agree on the forms but for one:
    [skip_form] answers [FORM_ERROR] exactly for the forms that
    [read_abbrev] rejects and for the form 0, which [read_abbrev] lets
    pass; it then leaves the form and the cursor as they are.  It never
    moves the cursor backwards, and it ends the process only on a
    [DW_FORM_block] or [DW_FORM_exprloc] whose length reads as
    [UINT_MAX]. *)
Theorem skip_form_forms (e : ei_data) (form_ : Z) (ptr : list Z)
    (cu : Info.CU) :
  0 <= form_ ->
  match skip_form e form_ ptr cu with
  | Done (r, form', ptr') =>
      (r = FORM_ERROR <-> known_form form_ = false \/ form_ = 0)
      /\ (r = FORM_ERROR -> form' = form_ /\ ptr' = ptr)
      /\ (length ptr' <= length ptr)%nat
  | Exit _ =>
      (form_ = DW_FORM_block \/ form_ = DW_FORM_exprloc)
      /\ UINT_MAX <= fst (read_uleb128 ptr)
  end.
Proof.
  intros H0. destruct (Z.le_gt_cases form_ 44) as [Hle|Hgt].
  2:{ destruct (skip_form_large e form_ ptr cu ltac:(lia)) as [Hk ->].
      split; [|split; [auto|lia]]. split; [left; exact Hk|reflexivity]. }
  assert (Hc : form_ = 0 \/ form_ = 1 \/ form_ = 2 \/ form_ = 3 \/ form_ = 4 \/ form_ = 5 \/ form_ = 6 \/ form_ = 7 \/ form_ = 8 \/ form_ = 9 \/ form_ = 10 \/ form_ = 11 \/ form_ = 12 \/ form_ = 13 \/ form_ = 14 \/ form_ = 15 \/ form_ = 16 \/ form_ = 17 \/ form_ = 18 \/ form_ = 19 \/ form_ = 20 \/ form_ = 21 \/ form_ = 22 \/ form_ = 23 \/ form_ = 24 \/ form_ = 25 \/ form_ = 26 \/ form_ = 27 \/ form_ = 28 \/ form_ = 29 \/ form_ = 30 \/ form_ = 31 \/ form_ = 32 \/ form_ = 33 \/ form_ = 34 \/ form_ = 35 \/ form_ = 36 \/ form_ = 37 \/ form_ = 38 \/ form_ = 39 \/ form_ = 40 \/ form_ = 41 \/ form_ = 42 \/ form_ = 43 \/ form_ = 44) by lia.
  repeat (destruct Hc as [->|Hc]); try subst form_; skip_form_case.
Qed.

End AbbrevFacts.

Lemma read_abbrev_encode_witness :
  let decl_file :=
    {| Abbrev.entry := 2; Abbrev.tag := 0x2e;
       Abbrev.attrs := [ {| Abbrev.attr := 0x3a;
                            Abbrev.form := Abbrev.DW_FORM_implicit_const |};
                         {| Abbrev.attr := 0x03;
                            Abbrev.form := Info.DW_FORM_strp |} ] |} in
  let const (code : Z) (i : nat) : list Z := [0xff; 0x7f] in
  concat (map (encode_abbrev const) [(example_abbrev, 1); (decl_file, 0)])
  = [1; 0x11; 1; 0x03; 0x0e; 0x10; 0x17; 0; 0;
     2; 0x2e; 0; 0x3a; 0x21; 0xff; 0x7f; 0x03; 0x0e; 0; 0]
  /\ exists h,
       Abbrev.read_abbrev
         (concat (map (encode_abbrev const)
                    [(example_abbrev, 1); (decl_file, 0)]) ++ 0 :: [9])
       = Abbrev.Table h
       /\ h !! 1 = Some example_abbrev
       /\ h !! 2 = Some decl_file.
Proof.
  intros decl_file const. split; [reflexivity|].
  destruct (read_abbrev_encode const [(example_abbrev, 1); (decl_file, 0)] [9])
    as (h & Hr & Hin & _).
  - assert (Hattr : forall t, t = example_abbrev \/ t = decl_file ->
              forall i a, Abbrev.attrs t !! i = Some a ->
                          encodable_attr (const (Abbrev.entry t) i) a).
    { intros t Ht i a Ha.
      assert (Hcases : a ∈ Abbrev.attrs t)
        by (apply list_elem_of_lookup; exists i; exact Ha).
      destruct Ht as [-> | ->]; cbn in Hcases;
        repeat (apply elem_of_cons in Hcases as [-> | Hcases];
                [unfold encodable_attr; repeat split;
                 try (vm_compute; congruence); intros _; reflexivity|]);
        apply elem_of_nil in Hcases; contradiction. }
    assert (Henc : forall t, t = example_abbrev \/ t = decl_file ->
                             encodable const t).
    { intros t Ht. split; [|split; [|apply Hattr; exact Ht]];
        destruct Ht as [-> | ->]; vm_compute; split; congruence. }
    constructor; [apply Henc; left; reflexivity|].
    constructor; [apply Henc; right; reflexivity|constructor].
  - decide_by_compute.
  - exists h. split; [exact Hr|]. split.
    + apply (Hin (example_abbrev, 1)). left.
    + apply (Hin (decl_file, 0)). right. left.
Defined.

Lemma skip_form_forms_witness :
  match Abbrev.skip_form ELFDATA2LSB 8 [97; 0; 5] example_cu with
  | Done (r, form', ptr') =>
      (r = Abbrev.FORM_ERROR <-> Abbrev.known_form 8 = false \/ 8 = 0)
      /\ (r = Abbrev.FORM_ERROR -> form' = 8 /\ ptr' = [97; 0; 5])
      /\ (length ptr' <= length [97; 0; 5])%nat
  | Exit _ =>
      (8 = Abbrev.DW_FORM_block \/ 8 = Abbrev.DW_FORM_exprloc)
      /\ UINT_MAX <= fst (Codec.read_uleb128 [97; 0; 5])
  end.
Proof.
  exact (skip_form_forms ELFDATA2LSB 8 [97; 0; 5] example_cu ltac:(lia)).
Defined.

Lemma read_abbrev_sound_witness :
  Abbrev.read_abbrev [1; 0x11; 1; 0x03; 0x0e; 0x10; 0x17; 0; 0; 0]
  = Abbrev.Table (<[1 := example_abbrev]> ∅)
  /\ (<[1 := example_abbrev]> (∅ : gmap Z Abbrev.abbrev_tag)) !! 1
     = Some example_abbrev
  /\ Abbrev.entry example_abbrev = 1 /\ 1 <> 0
  /\ Forall (fun a => Abbrev.attr a <> 0
                      /\ Abbrev.known_form (Abbrev.form a) = true)
       (Abbrev.attrs example_abbrev).
Proof.
  assert (Hr : Abbrev.read_abbrev [1; 0x11; 1; 0x03; 0x0e; 0x10; 0x17; 0; 0; 0]
               = Abbrev.Table (<[1 := example_abbrev]> ∅))
    by (vm_compute; reflexivity).
  assert (Hk : (<[1 := example_abbrev]> (∅ : gmap Z Abbrev.abbrev_tag)) !! 1
               = Some example_abbrev)
    by apply lookup_insert_eq.
  split; [exact Hr|]. split; [exact Hk|].
  exact (read_abbrev_sound _ _ Hr 1 example_abbrev Hk).
Defined.

(** ** The layout of the sections *)

Section LayoutFacts.

Import Layout.

Lemma u64_small x : 0 <= x < 18446744073709551616 -> u64 x = x.
Proof. intros H. unfold u64. apply Z.mod_small. exact H. Qed.

Lemma u64_land x : u64 x = Z.land x (Z.ones 64).
Proof. unfold u64. rewrite Z.land_ones by lia. reflexivity. Qed.

(** The alignment idiom rounds up to a multiple of a power of two. *)
Lemma align_up_spec x a k :
  0 <= k -> a = 2 ^ k -> 0 <= x -> x + a <= 18446744073709551616 ->
  align_up x a = a * ((x + a - 1) / a)
  /\ x <= align_up x a < x + a
  /\ align_up x a mod a = 0.
Proof.
  intros Hk Ha Hx Hfit.
  assert (Hapos : 0 < a) by (subst a; apply Z.pow_pos_nonneg; lia).
  assert (Heq : align_up x a = a * ((x + a - 1) / a)).
  { unfold align_up. rewrite (u64_small (x + a - 1)) by lia.
    rewrite u64_land, (Z.land_comm (Z.lnot (a - 1)) (Z.ones 64)), Z.land_assoc.
    rewrite <- (u64_land (x + a - 1)), (u64_small (x + a - 1)) by lia.
    rewrite <- Z.ldiff_land.
    replace (a - 1) with (Z.ones k) by (rewrite Z.ones_equiv; lia).
    rewrite Z.ldiff_ones_r by lia.
    rewrite Z.shiftr_div_pow2, Z.shiftl_mul_pow2 by lia.
    rewrite <- Ha. lia. }
  rewrite Heq. split; [reflexivity|].
  pose proof (Z.div_mod (x + a - 1) a ltac:(lia)) as Hd.
  pose proof (Z.mod_pos_bound (x + a - 1) a Hapos) as Hm.
  split; [lia|].
  rewrite Z.mul_comm. apply Z.mod_mul. lia.
Qed.

Lemma alignment_max a :
  alignment a ->
  (if a =? 0 then 1 else a) = Z.max 1 a
  /\ exists k, 0 <= k /\ Z.max 1 a = 2 ^ k.
Proof.
  intros [->|(k & Hk & ->)].
  - split; [reflexivity|]. exists 0. split; [lia|reflexivity].
  - assert (0 < 2 ^ k) by (apply Z.pow_pos_nonneg; lia).
    destruct (Z.eqb_spec (2 ^ k) 0); [lia|].
    split; [lia|]. exists k. split; [lia|lia].
Qed.

Lemma new_size_nonneg d secnum shdr :
  0 <= str_size d -> 0 <= line_str_size d -> 0 <= line_size d ->
  0 <= sh_size shdr -> 0 <= new_size d secnum shdr.
Proof.
  intros. unfold new_size.
  destruct (secnum =? line_sec d); [assumption|].
  destruct (secnum =? line_str_sec d); [assumption|].
  destruct (secnum =? str_sec d); assumption.
Qed.

Lemma budget_nonneg d shdrs : forall secnum,
  0 <= str_size d -> 0 <= line_str_size d -> 0 <= line_size d ->
  Forall (fun s => 0 <= sh_size s) shdrs ->
  0 <= budget d shdrs secnum.
Proof.
  induction shdrs as [|s shdrs IH]; intros secnum H1 H2 H3 Hall; [reflexivity|].
  apply Forall_cons in Hall as [Hs Hall]. cbn [budget].
  pose proof (IH (secnum + 1) H1 H2 H3 Hall).
  pose proof (new_size_nonneg d secnum s H1 H2 H3 Hs).
  destruct (allocated s); lia.
Qed.

Lemma last_allocated_spec shdrs : forall last,
  Forall (fun s => 0 <= sh_offset s /\ 0 <= sh_size s
                   /\ sh_offset s + sh_size s < 18446744073709551616) shdrs ->
  last <= last_allocated shdrs last
  /\ forall s, s ∈ shdrs -> allocated s = true ->
       sh_offset s + occupied s <= last_allocated shdrs last.
Proof.
  induction shdrs as [|s shdrs IH]; intros last Hall.
  - split; [reflexivity|]. intros s Hin. apply elem_of_nil in Hin. contradiction.
  - apply Forall_cons in Hall as [(Ho & Hs & Hfit) Hall].
    cbn [last_allocated]. cbv zeta.
    set (last1 := if allocated s then _ else last).
    destruct (IH last1 Hall) as [Hle Hin].
    assert (Hoff : u64 (sh_offset s
                        + (if negb (sh_type s =? SHT_NOBITS) then sh_size s else 0))
                   = sh_offset s + occupied s).
    { unfold occupied. destruct (sh_type s =? SHT_NOBITS); cbn [negb];
        apply u64_small; lia. }
    assert (H1 : last <= last1
                 /\ (allocated s = true -> sh_offset s + occupied s <= last1)).
    { subst last1. destruct (allocated s); [|split; [lia|discriminate]].
      rewrite Hoff.
      destruct (Z.ltb_spec last (sh_offset s + occupied s)); split; intros; lia. }
    split; [lia|]. intros s0 Hs0 Ha. apply elem_of_cons in Hs0 as [->|Hs0].
    + destruct H1 as [_ H1]. specialize (H1 Ha). lia.
    + apply Hin; assumption.
Qed.

(** The second loop: every section that is not allocated is placed
    behind what came before it. *)
Lemma place_sections_spec d :
  0 <= str_size d -> 0 <= line_str_size d -> 0 <= line_size d ->
  forall shdrs secnum last,
    0 <= last ->
    Forall (fun s => 0 <= sh_size s /\ alignment (sh_addralign s)) shdrs ->
    last + budget d shdrs secnum < 18446744073709551616 ->
    let placed := fst (place_sections d shdrs secnum last) in
    let last' := snd (place_sections d shdrs secnum last) in
    length placed = length shdrs
    /\ last <= last' <= last + budget d shdrs secnum
    /\ (forall i s, shdrs !! i = Some s ->
          exists s' dirty,
            placed !! i = Some (s', dirty)
            /\ sh_type s' = sh_type s /\ sh_flags s' = sh_flags s
            /\ sh_addralign s' = sh_addralign s
            /\ (allocated s = true -> s' = s /\ dirty = false)
            /\ (allocated s = false ->
                sh_size s' = new_size d (secnum + Z.of_nat i) s
                /\ last <= sh_offset s'
                /\ sh_offset s' mod Z.max 1 (sh_addralign s) = 0
                /\ sh_offset s' + occupied s' <= last'
                /\ (dirty = true <->
                    sh_offset s' <> sh_offset s /\ sh_type s <> SHT_NOBITS)))
    /\ (forall i j si sj di dj,
          (i < j)%nat ->
          placed !! i = Some (si, di) -> placed !! j = Some (sj, dj) ->
          allocated si = false -> allocated sj = false ->
          sh_offset si + occupied si <= sh_offset sj).
Proof.
  intros Hd1 Hd2 Hd3.
  induction shdrs as [|s shdrs IH]; intros secnum last Hlast Hall Hfit; cbv zeta.
  - cbn [place_sections fst snd budget length]. split; [reflexivity|].
    split; [lia|]. split.
    + intros i s Hi. rewrite lookup_nil in Hi. discriminate.
    + intros i j si sj di dj _ Hi. rewrite lookup_nil in Hi. discriminate.
  - apply Forall_cons in Hall as [(Hs & Halign) Hall].
    assert (Hsizes : Forall (fun s => 0 <= sh_size s) shdrs)
      by (eapply Forall_impl; [exact Hall|]; cbv beta; tauto).
    pose proof (budget_nonneg d shdrs (secnum + 1) Hd1 Hd2 Hd3 Hsizes) as Hbn.
    pose proof (new_size_nonneg d secnum s Hd1 Hd2 Hd3 Hs) as Hnn.
    cbn [budget] in Hfit |- *. cbn [place_sections]. cbv zeta.
    destruct (allocated s) eqn:Halloc; cbn [negb].
    + specialize (IH (secnum + 1) last Hlast Hall ltac:(lia)). cbv zeta in IH.
      destruct (place_sections d shdrs (secnum + 1) last) as [placed last'].
      cbn [fst snd] in *. destruct IH as (Hlen & Hb & Hsec & Hpair).
      split; [cbn [length]; lia|]. split; [lia|]. split.
      * intros [|i] s0 Hi.
        -- cbn in Hi. injection Hi as <-. exists s, false.
           split; [reflexivity|]. split; [reflexivity|]. split; [reflexivity|].
           split; [reflexivity|]. split; [intros _; split; reflexivity|].
           rewrite ?Halloc. discriminate.
        -- cbn in Hi. destruct (Hsec i s0 Hi) as (s' & dirty & Hp & Hrest).
           exists s', dirty. split; [exact Hp|].
           replace (secnum + Z.of_nat (S i)) with (secnum + 1 + Z.of_nat i) by lia.
           exact Hrest.
      * intros [|i] [|j] si sj di dj Hij Hi Hj Hai Haj; try lia.
        -- cbn in Hi. injection Hi as <- <-. congruence.
        -- cbn in Hi, Hj. apply (Hpair i j si sj di dj); try assumption. lia.
    + destruct (alignment_max _ Halign) as [Hal (k & Hk & Hpow)].
      rewrite Hal.
      set (a := Z.max 1 (sh_addralign s)) in *.
      assert (Ha1 : 1 <= a) by (subst a; lia).
      destruct (align_up_spec last a k Hk Hpow Hlast ltac:(lia))
        as (_ & Hrange & Hmod).
      set (off := align_up last a) in *.
      set (size := new_size d secnum s) in *.
      set (last1 := if negb (sh_type s =? SHT_NOBITS) then u64 (off + size)
                    else off).
      assert (Hlast1 : last1 = off + (if sh_type s =? SHT_NOBITS then 0 else size)).
      { subst last1. destruct (sh_type s =? SHT_NOBITS); cbn [negb]; [lia|].
        apply u64_small. lia. }
      assert (Hl1 : off <= last1 <= off + size)
        by (rewrite Hlast1; destruct (sh_type s =? SHT_NOBITS); lia).
      specialize (IH (secnum + 1) last1 ltac:(lia) Hall ltac:(lia)).
      cbv zeta in IH.
      destruct (place_sections d shdrs (secnum + 1) last1) as [placed last'].
      cbn [fst snd] in *. destruct IH as (Hlen & Hb & Hsec & Hpair).
      set (changed := negb (sh_size s =? size) || negb (sh_offset s =? off)).
      set (s1 := if changed
                 then {| sh_type := sh_type s; sh_flags := sh_flags s;
                         sh_offset := off; sh_size := size;
                         sh_addralign := sh_addralign s |}
                 else s).
      assert (Hs1 : sh_type s1 = sh_type s /\ sh_flags s1 = sh_flags s
                    /\ sh_addralign s1 = sh_addralign s
                    /\ sh_size s1 = size /\ sh_offset s1 = off).
      { subst s1 changed.
        destruct (Z.eqb_spec (sh_size s) size), (Z.eqb_spec (sh_offset s) off);
          cbn [negb orb sh_type sh_flags sh_addralign sh_size sh_offset];
          repeat split; congruence. }
      destruct Hs1 as (Ht1 & Hf1 & Ha1' & Hsz1 & Ho1).
      assert (Hocc1 : sh_offset s1 + occupied s1 = last1).
      { unfold occupied. rewrite Ht1, Hsz1, Ho1, Hlast1. reflexivity. }
      split; [cbn [length]; lia|]. split; [lia|]. split.
      * intros [|i] s0 Hi.
        -- cbn in Hi. injection Hi as <-. eexists s1, _.
           split; [reflexivity|]. split; [exact Ht1|]. split; [exact Hf1|].
           split; [exact Ha1'|]. split; [rewrite ?Halloc; discriminate|].
           intros _. rewrite Z.add_0_r. split; [exact Hsz1|].
           rewrite Ho1. split; [lia|]. split; [exact Hmod|].
           split; [rewrite <- Ho1, Hocc1; lia|].
           subst changed.
           destruct (Z.eqb_spec (sh_size s) size), (Z.eqb_spec (sh_offset s) off),
             (Z.eqb_spec (sh_type s) SHT_NOBITS);
             cbn [negb orb andb];
             (split; [intros Hbool; try discriminate; split; congruence
                     |intros [Hx Hy]; try reflexivity; congruence]).
        -- cbn in Hi. destruct (Hsec i s0 Hi)
             as (s' & dirty & Hp & Ht & Hf & Ha & Hal' & Hun).
           exists s', dirty. split; [exact Hp|]. split; [exact Ht|].
           split; [exact Hf|]. split; [exact Ha|]. split; [exact Hal'|].
           intros Hu. destruct (Hun Hu) as (H1 & H2 & H3 & H4 & H5).
           replace (secnum + Z.of_nat (S i)) with (secnum + 1 + Z.of_nat i) by lia.
           split; [exact H1|]. split; [lia|]. split; [exact H3|].
           split; [lia|exact H5].
      * intros [|i] [|j] si sj di dj Hij Hi Hj Hai Haj; try lia.
        -- cbn in Hi. injection Hi as <- <-.
           change (placed !! j = Some (sj, dj)) in Hj.
           assert (Hj' : exists s0, shdrs !! j = Some s0).
           { apply lookup_lt_is_Some. rewrite <- Hlen.
             apply lookup_lt_Some in Hj. exact Hj. }
           destruct Hj' as [s0 Hs0].
           destruct (Hsec j s0 Hs0) as (s' & dirty & Hp & _ & Hf & _ & _ & Hun).
           rewrite Hj in Hp. injection Hp as <- <-.
           assert (Hu0 : allocated s0 = false)
             by (unfold allocated in *; rewrite <- Hf; exact Haj).
           destruct (Hun Hu0) as (_ & H2 & _). lia.
        -- cbn in Hi, Hj. apply (Hpair i j si sj di dj); try assumption. lia.
Qed.

(** X20. The layout [main] gives a file with program headers: the
    allocated sections keep their headers and their data is not flagged;
    every other section gets its (new) size and an offset that is a
    multiple of its alignment, behind the program headers and behind
    every allocated section, and behind the section that was placed
    before it, so no two of them overlap; its data is flagged dirty
    exactly when it has bytes in the file and its offset changed; and the
    section header table is put, aligned, behind them all.  The
    alignments are 0 or powers of two and nothing reaches 2^64. *)
Theorem layout_no_overlap (d : debug_sizes) (shdrs : list GElf_Shdr)
    (after_phdrs offsize : Z) :
  0 <= str_size d -> 0 <= line_str_size d -> 0 <= line_size d ->
  0 <= after_phdrs ->
  offsize = 4 \/ offsize = 8 ->
  Forall (fun s => 0 <= sh_offset s /\ 0 <= sh_size s
                   /\ sh_offset s + sh_size s < 18446744073709551616
                   /\ alignment (sh_addralign s)) shdrs ->
  let first := last_allocated shdrs after_phdrs in
  first + budget d shdrs 1 + offsize <= 18446744073709551616 ->
  let placed := fst (layout d shdrs after_phdrs offsize) in
  let e_shoff := snd (layout d shdrs after_phdrs offsize) in
  length placed = length shdrs
  /\ after_phdrs <= first
  /\ (forall i s, shdrs !! i = Some s -> allocated s = true ->
        placed !! i = Some (s, false) /\ sh_offset s + occupied s <= first)
  /\ (forall i s, shdrs !! i = Some s -> allocated s = false ->
        exists s' dirty,
          placed !! i = Some (s', dirty)
          /\ sh_type s' = sh_type s /\ sh_flags s' = sh_flags s
          /\ sh_addralign s' = sh_addralign s
          /\ sh_size s' = new_size d (1 + Z.of_nat i) s
          /\ first <= sh_offset s'
          /\ sh_offset s' mod Z.max 1 (sh_addralign s) = 0
          /\ sh_offset s' + occupied s' <= e_shoff
          /\ (dirty = true <->
              sh_offset s' <> sh_offset s /\ sh_type s <> SHT_NOBITS))
  /\ (forall i j si sj di dj,
        (i < j)%nat ->
        placed !! i = Some (si, di) -> placed !! j = Some (sj, dj) ->
        allocated si = false -> allocated sj = false ->
        sh_offset si + occupied si <= sh_offset sj)
  /\ e_shoff mod offsize = 0.
Proof.
  intros Hd1 Hd2 Hd3 Hstart Hoff Hall first Hfit. cbv zeta.
  assert (Hall1 : Forall (fun s => 0 <= sh_offset s /\ 0 <= sh_size s
                            /\ sh_offset s + sh_size s < 18446744073709551616)
                    shdrs)
    by (eapply Forall_impl; [exact Hall|]; cbv beta; tauto).
  assert (Hall2 : Forall (fun s => 0 <= sh_size s /\ alignment (sh_addralign s))
                    shdrs)
    by (eapply Forall_impl; [exact Hall|]; cbv beta; tauto).
  assert (Hsizes : Forall (fun s => 0 <= sh_size s) shdrs)
    by (eapply Forall_impl; [exact Hall|]; cbv beta; tauto).
  destruct (last_allocated_spec shdrs after_phdrs Hall1) as [Hfirst Halloc].
  fold first in Hfirst, Halloc.
  pose proof (budget_nonneg d shdrs 1 Hd1 Hd2 Hd3 Hsizes) as Hbn.
  assert (Hoffpos : 0 < offsize) by (destruct Hoff; lia).
  pose proof (place_sections_spec d Hd1 Hd2 Hd3 shdrs 1 first ltac:(lia) Hall2
                ltac:(lia)) as Hplace.
  cbv zeta in Hplace. unfold layout. fold first.
  destruct (place_sections d shdrs 1 first) as [placed last'].
  cbn [fst snd] in *. destruct Hplace as (Hlen & Hb & Hsec & Hpair).
  assert (Hk : exists k, 0 <= k /\ offsize = 2 ^ k).
  { destruct Hoff as [->| ->]; [exists 2|exists 3]; split; try lia; reflexivity. }
  destruct Hk as (k & Hk & Hpow).
  destruct (align_up_spec last' offsize k Hk Hpow ltac:(lia) ltac:(lia))
    as (_ & Hrange & Hmod).
  split; [exact Hlen|]. split; [exact Hfirst|]. split; [|split; [|split]].
  - intros i s Hi Ha. destruct (Hsec i s Hi) as (s' & dirty & Hp & _ & _ & _ & Hal & _).
    destruct (Hal Ha) as [-> ->]. split; [exact Hp|].
    apply Halloc; [|exact Ha]. apply list_elem_of_lookup. exists i. exact Hi.
  - intros i s Hi Ha.
    destruct (Hsec i s Hi) as (s' & dirty & Hp & Ht & Hf & Hal & _ & Hun).
    destruct (Hun Ha) as (H1 & H2 & H3 & H4 & H5).
    exists s', dirty. split; [exact Hp|]. split; [exact Ht|]. split; [exact Hf|].
    split; [exact Hal|]. split; [exact H1|]. split; [exact H2|].
    split; [exact H3|]. split; [lia|exact H5].
  - exact Hpair.
  - exact Hmod.
Qed.

End LayoutFacts.

Lemma layout_no_overlap_witness :
  map (fun p => (Layout.sh_offset (fst p), Layout.sh_size (fst p), snd p))
    (fst (Layout.layout example_sizes example_shdrs 64 8))
  = [(64, 10, false); (74, 33, false); (107, 17, true); (128, 48, true)]
  /\ snd (Layout.layout example_sizes example_shdrs 64 8) mod 8 = 0.
Proof.
  split; [vm_compute; reflexivity|].
  refine (proj2 (proj2 (proj2 (proj2 (proj2
            (layout_no_overlap example_sizes example_shdrs 64 8 _ _ _ _ _ _ _)))))).
  - vm_compute. discriminate.
  - vm_compute. discriminate.
  - vm_compute. discriminate.
  - lia.
  - right. reflexivity.
  - unfold example_shdrs.
    repeat (apply Forall_cons; split;
            [cbn [Layout.sh_offset Layout.sh_size Layout.sh_addralign];
             split; [lia|split; [lia|split; [lia|right]]]|]);
      try apply Forall_nil;
      first [exact I
            |exists 4; split; [lia|reflexivity]
            |exists 0; split; [lia|reflexivity]
            |exists 3; split; [lia|reflexivity]].
  - vm_compute. discriminate.
Defined.

(** ** The archive classifier *)

Section ClassifyFacts.

Import Path ClassifyAr.

Lemma strncmp_eq_iff a b :
  0 ∉ b ->
  strncmp_eq a b (strlen b) = true <-> take (length b) a = b.
Proof.
  intros Hb. rewrite (strlen_nul_free b Hb). split.
  - intros H. apply strncmp_eq_take in H as [Ht _];
      [|rewrite (strlen_nul_free b Hb); lia].
    rewrite Ht. apply firstn_all.
  - intros H. rewrite <- (take_drop (length b) a), H.
    rewrite <- (c_str_nul_free b Hb) at 1.
    rewrite <- (strlen_nul_free b Hb). apply strncmp_eq_prefix.
Qed.

Lemma debug_name_test s :
  strncmp_eq s (bytes_of_string ".debug_") (strlen (bytes_of_string ".debug_"))
  || strncmp_eq s (bytes_of_string ".zdebug_")
       (strlen (bytes_of_string ".zdebug_")) = true
  <-> debug_name s.
Proof.
  rewrite orb_true_iff. unfold debug_name.
  rewrite (strncmp_eq_iff s (bytes_of_string ".debug_"))
    by decide_by_compute.
  rewrite (strncmp_eq_iff s (bytes_of_string ".zdebug_"))
    by decide_by_compute.
  reflexivity.
Qed.

Lemma classify_scns_spec scns : forall found,
  let r := classify_scns scns found in
  (r = -1 \/ r = 0 \/ r = 1)
  /\ (r = -1 <-> exists scn, scn ∈ scns /\ (shdr scn = false \/ sname scn = None))
  /\ (r = 1 <->
      Forall (fun scn => shdr scn = true /\ is_Some (sname scn)) scns
      /\ (found = true
          \/ exists scn s, scn ∈ scns /\ sname scn = Some s /\ debug_name s)).
Proof.
  induction scns as [|scn scns IH]; intros found; cbv zeta.
  - cbn [classify_scns]. destruct found.
    + split; [tauto|]. split.
      * split; [discriminate|]. intros (scn & Hin & _).
        apply elem_of_nil in Hin. contradiction.
      * split; [intros _; split; [constructor|left; reflexivity]|reflexivity].
    + split; [tauto|]. split.
      * split; [discriminate|]. intros (scn & Hin & _).
        apply elem_of_nil in Hin. contradiction.
      * split; [discriminate|]. intros [_ [H|(scn & s & Hin & _)]];
          [discriminate|]. apply elem_of_nil in Hin. contradiction.
  - cbn [classify_scns]. destruct (shdr scn) eqn:Hs; cbn [negb].
    2:{ split; [tauto|]. split.
        - split; [|reflexivity]. intros _. exists scn. split; [left|]. auto.
        - split; [discriminate|]. intros [Hall _].
          apply Forall_cons in Hall as [[Hx _] _]. congruence. }
    destruct (sname scn) as [s|] eqn:Hn.
    2:{ split; [tauto|]. split.
        - split; [|reflexivity]. intros _. exists scn. split; [left|]. auto.
        - split; [discriminate|]. intros [Hall _].
          apply Forall_cons in Hall as [[_ [x Hx]] _]. congruence. }
    cbv zeta.
    match goal with
    | |- context [classify_scns scns ?f] => set (found' := f)
    end.
    destruct (IH found') as (Hr & Herr & Hone). cbv zeta in Hr, Herr, Hone.
    split; [exact Hr|]. split.
    + rewrite Herr. split.
      * intros (scn' & Hin & Hbad). exists scn'. split; [right; exact Hin|exact Hbad].
      * intros (scn' & Hin & Hbad). apply elem_of_cons in Hin as [->|Hin].
        -- destruct Hbad; congruence.
        -- exists scn'. auto.
    + rewrite Hone. rewrite Forall_cons.
      assert (Hfound : found' = true <-> found = true \/ debug_name s).
      { subst found'. rewrite <- debug_name_test.
        destruct (_ || _); destruct found; intuition congruence. }
      rewrite Hfound. split.
      * intros [Hall Hf]. split; [split; [split; [exact Hs|exists s; exact Hn]|exact Hall]|].
        destruct Hf as [[Hf|Hd]|(scn' & s' & Hin & Hs' & Hd)].
        -- left. exact Hf.
        -- right. exists scn, s. split; [left|]. auto.
        -- right. exists scn', s'. split; [right; exact Hin|]. auto.
      * intros [[_ Hall] Hf]. split; [exact Hall|].
        destruct Hf as [Hf|(scn' & s' & Hin & Hs' & Hd)]; [left; left; exact Hf|].
        apply elem_of_cons in Hin as [->|Hin].
        -- left. right. rewrite Hn in Hs'. injection Hs' as <-. exact Hd.
        -- right. exists scn', s'. auto.
Qed.

(** X21. [classify_ar_member] answers 1 exactly for an ELF member with
    sections whose section headers and section names can all be read and
    one of whose sections has a name that starts with ".debug_" or
    ".zdebug_"; it answers -1 exactly when libelf fails on the ELF member
    (the number of sections, the string table index, or a header or name
    of some section, also behind a debug section); otherwise 0. *)
Theorem classify_ar_member_spec (member : Elf) :
  let r := classify_ar_member member in
  let walked :=
    is_elf member = true
    /\ (exists n, shdrnum member = Some n /\ n <> 0)
    /\ shdrstrndx member = true in
  (r = -1 \/ r = 0 \/ r = 1)
  /\ (r = 1 <->
      walked
      /\ Forall (fun scn => shdr scn = true /\ is_Some (sname scn)) (scns member)
      /\ exists scn s, scn ∈ scns member /\ sname scn = Some s /\ debug_name s)
  /\ (r = -1 <->
      is_elf member = true
      /\ (shdrnum member = None
          \/ ((exists n, shdrnum member = Some n /\ n <> 0)
              /\ (shdrstrndx member = false
                  \/ exists scn, scn ∈ scns member
                                 /\ (shdr scn = false \/ sname scn = None))))).
Proof.
  cbv zeta. unfold classify_ar_member.
  destruct (is_elf member); cbn [negb].
  2:{ split; [tauto|]. split; split; try discriminate.
      - intros [[? _] _]. discriminate.
      - intros [? _]. discriminate. }
  destruct (shdrnum member) as [n|].
  2:{ split; [tauto|]. split; split; try discriminate.
      - intros [(_ & (n & Hn & _) & _) _]. discriminate.
      - intros _. split; [reflexivity|left; reflexivity].
      - reflexivity. }
  destruct (Z.eqb_spec n 0) as [->|Hn].
  { split; [tauto|]. split; split; try discriminate.
    - intros [(_ & (n & Hn & Hne) & _) _]. congruence.
    - intros [_ [?|[(n & Hn & Hne) _]]]; congruence. }
  destruct (shdrstrndx member); cbn [negb].
  2:{ split; [tauto|]. split; split; try discriminate.
      - intros [(_ & _ & ?) _]. discriminate.
      - intros _. split; [reflexivity|]. right.
        split; [exists n; auto|left; reflexivity].
      - reflexivity. }
  destruct (classify_scns_spec (scns member) false) as (Hr & Herr & Hone).
  cbv zeta in Hr, Herr, Hone. split; [exact Hr|]. split.
  - rewrite Hone. split.
    + intros [Hall [?|Hd]]; [discriminate|].
      split; [split; [reflexivity|split; [exists n; auto|reflexivity]]|].
      split; assumption.
    + intros (_ & Hall & Hd). split; [exact Hall|right; exact Hd].
  - rewrite Herr. split.
    + intros Hbad. split; [reflexivity|]. right.
      split; [exists n; auto|right; exact Hbad].
    + intros [_ [?|[_ [?|Hbad]]]]; try discriminate. exact Hbad.
Qed.

Lemma classify_ar_member_range member :
  let r := classify_ar_member member in r = -1 \/ r = 0 \/ r = 1.
Proof.
  cbv zeta. unfold classify_ar_member.
  destruct (is_elf member); cbn [negb]; [|tauto].
  destruct (shdrnum member) as [n|]; [|tauto].
  destruct (n =? 0); [tauto|].
  destruct (shdrstrndx member); cbn [negb]; [|tauto].
  apply (classify_scns_spec (scns member) false).
Qed.

Lemma classify_members_spec ar : forall n found,
  let '(n', err, found') := classify_members ar n found in
  (err = false <-> Forall member_ok ar)
  /\ (err = false ->
      n' = n + Z.of_nat (length ar)
      /\ (found' = true <->
          found = true
          \/ exists m, m ∈ ar /\ classify_ar_member (elf m) = 1)).
Proof.
  induction ar as [|m ar IH]; intros n found.
  - cbn [classify_members]. split; [split; [constructor|reflexivity]|].
    intros _. cbn [length]. split; [lia|]. split; [tauto|].
    intros [H|(m & Hin & _)]; [exact H|].
    apply elem_of_nil in Hin. contradiction.
  - cbn [classify_members].
    destruct (arhdr m) eqn:Ha; cbn [negb].
    2:{ split; [|discriminate]. split; [discriminate|].
        intros Hall. apply Forall_cons in Hall as [(Hx & _) _]. congruence. }
    cbv zeta. pose proof (classify_ar_member_range (elf m)) as Hrange.
    cbv zeta in Hrange. set (res := classify_ar_member (elf m)) in *.
    destruct (elf_end m) eqn:He; cbn [negb].
    2:{ split; [|discriminate]. split; [discriminate|].
        intros Hall. apply Forall_cons in Hall as [(_ & _ & Hx) _]. congruence. }
    destruct (Z.ltb_spec res 0) as [Hneg|Hpos].
    { split; [|discriminate]. split; [discriminate|].
      intros Hall. apply Forall_cons in Hall as [(_ & Hx & _) _].
      fold res in Hx. lia. }
    cbn [negb andb].
    match goal with
    | |- context [classify_members ar (n + 1) ?f] => set (found1 := f)
    end.
    specialize (IH (n + 1) found1).
    destruct (classify_members ar (n + 1) found1) as [[n' err] found'].
    destruct IH as [Herr Hrest]. split.
    + rewrite Herr, Forall_cons. unfold member_ok at 1. fold res.
      split; [intros Hall; split; [split; [exact Ha|split; [lia|exact He]]|exact Hall]
             |intros [_ Hall]; exact Hall].
    + intros Hno. destruct (Hrest Hno) as [Hn Hf].
      split; [cbn [length]; lia|]. rewrite Hf.
      assert (Hf1 : found1 = true <-> found = true \/ res = 1).
      { subst found1. destruct (Z.ltb_spec 0 res); destruct found;
          split; intros; try reflexivity; try tauto; try lia;
          try (right; lia); try (left; reflexivity). }
      rewrite Hf1. split.
      * intros [[Hx|Hx]|(m' & Hin & Hm')].
        -- left. exact Hx.
        -- right. exists m. split; [left|exact Hx].
        -- right. exists m'. split; [right; exact Hin|exact Hm'].
      * intros [Hx|(m' & Hin & Hm')]; [left; left; exact Hx|].
        apply elem_of_cons in Hin as [->|Hin].
        -- left. right. exact Hm'.
        -- right. exists m'. auto.
Qed.

(** X22. [classify_ar_elf] accepts an archive (returns 0) exactly when
    every member is gone through without an error (its header is there,
    [classify_ar_member] does not answer -1, [elf_end] returns 0), some
    member has debug sections, and, for a positive [max_members], the
    archive has no more members than that, counting the members without
    debug sections as well; otherwise it returns -1. *)
Theorem classify_ar_elf_spec (max_members : Z) (ar : list ar_member) :
  let r := classify_ar_elf max_members ar in
  (r = 0 \/ r = -1)
  /\ (r = 0 <->
      Forall member_ok ar
      /\ (exists m, m ∈ ar /\ classify_ar_member (elf m) = 1)
      /\ (max_members <= 0 \/ Z.of_nat (length ar) <= max_members)).
Proof.
  cbv zeta. unfold classify_ar_elf.
  pose proof (classify_members_spec ar 0 false) as H.
  destruct (classify_members ar 0 false) as [[n err] found].
  destruct H as [Herr Hrest].
  destruct err.
  { split; [tauto|]. split; [discriminate|].
    intros [Hall _]. apply Herr in Hall. discriminate. }
  destruct (Hrest eq_refl) as [Hn Hf].
  destruct found; cbn [negb].
  2:{ split; [tauto|]. split; [discriminate|].
      intros (_ & Hm & _). assert (false = true) by (apply Hf; right; exact Hm).
      discriminate. }
  assert (Hm : exists m, m ∈ ar /\ classify_ar_member (elf m) = 1).
  { destruct (proj1 Hf eq_refl) as [?|?]; [discriminate|assumption]. }
  destruct (Z.ltb_spec 0 max_members), (Z.ltb_spec max_members n);
    cbn [andb]; (split; [tauto|]); split; try discriminate; try reflexivity.
  - intros (_ & _ & [?|?]); lia.
  - intros _. split; [apply Herr; reflexivity|]. split; [exact Hm|right; lia].
  - intros _. split; [apply Herr; reflexivity|]. split; [exact Hm|left; lia].
  - intros _. split; [apply Herr; reflexivity|]. split; [exact Hm|left; lia].
Qed.

End ClassifyFacts.

(** ** Reading a relocated word after [setup_relbuf] *)

Section RelReadFacts.

Import Reloc RelSetup.

Variable e_machine : Z.
Variable sh_type : Z.
Variable base : Z.
Variable debug_secs : list Z.
Variable symdata : list GElf_Sym.

(** X23. A relocated word is read with its relocation applied: after
    [setup_relbuf], [do_read_32_relocated] at the place of an entry that
    passed the tests of the loop (and is the only such entry for that
    place) returns the value of the symbol plus the addend, as a 32-bit
    value; the addend is the entry's [r_addend] for RELA and the word in
    the section for REL.  At a place without such an entry it returns the
    word in the section. *)
Theorem read_32_relocated_after_setup (e : ei_data) (ents : list GElf_Rela)
    (sym : GElf_Sym) (sec sec' : debug_section) :
  relbuf sec = None ->
  Forall (fun rela =>
            is_Some (symdata !! Z.to_nat (ELF64_R_SYM (r_info rela)))) ents ->
  setup_relbuf e_machine base debug_secs symdata (Some (sh_type, ents)) sym sec
  = Done sec' ->
  let kept i rela sym' rel :=
    ents !! i = Some rela
    /\ symdata !! Z.to_nat (ELF64_R_SYM (r_info rela)) = Some sym'
    /\ setup_relbuf_entry e_machine sh_type base debug_secs sym' i
         (get_rela sh_type rela) = Keep rel in
  (forall i rela sym' rel,
      kept i rela sym' rel ->
      (forall j rela_j sym_j rel_j,
          kept j rela_j sym_j rel_j -> ptr rel_j = ptr rel -> j = i) ->
      let xptr := u64 (r_offset rela - base) in
      let in_place := do_read_32 e (drop (Z.to_nat xptr) (data sec)) in
      fst (do_read_32_relocated e xptr sec')
      = if sh_type =? SHT_REL
        then u32 (in_place + u32 (st_value sym'))
        else u32 (r_addend rela + st_value sym'))
  /\ (forall xptr,
         (forall i rela sym' rel, kept i rela sym' rel -> ptr rel <> xptr) ->
         fst (do_read_32_relocated e xptr sec')
         = do_read_32 e (drop (Z.to_nat xptr) (data sec))).
Proof.
  intros Hnone Hsyms H kept.
  destruct (setup_relbuf_spec e_machine sh_type base debug_secs symdata ents sym
              sec sec' Hnone Hsyms H)
    as (Hdata & Hrt & _ & Hsorted & Hnd & Hnil & Hiff).
  cbv zeta in Hsorted, Hnd, Hnil, Hiff.
  assert (Hkept : forall rel,
             rel ∈ default [] (relbuf sec') <->
             exists rela sym', kept (ndx rel) rela sym' rel).
  { intros rel. apply Hiff. }
  split.
  - intros i rela sym' rel Hk Huniq xptr in_place.
    pose proof Hk as (Hi & Hsy & Hkeep).
    pose proof (setup_relbuf_entry_Keep _ _ _ _ _ _ _ _ Hkeep) as Hrel.
    assert (Hndx : ndx rel = i) by (rewrite Hrel; reflexivity).
    assert (Hptr : ptr rel = xptr).
    { rewrite Hrel. cbn [ptr]. subst xptr.
      unfold get_rela. destruct (sh_type =? SHT_REL); reflexivity. }
    assert (Hin : rel ∈ default [] (relbuf sec')).
    { apply Hkept. exists rela, sym'. rewrite Hndx. exact Hk. }
    destruct (relbuf sec') as [relptr|] eqn:Hbuf.
    2:{ apply elem_of_nil in Hin. contradiction. }
    change (default [] (Some relptr)) with relptr in *.
    unfold do_read_32_relocated. rewrite Hbuf. cbn [fst].
    destruct (find_rel_for_ptr_spec relptr xptr Hsorted) as [[_ Hno]|(rel' & Hk' & Hp')].
    { exfalso. exact (Hno rel Hin Hptr). }
    rewrite Hk'.
    assert (Hrel' : rel' = rel).
    { assert (Hin' : rel' ∈ relptr)
        by (apply list_elem_of_lookup; eexists; exact Hk').
      apply Hkept in Hin' as (rela' & s' & Hkj).
      pose proof (Huniq _ _ _ _ Hkj ltac:(congruence)) as Hj.
      destruct Hkj as (Hij & Hsj & Hkeepj).
      rewrite Hj in Hij, Hkeepj. rewrite Hi in Hij. injection Hij as <-.
      rewrite Hsy in Hsj. injection Hsj as <-.
      rewrite Hkeep in Hkeepj. injection Hkeepj as <-. reflexivity. }
    subst rel'.
    pose proof (lookup_lt_Some _ _ _ Hk') as Hlt. apply Nat.ltb_lt in Hlt.
    rewrite Hlt. rewrite Hptr, Z.eqb_refl. cbn [andb].
    rewrite Hrt, Hdata. rewrite Hrel. cbn [addend]. unfold get_rela.
    destruct (sh_type =? SHT_REL); cbn [r_addend]; [|reflexivity].
    fold in_place. rewrite Z.add_0_l. reflexivity.
  - intros xptr Hno. unfold do_read_32_relocated. rewrite Hdata.
    destruct (relbuf sec') as [relptr|] eqn:Hbuf; [|reflexivity].
    change (default [] (Some relptr)) with relptr in *.
    cbn [fst].
    destruct (find_rel_for_ptr_spec relptr xptr Hsorted) as [[Hk _]|(rel' & Hk' & Hp')].
    + rewrite Hk. rewrite lookup_ge_None_2 by lia. reflexivity.
    + exfalso.
      assert (Hin' : rel' ∈ relptr)
        by (apply list_elem_of_lookup; eexists; exact Hk').
      apply Hkept in Hin' as (rela' & s' & Hkj).
      exact (Hno _ _ _ _ Hkj Hp').
Qed.

End RelReadFacts.

Lemma read_32_relocated_after_setup_witness :
  exists sec',
    RelSetup.setup_relbuf RelSetup.EM_X86_64 0 [7] example_symdata
      (Some (Reloc.SHT_RELA, example_rela))
      {| Reloc.st_value := 0; Reloc.st_shndx := 0 |} example_info_sec
    = Done sec'
    /\ fst (Reloc.do_read_32_relocated ELFDATA2LSB 8 sec') = 20
    /\ fst (Reloc.do_read_32_relocated ELFDATA2LSB 4 sec') = 0.
Proof.
  eexists. split; [vm_compute; reflexivity|].
  destruct (read_32_relocated_after_setup RelSetup.EM_X86_64 Reloc.SHT_RELA 0 [7]
              example_symdata ELFDATA2LSB example_rela
              {| Reloc.st_value := 0; Reloc.st_shndx := 0 |} example_info_sec _
              eq_refl example_rela_syms
              ltac:(vm_compute; reflexivity)) as [_ Hplain].
  split; [vm_compute; reflexivity|].
  rewrite (Hplain 4); [vm_compute; reflexivity|].
  intros [|[|[|i]]] rela sym' rel (Hi & Hs & Hk); cbn in Hi; try discriminate;
    injection Hi as <-; vm_compute in Hs; injection Hs as <-;
    vm_compute in Hk; try discriminate; injection Hk as <-; discriminate.
Defined.

(** ** The two phases of [edit_strp] *)

Section StrpFacts.

Import Reloc Strings Info Strp.

Variable strent_offset : Strent -> Z.
Variable e : ei_data.
Variable str_offsets_sec : debug_section.
Variable debugedit_stridxentry : Strent.

(** X24. The two phases of [edit_strp] on a [DW_FORM_strp] or
    [DW_FORM_line_strp] reference that lies within its section: phase 0
    leaves the section as it is and makes sure that the offset read there
    has an entry in the pool of the form (the string at that offset, up
    to its NUL, when the offset was new).  Phase 1, for any later state of
    the pools that still has this entry and with the update flag of the
    form set, does not end the process: it stores the new offset of the
    entry, so that the reference reads as that offset afterwards, and
    keeps the size of the section.  Without the flag, or for any other
    form, phase 1 changes nothing. *)
Theorem edit_strp_phases (fl : flags) (form ptr : Z) (dso dso0 : DSO)
    (sec sec0 : debug_section) (cu : CU) :
  form = DW_FORM_strp \/ form = DW_FORM_line_strp ->
  0 <= ptr -> ptr + 4 <= Z.of_nat (length (data sec)) ->
  edit_strp strent_offset e str_offsets_sec debugedit_stridxentry
    fl form ptr 0 false dso sec cu = Done (dso0, sec0) ->
  let line_strp := form =? DW_FORM_line_strp in
  let idx := fst (do_read_32_relocated e ptr sec) in
  sec0 = sec
  /\ (exists entry,
        strent_root (pool line_strp dso0) !! idx = Some entry
        /\ (string_find_new_entry (pool line_strp dso) idx = true ->
            entry = Path.c_str (drop (Z.to_nat idx) (pool_data line_strp dso)))
        /\ forall fl1 handled_strp dso1,
             strent_root (pool line_strp dso1) !! idx = Some entry ->
             (if line_strp then need_line_strp_update fl1
              else need_strp_update fl1) = true ->
             exists sec1,
               edit_strp strent_offset e str_offsets_sec debugedit_stridxentry
                 fl1 form ptr 1 handled_strp dso1 sec cu = Done (dso1, sec1)
               /\ fst (do_read_32_relocated e ptr sec1)
                  = u32 (strent_offset entry)
               /\ length (data sec1) = length (data sec))
  /\ (forall fl1 form1 phase handled_strp dso1,
        phase <> 0 ->
        (form1 <> DW_FORM_strp /\ form1 <> DW_FORM_line_strp)
        \/ (if form1 =? DW_FORM_line_strp then need_line_strp_update fl1
            else need_strp_update fl1) = false ->
        edit_strp strent_offset e str_offsets_sec debugedit_stridxentry
          fl1 form1 ptr phase handled_strp dso1 sec cu = Done (dso1, sec)).
Proof.
  intros Hform H0 H4 Hp0 line_strp idx.
  assert (Hread : do_read_str_form_relocated e str_offsets_sec form ptr sec cu
                  = Done (do_read_32_relocated e ptr sec)).
  { unfold do_read_str_form_relocated.
    destruct Hform as [-> | ->]; reflexivity. }
  unfold edit_strp in Hp0. change (0 =? 0) with true in Hp0.
  cbn [negb] in Hp0. rewrite Hread in Hp0.
  cbn [mbind outcome_bind] in Hp0.
  destruct (do_read_32_relocated e ptr sec) as [idx' last] eqn:Hrd.
  subst idx. cbn [fst].
  fold line_strp in Hp0.
  destruct (record_existing_string_entry_idx line_strp dso idx') as [dso'|]
    eqn:Hrec; [|discriminate].
  cbn [mbind outcome_bind] in Hp0. injection Hp0 as <- <-.
  split; [reflexivity|]. split.
  - assert (Hentry : exists entry,
               strent_root (pool line_strp dso') !! idx' = Some entry
               /\ (string_find_new_entry (pool line_strp dso) idx' = true ->
                   entry = Path.c_str (drop (Z.to_nat idx')
                                         (pool_data line_strp dso)))).
    { unfold record_existing_string_entry_idx in Hrec.
      destruct (string_find_new_entry (pool line_strp dso) idx') eqn:Hnew.
      - destruct (Z.of_nat (length (pool_data line_strp dso)) <=? idx');
          [discriminate|].
        injection Hrec as <-. eexists. rewrite pool_set_pool.
        cbn [set_entry strent_root]. split; [apply lookup_insert_eq|].
        intros _. reflexivity.
      - injection Hrec as <-. unfold string_find_new_entry in Hnew.
        apply bool_decide_eq_false in Hnew.
        destruct (strent_root (pool line_strp dso) !! idx') as [entry|];
          [|congruence].
        exists entry. split; [reflexivity|discriminate]. }
    destruct Hentry as (entry & Hin & Hnew). exists entry.
    split; [exact Hin|]. split; [exact Hnew|].
    intros fl1 hs dso1 Hin1 Hfl. unfold edit_strp.
    change (1 =? 0) with false. cbv iota.
    assert (Hf : (form =? DW_FORM_strp) || (form =? DW_FORM_line_strp) = true)
      by (destruct Hform as [-> | ->]; reflexivity).
    rewrite Hf. fold line_strp. rewrite Hfl. cbn [andb].
    rewrite Hrd.
    change (if line_strp then debug_line_str dso1 else debug_str dso1)
      with (pool line_strp dso1).
    unfold string_find_entry.
    match goal with
    | |- context [match ?x with Some _ => _ | None => _ end] =>
        replace x with (Some entry) by (symmetry; exact Hin1)
    end.
    cbn [mbind outcome_bind]. eexists. split; [reflexivity|].
    pose proof (do_write_32_relocated_read e ptr (strent_offset entry) sec
                  H0 H4) as Hw.
    cbv zeta in Hw. rewrite Hrd in Hw. cbn [snd] in Hw.
    destruct Hw as (Hv & Hl & _). split; [exact Hv|exact Hl].
  - intros fl1 form1 phase hs dso1 Hph Hno. unfold edit_strp.
    destruct (Z.eqb_spec phase 0) as [|_]; [contradiction|].
    destruct Hno as [[Hs Hl]|Hfl].
    + apply Z.eqb_neq in Hs, Hl. rewrite Hs, Hl. reflexivity.
    + rewrite Hfl, andb_false_r. reflexivity.
Qed.

End StrpFacts.

Lemma edit_strp_phases_witness :
  let edit_strp :=
    Strp.edit_strp (fun s => Z.of_nat (length s)) ELFDATA2LSB
      example_strp_sec [] in
  exists dso0 sec1,
    edit_strp no_flags Info.DW_FORM_strp 0 0 false pool_ex example_strp_sec
      example_cu = Done (dso0, example_strp_sec)
    /\ Strings.strent_root (Strings.debug_str dso0) !! 2
       = Some [47; 97; 47; 47; 98]
    /\ edit_strp (set_need_strp_update no_flags) Info.DW_FORM_strp 0 1 false
         dso0 example_strp_sec example_cu = Done (dso0, sec1)
    /\ fst (Reloc.do_read_32_relocated ELFDATA2LSB 0 sec1) = 5.
Proof.
  intros edit_strp.
  destruct (edit_strp no_flags Info.DW_FORM_strp 0 0 false pool_ex
              example_strp_sec example_cu) as [[dso0 sec0]|] eqn:Hp0;
    [|vm_compute in Hp0; discriminate].
  destruct (edit_strp_phases (fun s => Z.of_nat (length s)) ELFDATA2LSB
              example_strp_sec [] no_flags Info.DW_FORM_strp 0 pool_ex dso0
              example_strp_sec sec0 example_cu
              (or_introl eq_refl) ltac:(lia) ltac:(vm_compute; discriminate)
              Hp0)
    as (-> & (entry & Hin & Hnew & Hp1) & _).
  specialize (Hnew eq_refl). vm_compute in Hnew. subst entry.
  destruct (Hp1 (set_need_strp_update no_flags) false dso0 Hin eq_refl)
    as (sec1 & Hrun & Hval & _).
  exists dso0, sec1. split; [reflexivity|]. split; [exact Hin|].
  split; [exact Hrun|exact Hval].
Defined.

(** ** What is written to the list file *)

Section ListingFacts.

Import Codec Path Lines.

Variable cfg : config.

Lemma skip_dir_prefix_relative s dir p :
  0 ∉ s -> skip_dir_prefix s dir = Some p ->
  c_str p = p /\ (0 ∉ p) /\ peek p 0 <> SLASH.
Proof.
  intros Hs H. apply skip_dir_prefix_Some in H as (k & _ & _ & Hp & Hnf);
    [|exact Hs].
  split; [apply c_str_nul_free; exact Hnf|]. split; assumption.
Qed.

Lemma list_source_spec s :
  0 ∉ s ->
  exists names,
    list_source cfg s = listed names
    /\ Forall (relative_name cfg) names
    /\ (list_file cfg = false -> names = []).
Proof.
  intros Hs. unfold list_source.
  destruct (list_file cfg) eqn:Hl.
  2:{ exists []. split; [reflexivity|]. split; [constructor|reflexivity]. }
  assert (Hone : forall p,
             0 ∉ p -> (is_Some (base_dir cfg) -> peek p 0 <> SLASH) ->
             exists names,
               c_str p ++ [0] = listed names
               /\ Forall (relative_name cfg) names
               /\ (true = false -> names = [])).
  { intros p Hp Hrel. exists [p]. unfold listed. cbn [map concat].
    rewrite app_nil_r, (c_str_nul_free p Hp).
    split; [reflexivity|]. split; [|discriminate].
    constructor; [split; assumption|constructor]. }
  assert (Hnone : exists names : list (list Z),
             [] = listed names
             /\ Forall (relative_name cfg) names
             /\ (true = false -> names = [])).
  { exists []. split; [reflexivity|]. split; [constructor|discriminate]. }
  destruct (base_dir cfg) as [base|] eqn:Hb.
  2:{ apply Hone; [exact Hs|]. intros [x Hx]. discriminate. }
  destruct (skip_dir_prefix s base) as [p|] eqn:Hp.
  { apply skip_dir_prefix_relative in Hp as (_ & Hnf & Hrel); [|exact Hs].
    destruct (dest_dir cfg); apply Hone; auto. }
  destruct (dest_dir cfg) as [dest|]; [|exact Hnone].
  destruct (skip_dir_prefix s dest) as [p|] eqn:Hp'; [|exact Hnone].
  apply skip_dir_prefix_relative in Hp' as (_ & Hnf & Hrel); [|exact Hs].
  apply Hone; auto.
Qed.

Lemma size_files_listing data comp_dir dirt : forall n t ptr listing r,
  (length data - ptr = n)%nat ->
  size_files cfg data comp_dir dirt t ptr listing = Done r ->
  exists names,
    snd r = listing ++ listed names
    /\ Forall (relative_name cfg) names
    /\ (list_file cfg = false -> names = []).
Proof.
  intros n. induction n as [n IH] using lt_wf_ind.
  intros t ptr listing r Hn H. rewrite size_files_eq in H.
  assert (Hnil : exists names : list (list Z),
             listing = listing ++ listed names
             /\ Forall (relative_name cfg) names
             /\ (list_file cfg = false -> names = [])).
  { exists []. unfold listed. cbn [map concat]. rewrite app_nil_r.
    split; [reflexivity|]. split; [constructor|reflexivity]. }
  destruct (negb (peek (cursor data ptr) 0 =? 0)) eqn:Hc.
  2:{ injection H as <-. exact Hnil. }
  cbv zeta in H.
  assert (Hlt : (ptr < length data)%nat).
  { unfold peek, cursor in Hc.
    destruct (drop ptr data !! 0%nat) eqn:Hl; [|discriminate].
    apply lookup_lt_Some in Hl. rewrite length_drop in Hl. lia. }
  set (file := cursor data ptr) in *.
  set (ptr1 := (ptr + strlen file + 1)%nat) in *.
  destruct (read_uleb128 (cursor data ptr1)) as [value p1].
  destruct (dirt !! Z.to_nat value) as [dir|].
  2:{ injection H as <-. exact Hnil. }
  destruct (canonicalize_path_at (source_path comp_dir dir file ++ [0]) 0 0)
    as [m|]; [|discriminate].
  destruct (read_uleb128 p1) as [v2 p2]. destruct (read_uleb128 p2) as [v3 p3].
  destruct (list_source_spec (string_at m 0)) as (names1 & Hl1 & Hf1 & He1).
  { apply c_str_is_nul_free. }
  match type of H with
  | size_files _ _ _ _ ?t1 ?p ?l = _ =>
      pose proof (IH (length data - p)%nat ltac:(subst ptr1; lia) t1 p l r
                    eq_refl H) as H'
  end.
  destruct H' as (names2 & Hl2 & Hf2 & He2).
  exists (names1 ++ names2). rewrite Hl2, Hl1. unfold listed.
  rewrite map_app, concat_app, app_assoc.
  split; [reflexivity|]. split; [apply Forall_app; split; assumption|].
  intros Hoff. rewrite (He1 Hoff), (He2 Hoff). reflexivity.
Qed.

(** X25. What [read_dwarf4_line] writes to the list file: it only adds
    to what the file holds, and what it adds is a sequence of names, each
    followed by a NUL and without a NUL inside; when [base_dir] is given,
    no name starts with a separator (a name is what follows [base_dir],
    or [dest_dir], and the separators behind it in a canonical source
    path); without a list file nothing is added.  This holds also when
    the walk ends on a wrong directory index. *)
Theorem read_dwarf4_line_listing (data : list Z) (ptr : nat)
    (comp_dir : option (list Z)) (t t' : line_table)
    (listing listing' : list Z) (ok : bool) :
  read_dwarf4_line cfg data ptr comp_dir t listing = Done (ok, t', listing') ->
  exists names,
    listing' = listing ++ listed names
    /\ Forall (relative_name cfg) names
    /\ (list_file cfg = false -> names = []).
Proof.
  intros H. unfold read_dwarf4_line in H.
  destruct (size_dirs cfg data t ptr) as [t1 p1].
  destruct (collect_dirs data ptr [[DOT]]) as [dirt p2].
  apply (size_files_listing data comp_dir dirt _ _ _ _ _ eq_refl) in H.
  exact H.
Qed.

End ListingFacts.

Lemma read_dwarf4_line_listing_witness :
  match Lines.read_header ELFDATA2LSB example_cu example_debug_line 0 with
  | Done (Lines.Fresh t0) =>
      match Lines.read_dwarf4_line example_cfg_list example_debug_line
              (Z.to_nat (0 + Lines.header_size t0)) None t0 [9] with
      | Done (_, _, listing') =>
          listing' = [9] ++ bytes_of_string "d/a.c" ++ [0]
          /\ exists names,
               listing' = [9] ++ listed names
               /\ Forall (relative_name example_cfg_list) names
               /\ (list_file example_cfg_list = false -> names = [])
      | Exit _ => False
      end
  | _ => False
  end.
Proof.
  destruct (Lines.read_header ELFDATA2LSB example_cu example_debug_line 0)
    as [[k|t0|msg]|msg] eqn:H0; try (vm_compute in H0; discriminate).
  destruct (Lines.read_dwarf4_line example_cfg_list example_debug_line
              (Z.to_nat (0 + Lines.header_size t0)) None t0 [9])
    as [[[ok t] l]|msg] eqn:H1;
    try (vm_compute in H0; injection H0 as <-; vm_compute in H1; discriminate).
  split.
  - vm_compute in H0. injection H0 as <-. vm_compute in H1.
    injection H1 as _ _ <-. reflexivity.
  - exact (read_dwarf4_line_listing example_cfg_list example_debug_line _ None
             t0 t [9] l ok H1).
Defined.

(** ** The unit headers of [edit_info] *)

Section CUHeaderFacts.

Import Reloc CUHeader.

(** X26. The checks [edit_info] makes on the header of a unit before it
    reads the abbreviations: a unit that starts in the last 22 bytes of
    the section is refused, whatever it holds.  For a header that is
    accepted, the unit ends within the section and behind its length
    field, the length is not the 64-bit escape 0xffffffff, the version is
    2, 3, 4 or 5, the pointer size is 4 or 8, the abbreviation offset
    lies within [.debug_abbrev], and the cursor stands 11 to 24 bytes
    behind the start of the unit, within the section. *)
Theorem edit_info_header_checks (e : ei_data) (is_debug_info : bool)
    (abbrev_size : Z) (abbrev_data : bool) (sec : debug_section)
    (cu_start : Z) :
  0 <= cu_start ->
  let endsec := Z.of_nat (length (data sec)) in
  let r := edit_info_header e is_debug_info abbrev_size abbrev_data sec
             cu_start in
  (endsec < cu_start + 23 -> exists msg, r = Bad msg)
  /\ (forall h, r = Header h ->
        let unit_length := do_read_32 e (drop (Z.to_nat cu_start) (data sec)) in
        endcu h = cu_start + 4 + unit_length
        /\ unit_length <> 0xffffffff
        /\ cu_start + 4 <= endcu h <= endsec
        /\ 2 <= cu_version h <= 5
        /\ (cu_ptr_size h = 4 \/ cu_ptr_size h = 8)
        /\ value h < abbrev_size
        /\ cu_start + 11 <= ptr h <= cu_start + 24
        /\ ptr h <= endsec).
Proof.
  intros H0 endsec r. subst r. unfold edit_info_header. fold endsec.
  set (ul := do_read_32 e (drop (Z.to_nat cu_start) (data sec))).
  assert (Hul : 0 <= ul < 4294967296) by apply do_read_32_range.
  destruct (Z.gtb_spec (cu_start + 4 + 2 + 1 + 1) endsec) as [|H8].
  { split; [eauto|discriminate]. }
  destruct (Z.eqb_spec (cu_start + 4 + ul) (cu_start + 4 + 4294967295))
    as [|Hne].
  { split; [eauto|discriminate]. }
  destruct (Z.gtb_spec (cu_start + 4 + ul) endsec) as [|Hfit].
  { split; [eauto|discriminate]. }
  set (v := do_read_16 e (drop (Z.to_nat (cu_start + 4)) (data sec))).
  destruct (Z.eqb_spec v 2) as [Hv|Hv2]; cbn [negb andb];
    [|destruct (Z.eqb_spec v 3) as [Hv|Hv3]; cbn [negb andb];
      [|destruct (Z.eqb_spec v 4) as [Hv|Hv4]; cbn [negb andb];
        [|destruct (Z.eqb_spec v 5) as [Hv|Hv5]; cbn [negb andb];
          [|split; [eauto|discriminate]]]]].
  all: assert (Hver : 2 <= v <= 5) by lia.
  all: destruct (Z.leb_spec 5 v) as [H5|H5];
    destruct (Z.ltb_spec v 5) as [H5'|H5']; try lia; cbn [andb].
  all: match goal with
       | |- context [Path.peek ?p 0 =? DW_UT_compile] =>
           destruct (Path.peek p 0 =? DW_UT_compile);
           destruct (Path.peek p 0 =? DW_UT_partial);
           destruct (Path.peek p 0 =? DW_UT_type); cbn [negb andb]
       | _ => change (DW_UT_compile =? DW_UT_type) with false; cbn [negb]
       end.
  all: try (split; [eauto|discriminate]).
  all: match goal with
       | |- context [if ?a >? ?b then _ else _] =>
           destruct (Z.gtb_spec a b) as [|Hend]
       end; try (split; [eauto|discriminate]).
  all: match goal with
       | |- context [?x >=? ?y] =>
           destruct (Z.geb_spec x y) as [|Hab]
       end; try (match goal with |- context [if negb ?b then _ else _] => destruct b end;
            cbn [negb]; (split; [eauto|discriminate])).
  all: match goal with
       | |- context [negb (?c =? 4) && negb (?c =? 8)] =>
           destruct (Z.eqb_spec c 4) as [Hp|Hp4]; cbn [negb andb];
           [|destruct (Z.eqb_spec c 8) as [Hp|Hp8]; cbn [negb andb];
             [|split; [eauto|discriminate]]]
       end.
  all: (split; [intros Hs; exfalso; lia|]).
  all: intros h Hh; injection Hh as <-; cbn [cu_version unit_type cu_ptr_size
                                               value endcu ptr]; cbv zeta.
  all: match goal with |- context [negb ?b || _] => destruct b end;
    cbn [negb orb].
  all: repeat split; try lia; auto.
Qed.

End CUHeaderFacts.

Lemma edit_info_header_checks_witness :
  exists h,
    CUHeader.edit_info_header ELFDATA2LSB true 1 true example_info_unit 0
    = CUHeader.Header h
    /\ CUHeader.endcu h = 23 /\ CUHeader.cu_version h = 4
    /\ CUHeader.cu_ptr_size h = 8 /\ CUHeader.ptr h = 11
    /\ CUHeader.value h < 1.
Proof.
  destruct (CUHeader.edit_info_header ELFDATA2LSB true 1 true
              example_info_unit 0) as [h|msg] eqn:Hh;
    [|vm_compute in Hh; discriminate].
  destruct (proj2 (edit_info_header_checks ELFDATA2LSB true 1 true
                     example_info_unit 0 ltac:(lia)) h Hh)
    as (_ & _ & _ & _ & _ & Hval & _).
  exists h. split; [reflexivity|].
  assert (Hrest : CUHeader.endcu h = 23 /\ CUHeader.cu_version h = 4
                  /\ CUHeader.cu_ptr_size h = 8 /\ CUHeader.ptr h = 11).
  { vm_compute in Hh. injection Hh as <-. repeat split; reflexivity. }
  destruct Hrest as (He & Hv & Hp & Hc).
  repeat split; assumption.
Defined.
